(** * DOMKit: element handles over the browser document tree

    A shallow embedding of the two handle classes of DOMKit
    ([TagLegacy] of [src/lib/DOMKit.js] and the current [Tag] of
    [src/unnamed/part_000]) over a model of the part of the platform
    they call: the DOM tree (nodes, attributes, insertion and removal),
    JavaScript objects and arrays with reference identity, exceptions,
    and the two free identifiers the source resolves in the global scope.

    The platform is not part of the repository.  Its operations are
    modelled after the WHATWG DOM Standard and ECMA-262, for HTML elements
    of an HTML document:
    - a string is a sequence of bytes; case mapping acts on the ASCII
      letters, which is what [createElement], [setAttribute] and [tagName]
      do, and what [String.prototype.toLowerCase] does on ASCII strings
      only: what is proved of [toLowerCase] is proved of strings that are
      [only_ascii];
    - a node reference is an index into the node store; a node is never
      deallocated;
    - a number is an integer, and stands for a Number only when it is a
      safe integer ([safe_integer]): these the platform prints in full
      decimal, as [ToString] does; what is proved of the string of a given
      value is proved of values that are [safe_value]. *)

From Stdlib Require Import String Ascii ZArith Lia List Bool.
From Stdlib Require Import DecimalString.
From stdpp Require Import base option list.
Import ListNotations.
Open Scope string_scope.
Open Scope nat_scope.
Open Scope list_scope.

(** ** Strings *)

Definition is_upper (c : ascii) : bool :=
  let n := nat_of_ascii c in (65 <=? n) && (n <=? 90).

Definition is_lower (c : ascii) : bool :=
  let n := nat_of_ascii c in (97 <=? n) && (n <=? 122).

Definition is_alpha (c : ascii) : bool := is_upper c || is_lower c.

Definition is_digit (c : ascii) : bool :=
  let n := nat_of_ascii c in (48 <=? n) && (n <=? 57).

(** ASCII whitespace: TAB, LF, FF, CR and SPACE. *)
Definition is_whitespace (c : ascii) : bool :=
  let n := nat_of_ascii c in
  (n =? 9) || (n =? 10) || (n =? 12) || (n =? 13) || (n =? 32).

Definition lower_char (c : ascii) : ascii :=
  if is_upper c then ascii_of_nat (nat_of_ascii c + 32) else c.

Definition upper_char (c : ascii) : ascii :=
  if is_lower c then ascii_of_nat (nat_of_ascii c - 32) else c.

Fixpoint map_string (f : ascii -> ascii) (s : string) : string :=
  match s with
  | EmptyString => EmptyString
  | String c s' => String (f c) (map_string f s')
  end.

Fixpoint forall_string (p : ascii -> bool) (s : string) : bool :=
  match s with
  | EmptyString => true
  | String c s' => p c && forall_string p s'
  end.

Definition ascii_lowercase : string -> string := map_string lower_char.
Definition ascii_uppercase : string -> string := map_string upper_char.

(** [String.prototype.toLowerCase] on a string that is [only_ascii]: the
    ASCII letters are lowered.  The platform lowers letters outside ASCII
    too, which the model does not follow: a theorem that gives the result
    of [toLowerCase] for a name assumes the name [only_ascii]. *)
Definition toLowerCase : string -> string := map_string lower_char.

(** The string has no upper-case ASCII letter. *)
Definition lowercased (s : string) : bool :=
  forall_string (fun c => negb (is_upper c)) s.

(** Every byte of the string is an ASCII character. *)
Definition only_ascii (s : string) : bool :=
  forall_string (fun c => nat_of_ascii c <? 128) s.

(** Characters no element or attribute name may contain after its first one:
    ASCII whitespace, NUL, [/] and [>]. *)
Definition name_stop (c : ascii) : bool :=
  let n := nat_of_ascii c in
  is_whitespace c || (n =? 0) || (n =? 47) || (n =? 62).

Definition name_start_other (c : ascii) : bool :=
  let n := nat_of_ascii c in (n =? 58) || (n =? 95) || (128 <=? n).

Definition name_char_other (c : ascii) : bool :=
  let n := nat_of_ascii c in
  is_alpha c || is_digit c || (n =? 45) || (n =? 46) || (n =? 58) || (n =? 95)
  || (128 <=? n).

(** DOM Standard, "valid element local name". *)
Definition valid_element_local_name (s : string) : bool :=
  match s with
  | EmptyString => false
  | String c s' =>
      if is_alpha c then forall_string (fun x => negb (name_stop x)) s'
      else name_start_other c && forall_string name_char_other s'
  end.

(** DOM Standard, "valid attribute local name": not empty, and without ASCII
    whitespace, NUL, [/], [=] and [>]. *)
Definition valid_attribute_local_name (s : string) : bool :=
  match s with
  | EmptyString => false
  | _ => forall_string (fun x => negb (name_stop x || (nat_of_ascii x =? 61))) s
  end.

(** ** Exceptions and outcomes *)

Inductive exn :=
| TypeError
| ReferenceError
| HierarchyRequestError
| InvalidCharacterError.

Inductive outcome (A : Type) :=
| Ok (a : A)
| Throw (e : exn).
Arguments Ok {A} a.
Arguments Throw {A} e.

(** ** The document tree *)

(** A node reference. *)
Abbreviation node := nat (only parsing).

Inductive nodeKind :=
| Document
| DocumentFragment
| Element (localName : string)
| Text (data : string).

(** A node of the store.  [attrs] is the attribute list of an element, in
    the order of [Element.attributes]; [childNodes] are the children in
    document order. *)
Record Node := mkNode {
  kind : nodeKind;
  attrs : list (string * string);
  parentNode : option node;
  childNodes : list node
}.

(** The platform state: the node store, [document] and [document.body]. *)
Record dom := mkDom {
  nodes : list Node;
  document : node;
  body : node
}.

Definition set_nodes (ns : list Node) (d : dom) : dom :=
  {| nodes := ns; document := document d; body := body d |}.

Definition set_attrs (a : list (string * string)) (r : Node) : Node :=
  {| kind := kind r; attrs := a; parentNode := parentNode r;
     childNodes := childNodes r |}.

Definition set_parentNode (p : option node) (r : Node) : Node :=
  {| kind := kind r; attrs := attrs r; parentNode := p;
     childNodes := childNodes r |}.

Definition set_childNodes (c : list node) (r : Node) : Node :=
  {| kind := kind r; attrs := attrs r; parentNode := parentNode r;
     childNodes := c |}.

Definition node_kind (ns : list Node) (n : node) : option nodeKind :=
  match ns !! n with Some r => Some (kind r) | None => None end.

Definition is_element (ns : list Node) (n : node) : bool :=
  match node_kind ns n with Some (Element _) => true | _ => false end.

Definition is_text (ns : list Node) (n : node) : bool :=
  match node_kind ns n with Some (Text _) => true | _ => false end.

(** [node.parentNode] *)
Definition parent_of (ns : list Node) (n : node) : option node :=
  match ns !! n with Some r => parentNode r | None => None end.

(** [node.childNodes] *)
Definition children_of (ns : list Node) (n : node) : list node :=
  match ns !! n with Some r => childNodes r | None => [] end.

(** [node.children]: the element children. *)
Definition element_children (ns : list Node) (n : node) : list node :=
  List.filter (is_element ns) (children_of ns n).

(** [node.parentElement]: the parent when it is an element. *)
Definition parentElement (ns : list Node) (n : node) : option node :=
  match parent_of ns n with
  | Some p => if is_element ns p then Some p else None
  | None => None
  end.

Definition attrs_of (ns : list Node) (n : node) : list (string * string) :=
  match ns !! n with Some r => attrs r | None => [] end.

(** [element.tagName]: the qualified name in ASCII upper case. *)
Definition tagName (ns : list Node) (n : node) : option string :=
  match node_kind ns n with
  | Some (Element l) => Some (ascii_uppercase l)
  | _ => None
  end.

(** *** Attribute lists *)

Fixpoint get_attr (name : string) (l : list (string * string)) : option string :=
  match l with
  | [] => None
  | (k, v) :: l' => if String.eqb k name then Some v else get_attr name l'
  end.

(** Change the first attribute of that name, or append a new one. *)
Fixpoint set_attr (name value : string) (l : list (string * string))
  : list (string * string) :=
  match l with
  | [] => [(name, value)]
  | (k, v) :: l' =>
      if String.eqb k name then (k, value) :: l'
      else (k, v) :: set_attr name value l'
  end.

(** Remove the first attribute of that name. *)
Fixpoint remove_attr (name : string) (l : list (string * string))
  : list (string * string) :=
  match l with
  | [] => []
  | (k, v) :: l' =>
      if String.eqb k name then l' else (k, v) :: remove_attr name l'
  end.

(** *** Creation *)

Definition fresh (d : dom) : node := length (nodes d).

Definition alloc_node (r : Node) (d : dom) : dom :=
  set_nodes (nodes d ++ [r]) d.

(** [document.createElement(localName)] *)
Definition createElement (localName : string) (d : dom) : outcome node * dom :=
  if valid_element_local_name localName then
    (Ok (fresh d),
     alloc_node (mkNode (Element (ascii_lowercase localName)) [] None []) d)
  else (Throw InvalidCharacterError, d).

(** [document.createTextNode(data)] *)
Definition createTextNode (data : string) (d : dom) : node * dom :=
  (fresh d, alloc_node (mkNode (Text data) [] None []) d).

(** [document.createDocumentFragment()] *)
Definition createDocumentFragment (d : dom) : node * dom :=
  (fresh d, alloc_node (mkNode DocumentFragment [] None []) d).

(** *** Attributes of an element *)

(** [element.setAttribute(qualifiedName, value)] *)
Definition setAttribute (n : node) (qualifiedName value : string) (d : dom)
  : outcome unit * dom :=
  if is_element (nodes d) n then
    if valid_attribute_local_name qualifiedName then
      (Ok tt,
       set_nodes
         (alter (fun r => set_attrs
                   (set_attr (ascii_lowercase qualifiedName) value (attrs r)) r)
                n (nodes d)) d)
    else (Throw InvalidCharacterError, d)
  else (Throw TypeError, d).

(** [element.getAttribute(qualifiedName)]; [None] is [null]. *)
Definition getAttribute (ns : list Node) (n : node) (qualifiedName : string)
  : option string :=
  get_attr (ascii_lowercase qualifiedName) (attrs_of ns n).

(** [element.removeAttribute(qualifiedName)] *)
Definition removeAttribute (n : node) (qualifiedName : string) (d : dom) : dom :=
  set_nodes
    (alter (fun r => set_attrs
              (remove_attr (ascii_lowercase qualifiedName) (attrs r)) r)
           n (nodes d)) d.

(** *** Insertion and removal *)

(** [a] is an inclusive ancestor of [n]: [n] itself, or found by following
    parent references from [n].  The store has [length ns] nodes, so a chain
    of a tree is exhausted within that many steps. *)
Fixpoint inclusive_ancestor_in (fuel : nat) (ns : list Node) (a n : node) : bool :=
  (a =? n)%nat ||
  match fuel with
  | O => false
  | S f =>
      match parent_of ns n with
      | Some p => inclusive_ancestor_in f ns a p
      | None => false
      end
  end.

Definition inclusive_ancestor (ns : list Node) (a n : node) : bool :=
  inclusive_ancestor_in (length ns) ns a n.

Definition has_element_child (ns : list Node) (n : node) : bool :=
  existsb (is_element ns) (children_of ns n).

(** DOM Standard, "ensure pre-insertion validity" of [n] into [p] before
    null; [None] when the insertion is allowed. *)
Definition pre_insertion_error (ns : list Node) (p n : node) : option exn :=
  match node_kind ns p, node_kind ns n with
  | Some pk, Some nk =>
      match pk with
      | Text _ => Some HierarchyRequestError
      | _ =>
          if inclusive_ancestor ns n p then Some HierarchyRequestError
          else
            match nk, pk with
            | Document, _ => Some HierarchyRequestError
            | Text _, Document => Some HierarchyRequestError
            | DocumentFragment, Document =>
                let cs := children_of ns n in
                if (1 <? length (List.filter (is_element ns) cs))%nat
                   || existsb (is_text ns) cs
                then Some HierarchyRequestError
                else if has_element_child ns n && has_element_child ns p
                then Some HierarchyRequestError
                else None
            | Element _, Document =>
                if has_element_child ns p then Some HierarchyRequestError
                else None
            | _, _ => None
            end
      end
  | _, _ => Some TypeError
  end.

(** Remove [n] from the child list of its parent, if it has one. *)
Definition detach (n : node) (ns : list Node) : list Node :=
  match parent_of ns n with
  | Some p =>
      alter (set_parentNode None) n
        (alter (fun r => set_childNodes
                  (List.filter (fun c => negb (c =? n)%nat) (childNodes r)) r)
               p ns)
  | None => ns
  end.

(** Make [n] the last child of [p]. *)
Definition attach (p n : node) (ns : list Node) : list Node :=
  alter (set_parentNode (Some p)) n
    (alter (fun r => set_childNodes (childNodes r ++ [n]) r) p ns).

Definition move (p n : node) (ns : list Node) : list Node :=
  attach p n (detach n ns).

(** DOM Standard, "insert" before null: a document fragment gives its
    children, in order, and is left empty; any other node is moved. *)
Definition insert_last (p n : node) (ns : list Node) : list Node :=
  match node_kind ns n with
  | Some DocumentFragment =>
      fold_left (fun acc c => move p c acc) (children_of ns n) ns
  | _ => move p n ns
  end.

(** [parent.appendChild(node)] on node references. *)
Definition appendChild_node (p n : node) (d : dom) : outcome node * dom :=
  match pre_insertion_error (nodes d) p n with
  | Some e => (Throw e, d)
  | None => (Ok n, set_nodes (insert_last p n (nodes d)) d)
  end.

(** [node.remove()] *)
Definition remove_node (n : node) (d : dom) : dom :=
  set_nodes (detach n (nodes d)) d.

(** [node.firstChild]; [None] is [null]. *)
Definition firstChild (ns : list Node) (n : node) : option node :=
  head (children_of ns n).

(** [element.attributes.setNamedItem(attr)] for an attribute that no element
    owns, such as a clone: the attribute of that name is replaced, or [attr]
    is appended. *)
Definition setNamedItem (n : node) (attr : string * string) (d : dom)
  : outcome unit * dom :=
  if is_element (nodes d) n then
    (Ok tt,
     set_nodes
       (alter (fun r => set_attrs (set_attr (fst attr) (snd attr) (attrs r)) r)
              n (nodes d)) d)
  else (Throw TypeError, d).

(** The children of a parent after [old] among them is replaced by the nodes
    [ins]: they take the place of [old], and leave the places they had. *)
Definition replace_in (old : node) (ins : list node) (l : list node)
  : list node :=
  flat_map (fun c => if (c =? old)%nat then ins
                     else if existsb (Nat.eqb c) ins then [] else [c]) l.

(** DOM Standard, "replace" [old] with [new] within [p], for an element [p]
    that is the parent of [old], as in
    [old.parentElement.replaceChild(new, old)]: of the checks, those on
    [new] remain.  A document fragment gives its children in place of
    [old]. *)
Definition replaceChild_node (p new old : node) (d : dom) : outcome node * dom :=
  let ns := nodes d in
  match node_kind ns new with
  | None => (Throw TypeError, d)
  | Some Document => (Throw HierarchyRequestError, d)
  | Some nk =>
      if inclusive_ancestor ns new p then (Throw HierarchyRequestError, d)
      else
        let ins := match nk with
                   | DocumentFragment => children_of ns new
                   | _ => [new]
                   end in
        let l := replace_in old ins (children_of ns p) in
        let ns1 := fold_left (fun acc c => detach c acc) ins ns in
        let ns2 := alter (set_childNodes l) p ns1 in
        let ns3 := alter (set_parentNode None) old ns2 in
        (Ok old,
         set_nodes
           (fold_left (fun acc c => alter (set_parentNode (Some p)) c acc)
              ins ns3) d)
  end.

(** *** Lookup by ID *)

(** The descendants of [n] in tree order. *)
Fixpoint descendants_in (fuel : nat) (ns : list Node) (n : node) : list node :=
  match fuel with
  | O => []
  | S f => flat_map (fun c => c :: descendants_in f ns c) (children_of ns n)
  end.

Definition has_id (ns : list Node) (id : string) (n : node) : bool :=
  is_element ns n &&
  match get_attr "id" (attrs_of ns n) with
  | Some v => String.eqb v id && negb (String.eqb id EmptyString)
  | None => false
  end.

(** [document.getElementById(id)]; [None] is [null]. *)
Definition getElementById (id : string) (d : dom) : option node :=
  List.find (has_id (nodes d) id)
    (descendants_in (length (nodes d)) (nodes d) (document d)).

(** ** JavaScript values *)

(** A reference to an object of the heap. *)
Abbreviation loc := nat (only parsing).

Inductive prim :=
| PUndefined
| PNull
| PBool (b : bool)
| PNum (z : Z)
| PStr (s : string).

(** A value of a position that holds a node: a node reference or a
    primitive ([null] and [undefined] among them). *)
Inductive nodeval :=
| NPrim (p : prim)
| NRef (n : node).

(** A value of a position that holds an attribute mapping: a reference to a
    plain object or a primitive. *)
Inductive objval :=
| OPrim (p : prim)
| ORef (l : loc).

(** Any value; the source only tests such a value for truth, type and
    identity, or calls a DOM method on it. *)
Inductive jsval :=
| VPrim (p : prim)
| VNode (n : node)
| VObject (l : loc)
| VArray (l : loc)
| VTagLegacy (l : loc)
| VTag (l : loc).

Definition of_nodeval (v : nodeval) : jsval :=
  match v with NPrim p => VPrim p | NRef n => VNode n end.

Definition of_objval (v : objval) : jsval :=
  match v with OPrim p => VPrim p | ORef l => VObject l end.

(** Truthiness, the [!v] of the source negated. *)
Definition truthy_prim (p : prim) : bool :=
  match p with
  | PUndefined | PNull => false
  | PBool b => b
  | PNum z => negb (z =? 0)%Z
  | PStr s => negb (String.eqb s EmptyString)
  end.

Definition truthy (v : jsval) : bool :=
  match v with VPrim p => truthy_prim p | _ => true end.

Definition truthy_nodeval (v : nodeval) : bool := truthy (of_nodeval v).
Definition truthy_objval (v : objval) : bool := truthy (of_objval v).

(** The [typeof] operator. *)
Definition typeof_prim (p : prim) : string :=
  match p with
  | PUndefined => "undefined"
  | PNull => "object"
  | PBool _ => "boolean"
  | PNum _ => "number"
  | PStr _ => "string"
  end.

Definition typeof (v : jsval) : string :=
  match v with VPrim p => typeof_prim p | _ => "object" end.

(** Strict equality [===]. *)
Definition prim_eqb (p q : prim) : bool :=
  match p, q with
  | PUndefined, PUndefined => true
  | PNull, PNull => true
  | PBool a, PBool b => Bool.eqb a b
  | PNum a, PNum b => (a =? b)%Z
  | PStr a, PStr b => String.eqb a b
  | _, _ => false
  end.

Definition strict_eq (v u : jsval) : bool :=
  match v, u with
  | VPrim p, VPrim q => prim_eqb p q
  | VNode a, VNode b => (a =? b)%nat
  | VObject a, VObject b => (a =? b)%nat
  | VArray a, VArray b => (a =? b)%nat
  | VTagLegacy a, VTagLegacy b => (a =? b)%nat
  | VTag a, VTag b => (a =? b)%nat
  | _, _ => false
  end.

(** The integers that are Number values with all their neighbours: the
    safe integers, below [2^53] in absolute value.  [Number::toString] prints
    them in full decimal; larger Numbers are printed with their shortest
    digits and, from [1e21] on, with an exponent. *)
Definition safe_integer (z : Z) : bool :=
  (Z.abs z <? 9007199254740992)%Z.

(** The primitives [ToString] converts as the platform does. *)
Definition safe_value (p : prim) : bool :=
  match p with
  | PNum z => safe_integer z
  | _ => true
  end.

(** The string conversion of a primitive; of a number, the decimal digits,
    which is the conversion of the platform for a [safe_integer]. *)
Definition ToString (p : prim) : string :=
  match p with
  | PUndefined => "undefined"
  | PNull => "null"
  | PBool true => "true"
  | PBool false => "false"
  | PNum z => NilZero.string_of_int (Z.to_int z)
  | PStr s => s
  end.

(** *** Plain objects

    A plain object is the list of its own enumerable properties in the order
    of [Object.entries]: the array indices in ascending order, then the other
    keys in the order they were added. *)

Abbreviation object := (list (string * prim)) (only parsing).

Definition array_index (k : string) : option N :=
  match NilZero.uint_of_string k with
  | Some u =>
      let i := N.of_uint u in
      if String.eqb (NilZero.string_of_uint (N.to_uint i)) k
         && (i <? 4294967295)%N
      then Some i else None
  | None => None
  end.

Fixpoint own_property (k : string) (o : object) : option prim :=
  match o with
  | [] => None
  | (k', v) :: o' => if String.eqb k' k then Some v else own_property k o'
  end.

Fixpoint replace_property (k : string) (v : prim) (o : object) : object :=
  match o with
  | [] => []
  | (k', v') :: o' =>
      if String.eqb k' k then (k', v) :: o'
      else (k', v') :: replace_property k v o'
  end.

(** A new array-index key goes before the first greater index or the first
    other key. *)
Fixpoint add_index_property (i : N) (k : string) (v : prim) (o : object) : object :=
  match o with
  | [] => [(k, v)]
  | (k', v') :: o' =>
      match array_index k' with
      | Some j =>
          if (j <? i)%N then (k', v') :: add_index_property i k v o'
          else (k, v) :: o
      | None => (k, v) :: o
      end
  end.

(** [o[k] = v] for a primitive [v].  An own property is replaced.  Without
    one, the key [__proto__] finds the setter every plain object inherits
    from [Object.prototype], which adds no own property (and, for a string,
    as the getters of the source assign, changes nothing at all); any other
    key is added. *)
Definition set_property (k : string) (v : prim) (o : object) : object :=
  match own_property k o with
  | Some _ => replace_property k v o
  | None =>
      if String.eqb k "__proto__" then o
      else
        match array_index k with
        | Some i => add_index_property i k v o
        | None => o ++ [(k, v)]
        end
  end.

(** The properties every plain object inherits from [Object.prototype]; each
    holds a function or an object. *)
Definition object_prototype_keys : list string :=
  ["constructor"; "__defineGetter__"; "__defineSetter__"; "hasOwnProperty";
   "__lookupGetter__"; "__lookupSetter__"; "isPrototypeOf";
   "propertyIsEnumerable"; "toString"; "valueOf"; "__proto__";
   "toLocaleString"].

(** The truth of [o[k]]: of the own property when there is one, else whether
    the key is inherited. *)
Definition truthy_property (k : string) (o : object) : bool :=
  match own_property k o with
  | Some v => truthy_prim v
  | None => existsb (String.eqb k) object_prototype_keys
  end.

(** The characters of a string as [Object.entries] lists them. *)
Fixpoint string_entries (i : nat) (s : string) : object :=
  match s with
  | EmptyString => []
  | String c s' =>
      (NilZero.string_of_uint (Nat.to_uint i), PStr (String c EmptyString))
        :: string_entries (S i) s'
  end.

(** *** Arrays

    An array is the list of its slots; [None] is a hole. *)

Abbreviation array := (list (option jsval)) (only parsing).

(** [a[i] = v], which extends the array with holes up to [i]. *)
Definition array_set (i : nat) (v : jsval) (a : array) : array :=
  if i <? length a then <[i := Some v]> a
  else a ++ repeat None (i - length a) ++ [Some v].

(** [a.push(v)] *)
Definition array_push (v : jsval) (a : array) : array := a ++ [Some v].

(** [a.splice(start, 0, v)]: a negative [start] counts from the end, and
    [start] is clamped to the length. *)
Definition array_splice_insert (start : Z) (v : jsval) (a : array) : array :=
  let len := Z.of_nat (length a) in
  let s := if (start <? 0)%Z then Z.max (len + start) 0 else Z.min start len in
  take (Z.to_nat s) a ++ [Some v] ++ drop (Z.to_nat s) a.

(** The values a [for]-[of] loop visits: a hole reads as [undefined]. *)
Definition array_values (a : array) : list jsval :=
  map (fun x => match x with Some v => v | None => VPrim PUndefined end) a.

(** The values [forEach] visits: holes are skipped. *)
Definition array_present (a : array) : list jsval :=
  flat_map (fun x => match x with Some v => [v] | None => [] end) a.

(** ** The handles *)

(** The fields of a [TagLegacy] object. *)
Record TagLegacy_object := mkTagLegacy {
  _type : string;
  _attributes : objval;
  _parent : jsval;
  _children : option loc;
  _tag : nodeval;
  _relatives : option loc
}.

Definition with_type (x : string) (o : TagLegacy_object) :=
  mkTagLegacy x (_attributes o) (_parent o) (_children o) (_tag o) (_relatives o).
Definition with_attributes (x : objval) (o : TagLegacy_object) :=
  mkTagLegacy (_type o) x (_parent o) (_children o) (_tag o) (_relatives o).
Definition with_parent (x : jsval) (o : TagLegacy_object) :=
  mkTagLegacy (_type o) (_attributes o) x (_children o) (_tag o) (_relatives o).
Definition with_children (x : option loc) (o : TagLegacy_object) :=
  mkTagLegacy (_type o) (_attributes o) (_parent o) x (_tag o) (_relatives o).
Definition with_tag (x : nodeval) (o : TagLegacy_object) :=
  mkTagLegacy (_type o) (_attributes o) (_parent o) (_children o) x (_relatives o).
Definition with_relatives (x : option loc) (o : TagLegacy_object) :=
  mkTagLegacy (_type o) (_attributes o) (_parent o) (_children o) (_tag o) x.

(** The fields of a [Tag] object; [stored_name], [stored_parent] and
    [stored_attributes] are the properties of its [stored] object. *)
Record Tag_object := mkTag {
  debug : jsval;
  element : nodeval;
  stored_name : option string;
  stored_parent : jsval;
  stored_attributes : objval
}.

Definition with_debug (x : jsval) (o : Tag_object) :=
  mkTag x (element o) (stored_name o) (stored_parent o) (stored_attributes o).
Definition with_element (x : nodeval) (o : Tag_object) :=
  mkTag (debug o) x (stored_name o) (stored_parent o) (stored_attributes o).
Definition with_stored_parent (x : jsval) (o : Tag_object) :=
  mkTag (debug o) (element o) (stored_name o) x (stored_attributes o).
Definition with_stored_attributes (x : objval) (o : Tag_object) :=
  mkTag (debug o) (element o) (stored_name o) (stored_parent o) x.
Definition with_stored_name (x : option string) (o : Tag_object) :=
  mkTag (debug o) (element o) x (stored_parent o) (stored_attributes o).
(** [this.stored = {}] *)
Definition with_stored_empty (o : Tag_object) :=
  mkTag (debug o) (element o) None (VPrim PUndefined) (OPrim PUndefined).

(** ** The world *)

Inductive console_entry :=
| Log (s : string)
| Warn (s : string)
| Trace.

(** The state a call runs in.  [global_id] is the binding of the identifier
    [id] in the global scope, [None] when it is not declared;
    [global_item] tells whether the identifier [item] is declared there. *)
Record world := mkWorld {
  the_dom : dom;
  objects : list object;
  arrays : list array;
  legacy : list TagLegacy_object;
  tags : list Tag_object;
  console : list console_entry;
  global_id : option jsval;
  global_item : bool
}.

Definition set_dom (d : dom) (w : world) : world :=
  mkWorld d (objects w) (arrays w) (legacy w) (tags w) (console w)
    (global_id w) (global_item w).
Definition set_objects (x : list object) (w : world) : world :=
  mkWorld (the_dom w) x (arrays w) (legacy w) (tags w) (console w)
    (global_id w) (global_item w).
Definition set_arrays (x : list array) (w : world) : world :=
  mkWorld (the_dom w) (objects w) x (legacy w) (tags w) (console w)
    (global_id w) (global_item w).
Definition set_legacy (x : list TagLegacy_object) (w : world) : world :=
  mkWorld (the_dom w) (objects w) (arrays w) x (tags w) (console w)
    (global_id w) (global_item w).
Definition set_tags (x : list Tag_object) (w : world) : world :=
  mkWorld (the_dom w) (objects w) (arrays w) (legacy w) x (console w)
    (global_id w) (global_item w).
Definition set_console (x : list console_entry) (w : world) : world :=
  mkWorld (the_dom w) (objects w) (arrays w) (legacy w) (tags w) x
    (global_id w) (global_item w).

(** ** Computations: state and exceptions *)

Definition M (A : Type) : Type := world -> outcome A * world.

Definition ret {A} (a : A) : M A := fun w => (Ok a, w).

Definition throw {A} (e : exn) : M A := fun w => (Throw e, w).

Definition bind {A B} (m : M A) (k : A -> M B) : M B :=
  fun w =>
    match m w with
    | (Ok a, w') => k a w'
    | (Throw e, w') => (Throw e, w')
    end.

Declare Scope js_scope.
Delimit Scope js_scope with js.
Notation "x <- m ;; k" := (bind m (fun x => k))
  (at level 100, m at next level, right associativity) : js_scope.
Notation "m ;; k" := (bind m (fun _ => k))
  (at level 100, right associativity) : js_scope.
Open Scope js_scope.

(** A loop over a list of values. *)
Fixpoint for_each {A} (l : list A) (body : A -> M unit) : M unit :=
  match l with
  | [] => ret tt
  | x :: l' => body x ;; for_each l' body
  end.

Definition when (b : bool) (m : M unit) : M unit := if b then m else ret tt.

(** *** The platform, called from JavaScript *)

Definition read_dom {A} (f : dom -> A) : M A :=
  fun w => (Ok (f (the_dom w)), w).

Definition run_dom {A} (f : dom -> outcome A * dom) : M A :=
  fun w => let (r, d) := f (the_dom w) in (r, set_dom d w).

Definition document_createElement (localName : string) : M node :=
  run_dom (createElement localName).

Definition document_createTextNode (data : string) : M node :=
  run_dom (fun d => let (n, d') := createTextNode data d in (Ok n, d')).

Definition document_createDocumentFragment : M node :=
  run_dom (fun d => let (n, d') := createDocumentFragment d in (Ok n, d')).

Definition document_body : M node := read_dom body.

Definition console_log (s : string) : M unit :=
  fun w => (Ok tt, set_console (console w ++ [Log s]) w).
Definition console_warn (s : string) : M unit :=
  fun w => (Ok tt, set_console (console w ++ [Warn s]) w).
Definition console_trace : M unit :=
  fun w => (Ok tt, set_console (console w ++ [Trace]) w).

(** The receiver of a property access or a method call on a node: anything
    else has no such property, and reading further raises [TypeError]. *)
Definition as_node (v : jsval) : M node :=
  match v with VNode n => ret n | _ => throw TypeError end.

(** [recv.appendChild(arg)] *)
Definition appendChild (recv arg : jsval) : M node :=
  p <- as_node recv ;;
  n <- as_node arg ;;
  run_dom (appendChild_node p n).

(** The nodes with the [ParentNode] mixin ([append], [children]). *)
Definition is_parent_node (ns : list Node) (n : node) : bool :=
  match node_kind ns n with
  | Some (Text _) | None => false
  | Some _ => true
  end.

(** [recv.append(arg)]: a node is appended, any other value is converted to
    a string and appended as a new text node. *)
Definition append (recv : jsval) (arg : nodeval) : M unit :=
  p <- as_node recv ;;
  mixin <- read_dom (fun d => is_parent_node (nodes d) p) ;;
  if mixin then
    n <- match arg with
         | NRef n => ret n
         | NPrim v => document_createTextNode (ToString v)
         end ;;
    run_dom (appendChild_node p n) ;;
    ret tt
  else throw TypeError.

(** [recv.children] as the list of its members. *)
Definition children (recv : jsval) : M (list node) :=
  p <- as_node recv ;;
  mixin <- read_dom (fun d => is_parent_node (nodes d) p) ;;
  if mixin then read_dom (fun d => element_children (nodes d) p)
  else throw TypeError.

(** [recv.setAttribute(name, value)] *)
Definition element_setAttribute (recv : nodeval) (name : string) (value : prim)
  : M unit :=
  n <- as_node (of_nodeval recv) ;;
  run_dom (setAttribute n name (ToString value)).

(** [recv.removeAttribute(name)] *)
Definition element_removeAttribute (recv : nodeval) (name : string) : M unit :=
  n <- as_node (of_nodeval recv) ;;
  el <- read_dom (fun d => is_element (nodes d) n) ;;
  if el then run_dom (fun d => (Ok tt, removeAttribute n name d))
  else throw TypeError.

(** [recv.attributes] as the list of its members; only an element has it. *)
Definition element_attributes (recv : nodeval) : M (list (string * string)) :=
  n <- as_node (of_nodeval recv) ;;
  el <- read_dom (fun d => is_element (nodes d) n) ;;
  if el then read_dom (fun d => attrs_of (nodes d) n)
  else throw TypeError.

(** [v instanceof HTMLElement] *)
Definition instanceof_HTMLElement (v : jsval) : M bool :=
  match v with
  | VNode n => read_dom (fun d => is_element (nodes d) n)
  | _ => ret false
  end.

(** *** Objects and arrays of the heap *)

Definition new_object : M loc :=
  fun w => (Ok (length (objects w)), set_objects (objects w ++ [[]]) w).

Definition new_array : M loc :=
  fun w => (Ok (length (arrays w)), set_arrays (arrays w ++ [[]]) w).

Definition read_object (l : loc) : M object :=
  fun w => (Ok (default [] (objects w !! l)), w).

Definition update_object (l : loc) (f : object -> object) : M unit :=
  fun w => (Ok tt, set_objects (alter f l (objects w)) w).

Definition read_array (l : loc) : M array :=
  fun w => (Ok (default [] (arrays w !! l)), w).

Definition update_array (l : loc) (f : array -> array) : M unit :=
  fun w => (Ok tt, set_arrays (alter f l (arrays w)) w).

(** [Object.entries(v)] *)
Definition Object_entries (v : objval) : M object :=
  match v with
  | OPrim PUndefined | OPrim PNull => throw TypeError
  | OPrim (PStr s) => ret (string_entries 0 s)
  | OPrim _ => ret []
  | ORef l => read_object l
  end.

(** A [for] loop over the indices of a collection. *)
Definition for_each_indexed {A} (l : list A) (body : nat -> A -> M unit) : M unit :=
  for_each (combine (seq 0 (length l)) l) (fun x => body (fst x) (snd x)).

(** *** Fields of the handles *)

Definition legacy_get {A} (this : loc) (f : TagLegacy_object -> A) : M A :=
  fun w =>
    match legacy w !! this with
    | Some o => (Ok (f o), w)
    | None => (Throw TypeError, w)
    end.

Definition legacy_set (this : loc) (f : TagLegacy_object -> TagLegacy_object)
  : M unit :=
  fun w => (Ok tt, set_legacy (alter f this (legacy w)) w).

Definition new_legacy (o : TagLegacy_object) : M loc :=
  fun w => (Ok (length (legacy w)), set_legacy (legacy w ++ [o]) w).

Definition tag_get {A} (this : loc) (f : Tag_object -> A) : M A :=
  fun w =>
    match tags w !! this with
    | Some o => (Ok (f o), w)
    | None => (Throw TypeError, w)
    end.

Definition tag_set (this : loc) (f : Tag_object -> Tag_object) : M unit :=
  fun w => (Ok tt, set_tags (alter f this (tags w)) w).

Definition new_tag (o : Tag_object) : M loc :=
  fun w => (Ok (length (tags w)), set_tags (tags w ++ [o]) w).

(** [debug || false] *)
Definition or_false (v : jsval) : jsval :=
  if truthy v then v else VPrim (PBool false).

(** Reading a property of a value that holds a node: [null] and [undefined]
    have no properties, and a primitive has none of a node's. *)
Definition node_property {A} (v : nodeval) (present : node -> M A) (absent : M A)
  : M A :=
  match v with
  | NRef n => present n
  | NPrim PUndefined | NPrim PNull => throw TypeError
  | NPrim _ => absent
  end.

(** ** [class Tag], the variant whose constructor takes an element ID
    ([src/lib/DOMKit.js], lines 339-431) *)

Module TagById.

(** [constructor(id, debug)] *)
Definition constructor (id : nodeval) (debug_ : jsval) : M loc :=
  this <- new_tag (mkTag (VPrim PUndefined) (NPrim PUndefined) None
                     (VPrim PUndefined) (OPrim PUndefined)) ;;
  tag_set this (with_debug (or_false debug_)) ;;
  (match id with
   | NPrim (PStr s) =>
       e <- read_dom (getElementById s) ;;
       tag_set this (with_element
                       (match e with Some n => NRef n | None => NPrim PNull end))
   | _ =>
       n <- document_createElement "div" ;;
       tag_set this (with_element (NRef n))
   end) ;;
  tag_set this with_stored_empty ;;
  d <- tag_get this debug ;;
  when (truthy d) (console_log "Created object") ;;
  ret this.

(** [fix()] *)
Definition fix_ (this : loc) : M unit :=
  e <- tag_get this element ;;
  if negb (truthy_nodeval e) then
    name <- tag_get this stored_name ;;
    n <- document_createElement
           (match name with
            | Some s => if String.eqb s EmptyString then "div" else s
            | None => "div"
            end) ;;
    tag_set this (with_element (NRef n)) ;;
    d <- tag_get this debug ;;
    when (truthy d)
      (console_warn "Had to recreate element, some pointers may no longer work")
  else ret tt.

(** [parent instanceof Tag && parent.element !== this.element] *)
Definition other_Tag (this : loc) (parent : jsval) : M bool :=
  match parent with
  | VTag l =>
      pe <- tag_get l element ;;
      e <- tag_get this element ;;
      ret (negb (strict_eq (of_nodeval pe) (of_nodeval e)))
  | _ => ret false
  end.

(** [parent instanceof HTMLElement && parent !== this.element] *)
Definition other_HTMLElement (this : loc) (parent : jsval) : M bool :=
  html <- instanceof_HTMLElement parent ;;
  if html then
    e <- tag_get this element ;;
    ret (negb (strict_eq parent (of_nodeval e)))
  else ret false.

(** [set parent(parent)] *)
Definition set_parent (this : loc) (parent : jsval) : M unit :=
  fix_ this ;;
  c1 <- other_Tag this parent ;;
  if c1 then
    pe <- match parent with
          | VTag l => tag_get l element
          | _ => throw TypeError
          end ;;
    e <- tag_get this element ;;
    appendChild (of_nodeval pe) (of_nodeval e) ;;
    ret tt
  else
    c2 <- other_HTMLElement this parent ;;
    if c2 then
      e <- tag_get this element ;;
      appendChild parent (of_nodeval e) ;;
      ret tt
    else
      d <- tag_get this debug ;;
      when (truthy d) (console_warn "Unexpected input").

(** [setParent(parent)] *)
Definition setParent (this : loc) (parent : jsval) : M loc :=
  set_parent this parent ;;
  ret this.

End TagById.

(** ** [class Tag], the current variant ([src/unnamed/part_000]) *)

Module Tag.

(** The string conversion of a value that is not an [HTMLElement]. *)
Definition ToString_nodeval (v : nodeval) : M string :=
  match v with
  | NPrim p => ret (ToString p)
  | NRef n =>
      k <- read_dom (fun d => node_kind (nodes d) n) ;;
      match k with
      | Some (Text _) => ret "[object Text]"
      | Some DocumentFragment => ret "[object DocumentFragment]"
      | Some Document => ret "[object HTMLDocument]"
      | _ => ret "[object HTMLElement]"
      end
  end.

(** [typeof id], for the identifier [id] of the global scope. *)
Definition typeof_global_id : M string :=
  fun w =>
    (Ok (match global_id w with Some v => typeof v | None => "undefined" end), w).

(** [constructor(element, debug)] *)
Definition constructor (element_ : nodeval) (debug_ : jsval) : M loc :=
  this <- new_tag (mkTag (VPrim PUndefined) (NPrim PUndefined) None
                     (VPrim PUndefined) (OPrim PUndefined)) ;;
  tag_set this (with_debug (or_false debug_)) ;;
  html <- instanceof_HTMLElement (of_nodeval element_) ;;
  (if html then tag_set this (with_element element_)
   else
     ty <- typeof_global_id ;;
     if String.eqb ty "string" then
       s <- ToString_nodeval element_ ;;
       e <- read_dom (getElementById s) ;;
       match e with
       | Some n => tag_set this (with_element (NRef n))
       | None =>
           n <- document_createElement "div" ;;
           tag_set this (with_element (NRef n))
       end
     else
       n <- document_createElement "div" ;;
       tag_set this (with_element (NRef n))) ;;
  tag_set this with_stored_empty ;;
  d <- tag_get this debug ;;
  when (truthy d) (console_log "Created object") ;;
  ret this.

(** [fix()] *)
Definition fix_ (this : loc) : M loc :=
  e <- tag_get this element ;;
  (if negb (truthy_nodeval e) then
     name <- tag_get this stored_name ;;
     n <- document_createElement
            (match name with
             | Some s => if String.eqb s EmptyString then "div" else s
             | None => "div"
             end) ;;
     tag_set this (with_element (NRef n)) ;;
     d <- tag_get this debug ;;
     when (truthy d)
       (console_warn "Had to recreate element, some pointers may no longer work")
   else ret tt) ;;
  ret this.

(** [uxp(item)], called without an argument *)
Definition uxp (this : loc) : M unit :=
  d <- tag_get this debug ;;
  when (truthy d)
    (console_warn "Unexpected input: undefined" ;; console_trace).

(** [get parent()] *)
Definition get_parent (this : loc) : M loc :=
  e <- tag_get this element ;;
  p <- node_property e
         (fun n =>
            q <- read_dom (fun d => parentElement (nodes d) n) ;;
            ret (match q with Some x => NRef x | None => NPrim PNull end))
         (ret (NPrim PUndefined)) ;;
  constructor p (VPrim PUndefined).

(** [parent instanceof Tag && parent.element !== this.element] *)
Definition other_Tag (this : loc) (parent : jsval) : M bool :=
  match parent with
  | VTag l =>
      pe <- tag_get l element ;;
      e <- tag_get this element ;;
      ret (negb (strict_eq (of_nodeval pe) (of_nodeval e)))
  | _ => ret false
  end.

(** [parent instanceof HTMLElement && parent !== this.element] *)
Definition other_HTMLElement (this : loc) (parent : jsval) : M bool :=
  html <- instanceof_HTMLElement parent ;;
  if html then
    e <- tag_get this element ;;
    ret (negb (strict_eq parent (of_nodeval e)))
  else ret false.

(** [set parent(parent)] *)
Definition set_parent (this : loc) (parent : jsval) : M unit :=
  fix_ this ;;
  c1 <- other_Tag this parent ;;
  if c1 then
    pe <- match parent with
          | VTag l => tag_get l element
          | _ => throw TypeError
          end ;;
    e <- tag_get this element ;;
    appendChild (of_nodeval pe) (of_nodeval e) ;;
    tag_set this (with_stored_parent parent)
  else
    c2 <- other_HTMLElement this parent ;;
    if c2 then
      e <- tag_get this element ;;
      appendChild parent (of_nodeval e) ;;
      t <- constructor (match parent with
                        | VNode n => NRef n
                        | _ => NPrim PUndefined
                        end) (VPrim PUndefined) ;;
      tag_set this (with_stored_parent (VTag t))
    else if negb (truthy parent) then
      (* [this.parent.removeChild(this.element)]: the getter builds a [Tag],
         which has no [removeChild] *)
      get_parent this ;;
      throw TypeError
    else uxp this.

(** [get attributes()]: the loop assigns the identifier [item], which no
    scope of the source declares; a class body is strict code, where the
    assignment raises [ReferenceError] unless the global scope has it. *)
Definition get_attributes (this : loc) : M loc :=
  out <- new_object ;;
  e <- tag_get this element ;;
  items <- element_attributes e ;;
  for_each items
    (fun item =>
       declared <- (fun w => (Ok (global_item w), w)) ;;
       if declared then
         update_object out (set_property (fst item) (PStr (snd item)))
       else throw ReferenceError) ;;
  ret out.

(** [set attributes(attributes)] *)
Definition set_attributes (this : loc) (attributes : objval) : M unit :=
  fix_ this ;;
  match attributes with
  | ORef m =>
      current <- get_attributes this ;;
      entries <- Object_entries (ORef current) ;;
      for_each entries
        (fun kv =>
           given <- read_object m ;;
           if negb (truthy_property (fst kv) given) then
             e <- tag_get this element ;;
             element_removeAttribute e (fst kv)
           else ret tt) ;;
      entries' <- Object_entries attributes ;;
      for_each entries'
        (fun kv =>
           e <- tag_get this element ;;
           element_setAttribute e (fst kv) (snd kv)) ;;
      tag_set this (with_stored_attributes attributes)
  | OPrim _ => uxp this
  end.

(** [getParent()] *)
Definition getParent (this : loc) : M loc := get_parent this.

(** [setParent(parent)] *)
Definition setParent (this : loc) (parent : jsval) : M loc :=
  set_parent this parent ;;
  ret this.

(** [getAttributes()] *)
Definition getAttributes (this : loc) : M loc := get_attributes this.

(** [setAttributes(attributes)] *)
Definition setAttributes (this : loc) (attributes : objval) : M loc :=
  set_attributes this attributes ;;
  ret this.

(** [get content()]: a new array with [new Tag(item)] for every child node
    [item]. *)
Definition get_content (this : loc) : M loc :=
  content <- new_array ;;
  e <- tag_get this element ;;
  items <- node_property e
             (fun n => read_dom (fun d => children_of (nodes d) n))
             (throw TypeError) ;;
  for_each items
    (fun item =>
       t <- constructor (NRef item) (VPrim PUndefined) ;;
       update_array content (array_push (VTag t))) ;;
  ret content.

(** [getContent()] *)
Definition getContent (this : loc) : M loc := get_content this.

(** [while (this.element.firstChild)
    newTag.appendChild(this.element.firstChild)], for at most [fuel] rounds;
    the result tells whether the loop ended. *)
Fixpoint move_children (fuel : nat) (this : loc) (newTag : node) : M bool :=
  e <- tag_get this element ;;
  c <- node_property e
         (fun n => read_dom (fun d => firstChild (nodes d) n)) (ret None) ;;
  match c with
  | None => ret true
  | Some _ =>
      match fuel with
      | O => ret false
      | S fuel' =>
          e' <- tag_get this element ;;
          c' <- node_property e'
                  (fun n => read_dom (fun d => firstChild (nodes d) n))
                  (ret None) ;;
          appendChild (VNode newTag)
            (match c' with Some x => VNode x | None => VPrim PNull end) ;;
          move_children fuel' this newTag
      end
  end.

(** The loop over [this.element.attributes], from the last index to 0:
    [newTag.attributes.setNamedItem(this.element.attributes[index]
    .cloneNode())]. *)
Definition copy_attributes (this : loc) (newTag : node) : M unit :=
  e <- tag_get this element ;;
  attributes <- element_attributes e ;;
  for_each (rev (seq 0 (length attributes)))
    (fun index =>
       e' <- tag_get this element ;;
       attributes' <- element_attributes e' ;;
       match attributes' !! index with
       | Some a => run_dom (setNamedItem newTag a)
       | None => throw TypeError
       end).

(** [set name(name)]; the result is [false] when the loop over the children
    did not end within [fuel] rounds. *)
Definition set_name (fuel : nat) (this : loc) (name : jsval) : M bool :=
  fix_ this ;;
  match name with
  | VPrim (PStr s) =>
      newTag <- document_createElement s ;;
      moved <- move_children fuel this newTag ;;
      if moved then
        copy_attributes this newTag ;;
        e <- tag_get this element ;;
        pe <- node_property e
                (fun n => read_dom (fun d => parentElement (nodes d) n))
                (ret None) ;;
        match pe with
        | Some p =>
            old <- as_node (of_nodeval e) ;;
            run_dom (replaceChild_node p newTag old) ;;
            ret tt
        | None =>
            node_property e
              (fun n =>
                 k <- read_dom (fun d => node_kind (nodes d) n) ;;
                 match k with
                 | Some (Element _) | Some (Text _) =>
                     run_dom (fun d => (Ok tt, remove_node n d))
                 | _ => throw TypeError
                 end)
              (throw TypeError)
        end ;;
        tag_set this (with_element (NRef newTag)) ;;
        tag_set this (with_stored_name (Some s)) ;;
        ret true
      else ret false
  | _ => uxp this ;; ret true
  end.

(** [setName(name)] *)
Definition setName (fuel : nat) (this : loc) (name : jsval) : M (loc * bool) :=
  done <- set_name fuel this name ;;
  ret (this, done).

End Tag.

(** ** [class TagLegacy] ([src/lib/DOMKit.js], lines 100-337) *)

Module TagLegacy.

(** [get tag()] *)
Definition get_tag (this : loc) : M nodeval := legacy_get this _tag.

(** [set tag(tag)] *)
Definition set_tag (this : loc) (tag : nodeval) : M unit :=
  legacy_set this (with_tag tag).

(** The constructor, block by block.  First [if (this._attributes)
    {...}]: every entry of the mapping is set on the element. *)
Definition write_attributes (this : loc) : M unit :=
  a <- legacy_get this _attributes ;;
  when (truthy_objval a)
    (attributeArray <- Object_entries a ;;
     for_each attributeArray
       (fun kv =>
          t <- legacy_get this _tag ;;
          element_setAttribute t (fst kv) (snd kv))).

(** [if (!this._parent) {...}] and [this._parent.appendChild(this._tag)] *)
Definition attach_to_parent (this : loc) : M unit :=
  p <- legacy_get this _parent ;;
  when (negb (truthy p))
    (b <- document_body ;; legacy_set this (with_parent (VNode b))) ;;
  p' <- legacy_get this _parent ;;
  t <- legacy_get this _tag ;;
  appendChild p' (of_nodeval t) ;;
  ret tt.

(** The function given to [children.forEach]: a string is appended as a
    new text node, any other value is passed to [appendChild]. *)
Definition append_child (this : loc) (element_ : jsval) : M unit :=
  t <- legacy_get this _tag ;;
  match element_ with
  | VPrim (PStr s) =>
      recv <- as_node (of_nodeval t) ;;
      text <- document_createTextNode s ;;
      run_dom (appendChild_node recv text) ;;
      ret tt
  | _ => appendChild (of_nodeval t) element_ ;; ret tt
  end.

(** [if (children) {...}]; [children] is [undefined] or an array. *)
Definition append_children (this : loc) (children_ : option loc) : M unit :=
  match children_ with
  | Some l =>
      elems <- read_array l ;;
      for_each (array_present elems) (append_child this)
  | None => ret tt
  end.

(** [constructor(type, attributes, parent, children)] *)
Definition constructor (type : string) (attributes : objval) (parent : jsval)
    (children_ : option loc) : M loc :=
  console_warn "You are using a legacy method. This may result in bugs." ;;
  this <- new_legacy (mkTagLegacy type attributes parent children_
                        (NPrim PUndefined) None) ;;
  ty <- legacy_get this _type ;;
  tag <- document_createElement ty ;;
  legacy_set this (with_tag (NRef tag)) ;;
  write_attributes this ;;
  attach_to_parent this ;;
  append_children this children_ ;;
  ret this.

(** [set attributes(attributes)] *)
Definition set_attributes (this : loc) (attributes : objval) : M unit :=
  attributesOld <- legacy_get this _attributes ;;
  legacy_set this (with_attributes attributes) ;;
  cur <- legacy_get this _attributes ;;
  when (negb (strict_eq (of_objval cur) (of_objval attributesOld)))
    (entries <- Object_entries cur ;;
     for_each entries
       (fun kv =>
          t <- legacy_get this _tag ;;
          element_setAttribute t (fst kv) (snd kv))).

(** [set parent(parent)] *)
Definition set_parent (this : loc) (parent : jsval) : M unit :=
  parentOld <- legacy_get this _parent ;;
  legacy_set this (with_parent parent) ;;
  cur <- legacy_get this _parent ;;
  when (negb (strict_eq cur parentOld))
    (t <- get_tag this ;; append parent t).

(** [get type()]: a node that is not an element has no [tagName]. *)
Definition get_type (this : loc) : M string :=
  t <- get_tag this ;;
  name <- node_property t
            (fun n => read_dom (fun d => tagName (nodes d) n)) (ret None) ;;
  match name with
  | Some s =>
      legacy_set this (with_type (toLowerCase s)) ;;
      legacy_get this _type
  | None => throw TypeError
  end.

(** [get attributes()] *)
Definition get_attributes (this : loc) : M objval :=
  newAttributes <- new_object ;;
  t <- get_tag this ;;
  oldAttributes <- element_attributes t ;;
  for_each oldAttributes
    (fun a =>
       t <- get_tag this ;;
       n <- as_node (of_nodeval t) ;;
       v <- read_dom (fun d => getAttribute (nodes d) n (fst a)) ;;
       update_object newAttributes
         (set_property (fst a)
            (match v with Some s => PStr s | None => PNull end))) ;;
  legacy_set this (with_attributes (ORef newAttributes)) ;;
  legacy_get this _attributes.

(** [get parent()] *)
Definition get_parent (this : loc) : M jsval :=
  t <- get_tag this ;;
  p <- node_property t
         (fun n =>
            q <- read_dom (fun d => parent_of (nodes d) n) ;;
            ret (match q with Some x => VNode x | None => VPrim PNull end))
         (ret (VPrim PUndefined)) ;;
  legacy_set this (with_parent p) ;;
  cur <- legacy_get this _parent ;;
  when (negb (truthy cur)) (b <- document_body ;; set_parent this (VNode b)) ;;
  legacy_get this _parent.

(** [get children()] *)
Definition get_children (this : loc) : M (option loc) :=
  childrenArray <- new_array ;;
  t <- get_tag this ;;
  cs <- node_property t
          (fun n => read_dom (fun d => children_of (nodes d) n))
          (throw TypeError) ;;
  for_each_indexed cs
    (fun i c => update_array childrenArray (array_set i (VNode c))) ;;
  legacy_set this (with_children (Some childrenArray)) ;;
  legacy_get this _children.

(** [get relatives()] *)
Definition get_relatives (this : loc) : M loc :=
  relativeArray <- new_array ;;
  p <- get_parent this ;;
  relatives <- children p ;;
  for_each_indexed relatives
    (fun i r =>
       t <- get_tag this ;;
       when (negb (strict_eq (VNode r) (of_nodeval t)))
         (update_array relativeArray (array_set i (VNode r)))) ;;
  legacy_set this (with_relatives (Some relativeArray)) ;;
  r <- legacy_get this _relatives ;;
  match r with Some l => ret l | None => throw TypeError end.

(** The argument of [toPosition]: ["first"], ["last"] or a number. *)
Inductive position :=
| first
| last
| index (k : Z).

(** [toPosition(position)] *)
Definition toPosition (this : loc) (pos : position) : M unit :=
  fragment <- document_createDocumentFragment ;;
  relativeList <- get_relatives this ;;
  t <- get_tag this ;;
  update_array relativeList
    (match pos with
     | first => array_splice_insert 0 (of_nodeval t)
     | last => array_push (of_nodeval t)
     | index k => array_splice_insert k (of_nodeval t)
     end) ;;
  items <- read_array relativeList ;;
  for_each (array_values items)
    (fun item => appendChild (VNode fragment) item ;; ret tt) ;;
  p <- legacy_get this _parent ;;
  appendChild p (VNode fragment) ;;
  ret tt.

(** [remove()]; only an element or a text node has [remove]. *)
Definition remove (this : loc) : M unit :=
  t <- legacy_get this _tag ;;
  node_property t
    (fun n =>
       k <- read_dom (fun d => node_kind (nodes d) n) ;;
       match k with
       | Some (Element _) | Some (Text _) =>
           run_dom (fun d => (Ok tt, remove_node n d))
       | _ => throw TypeError
       end)
    (throw TypeError) ;;
  legacy_set this (with_tag (NPrim PNull)).

(** [reference(tag)] *)
Definition reference (this : loc) (tag : nodeval) : M unit :=
  remove this ;;
  set_tag this tag.

(** [set type(type)], for the class the name [Tag] is bound to; a [Tag]
    object has no property [tag], so [newTag.tag] is [undefined]. *)
Definition set_type_with (new_Tag : nodeval -> jsval -> M loc)
    (this : loc) (type : string) : M unit :=
  typeOld <- legacy_get this _type ;;
  legacy_set this (with_type type) ;;
  cur <- legacy_get this _type ;;
  when (negb (String.eqb cur typeOld))
    (a <- get_attributes this ;;
     p <- get_parent this ;;
     c <- get_children this ;;
     newTag <- new_Tag (NPrim (PStr cur)) (of_objval a) ;;
     remove this ;;
     set_tag this (NPrim PUndefined)).

Definition set_type : loc -> string -> M unit :=
  set_type_with TagById.constructor.

(** The value of the [children] argument: [undefined] or an array. *)
Definition children_value (c : option loc) : jsval :=
  match c with Some l => VArray l | None => VPrim PUndefined end.

(** [set children(children)], for the class the name [Tag] is bound to; as
    in the [type] setter, [newTag.tag] is [undefined]. *)
Definition set_children_with (new_Tag : nodeval -> jsval -> M loc)
    (this : loc) (children_ : option loc) : M unit :=
  childrenOld <- legacy_get this _children ;;
  legacy_set this (with_children children_) ;;
  cur <- legacy_get this _children ;;
  when (negb (strict_eq (children_value cur) (children_value childrenOld)))
    (ty <- get_type this ;;
     a <- get_attributes this ;;
     p <- get_parent this ;;
     c <- legacy_get this _children ;;
     newTag <- new_Tag (NPrim (PStr ty)) (of_objval a) ;;
     remove this ;;
     set_tag this (NPrim PUndefined)).

Definition set_children : loc -> option loc -> M unit :=
  set_children_with TagById.constructor.

End TagLegacy.

(** ** A page *)

(** The tree of an empty page: the document, [html], [head] and [body]. *)
Definition page : dom :=
  {| nodes :=
       [ mkNode Document [] None [1];
         mkNode (Element "html") [] (Some 0) [2; 3];
         mkNode (Element "head") [] (Some 1) [];
         mkNode (Element "body") [] (Some 1) [] ];
     document := 0;
     body := 3 |}.

(** A world with that page, an empty heap, and neither [id] nor [item]
    declared in the global scope, as in the source. *)
Definition start : world :=
  {| the_dom := page; objects := []; arrays := []; legacy := []; tags := [];
     console := []; global_id := None; global_item := false |}.

(** Run a computation for its final world. *)
Definition exec {A} (m : M A) (w : world) : world := snd (m w).

(** Run a computation for its outcome. *)
Definition eval {A} (m : M A) (w : world) : outcome A := fst (m w).

(** ** Well-formed stores *)

(** The inclusive ancestors of [n], from [n] upwards. *)
Fixpoint ancestors_in (fuel : nat) (ns : list Node) (n : node) : list node :=
  n :: match fuel with
       | O => []
       | S f =>
           match parent_of ns n with
           | Some p => ancestors_in f ns p
           | None => []
           end
       end.

(** Following parent references from [n] ends within [fuel] steps. *)
Fixpoint rooted_in (fuel : nat) (ns : list Node) (n : node) : bool :=
  match parent_of ns n with
  | None => true
  | Some p =>
      match fuel with
      | O => false
      | S f => rooted_in f ns p
      end
  end.

(** The node reached from [n] by following parent references. *)
Fixpoint root_in (fuel : nat) (ns : list Node) (n : node) : node :=
  match fuel with
  | O => n
  | S f =>
      match parent_of ns n with
      | Some p => root_in f ns p
      | None => n
      end
  end.

Definition root (ns : list Node) (n : node) : node := root_in (length ns) ns n.

(** [n] is a node of a tree of the store: its parent references lead to a
    node of the store that has no parent. *)
Definition in_tree (ns : list Node) (n : node) : bool :=
  rooted_in (length ns) ns n && (root ns n <? length ns).

(** [document.body] is an element of the tree of [document]. *)
Definition body_in_document (d : dom) : bool :=
  is_element (nodes d) (body d)
  && in_tree (nodes d) (body d)
  && (root (nodes d) (body d) =? document d)
  && match node_kind (nodes d) (document d) with
     | Some Document => true
     | _ => false
     end.

(** Every member of a child list refers back to its parent. *)
Definition children_agree (ns : list Node) : bool :=
  forallb
    (fun m =>
       forallb
         (fun c =>
            match parent_of ns c with
            | Some q => q =? m
            | None => false
            end)
         (children_of ns m))
    (seq 0 (length ns)).

(** ** Worlds of the examples *)

(** A legacy handle on a [p] element under [document.body]. *)
Definition child_world : world :=
  exec (TagLegacy.constructor "p" (OPrim PUndefined) (VPrim PUndefined) None)
    start.

(** The same handle after the platform took its element out of the page. *)
Definition orphan_world : world :=
  exec (run_dom (fun d => (Ok tt, remove_node 4 d))) child_world.

(** A [Tag] handle on a new [div]. *)
Definition tag_world : world :=
  exec (Tag.constructor (NPrim PUndefined) (VPrim PUndefined)) start.

(** Three legacy handles, on the [p] elements 4, 5 and 6 under
    [document.body]. *)
Definition siblings_world : world :=
  exec (TagLegacy.constructor "p" (OPrim PUndefined) (VPrim PUndefined) None ;;
        TagLegacy.constructor "p" (OPrim PUndefined) (VPrim PUndefined) None ;;
        TagLegacy.constructor "p" (OPrim PUndefined) (VPrim PUndefined) None)
    start.

(** [new TagLegacy("ul", {id: "list1"}, undefined, ["a", "b"])] *)
Definition new_list : M loc :=
  a <- new_object ;;
  update_object a (set_property "id" (PStr "list1")) ;;
  c <- new_array ;;
  update_array c (array_push (VPrim (PStr "a"))) ;;
  update_array c (array_push (VPrim (PStr "b"))) ;;
  TagLegacy.constructor "ul" (ORef a) (VPrim PUndefined) (Some c).

Definition list_world : world := exec new_list start.

(** ** Attribute lists written from a mapping *)

(** The attribute list after [setAttribute(k, v)] for every entry [k: v] of a
    mapping, in order. *)
Definition write_attrs (entries : object) (l : list (string * string))
  : list (string * string) :=
  fold_left
    (fun acc kv => set_attr (ascii_lowercase (fst kv)) (ToString (snd kv)) acc)
    entries l.

(** The value the entries give the attribute [name]: that of the last entry
    whose key is [name] in lower case. *)
Fixpoint written (name : string) (entries : object) : option string :=
  match entries with
  | [] => None
  | kv :: rest =>
      match written name rest with
      | Some x => Some x
      | None =>
          if String.eqb (ascii_lowercase (fst kv)) name
          then Some (ToString (snd kv)) else None
      end
  end.

(** The value of [getAttribute] as the getter stores it. *)
Definition attribute_value (v : option string) : prim :=
  match v with Some s => PStr s | None => PNull end.

(** The object the legacy [attributes] getter builds from an element. *)
Definition snapshot (ns : list Node) (n : node) : object :=
  fold_left
    (fun acc a =>
       set_property (fst a) (attribute_value (getAttribute ns n (fst a))) acc)
    (attrs_of ns n) [].

(** The store with the attribute list of [n] changed by [f]. *)
Definition update_attrs (n : node)
    (f : list (string * string) -> list (string * string)) (d : dom) : dom :=
  set_nodes (alter (fun r => set_attrs (f (attrs r)) r) n (nodes d)) d.

(** The handle is built on the mapping [{}]; the caller then adds [title]
    to that object, assigns it, and reads [title] from [attributes]. *)
Definition alias_run : M (option prim) :=
  a <- new_object ;;
  h <- TagLegacy.constructor "p" (ORef a) (VPrim PUndefined) None ;;
  update_object a (set_property "title" (PStr "x")) ;;
  TagLegacy.set_attributes h (ORef a) ;;
  r <- TagLegacy.get_attributes h ;;
  match r with
  | ORef l => o <- read_object l ;; ret (own_property "title" o)
  | OPrim _ => ret None
  end.

(** The object the [attributes] getter of [Tag] builds from an attribute
    list. *)
Definition tag_snapshot (l : list (string * string)) : object :=
  fold_left (fun acc a => set_property (fst a) (PStr (snd a)) acc) l [].

(** The attribute list after the first loop of the [attributes] setter of
    [Tag]: for every entry of the snapshot whose key has no true value in the
    given mapping, [removeAttribute(key)]. *)
Definition removals (given entries : object) (l : list (string * string))
  : list (string * string) :=
  fold_left
    (fun acc kv =>
       if truthy_property (fst kv) given then acc
       else remove_attr (ascii_lowercase (fst kv)) acc)
    entries l.

(** A legacy handle on [<p class="x">] under [document.body], built on
    the mapping [{class: "x"}], and a second mapping [{title: "y"}]. *)
Definition classed_mapping_world : world :=
  exec (c <- new_object ;;
        update_object c (set_property "class" (PStr "x")) ;;
        TagLegacy.constructor "p" (ORef c) (VPrim PUndefined) None ;;
        a <- new_object ;;
        update_object a (set_property "title" (PStr "y"))) start.


(** A [Tag] handle on [<div class="x">], the mapping [{id: "a"}], and
    [item] declared in the global scope or not. *)
Definition classed_world (declared : bool) : world :=
  let w := exec (run_dom (setAttribute 4 "class" "x") ;;
                 a <- new_object ;;
                 update_object a (set_property "id" (PStr "a"))) tag_world in
  mkWorld (the_dom w) (objects w) (arrays w) (legacy w) (tags w) (console w)
    (global_id w) declared.

(** ** What the legacy constructor is given *)

(** The entries of the [attributes] argument the constructor writes: those of
    the object, none for a value that is not true. *)
Definition entries_of (w : world) (attributes : objval) (props : list (string * prim))
  : Prop :=
  match attributes with
  | ORef a => objects w !! a = Some props
  | OPrim p => truthy_prim p = false /\ props = []
  end.

(** The node the constructor appends the element to: the [parent] argument,
    or [document.body] for a value that is not true. *)
Definition parent_given (d : dom) (parent : jsval) (p : node) : Prop :=
  match parent with
  | VNode x => p = x
  | VPrim v => truthy_prim v = false /\ p = body d
  | _ => False
  end.

(** The values of the [children] argument the constructor visits. *)
Definition items_of (w : world) (children_ : option loc) (items : list jsval)
  : Prop :=
  match children_ with
  | Some c => exists elems, arrays w !! c = Some elems /\ items = array_present elems
  | None => items = []
  end.

(** The node references among the children. *)
Definition node_refs (items : list jsval) : list node :=
  flat_map (fun v => match v with VNode x => [x] | _ => [] end) items.

(** The strings among the children. *)
Definition strings_in (items : list jsval) : nat :=
  length (List.filter
            (fun v => match v with VPrim (PStr _) => true | _ => false end)
            items).

(** The child nodes the constructor makes of the values it visits, when
    [next] is the first node reference not in use: a string gets the next
    new node, a node reference is the node itself. *)
Fixpoint child_nodes (next : node) (items : list jsval) : list node :=
  match items with
  | [] => []
  | VPrim (PStr _) :: rest => next :: child_nodes (S next) rest
  | VNode x :: rest => x :: child_nodes next rest
  | _ :: rest => child_nodes next rest
  end.

(** A child the constructor can append under a new element below [p]: a
    string, or an element or text node that does not contain [p]. *)
Definition child_ok (ns : list Node) (p : node) (item : jsval) : Prop :=
  match item with
  | VPrim (PStr _) => True
  | VNode x =>
      is_element ns x || is_text ns x = true /\
      inclusive_ancestor ns x p = false
  | _ => False
  end.

(** The child node made from a value: a text node of that string, or the
    node itself. *)
Definition child_matches (ns : list Node) (item : jsval) (c : node) : Prop :=
  match item with
  | VPrim (PStr s) => node_kind ns c = Some (Text s)
  | VNode x => c = x
  | _ => False
  end.

(** ** Notions of the proofs *)

(** A computation keeps a property of the world, whether it returns or
    raises. *)
Definition preserves {A} (I : world -> Prop) (m : M A) : Prop :=
  forall w, I w -> I (exec m w).

(** The handle [h] holds the node [t], of kind [k]. *)
Definition holds (h : loc) (t : node) (k : nodeKind) (w : world) : Prop :=
  (exists o, legacy w !! h = Some o /\ _tag o = NRef t) /\
  node_kind (nodes (the_dom w)) t = Some k.

(** The attribute names of an element are distinct and in lower case, as the
    platform leaves them. *)
Definition attrs_ok (l : list (string * string)) : Prop :=
  NoDup (map fst l) /\ Forall (fun a => lowercased (fst a) = true) l.

(** What holds of the store each time round the loop over the children of
    the constructor: [nsA] is the store when the loop starts, [t] the element
    of the handle and [p] its parent, [done] the values visited and [cs] the
    children of the element. *)
Record loop_inv (nsA : list Node) (t p : node) (ns : list Node)
    (done : list jsval) (cs : list node) : Prop := {
  inv_len : length nsA <= length ns;
  inv_kind : forall x k, node_kind nsA x = Some k -> node_kind ns x = Some k;
  inv_chain : forall m, In m (ancestors_in (length nsA) nsA t) ->
                        parent_of ns m = parent_of nsA m;
  inv_children : children_of ns t = cs;
  inv_match : Forall2 (child_matches ns) done cs;
  inv_bound : Forall (fun c => c < length ns) cs;
  inv_old : forall c, In c cs -> c < length nsA -> In (VNode c) done;
  inv_last : last (children_of ns p) = Some t;
  inv_attrs : attrs_of ns t = attrs_of nsA t;
  inv_parents : Forall (fun c => parent_of ns c = Some t) cs;
  inv_unmoved : forall m, m < length nsA -> ~ In (VNode m) done ->
                          parent_of ns m = parent_of nsA m;
  inv_siblings :
    children_of ns p
    = List.filter (fun c => negb (existsb (Nat.eqb c) (node_refs done)))
        (children_of nsA p);
  inv_ids : cs = child_nodes (length nsA) done;
  inv_size : length ns = length nsA + strings_in done
}.

(** A value the loop can append. *)
Definition item_ok (nsA : list Node) (t : node) (item : jsval) : Prop :=
  match item with
  | VPrim (PStr _) => True
  | VNode x =>
      (is_element nsA x || is_text nsA x = true) /\
      ~ In x (ancestors_in (length nsA) nsA t)
  | _ => False
  end.

(** The page with the arguments of
    [new TagLegacy("ul", {id: "list1"}, undefined, ["a", "b"])] on the
    heap. *)
Definition list_args_world : world :=
  exec (a <- new_object ;;
        update_object a (set_property "id" (PStr "list1")) ;;
        c <- new_array ;;
        update_array c (array_push (VPrim (PStr "a"))) ;;
        update_array c (array_push (VPrim (PStr "b")))) start.

(** The legacy handle of [child_world] after [remove()]. *)
Definition removed_world : world := exec (TagLegacy.remove 0) child_world.

(** The [Tag] handle of [tag_world] with its element reference cleared. *)
Definition cleared_tag_world : world :=
  exec (tag_set 0 (with_element (NPrim PNull))) tag_world.

(** What [uxp] leaves: nothing, or a warning and a trace. *)
Definition reported (o : Tag_object) (w : world) : world :=
  if truthy (debug o)
  then set_console
         (console w ++ [Warn "Unexpected input: undefined"; Trace]) w
  else w.

(** ** Arrays of siblings *)

(** The assignment of the loop of [relatives]: the slot of [n] is skipped. *)
Definition skip_self (n : node) (x : nat * node) (acc : list (option jsval))
  : list (option jsval) :=
  if (snd x =? n) then acc else array_set (fst x) (VNode (snd x)) acc.

(** The slots the loop of [relatives] leaves: the members before [n], then,
    when members follow [n], a hole and those members. *)
Definition relative_slots (before after : list node) : list (option jsval) :=
  map (fun c => Some (VNode c)) before
  ++ match after with
     | [] => []
     | _ => None :: map (fun c => Some (VNode c)) after
     end.

(** A legacy handle on a [p] element under [document.body], and the array
    [["a", "b"]]. *)
Definition list_args_child_world : world :=
  exec (c <- new_array ;;
        update_array c (array_push (VPrim (PStr "a"))) ;;
        update_array c (array_push (VPrim (PStr "b")))) child_world.

(** The page and the mapping [{id: "x", "a b": "y"}], whose second key is no
    attribute name. *)
Definition bad_key_world : world :=
  exec (a <- new_object ;;
        update_object a (set_property "id" (PStr "x")) ;;
        update_object a (set_property "a b" (PStr "y"))) start.

(** The [Tag] handle of [tag_world] with its [div] put under
    [document.body] by the platform. *)
Definition attached_tag_world : world :=
  exec (run_dom (appendChild_node 3 4)) tag_world.

(** Two [Tag] handles: 0 on a new [div], 1 on [document.body]. *)
Definition two_tags_world : world :=
  exec (Tag.constructor (NRef 3) (VPrim PUndefined)) tag_world.

(** The list [<ul id="list1">a b</ul>] of [list_world], and a [Tag] handle
    on it. *)
Definition list_tag_world : world :=
  exec (Tag.constructor (NRef 4) (VPrim PUndefined)) list_world.

(** ** The order [toPosition] asks for *)

(** The element children of the parent after [toPosition(pos)] on the node
    [n], whose element siblings are [before]: [n] is put first, last, or
    at the index the splice clamps the number to. *)
Definition position_order (pos : TagLegacy.position) (n : node)
    (before : list node) : list node :=
  match pos with
  | TagLegacy.first => n :: before
  | TagLegacy.last => before ++ [n]
  | TagLegacy.index k =>
      let len := Z.of_nat (length before) in
      let s := if (k <? 0)%Z then Z.max (len + k) 0 else Z.min k len in
      take (Z.to_nat s) before ++ n :: drop (Z.to_nat s) before
  end.

(** The store after the nodes [items] were moved, one after the other, to
    the end of the children of [q]. *)
Definition move_all (q : node) (items : list node) (ns : list Node)
  : list Node :=
  fold_left (fun acc c => move q c acc) items ns.

(** ** The store after a rename *)

(** The store after [set name] on an element [n] whose parent is the
    element [p]: a new element [t] of the name [l] has the children of [n],
    its attributes in reverse order, and its place among the children of
    [p]. *)
Definition renamed_store (ns : list Node) (n p : node) (l : string)
  : list Node :=
  let t := length ns in
  let ns1 := ns ++ [mkNode (Element l) [] None []] in
  let ns2 := move_all t (children_of ns n) ns1 in
  let ns3 :=
    alter (fun r =>
             set_attrs
               (fold_left (fun acc a => set_attr (fst a) (snd a) acc)
                  (rev (attrs_of ns n)) (attrs r)) r) t ns2 in
  alter (set_parentNode (Some p)) t
    (alter (set_parentNode None) n
       (alter (set_childNodes (replace_in n [t] (children_of ns p))) p ns3)).

(** The conditions on the tree under which the rename is followed: the
    children of [n] are distinct element or text nodes that refer back to
    [n] and do not contain [p]. *)
Definition renamable (ns : list Node) (n p : node) : Prop :=
  is_element ns n = true /\
  parent_of ns n = Some p /\
  is_element ns p = true /\
  in_tree ns p = true /\
  p <> n /\
  NoDup (children_of ns n) /\
  Forall (fun c =>
            (is_element ns c || is_text ns c = true) /\
            parent_of ns c = Some n /\
            inclusive_ancestor ns c p = false) (children_of ns n).

(** The store after [set name] on an element [n] that has no parent
    element: a new element [t] of the name [l] has the children of [n] and
    its attributes in reverse order, and [n] is removed from its parent. *)
Definition removed_store (ns : list Node) (n : node) (l : string)
  : list Node :=
  let t := length ns in
  let ns1 := ns ++ [mkNode (Element l) [] None []] in
  let ns2 := move_all t (children_of ns n) ns1 in
  detach n
    (alter (fun r =>
              set_attrs
                (fold_left (fun acc a => set_attr (fst a) (snd a) acc)
                   (rev (attrs_of ns n)) (attrs r)) r) t ns2).

(** The conditions under which that rename is followed: [n] is an element
    without parent element (it has no parent, or its parent is a node of the
    store that is no element), and its children are distinct element or text
    nodes that refer back to it. *)
Definition renamable_apart (ns : list Node) (n : node) : Prop :=
  is_element ns n = true /\
  parentElement ns n = None /\
  (forall q, parent_of ns n = Some q -> q < length ns) /\
  NoDup (children_of ns n) /\
  Forall (fun c =>
            (is_element ns c || is_text ns c = true) /\
            parent_of ns c = Some n) (children_of ns n).

(** A [Tag] handle on the [html] element of the page, whose parent is the
    document. *)
Definition root_tag_world : world :=
  exec (Tag.constructor (NRef 1) (VPrim PUndefined)) start.

(** * Properties *)

(** ** Lists and computations *)

Lemma alter_last {A} (f : A -> A) (l : list A) (x : A) :
  alter f (length l) (l ++ [x]) = l ++ [f x].
Proof.
  induction l as [|y l IH]; cbn; [reflexivity|]. f_equal. exact IH.
Qed.

Lemma lookup_last {A} (l : list A) (x : A) : (l ++ [x]) !! length l = Some x.
Proof. induction l as [|y l IH]; cbn; [reflexivity|exact IH]. Qed.

Lemma bind_ok {A B} (m : M A) (k : A -> M B) (w w1 : world) (a : A) :
  m w = (Ok a, w1) -> bind m k w = k a w1.
Proof. intros H. unfold bind. rewrite H. reflexivity. Qed.

Lemma bind_throw {A B} (m : M A) (k : A -> M B) (w w1 : world) (e : exn) :
  m w = (Throw e, w1) -> bind m k w = (Throw e, w1).
Proof. intros H. unfold bind. rewrite H. reflexivity. Qed.

Lemma createElement_valid (s : string) (d : dom) :
  valid_element_local_name s = true ->
  createElement s d =
  (Ok (fresh d), alloc_node (mkNode (Element (ascii_lowercase s)) [] None []) d).
Proof. intros H. unfold createElement. rewrite H. reflexivity. Qed.

Lemma createElement_div (d : dom) :
  createElement "div" d =
  (Ok (fresh d), alloc_node (mkNode (Element "div") [] None []) d).
Proof. reflexivity. Qed.

Create HintDb js discriminated.
#[local] Hint Unfold bind ret throw when for_each_indexed
     read_dom run_dom document_createElement document_createTextNode
     document_createDocumentFragment document_body
     console_log console_warn console_trace as_node appendChild append children
     element_setAttribute element_removeAttribute element_attributes
     instanceof_HTMLElement new_object new_array read_object update_object
     read_array update_array Object_entries
     legacy_get legacy_set new_legacy tag_get tag_set new_tag node_property
     Tag.typeof_global_id : js.

#[local] Arguments strict_eq : simpl never.

Ltac run :=
  repeat (progress
            (autounfold with js; cbn;
             rewrite ?alter_last, ?lookup_last, ?list_lookup_alter_eq,
               ?length_alter, ?createElement_div)).

(** ** The store *)

Lemma is_element_lookup (ns : list Node) (n : node) :
  is_element ns n = true -> exists r, ns !! n = Some r.
Proof.
  unfold is_element, node_kind. destruct (ns !! n); [eauto|discriminate].
Qed.

Lemma parent_of_attach_child (ns : list Node) (p n : node) :
  n < length ns -> parent_of (attach p n ns) n = Some p.
Proof.
  intros Hn. unfold parent_of, attach. rewrite list_lookup_alter_eq.
  destruct (lookup_lt_is_Some_2 (alter (fun r => set_childNodes (childNodes r ++ [n]) r) p ns) n)
    as [r Hr]; [rewrite length_alter; exact Hn|].
  rewrite Hr. reflexivity.
Qed.

Lemma children_of_attach_parent (ns : list Node) (p n : node) :
  p <> n -> p < length ns ->
  children_of (attach p n ns) p = children_of ns p ++ [n].
Proof.
  intros Hne Hp. unfold children_of, attach.
  rewrite list_lookup_alter_ne by congruence.
  rewrite list_lookup_alter_eq.
  destruct (lookup_lt_is_Some_2 ns p Hp) as [r Hr]. rewrite !Hr. reflexivity.
Qed.

Lemma detach_orphan (ns : list Node) (n : node) :
  parent_of ns n = None -> detach n ns = ns.
Proof. intros H. unfold detach. rewrite H. reflexivity. Qed.

(** A node without parent that is an inclusive ancestor of [m] is the root of
    the tree of [m]. *)
Lemma orphan_ancestor_is_root (ns : list Node) (n : node) :
  parent_of ns n = None ->
  forall (fuel : nat) (m : node),
    inclusive_ancestor_in fuel ns n m = true -> root_in fuel ns m = n.
Proof.
  intros Hn fuel. induction fuel as [|f IH]; intros m H; cbn in *.
  - rewrite orb_false_r in H. apply Nat.eqb_eq in H. congruence.
  - destruct (Nat.eqb_spec n m) as [->|Hne].
    + rewrite Hn. reflexivity.
    + cbn in H. destruct (parent_of ns m) as [p|]; [|discriminate].
      apply IH. exact H.
Qed.

Lemma body_in_document_spec (d : dom) :
  body_in_document d = true ->
  is_element (nodes d) (body d) = true /\
  in_tree (nodes d) (body d) = true /\
  root (nodes d) (body d) = document d /\
  node_kind (nodes d) (document d) = Some Document.
Proof.
  unfold body_in_document. intros H.
  apply andb_prop in H as [H Hdoc]. apply andb_prop in H as [H Hroot].
  apply andb_prop in H as [Hel Htree]. apply Nat.eqb_eq in Hroot.
  repeat split; try assumption.
  destruct (node_kind (nodes d) (document d)) as [[]|]; try discriminate.
  reflexivity.
Qed.

(** An element without parent does not contain [document.body]. *)
Lemma orphan_not_above_body (d : dom) (n : node) :
  body_in_document d = true ->
  is_element (nodes d) n = true ->
  parent_of (nodes d) n = None ->
  inclusive_ancestor (nodes d) n (body d) = false.
Proof.
  intros Hb Hel Hn. apply body_in_document_spec in Hb as (_ & _ & Hroot & Hdoc).
  destruct (inclusive_ancestor (nodes d) n (body d)) eqn:E; [|reflexivity].
  apply (orphan_ancestor_is_root _ _ Hn) in E.
  unfold root in Hroot. rewrite E in Hroot. subst n.
  unfold is_element in Hel. rewrite Hdoc in Hel. discriminate.
Qed.

Lemma is_element_kind (ns : list Node) (n : node) :
  is_element ns n = true -> exists l, node_kind ns n = Some (Element l).
Proof.
  unfold is_element. destruct (node_kind ns n) as [[]|]; try discriminate.
  eauto.
Qed.

Lemma is_element_lt (ns : list Node) (n : node) :
  is_element ns n = true -> n < length ns.
Proof.
  intros H. apply is_element_lookup in H as [r Hr].
  apply lookup_lt_Some in Hr. exact Hr.
Qed.

Lemma is_element_parent_node (ns : list Node) (n : node) :
  is_element ns n = true -> is_parent_node ns n = true.
Proof.
  intros H. apply is_element_kind in H as [l Hl].
  unfold is_parent_node. rewrite Hl. reflexivity.
Qed.

(** An element may be inserted into an element that it does not contain. *)
Lemma pre_insertion_element (ns : list Node) (p n : node) :
  is_element ns p = true -> is_element ns n = true ->
  inclusive_ancestor ns n p = false ->
  pre_insertion_error ns p n = None.
Proof.
  intros Hp Hn Ha. apply is_element_kind in Hp as [lp Hp].
  apply is_element_kind in Hn as [ln Hn].
  unfold pre_insertion_error. rewrite Hp, Hn, Ha. reflexivity.
Qed.

Lemma insert_last_element (ns : list Node) (p n : node) :
  is_element ns n = true -> insert_last p n ns = move p n ns.
Proof.
  intros Hn. apply is_element_kind in Hn as [ln Hn].
  unfold insert_last. rewrite Hn. reflexivity.
Qed.

Lemma appendChild_node_element (d : dom) (p n : node) :
  is_element (nodes d) p = true -> is_element (nodes d) n = true ->
  inclusive_ancestor (nodes d) n p = false ->
  appendChild_node p n d = (Ok n, set_nodes (move p n (nodes d)) d).
Proof.
  intros Hp Hn Ha. unfold appendChild_node.
  rewrite pre_insertion_element by assumption.
  rewrite insert_last_element by assumption. reflexivity.
Qed.

Lemma inclusive_ancestor_refl (ns : list Node) (n : node) :
  inclusive_ancestor ns n n = true.
Proof.
  unfold inclusive_ancestor. destruct (length ns); cbn;
    rewrite Nat.eqb_refl; reflexivity.
Qed.

(** ** Ancestors *)

Lemma inclusive_ancestor_in_existsb (fuel : nat) (ns : list Node) (a n : node) :
  inclusive_ancestor_in fuel ns a n
  = existsb (Nat.eqb a) (ancestors_in fuel ns n).
Proof.
  revert n. induction fuel as [|f IH]; intros n; cbn.
  - reflexivity.
  - destruct (parent_of ns n) as [p|]; cbn; [rewrite IH|]; reflexivity.
Qed.

Lemma parent_of_Some_lt (ns : list Node) (n p : node) :
  parent_of ns n = Some p -> n < length ns.
Proof.
  unfold parent_of. destruct (ns !! n) eqn:E; [|discriminate].
  intros _. apply lookup_lt_Some in E. exact E.
Qed.

Lemma ancestors_in_lt (fuel : nat) (ns : list Node) (n : node) :
  rooted_in fuel ns n = true -> root_in fuel ns n < length ns ->
  Forall (fun m => m < length ns) (ancestors_in fuel ns n).
Proof.
  revert n. induction fuel as [|f IH]; intros n Hr Hroot; cbn in *.
  - constructor; [exact Hroot|constructor].
  - destruct (parent_of ns n) as [p|] eqn:E.
    + constructor; [eapply parent_of_Some_lt; exact E|]. apply IH; assumption.
    + constructor; [exact Hroot|constructor].
Qed.

Lemma ancestors_in_ext (fuel : nat) (ns ns' : list Node) (n : node) :
  (forall m, In m (ancestors_in fuel ns n) -> parent_of ns' m = parent_of ns m) ->
  ancestors_in fuel ns' n = ancestors_in fuel ns n.
Proof.
  revert n. induction fuel as [|f IH]; intros n H; cbn in *; [reflexivity|].
  rewrite (H n) by (left; reflexivity).
  destruct (parent_of ns n) as [p|]; [|reflexivity].
  f_equal. apply IH. intros m Hm. apply H. right. exact Hm.
Qed.

Lemma ancestors_in_fuel (f k : nat) (ns : list Node) (n : node) :
  rooted_in f ns n = true -> ancestors_in (f + k) ns n = ancestors_in f ns n.
Proof.
  revert n. induction f as [|f IH]; intros n H; cbn in *.
  - destruct (parent_of ns n) eqn:E; [discriminate|].
    destruct k; cbn; rewrite ?E; reflexivity.
  - destruct (parent_of ns n) as [p|]; [|reflexivity].
    f_equal. apply IH. exact H.
Qed.

Lemma in_tree_ancestors (ns : list Node) (n : node) :
  in_tree ns n = true ->
  rooted_in (length ns) ns n = true /\
  Forall (fun m => m < length ns) (ancestors_in (length ns) ns n).
Proof.
  unfold in_tree, root. intros H. apply andb_prop in H as [Hr Hl].
  apply Nat.ltb_lt in Hl. split; [exact Hr|]. apply ancestors_in_lt; assumption.
Qed.

(** While the parent references along the chain of [n] stay as they were in
    [ns0], the inclusive ancestors of [n] are those of [ns0], however the
    store has grown. *)
Lemma inclusive_ancestor_stable (ns0 ns : list Node) (a n : node) :
  in_tree ns0 n = true ->
  (forall m, In m (ancestors_in (length ns0) ns0 n) ->
             parent_of ns m = parent_of ns0 m) ->
  length ns0 <= length ns ->
  inclusive_ancestor ns a n
  = existsb (Nat.eqb a) (ancestors_in (length ns0) ns0 n).
Proof.
  intros Ht Hsame Hlen. apply in_tree_ancestors in Ht as [Hr _].
  unfold inclusive_ancestor. rewrite inclusive_ancestor_in_existsb.
  f_equal. replace (length ns) with (length ns0 + (length ns - length ns0)) by lia.
  rewrite <- (ancestors_in_fuel _ (length ns - length ns0) ns0 n Hr).
  apply ancestors_in_ext. intros m Hm. apply Hsame.
  rewrite <- (ancestors_in_fuel _ (length ns - length ns0) ns0 n Hr). exact Hm.
Qed.

Lemma existsb_eqb_false (a : node) (l : list node) :
  ~ In a l -> existsb (Nat.eqb a) l = false.
Proof.
  intros H. induction l as [|x l IH]; cbn; [reflexivity|].
  destruct (Nat.eqb_spec a x) as [->|_]; [exfalso; apply H; left; reflexivity|].
  apply IH. intros Hin. apply H. right. exact Hin.
Qed.

Lemma parent_of_app (ns : list Node) (r : Node) (m : node) :
  m < length ns -> parent_of (ns ++ [r]) m = parent_of ns m.
Proof. intros H. unfold parent_of. rewrite lookup_app_l by exact H. reflexivity. Qed.

(** A node allocated after [n] is no ancestor of [n]. *)
Lemma fresh_not_ancestor (ns : list Node) (r : Node) (n : node) :
  in_tree ns n = true ->
  inclusive_ancestor (ns ++ [r]) (length ns) n = false.
Proof.
  intros Ht. pose proof (in_tree_ancestors _ _ Ht) as [_ Hlt].
  rewrite List.Forall_forall in Hlt.
  rewrite (inclusive_ancestor_stable ns); [|exact Ht| |rewrite length_app; lia].
  - apply existsb_eqb_false. intros Hin. apply Hlt in Hin. lia.
  - intros m Hm. apply parent_of_app. apply Hlt. exact Hm.
Qed.

(** ** Steps of a computation *)

Lemma legacy_get_ok {A} (w : world) (h : loc) (o : TagLegacy_object)
    (f : TagLegacy_object -> A) :
  legacy w !! h = Some o -> legacy_get h f w = (Ok (f o), w).
Proof. intros H. unfold legacy_get. rewrite H. reflexivity. Qed.

Lemma tag_get_ok {A} (w : world) (h : loc) (o : Tag_object)
    (f : Tag_object -> A) :
  tags w !! h = Some o -> tag_get h f w = (Ok (f o), w).
Proof. intros H. unfold tag_get. rewrite H. reflexivity. Qed.

Lemma read_object_ok (w : world) (l : loc) (o : object) :
  objects w !! l = Some o -> read_object l w = (Ok o, w).
Proof. intros H. unfold read_object. rewrite H. reflexivity. Qed.

Lemma read_array_ok (w : world) (l : loc) (a : array) :
  arrays w !! l = Some a -> read_array l w = (Ok a, w).
Proof. intros H. unfold read_array. rewrite H. reflexivity. Qed.

Lemma lookup_alter_Some {A} (f : A -> A) (l : list A) (i : nat) (x : A) :
  l !! i = Some x -> alter f i l !! i = Some (f x).
Proof. intros H. rewrite list_lookup_alter_eq, H. reflexivity. Qed.

(** One step of a sequence whose first computation returns. *)
Ltac step :=
  lazymatch goal with
  | |- bind ?m ?k ?w = _ =>
      erewrite (bind_ok m k w);
      [|first [ eapply legacy_get_ok; cbn;
                first [eassumption | eapply lookup_alter_Some; eassumption
                      | apply lookup_last]
              | eapply tag_get_ok; cbn;
                first [eassumption | eapply lookup_alter_Some; eassumption
                      | apply lookup_last]
              | eapply read_object_ok; cbn; eassumption
              | eapply read_array_ok; cbn; eassumption
              | reflexivity ]];
      cbn beta
  end.

(** ** The constructor of the current [Tag] *)

(** C9: with [id] not declared in the global scope (no scope of the source
    declares it), [typeof id] is ["undefined"], so the branch that looks the
    argument up as an element ID is never taken: for every string argument
    the constructor returns a handle on a new [div] element, a node that did
    not exist before the call. *)
Theorem Tag_constructor_string_creates_div
    (w : world) (s : string) (dbg : jsval) :
  global_id w = None ->
  exists w' o,
    Tag.constructor (NPrim (PStr s)) dbg w = (Ok (length (tags w)), w') /\
    tags w' !! length (tags w) = Some o /\
    element o = NRef (fresh (the_dom w)) /\
    nodes (the_dom w) !! fresh (the_dom w) = None /\
    nodes (the_dom w') =
      nodes (the_dom w) ++ [mkNode (Element "div") [] None []].
Proof.
  intros Hid.
  unfold Tag.constructor. run. rewrite Hid. run.
  assert (Hfresh : nodes (the_dom w) !! fresh (the_dom w) = None)
    by (apply lookup_ge_None; unfold fresh; lia).
  destruct (truthy (or_false dbg)); run;
    (eexists; eexists; split; [reflexivity|]; run;
     split; [reflexivity|]; split; [reflexivity|]; split; [exact Hfresh|reflexivity]).
Qed.

Lemma Tag_constructor_string_creates_div_witness :
  exists w' o,
    Tag.constructor (NPrim (PStr "body")) (VPrim PUndefined) start
      = (Ok 0, w') /\
    tags w' !! 0 = Some o /\
    element o = NRef 4 /\
    nodes (the_dom start) !! 4 = None /\
    nodes (the_dom w') =
      nodes (the_dom start) ++ [mkNode (Element "div") [] None []].
Proof.
  exact (Tag_constructor_string_creates_div start "body" (VPrim PUndefined)
           eq_refl).
Defined.

(** ** Reading the parent of a legacy handle *)

(** C10: reading [parent] on a legacy handle whose element has no parent
    appends the element under [document.body] and returns the body; on a
    handle whose node has a parent the read returns that parent and leaves the
    tree as it was. *)
Theorem legacy_get_parent_adopts_orphan
    (w : world) (h : loc) (o : TagLegacy_object) (n : node) :
  legacy w !! h = Some o ->
  _tag o = NRef n ->
  (body_in_document (the_dom w) = true ->
   is_element (nodes (the_dom w)) n = true ->
   parent_of (nodes (the_dom w)) n = None ->
   exists w',
     TagLegacy.get_parent h w = (Ok (VNode (body (the_dom w))), w') /\
     nodes (the_dom w') = attach (body (the_dom w)) n (nodes (the_dom w)) /\
     children_of (nodes (the_dom w')) (body (the_dom w))
       = children_of (nodes (the_dom w)) (body (the_dom w)) ++ [n] /\
     parent_of (nodes (the_dom w')) n = Some (body (the_dom w)))
  /\
  (forall p : node,
     parent_of (nodes (the_dom w)) n = Some p ->
     exists w',
       TagLegacy.get_parent h w = (Ok (VNode p), w') /\
       the_dom w' = the_dom w).
Proof.
  intros Hh Ht. split.
  - intros Hbody Hel Hpar.
    pose proof (orphan_not_above_body _ _ Hbody Hel Hpar) as Habove.
    assert (Hb : is_element (nodes (the_dom w)) (body (the_dom w)) = true).
    { apply body_in_document_spec in Hbody. apply Hbody. }
    assert (Hne : body (the_dom w) <> n).
    { intros E. rewrite E, inclusive_ancestor_refl in Habove. discriminate. }
    unfold TagLegacy.get_parent, TagLegacy.set_parent, TagLegacy.get_tag.
    repeat (progress (run; rewrite ?Hh, ?Ht, ?Hpar; unfold strict_eq)).
    rewrite (is_element_parent_node _ _ Hb). cbn.
    rewrite (appendChild_node_element _ _ _ Hb Hel Habove).
    repeat (progress (run; rewrite ?Hh, ?Ht, ?Hpar; unfold strict_eq)).
    eexists. split; [reflexivity|]. cbn.
    unfold move. rewrite (detach_orphan _ _ Hpar).
    split; [reflexivity|]. split.
    + apply children_of_attach_parent; [exact Hne|].
      apply is_element_lt. exact Hb.
    + apply parent_of_attach_child. apply is_element_lt. exact Hel.
  - intros p Hpar.
    unfold TagLegacy.get_parent, TagLegacy.get_tag.
    repeat (progress (run; rewrite ?Hh, ?Ht, ?Hpar; unfold strict_eq)).
    eexists. split; reflexivity.
Qed.

Lemma legacy_get_parent_adopts_orphan_witness :
  (exists w',
     TagLegacy.get_parent 0 orphan_world = (Ok (VNode 3), w') /\
     nodes (the_dom w') = attach 3 4 (nodes (the_dom orphan_world)) /\
     children_of (nodes (the_dom w')) 3 = [] ++ [4] /\
     parent_of (nodes (the_dom w')) 4 = Some 3)
  /\
  (exists w',
     TagLegacy.get_parent 0 child_world = (Ok (VNode 3), w') /\
     the_dom w' = the_dom child_world).
Proof.
  split.
  - exact (proj1 (legacy_get_parent_adopts_orphan orphan_world 0
                    (mkTagLegacy "p" (OPrim PUndefined) (VNode 3) None (NRef 4) None)
                    4 eq_refl eq_refl) eq_refl eq_refl eq_refl).
  - exact (proj2 (legacy_get_parent_adopts_orphan child_world 0
                    (mkTagLegacy "p" (OPrim PUndefined) (VNode 3) None (NRef 4) None)
                    4 eq_refl eq_refl) 3 eq_refl).
Defined.

(** ** Parenting a handle to itself *)

Lemma appendChild_node_self (n : node) (d : dom) :
  is_parent_node (nodes d) n = true ->
  appendChild_node n n d = (Throw HierarchyRequestError, d).
Proof.
  intros E. unfold appendChild_node, pre_insertion_error.
  unfold is_parent_node in E.
  destruct (node_kind (nodes d) n) as [[]|]; try discriminate;
    rewrite inclusive_ancestor_refl; reflexivity.
Qed.

Lemma legacy_set_parent_own_node
    (w : world) (h : loc) (o : TagLegacy_object) (n : node) :
  legacy w !! h = Some o -> _tag o = NRef n ->
  the_dom (exec (TagLegacy.set_parent h (VNode n)) w) = the_dom w /\
  legacy (exec (TagLegacy.set_parent h (VNode n)) w) !! h
  = Some (with_parent (VNode n) o) /\
  (eval (TagLegacy.set_parent h (VNode n)) w = Throw HierarchyRequestError \/
   eval (TagLegacy.set_parent h (VNode n)) w = Throw TypeError \/
   (_parent o = VNode n /\
    TagLegacy.set_parent h (VNode n) w
    = (Ok tt, set_legacy (alter (with_parent (VNode n)) h (legacy w)) w))).
Proof.
  intros Hh Ht.
  assert (Hh' : alter (with_parent (VNode n)) h (legacy w) !! h
                = Some (with_parent (VNode n) o))
    by (apply lookup_alter_Some; exact Hh).
  unfold exec, eval, TagLegacy.set_parent, TagLegacy.get_tag.
  repeat (progress (run; rewrite ?Hh, ?Ht)).
  destruct (strict_eq (VNode n) (_parent o)) eqn:E.
  - cbn. split; [reflexivity|]. split; [exact Hh'|]. right; right.
    split; [|reflexivity].
    unfold strict_eq in E. destruct (_parent o); try discriminate.
    apply Nat.eqb_eq in E. congruence.
  - repeat (progress (run; rewrite ?Hh, ?Ht)).
    destruct (is_parent_node (nodes (the_dom w)) n) eqn:P; cbn.
    + rewrite (appendChild_node_self _ _ P). cbn. auto.
    + auto.
Qed.

Lemma legacy_set_parent_handle (w : world) (h : loc) (o : TagLegacy_object) :
  legacy w !! h = Some o ->
  the_dom (exec (TagLegacy.set_parent h (VTagLegacy h)) w) = the_dom w /\
  legacy (exec (TagLegacy.set_parent h (VTagLegacy h)) w) !! h
  = Some (with_parent (VTagLegacy h) o) /\
  (eval (TagLegacy.set_parent h (VTagLegacy h)) w = Throw TypeError \/
   (_parent o = VTagLegacy h /\
    TagLegacy.set_parent h (VTagLegacy h) w
    = (Ok tt, set_legacy (alter (with_parent (VTagLegacy h)) h (legacy w)) w))).
Proof.
  intros Hh.
  assert (Hh' : alter (with_parent (VTagLegacy h)) h (legacy w) !! h
                = Some (with_parent (VTagLegacy h) o))
    by (apply lookup_alter_Some; exact Hh).
  unfold exec, eval, TagLegacy.set_parent, TagLegacy.get_tag.
  repeat (progress (run; rewrite ?Hh)).
  destruct (strict_eq (VTagLegacy h) (_parent o)) eqn:E.
  - cbn. split; [reflexivity|]. split; [exact Hh'|]. right.
    split; [|reflexivity].
    unfold strict_eq in E. destruct (_parent o); try discriminate.
    apply Nat.eqb_eq in E. congruence.
  - repeat (progress (run; rewrite ?Hh)). auto.
Qed.

Lemma Tag_set_parent_own_node
    (w : world) (h : loc) (o : Tag_object) (n : node) :
  tags w !! h = Some o -> element o = NRef n ->
  Tag.set_parent h (VNode n) w = (Ok tt, reported o w).
Proof.
  intros Hh He.
  unfold reported, Tag.set_parent, Tag.fix_, Tag.other_Tag,
    Tag.other_HTMLElement, Tag.uxp, truthy_nodeval.
  repeat (progress (run; rewrite ?Hh, ?He)).
  destruct (is_element (nodes (the_dom w)) n);
    repeat (progress (run; rewrite ?Hh, ?He));
    unfold strict_eq; rewrite ?Nat.eqb_refl; cbn;
    repeat (progress (run; rewrite ?Hh, ?He));
    destruct (truthy (debug o)); cbn; auto;
    rewrite <- app_assoc; destruct w; reflexivity.
Qed.

Lemma Tag_set_parent_handle
    (w : world) (h : loc) (o : Tag_object) (n : node) :
  tags w !! h = Some o -> element o = NRef n ->
  Tag.set_parent h (VTag h) w = (Ok tt, reported o w).
Proof.
  intros Hh He.
  unfold reported, Tag.set_parent, Tag.fix_, Tag.other_Tag,
    Tag.other_HTMLElement, Tag.uxp, truthy_nodeval.
  repeat (progress (run; rewrite ?Hh, ?He)).
  unfold strict_eq; rewrite ?Nat.eqb_refl; cbn.
  repeat (progress (run; rewrite ?Hh, ?He)).
  destruct (truthy (debug o)); cbn; auto.
  rewrite <- app_assoc. destruct w. reflexivity.
Qed.

(** C5, as amended: an assignment of the handle itself, or of its own node,
    to [parent] is not carried out and changes no node of the tree, but it
    is not always rejected.  On a legacy handle the platform refuses it
    ([HierarchyRequestError] from [append], or [TypeError] where the value
    has no [append]) the first time; the handle caches the value all the
    same, and when the value is already the cached parent nothing is
    attempted and the assignment returns.  On a [Tag] the guards of the
    setter skip both insertions and the assignment falls through to [uxp]:
    it returns, with a warning and a trace on the console when [debug] is
    true, and with nothing changed at all otherwise. *)
Theorem self_parenting_leaves_tree_unchanged :
  (forall (w : world) (h : loc) (o : TagLegacy_object) (n : node),
      legacy w !! h = Some o -> _tag o = NRef n ->
      the_dom (exec (TagLegacy.set_parent h (VNode n)) w) = the_dom w /\
      legacy (exec (TagLegacy.set_parent h (VNode n)) w) !! h
      = Some (with_parent (VNode n) o) /\
      (eval (TagLegacy.set_parent h (VNode n)) w = Throw HierarchyRequestError \/
       eval (TagLegacy.set_parent h (VNode n)) w = Throw TypeError \/
       (_parent o = VNode n /\
        TagLegacy.set_parent h (VNode n) w
        = (Ok tt, set_legacy (alter (with_parent (VNode n)) h (legacy w)) w))))
  /\
  (forall (w : world) (h : loc) (o : TagLegacy_object),
      legacy w !! h = Some o ->
      the_dom (exec (TagLegacy.set_parent h (VTagLegacy h)) w) = the_dom w /\
      legacy (exec (TagLegacy.set_parent h (VTagLegacy h)) w) !! h
      = Some (with_parent (VTagLegacy h) o) /\
      (eval (TagLegacy.set_parent h (VTagLegacy h)) w = Throw TypeError \/
       (_parent o = VTagLegacy h /\
        TagLegacy.set_parent h (VTagLegacy h) w
        = (Ok tt,
           set_legacy (alter (with_parent (VTagLegacy h)) h (legacy w)) w))))
  /\
  (forall (w : world) (h : loc) (o : Tag_object) (n : node),
      tags w !! h = Some o -> element o = NRef n ->
      eval (Tag.set_parent h (VNode n)) w = Ok tt /\
      the_dom (exec (Tag.set_parent h (VNode n)) w) = the_dom w /\
      tags (exec (Tag.set_parent h (VNode n)) w) = tags w /\
      (truthy (debug o) = false -> exec (Tag.set_parent h (VNode n)) w = w) /\
      (truthy (debug o) = true ->
       console (exec (Tag.set_parent h (VNode n)) w)
       = console w ++ [Warn "Unexpected input: undefined"; Trace]))
  /\
  (forall (w : world) (h : loc) (o : Tag_object) (n : node),
      tags w !! h = Some o -> element o = NRef n ->
      eval (Tag.set_parent h (VTag h)) w = Ok tt /\
      the_dom (exec (Tag.set_parent h (VTag h)) w) = the_dom w /\
      tags (exec (Tag.set_parent h (VTag h)) w) = tags w /\
      (truthy (debug o) = false -> exec (Tag.set_parent h (VTag h)) w = w) /\
      (truthy (debug o) = true ->
       console (exec (Tag.set_parent h (VTag h)) w)
       = console w ++ [Warn "Unexpected input: undefined"; Trace])).
Proof.
  split; [exact legacy_set_parent_own_node|].
  split; [exact legacy_set_parent_handle|].
  split.
  - intros w h o n Hh He. unfold eval, exec.
    rewrite (Tag_set_parent_own_node w h o n Hh He). unfold reported. cbn.
    destruct (truthy (debug o)); repeat split; intros; congruence.
  - intros w h o n Hh He. unfold eval, exec.
    rewrite (Tag_set_parent_handle w h o n Hh He). unfold reported. cbn.
    destruct (truthy (debug o)); repeat split; intros; congruence.
Qed.

(** C5 as stated fails: the attempt is not always rejected.  On a [Tag]
    without [debug], assigning the handle itself or its own element returns
    and leaves nothing behind, not even a message.  On a legacy handle the
    first assignment of its own node raises [HierarchyRequestError], and the
    same assignment again returns. *)
Lemma self_parenting_is_not_always_rejected :
  Tag.set_parent 0 (VTag 0) tag_world = (Ok tt, tag_world) /\
  Tag.set_parent 0 (VNode 4) tag_world = (Ok tt, tag_world) /\
  eval (TagLegacy.set_parent 0 (VNode 4)) child_world
  = Throw HierarchyRequestError /\
  (let w1 := exec (TagLegacy.set_parent 0 (VNode 4)) child_world in
   eval (TagLegacy.set_parent 0 (VNode 4)) w1 = Ok tt /\
   the_dom (exec (TagLegacy.set_parent 0 (VNode 4)) w1) = the_dom child_world).
Proof. repeat split. Qed.

(** ** Removal, and what a handle without node does *)

Lemma children_agree_spec (ns : list Node) (m c : node) :
  children_agree ns = true ->
  In c (children_of ns m) -> parent_of ns c = Some m.
Proof.
  intros H Hc. unfold children_agree in H.
  rewrite forallb_forall in H.
  assert (Hm : m < length ns).
  { unfold children_of in Hc. destruct (ns !! m) eqn:E; [|destruct Hc].
    apply lookup_lt_Some in E. exact E. }
  specialize (H m). rewrite in_seq in H.
  assert (H' := H ltac:(lia)). rewrite forallb_forall in H'.
  specialize (H' c Hc). destruct (parent_of ns c); [|discriminate].
  apply Nat.eqb_eq in H'. congruence.
Qed.

Lemma not_In_filter_out (n : node) (l : list node) :
  ~ In n (List.filter (fun c => negb (c =? n)) l).
Proof.
  intros H. apply filter_In in H as [_ H].
  rewrite Nat.eqb_refl in H. discriminate.
Qed.

Lemma children_of_detach (ns : list Node) (n m : node) :
  children_of (detach n ns) m =
  if decide (parent_of ns n = Some m)
  then List.filter (fun c => negb (c =? n)) (children_of ns m)
  else children_of ns m.
Proof.
  unfold detach. destruct (parent_of ns n) as [p|] eqn:E.
  - unfold children_of.
    assert (forall (X : list Node), 
      match alter (set_parentNode None) n X !! m with
      | Some r => childNodes r | None => [] end
      = match X !! m with Some r => childNodes r | None => [] end) as Hstep.
    { intros X. rewrite list_lookup_alter. destruct (decide (n = m)) as [->|];
        [|reflexivity]. destruct (X !! m); reflexivity. }
    rewrite Hstep. rewrite list_lookup_alter.
    destruct (decide (p = m)) as [->|Hne].
    + rewrite decide_True by reflexivity. destruct (ns !! m); reflexivity.
    + rewrite decide_False by congruence. reflexivity.
  - rewrite decide_False by congruence. reflexivity.
Qed.

Lemma parent_of_detach (ns : list Node) (n : node) :
  parent_of (detach n ns) n = None.
Proof.
  unfold detach. destruct (parent_of ns n) as [p|] eqn:E; [|exact E].
  unfold parent_of. rewrite list_lookup_alter_eq.
  destruct (alter _ p ns !! n); reflexivity.
Qed.

(** After [detach] the node is in no child list, when it was in none but its
    parent's. *)
Lemma detach_detached (ns : list Node) (n m : node) :
  children_agree ns = true -> ~ In n (children_of (detach n ns) m).
Proof.
  intros Hc. rewrite children_of_detach. destruct (decide _) as [E|E].
  - apply not_In_filter_out.
  - intros Hin. apply E. apply children_agree_spec; assumption.
Qed.

Lemma legacy_remove_detaches
    (w : world) (h : loc) (o : TagLegacy_object) (n : node) :
  legacy w !! h = Some o -> _tag o = NRef n ->
  is_element (nodes (the_dom w)) n = true ->
  children_agree (nodes (the_dom w)) = true ->
  exists w',
    TagLegacy.remove h w = (Ok tt, w') /\
    legacy w' !! h = Some (with_tag (NPrim PNull) o) /\
    parent_of (nodes (the_dom w')) n = None /\
    forall m : node, ~ In n (children_of (nodes (the_dom w')) m).
Proof.
  intros Hh Ht Hel Hc. apply is_element_kind in Hel as [l Hl].
  unfold TagLegacy.remove.
  repeat (progress (run; rewrite ?Hh, ?Ht, ?Hl)).
  eexists. split; [reflexivity|]. cbn.
  rewrite list_lookup_alter_eq, Hh. split; [reflexivity|]. split.
  - apply parent_of_detach.
  - intros m. apply detach_detached. exact Hc.
Qed.

(** Every operation of a legacy handle that reads its node raises
    [TypeError] once the reference is [null]. *)
Lemma legacy_without_node_fails
    (w : world) (h : loc) (o : TagLegacy_object) :
  legacy w !! h = Some o -> _tag o = NPrim PNull ->
  eval (TagLegacy.get_type h) w = Throw TypeError /\
  eval (TagLegacy.get_attributes h) w = Throw TypeError /\
  eval (TagLegacy.get_children h) w = Throw TypeError /\
  eval (TagLegacy.get_parent h) w = Throw TypeError /\
  eval (TagLegacy.get_relatives h) w = Throw TypeError /\
  (forall pos, eval (TagLegacy.toPosition h pos) w = Throw TypeError) /\
  eval (TagLegacy.remove h) w = Throw TypeError /\
  (forall tag, eval (TagLegacy.reference h tag) w = Throw TypeError) /\
  (forall type, type <> _type o ->
                eval (TagLegacy.set_type h type) w = Throw TypeError).
Proof.
  intros Hh Ht.
  unfold eval, TagLegacy.get_type, TagLegacy.get_attributes,
    TagLegacy.get_children, TagLegacy.get_relatives, TagLegacy.toPosition,
    TagLegacy.reference, TagLegacy.remove, TagLegacy.set_type,
    TagLegacy.set_type_with.
  repeat split; intros;
    unfold TagLegacy.get_relatives, TagLegacy.get_attributes,
      TagLegacy.get_parent, TagLegacy.get_tag;
    repeat (progress (run; rewrite ?Hh, ?Ht)); try reflexivity.
  destruct (String.eqb_spec type (_type o)) as [E|E]; [contradiction|].
  repeat (progress (run; rewrite ?Hh, ?Ht)). reflexivity.
Qed.

(** [fix()] gives a [Tag] without element a new element, named by the stored
    name, or [div]. *)
Lemma Tag_fix_recreates (w : world) (h : loc) (o : Tag_object) (name : string) :
  tags w !! h = Some o ->
  truthy_nodeval (element o) = false ->
  name = match stored_name o with
         | Some s => if String.eqb s EmptyString then "div" else s
         | None => "div"
         end ->
  valid_element_local_name name = true ->
  exists w',
    Tag.fix_ h w = (Ok h, w') /\
    (exists o', tags w' !! h = Some o' /\
                element o' = NRef (fresh (the_dom w))) /\
    nodes (the_dom w') =
      nodes (the_dom w) ++ [mkNode (Element (ascii_lowercase name)) [] None []].
Proof.
  intros Hh He -> Hv. unfold Tag.fix_.
  repeat (progress (run; rewrite ?Hh, ?He)).
  rewrite (createElement_valid _ _ Hv).
  repeat (progress (run; rewrite ?Hh, ?He)).
  destruct (truthy (debug o)); cbn;
    (eexists; split; [reflexivity|]; cbn; split; [|reflexivity];
     rewrite list_lookup_alter_eq, Hh; eexists; split; reflexivity).
Qed.

(** C6, as amended: [remove()] on a legacy handle leaves the reference
    [null] and the node in no child list.  A legacy handle never makes a new
    node: with the reference [null], reading [type], [attributes], [children],
    [parent] or [relatives] and calling [toPosition], [remove], [reference] or
    the [type] setter raise [TypeError].  Recreation is what [fix()] of the
    current [Tag] does: a handle without element gets a new element named by
    the stored name, or [div]. *)
Theorem removal_then_no_recreation_on_legacy :
  (forall (w : world) (h : loc) (o : TagLegacy_object) (n : node),
      legacy w !! h = Some o -> _tag o = NRef n ->
      is_element (nodes (the_dom w)) n = true ->
      children_agree (nodes (the_dom w)) = true ->
      exists w',
        TagLegacy.remove h w = (Ok tt, w') /\
        legacy w' !! h = Some (with_tag (NPrim PNull) o) /\
        parent_of (nodes (the_dom w')) n = None /\
        forall m : node, ~ In n (children_of (nodes (the_dom w')) m))
  /\
  (forall (w : world) (h : loc) (o : TagLegacy_object),
      legacy w !! h = Some o -> _tag o = NPrim PNull ->
      eval (TagLegacy.get_type h) w = Throw TypeError /\
      eval (TagLegacy.get_attributes h) w = Throw TypeError /\
      eval (TagLegacy.get_children h) w = Throw TypeError /\
      eval (TagLegacy.get_parent h) w = Throw TypeError /\
      eval (TagLegacy.get_relatives h) w = Throw TypeError /\
      (forall pos, eval (TagLegacy.toPosition h pos) w = Throw TypeError) /\
      eval (TagLegacy.remove h) w = Throw TypeError /\
      (forall tag, eval (TagLegacy.reference h tag) w = Throw TypeError) /\
      (forall type, type <> _type o ->
                    eval (TagLegacy.set_type h type) w = Throw TypeError))
  /\
  (forall (w : world) (h : loc) (o : Tag_object) (name : string),
      tags w !! h = Some o ->
      truthy_nodeval (element o) = false ->
      name = match stored_name o with
             | Some s => if String.eqb s EmptyString then "div" else s
             | None => "div"
             end ->
      valid_element_local_name name = true ->
      exists w',
        Tag.fix_ h w = (Ok h, w') /\
        (exists o', tags w' !! h = Some o' /\
                    element o' = NRef (fresh (the_dom w))) /\
        nodes (the_dom w') =
          nodes (the_dom w)
            ++ [mkNode (Element (ascii_lowercase name)) [] None []]).
Proof.
  split; [exact legacy_remove_detaches|].
  split; [exact legacy_without_node_fails|exact Tag_fix_recreates].
Qed.

(** C6 as stated fails: after [remove()], reading [type] raises [TypeError]
    instead of recreating a node. *)
Lemma removed_legacy_handle_read_fails :
  eval (h <- TagLegacy.constructor "p" (OPrim PUndefined) (VPrim PUndefined) None ;;
        TagLegacy.remove h ;;
        TagLegacy.get_type h) start
  = Throw TypeError.
Proof. reflexivity. Qed.

(** ** Case of names *)

Lemma lower_upper_lower_char (c : ascii) :
  lower_char (upper_char (lower_char c)) = lower_char c.
Proof. destruct c as [[] [] [] [] [] [] [] []]; reflexivity. Qed.

Lemma toLowerCase_tagName (s : string) :
  toLowerCase (ascii_uppercase (ascii_lowercase s)) = ascii_lowercase s.
Proof.
  induction s as [|c s IH]; cbn; [reflexivity|].
  rewrite lower_upper_lower_char. f_equal. exact IH.
Qed.

Lemma lower_char_fixed (c : ascii) :
  lower_char c = c <-> is_upper c = false.
Proof.
  destruct c as [[] [] [] [] [] [] [] []]; vm_compute; split; congruence.
Qed.

Lemma ascii_lowercase_fixed (s : string) :
  ascii_lowercase s = s <-> lowercased s = true.
Proof.
  induction s as [|c s IH]; cbn; [tauto|].
  unfold lowercased in *. cbn. rewrite andb_true_iff, negb_true_iff.
  rewrite <- IH, <- lower_char_fixed. split.
  - intros H. injection H as H1 H2. split; assumption.
  - intros [H1 H2]. unfold ascii_lowercase in H2. cbn. rewrite H1.
    f_equal. exact H2.
Qed.

(** ** What a computation preserves *)


Lemma preserves_bind {A B} (I : world -> Prop) (m : M A) (k : A -> M B) :
  preserves I m -> (forall a, preserves I (k a)) -> preserves I (bind m k).
Proof.
  intros Hm Hk w Hw. unfold exec, bind. specialize (Hm w Hw). unfold exec in Hm.
  destruct (m w) as [[a|e] w1]; cbn in *; [|exact Hm].
  apply Hk. exact Hm.
Qed.

Lemma preserves_ret {A} (I : world -> Prop) (a : A) : preserves I (ret a).
Proof. intros w Hw. exact Hw. Qed.

Lemma preserves_throw {A} (I : world -> Prop) (e : exn) :
  preserves I (@throw A e).
Proof. intros w Hw. exact Hw. Qed.

Lemma preserves_for_each {A} (I : world -> Prop) (l : list A) (body : A -> M unit) :
  (forall x, preserves I (body x)) -> preserves I (for_each l body).
Proof.
  intros Hb. induction l as [|x l IH]; cbn.
  - apply preserves_ret.
  - apply preserves_bind; [apply Hb|intros _; exact IH].
Qed.

Lemma preserves_when (I : world -> Prop) (b : bool) (m : M unit) :
  preserves I m -> preserves I (when b m).
Proof. intros H. destruct b; [exact H|apply preserves_ret]. Qed.

Lemma preserves_read {A} (I : world -> Prop) (m : M A) :
  (forall w, exec m w = w) -> preserves I m.
Proof. intros H w Hw. rewrite H. exact Hw. Qed.

(** *** Kinds are stable *)

Lemma node_kind_alter (f : Node -> Node) (ns : list Node) (i n : node) :
  (forall r, kind (f r) = kind r) ->
  node_kind (alter f i ns) n = node_kind ns n.
Proof.
  intros Hf. unfold node_kind. rewrite list_lookup_alter.
  destruct (decide (i = n)) as [->|]; [|reflexivity].
  destruct (ns !! n); cbn; [rewrite Hf|]; reflexivity.
Qed.

Lemma node_kind_detach (ns : list Node) (n m : node) :
  node_kind (detach n ns) m = node_kind ns m.
Proof.
  unfold detach. destruct (parent_of ns n); [|reflexivity].
  rewrite !node_kind_alter by reflexivity. reflexivity.
Qed.

Lemma node_kind_attach (ns : list Node) (p n m : node) :
  node_kind (attach p n ns) m = node_kind ns m.
Proof. unfold attach. rewrite !node_kind_alter by reflexivity. reflexivity. Qed.

Lemma node_kind_move (ns : list Node) (p n m : node) :
  node_kind (move p n ns) m = node_kind ns m.
Proof. unfold move. rewrite node_kind_attach, node_kind_detach. reflexivity. Qed.

Lemma node_kind_insert_last (ns : list Node) (p n m : node) :
  node_kind (insert_last p n ns) m = node_kind ns m.
Proof.
  unfold insert_last.
  assert (H : forall (l : list node) (acc : list Node),
             node_kind (fold_left (fun acc c => move p c acc) l acc) m
             = node_kind acc m).
  { induction l as [|c l IH]; intros acc; cbn; [reflexivity|].
    rewrite IH. apply node_kind_move. }
  destruct (node_kind ns n) as [[]|]; try apply node_kind_move. apply H.
Qed.

Lemma node_kind_app (ns : list Node) (r : Node) (n : node) (k : nodeKind) :
  node_kind ns n = Some k -> node_kind (ns ++ [r]) n = Some k.
Proof.
  unfold node_kind. intros H. destruct (ns !! n) as [x|] eqn:E; [|discriminate].
  rewrite (lookup_app_l_Some _ _ _ _ E). exact H.
Qed.


Lemma holds_set_dom (h : loc) (t : node) (k : nodeKind) (w : world) (d : dom) :
  holds h t k w -> node_kind (nodes d) t = Some k -> holds h t k (set_dom d w).
Proof. intros [Ho _] Hk. split; [exact Ho|exact Hk]. Qed.

Lemma preserves_appendChild_node (h : loc) (t : node) (k : nodeKind) (p n : node) :
  preserves (holds h t k) (run_dom (appendChild_node p n)).
Proof.
  intros w Hw. unfold exec, run_dom, appendChild_node.
  destruct (pre_insertion_error _ p n); cbn.
  - destruct w; exact Hw.
  - apply holds_set_dom; [exact Hw|]. cbn. rewrite node_kind_insert_last.
    apply Hw.
Qed.

Lemma preserves_createTextNode (h : loc) (t : node) (k : nodeKind) (s : string) :
  preserves (holds h t k) (document_createTextNode s).
Proof.
  intros w Hw. unfold exec, document_createTextNode, run_dom. cbn.
  apply holds_set_dom; [exact Hw|]. cbn. apply node_kind_app. apply Hw.
Qed.

Lemma preserves_appendChild (h : loc) (t : node) (k : nodeKind) (v u : jsval) :
  preserves (holds h t k) (appendChild v u).
Proof.
  unfold appendChild. apply preserves_bind.
  - destruct v; try apply preserves_throw; apply preserves_ret.
  - intros p. apply preserves_bind.
    + destruct u; try apply preserves_throw; apply preserves_ret.
    + intros n. apply preserves_appendChild_node.
Qed.

Lemma preserves_setAttribute (h : loc) (t : node) (k : nodeKind)
    (v : nodeval) (name : string) (value : prim) :
  preserves (holds h t k) (element_setAttribute v name value).
Proof.
  unfold element_setAttribute. apply preserves_bind.
  - destruct v as [|n]; cbn; [apply preserves_throw|apply preserves_ret].
  - intros n w Hw. unfold exec, run_dom, setAttribute.
    destruct (is_element _ n); [|destruct w; exact Hw].
    destruct (valid_attribute_local_name name); [|destruct w; exact Hw].
    cbn. apply holds_set_dom; [exact Hw|]. cbn.
    rewrite node_kind_alter by reflexivity. apply Hw.
Qed.

Lemma preserves_legacy_get {A} (I : world -> Prop) (h : loc)
    (f : TagLegacy_object -> A) :
  preserves I (legacy_get h f).
Proof.
  apply preserves_read. intros w. unfold exec, legacy_get.
  destruct (legacy w !! h); reflexivity.
Qed.

Lemma preserves_legacy_set_parent (h this : loc) (t : node) (k : nodeKind)
    (v : jsval) :
  preserves (holds h t k) (legacy_set this (with_parent v)).
Proof.
  intros w [[o [Ho Ht]] Hk]. unfold exec, legacy_set. cbn. split; [|exact Hk].
  cbn. rewrite list_lookup_alter. destruct (decide (this = h)) as [->|].
  - rewrite Ho. eexists. split; [reflexivity|exact Ht].
  - eauto.
Qed.

Lemma bind_inv {A B} (m : M A) (k : A -> M B) (w w' : world) (b : B) :
  bind m k w = (Ok b, w') ->
  exists a w1, m w = (Ok a, w1) /\ k a w1 = (Ok b, w').
Proof.
  unfold bind. destruct (m w) as [[a|e] w1]; [eauto|discriminate].
Qed.

Lemma preserves_write_attributes (h this : loc) (t : node) (k : nodeKind) :
  preserves (holds h t k) (TagLegacy.write_attributes this).
Proof.
  unfold TagLegacy.write_attributes.
  apply preserves_bind; [apply preserves_legacy_get|intros a].
  apply preserves_when. apply preserves_bind.
  - apply preserves_read. intros w. unfold exec.
    destruct a as [[]|]; reflexivity.
  - intros l. apply preserves_for_each. intros x.
    apply preserves_bind; [apply preserves_legacy_get|intros v].
    apply preserves_setAttribute.
Qed.

Lemma preserves_attach_to_parent (h this : loc) (t : node) (k : nodeKind) :
  preserves (holds h t k) (TagLegacy.attach_to_parent this).
Proof.
  unfold TagLegacy.attach_to_parent.
  apply preserves_bind; [apply preserves_legacy_get|intros p].
  apply preserves_bind.
  { apply preserves_when. apply preserves_bind.
    - apply preserves_read. reflexivity.
    - intros b. apply preserves_legacy_set_parent. }
  intros _. apply preserves_bind; [apply preserves_legacy_get|intros p'].
  apply preserves_bind; [apply preserves_legacy_get|intros v].
  apply preserves_bind; [apply preserves_appendChild|intros _].
  apply preserves_ret.
Qed.

Lemma preserves_append_child (h this : loc) (t : node) (k : nodeKind)
    (x : jsval) :
  preserves (holds h t k) (TagLegacy.append_child this x).
Proof.
  unfold TagLegacy.append_child.
  apply preserves_bind; [apply preserves_legacy_get|intros v].
  assert (Hdefault : preserves (holds h t k)
                       (appendChild (of_nodeval v) x ;; ret tt)).
  { apply preserves_bind; [apply preserves_appendChild|].
    intros _; apply preserves_ret. }
  destruct x as [[]| | | | |]; try exact Hdefault.
  apply preserves_bind.
  { destruct v; cbn; [apply preserves_throw|apply preserves_ret]. }
  intros recv. apply preserves_bind; [apply preserves_createTextNode|].
  intros text. apply preserves_bind; [apply preserves_appendChild_node|].
  intros _. apply preserves_ret.
Qed.

Lemma preserves_append_children (h this : loc) (t : node) (k : nodeKind)
    (children_ : option loc) :
  preserves (holds h t k) (TagLegacy.append_children this children_).
Proof.
  unfold TagLegacy.append_children.
  destruct children_ as [l|]; [|apply preserves_ret].
  apply preserves_bind; [apply preserves_read; reflexivity|intros elems].
  apply preserves_for_each. intros x. apply preserves_append_child.
Qed.

(** Whatever the other arguments, a constructor call that returns leaves the
    handle on an element named by the type in lower case. *)
Lemma legacy_constructor_holds
    (w w' : world) (type : string) (attributes : objval) (parent : jsval)
    (children_ : option loc) (h : loc) :
  TagLegacy.constructor type attributes parent children_ w = (Ok h, w') ->
  exists t, holds h t (Element (ascii_lowercase type)) w'.
Proof.
  unfold TagLegacy.constructor. intros H.
  erewrite bind_ok in H by reflexivity.
  erewrite bind_ok in H by reflexivity.
  cbn [legacy set_console] in H.
  erewrite bind_ok in H by (apply legacy_get_ok; cbn; apply lookup_last).
  cbn [_type] in H. unfold bind at 1 in H.
  unfold document_createElement, run_dom, createElement in H.
  cbn [the_dom set_legacy set_console] in H.
  destruct (valid_element_local_name type); [|discriminate].
  erewrite bind_ok in H by reflexivity.
  apply bind_inv in H as (u6 & w6 & H6 & H).
  apply bind_inv in H as (u7 & w7 & H7 & H).
  apply bind_inv in H as (u8 & w8 & H8 & H).
  injection H as <- <-.
  exists (fresh (the_dom w)).
  assert (P6 := preserves_write_attributes (length (legacy w)) (length (legacy w))
                  (fresh (the_dom w)) (Element (ascii_lowercase type))).
  assert (P7 := preserves_attach_to_parent (length (legacy w)) (length (legacy w))
                  (fresh (the_dom w)) (Element (ascii_lowercase type))).
  assert (P8 := preserves_append_children (length (legacy w)) (length (legacy w))
                  (fresh (the_dom w)) (Element (ascii_lowercase type)) children_).
  unfold preserves, exec in *.
  specialize (P8 w7). rewrite H8 in P8. apply P8.
  specialize (P7 w6). rewrite H7 in P7. apply P7.
  match type of H6 with ?m ?x = _ => specialize (P6 x) end.
  rewrite H6 in P6. apply P6. split.
  - cbn. rewrite alter_last, lookup_last. eexists. split; reflexivity.
  - cbn. unfold node_kind, fresh. rewrite lookup_last. reflexivity.
Qed.

Lemma legacy_get_type_holds (w : world) (h : loc) (t : node) (l : string) :
  holds h t (Element l) w ->
  exists w', TagLegacy.get_type h w = (Ok (toLowerCase (ascii_uppercase l)), w').
Proof.
  intros [[o [Ho Ht]] Hk]. unfold TagLegacy.get_type, TagLegacy.get_tag.
  repeat (progress (run; rewrite ?Ho, ?Ht)).
  unfold tagName. rewrite Hk.
  repeat (progress (run; rewrite ?Ho, ?Ht)).
  eexists. reflexivity.
Qed.

Lemma is_element_app (ns : list Node) (r : Node) (n : node) :
  is_element ns n = true -> is_element (ns ++ [r]) n = true.
Proof.
  intros H. apply is_element_kind in H as [l Hl].
  unfold is_element. rewrite (node_kind_app _ _ _ _ Hl). reflexivity.
Qed.

Lemma is_element_fresh (ns : list Node) (l : string) (a : list (string * string))
    (p : option node) (c : list node) :
  is_element (ns ++ [mkNode (Element l) a p c]) (length ns) = true.
Proof. unfold is_element, node_kind. rewrite lookup_last. reflexivity. Qed.

(** With no other argument the constructor returns, on every page. *)
Lemma legacy_constructor_returns (w : world) (type : string) :
  valid_element_local_name type = true ->
  body_in_document (the_dom w) = true ->
  exists h w',
    TagLegacy.constructor type (OPrim PUndefined) (VPrim PUndefined) None w
    = (Ok h, w').
Proof.
  intros Hv Hb. apply body_in_document_spec in Hb as (Hel & Htree & _ & _).
  unfold TagLegacy.constructor, TagLegacy.write_attributes,
    TagLegacy.attach_to_parent, TagLegacy.append_children. run.
  rewrite (createElement_valid _ _ Hv). run.
  rewrite appendChild_node_element; cbn.
  - run. eexists. eexists. reflexivity.
  - apply is_element_app. exact Hel.
  - apply is_element_fresh.
  - apply fresh_not_ancestor. exact Htree.
Qed.

(** C7, as amended: for every string the platform accepts as an element name,
    constructing a legacy handle with that type and reading [type] returns the
    string in lower case, which is the string itself exactly when it has no
    upper-case letter.  The call with no other argument returns on every page;
    with other arguments, whenever the constructor returns.  (The string is
    taken to be ASCII, where [toLowerCase] is the ASCII mapping.) *)
Theorem legacy_type_reads_lower_case :
  (forall (w : world) (type : string),
      valid_element_local_name type = true ->
      body_in_document (the_dom w) = true ->
      exists h w',
        TagLegacy.constructor type (OPrim PUndefined) (VPrim PUndefined) None w
        = (Ok h, w'))
  /\
  (forall (w w' : world) (type : string) (attributes : objval) (parent : jsval)
          (children_ : option loc) (h : loc),
      only_ascii type = true ->
      TagLegacy.constructor type attributes parent children_ w = (Ok h, w') ->
      exists w'',
        TagLegacy.get_type h w' = (Ok (ascii_lowercase type), w''))
  /\
  (forall type : string, ascii_lowercase type = type <-> lowercased type = true).
Proof.
  split; [exact legacy_constructor_returns|]. split.
  - intros w w' type a p c h _ H.
    apply legacy_constructor_holds in H as [t Ht].
    apply legacy_get_type_holds in Ht as [w'' Hw].
    rewrite toLowerCase_tagName in Hw. eauto.
  - exact ascii_lowercase_fixed.
Qed.

Lemma legacy_type_reads_lower_case_witness :
  (exists h w',
     TagLegacy.constructor "p" (OPrim PUndefined) (VPrim PUndefined) None start
     = (Ok h, w'))
  /\
  (exists w'', TagLegacy.get_type 0 child_world = (Ok "p", w'')).
Proof.
  split.
  - exact (proj1 legacy_type_reads_lower_case start "p" eq_refl eq_refl).
  - exact (proj1 (proj2 legacy_type_reads_lower_case) start child_world "p"
             (OPrim PUndefined) (VPrim PUndefined) None 0 eq_refl eq_refl).
Defined.

(** C7 as stated fails: ["DIV"] is accepted as a type, and [type] then reads
    ["div"]. *)
Lemma legacy_type_of_upper_case_name :
  valid_element_local_name "DIV" = true /\
  eval (h <- TagLegacy.constructor "DIV" (OPrim PUndefined) (VPrim PUndefined) None ;;
        TagLegacy.get_type h) start = Ok "div" /\
  "div" <> "DIV".
Proof. repeat split. discriminate. Qed.

(** ** Attribute lists and objects *)

Lemma get_attr_set_attr_eq (k v : string) (l : list (string * string)) :
  get_attr k (set_attr k v l) = Some v.
Proof.
  induction l as [|[k' v'] l IH]; cbn.
  - rewrite String.eqb_refl. reflexivity.
  - destruct (String.eqb_spec k' k) as [->|Hne]; cbn.
    + rewrite String.eqb_refl. reflexivity.
    + destruct (String.eqb_spec k' k); [contradiction|exact IH].
Qed.

Lemma get_attr_set_attr_ne (k k' v : string) (l : list (string * string)) :
  k <> k' -> get_attr k' (set_attr k v l) = get_attr k' l.
Proof.
  intros Hne. induction l as [|[k0 v0] l IH]; cbn.
  - destruct (String.eqb_spec k k'); [contradiction|reflexivity].
  - destruct (String.eqb_spec k0 k) as [->|H0]; cbn.
    + destruct (String.eqb_spec k k'); [contradiction|reflexivity].
    + rewrite IH. reflexivity.
Qed.

Lemma In_names_set_attr (k k' v : string) (l : list (string * string)) :
  In k' (map fst l) -> In k' (map fst (set_attr k v l)).
Proof.
  induction l as [|[k0 v0] l IH]; cbn; [tauto|].
  destruct (String.eqb_spec k0 k); cbn; intros [H|H]; auto.
Qed.

Lemma get_attr_In (k : string) (l : list (string * string)) :
  In k (map fst l) <-> exists v, get_attr k l = Some v.
Proof.
  induction l as [|[k0 v0] l IH]; cbn.
  - split; [tauto|intros [v Hv]; discriminate].
  - destruct (String.eqb_spec k0 k) as [->|Hne].
    + split; eauto.
    + rewrite <- IH. split; [intros [H|H]; [contradiction|exact H]|auto].
Qed.

Lemma write_attrs_cons (kv : string * prim) (entries : object)
    (l : list (string * string)) :
  write_attrs (kv :: entries) l
  = write_attrs entries
      (set_attr (ascii_lowercase (fst kv)) (ToString (snd kv)) l).
Proof. reflexivity. Qed.

(** What [getAttribute] finds after the entries were written. *)
Lemma get_attr_write_attrs (name : string) (entries : object)
    (l : list (string * string)) :
  get_attr name (write_attrs entries l)
  = match written name entries with
    | Some v => Some v
    | None => get_attr name l
    end.
Proof.
  revert l. induction entries as [|kv entries IH]; intros l; [reflexivity|].
  rewrite write_attrs_cons, IH. cbn.
  destruct (written name entries); [reflexivity|].
  destruct (String.eqb_spec (ascii_lowercase (fst kv)) name) as [<-|Hne].
  - apply get_attr_set_attr_eq.
  - apply get_attr_set_attr_ne. exact Hne.
Qed.

Lemma In_names_write_attrs (k : string) (entries : object)
    (l : list (string * string)) :
  In k (map fst l) -> In k (map fst (write_attrs entries l)).
Proof.
  revert l. induction entries as [|kv entries IH]; intros l H; [exact H|].
  rewrite write_attrs_cons. apply IH. apply In_names_set_attr. exact H.
Qed.

Lemma written_absent (name : string) (entries : object) :
  ~ In name (map (fun kv => ascii_lowercase (fst kv)) entries) ->
  written name entries = None.
Proof.
  induction entries as [|kv entries IH]; cbn; [reflexivity|].
  intros H. rewrite IH by tauto.
  destruct (String.eqb_spec (ascii_lowercase (fst kv)) name); [|reflexivity].
  exfalso. apply H. left. assumption.
Qed.

Lemma written_present (k : string) (v : prim) (entries : object) :
  NoDup (map (fun kv => ascii_lowercase (fst kv)) entries) ->
  In (k, v) entries ->
  written (ascii_lowercase k) entries = Some (ToString v).
Proof.
  induction entries as [|kv entries IH]; cbn; [tauto|].
  intros Hnd Hin. apply NoDup_cons in Hnd as [Hnotin Hnd].
  destruct Hin as [->|Hin].
  - cbn. rewrite written_absent by (rewrite <- list_elem_of_In; exact Hnotin).
    rewrite String.eqb_refl. reflexivity.
  - rewrite (IH Hnd Hin). reflexivity.
Qed.

(** *** Properties of objects *)

Lemma own_property_replace (k k' : string) (v : prim) (o : object) :
  own_property k' (replace_property k v o)
  = if String.eqb k k'
    then match own_property k o with Some _ => Some v | None => None end
    else own_property k' o.
Proof.
  induction o as [|[k0 v0] o IH]; cbn.
  - destruct (String.eqb k k'); reflexivity.
  - destruct (String.eqb_spec k0 k) as [->|H0]; cbn.
    + destruct (String.eqb_spec k k') as [->|H1]; [reflexivity|reflexivity].
    + rewrite IH. destruct (String.eqb_spec k k') as [<-|H1]; [|reflexivity].
      destruct (String.eqb_spec k0 k); [contradiction|reflexivity].
Qed.

Lemma own_property_add_index (i : N) (k k' : string) (v : prim) (o : object) :
  own_property k o = None ->
  own_property k' (add_index_property i k v o)
  = if String.eqb k k' then Some v else own_property k' o.
Proof.
  induction o as [|[k0 v0] o IH]; cbn.
  - destruct (String.eqb k k'); reflexivity.
  - destruct (String.eqb_spec k0 k) as [->|H0]; [discriminate|]. intros Hk.
    destruct (array_index k0) as [j|]; [destruct (j <? i)%N|]; cbn;
      try rewrite (IH Hk);
      destruct (String.eqb_spec k0 k'), (String.eqb_spec k k');
      try reflexivity; congruence.
Qed.

Lemma own_property_app (k k' : string) (v : prim) (o : object) :
  own_property k' (o ++ [(k, v)])
  = match own_property k' o with
    | Some x => Some x
    | None => if String.eqb k k' then Some v else None
    end.
Proof.
  induction o as [|[k0 v0] o IH]; cbn; [reflexivity|].
  destruct (String.eqb k0 k'); [reflexivity|exact IH].
Qed.

Lemma own_property_set_eq (k : string) (v : prim) (o : object) :
  k <> "__proto__" ->
  own_property k (set_property k v o) = Some v.
Proof.
  intros Hk. unfold set_property. destruct (own_property k o) eqn:E.
  - rewrite own_property_replace, String.eqb_refl, E. reflexivity.
  - destruct (String.eqb_spec k "__proto__"); [contradiction|].
    destruct (array_index k).
    + rewrite own_property_add_index, String.eqb_refl by exact E. reflexivity.
    + rewrite own_property_app, E, String.eqb_refl. reflexivity.
Qed.

(** Assigning to [__proto__] adds no own property. *)
Lemma set_property_proto (v : prim) (o : object) :
  own_property "__proto__" o = None -> set_property "__proto__" v o = o.
Proof. intros H. unfold set_property. rewrite H. reflexivity. Qed.

Lemma own_property_set_ne (k k' : string) (v : prim) (o : object) :
  k <> k' -> own_property k' (set_property k v o) = own_property k' o.
Proof.
  intros Hne. unfold set_property. destruct (own_property k o) eqn:E.
  - rewrite own_property_replace.
    destruct (String.eqb_spec k k'); [contradiction|reflexivity].
  - destruct (String.eqb k "__proto__"); [reflexivity|].
    destruct (array_index k).
    + rewrite own_property_add_index by exact E.
      destruct (String.eqb_spec k k'); [contradiction|reflexivity].
    + rewrite own_property_app.
      destruct (String.eqb_spec k k'); [contradiction|].
      destruct (own_property k' o); reflexivity.
Qed.

(** An object built by assigning [g k] to every key [k] of a list: it has
    every key of the list but [__proto__]. *)
Lemma own_property_built {A} (key : A -> string) (g : string -> prim)
    (l : list A) (init : object) (k : string) :
  own_property "__proto__" init = None ->
  own_property k
    (fold_left (fun acc a => set_property (key a) (g (key a)) acc) l init)
  = if existsb (fun a => String.eqb (key a) k) l
       && negb (String.eqb k "__proto__")
    then Some (g k)
    else own_property k init.
Proof.
  revert init. induction l as [|a l IH]; intros init Hinit; cbn;
    [reflexivity|].
  assert (Hnext : own_property "__proto__"
                    (set_property (key a) (g (key a)) init) = None).
  { destruct (String.eqb_spec (key a) "__proto__") as [->|Hne].
    - rewrite set_property_proto by exact Hinit. exact Hinit.
    - rewrite own_property_set_ne by exact Hne. exact Hinit. }
  rewrite (IH _ Hnext).
  destruct (String.eqb_spec k "__proto__") as [Ek|Hk].
  - rewrite !andb_false_r. rewrite Ek, Hnext, Hinit. reflexivity.
  - rewrite !andb_true_r. destruct (existsb _ l) eqn:E.
    + rewrite orb_true_r. reflexivity.
    + rewrite orb_false_r. destruct (String.eqb_spec (key a) k) as [<-|Hne].
      * apply own_property_set_eq. exact Hk.
      * apply own_property_set_ne. exact Hne.
Qed.

Lemma existsb_key_In {V} (k : string) (l : list (string * V)) :
  In k (map fst l) -> existsb (fun a => String.eqb (fst a) k) l = true.
Proof.
  intros H. apply in_map_iff in H as [a [<- Ha]].
  apply existsb_exists. exists a. split; [exact Ha|apply String.eqb_refl].
Qed.

(** ** The loops over attributes *)

Lemma set_dom_the_dom (w : world) : set_dom (the_dom w) w = w.
Proof. destruct w; reflexivity. Qed.

Lemma set_nodes_nodes (d : dom) : set_nodes (nodes d) d = d.
Proof. destruct d; reflexivity. Qed.

Lemma update_attrs_id (n : node) (d : dom) : update_attrs n (fun l => l) d = d.
Proof.
  unfold update_attrs. rewrite list_alter_id; [apply set_nodes_nodes|].
  intros r. destruct r; reflexivity.
Qed.

Lemma update_attrs_update_attrs (n : node)
    (f g : list (string * string) -> list (string * string)) (d : dom) :
  update_attrs n f (update_attrs n g d) = update_attrs n (fun l => f (g l)) d.
Proof.
  unfold update_attrs. cbn. rewrite list_alter_alter_eq. reflexivity.
Qed.

Lemma attrs_of_update_attrs (n : node)
    (f : list (string * string) -> list (string * string)) (d : dom) :
  n < length (nodes d) ->
  attrs_of (nodes (update_attrs n f d)) n = f (attrs_of (nodes d) n).
Proof.
  intros H. destruct (lookup_lt_is_Some_2 _ _ H) as [r Hr].
  unfold attrs_of, update_attrs. cbn. rewrite list_lookup_alter_eq, Hr.
  reflexivity.
Qed.

Lemma node_kind_update_attrs (n m : node)
    (f : list (string * string) -> list (string * string)) (d : dom) :
  node_kind (nodes (update_attrs n f d)) m = node_kind (nodes d) m.
Proof. unfold update_attrs. cbn. apply node_kind_alter. reflexivity. Qed.

Lemma is_element_update_attrs (n m : node)
    (f : list (string * string) -> list (string * string)) (d : dom) :
  is_element (nodes (update_attrs n f d)) m = is_element (nodes d) m.
Proof. unfold is_element. rewrite node_kind_update_attrs. reflexivity. Qed.

Lemma setAttribute_element (n : node) (k v : string) (d : dom) :
  is_element (nodes d) n = true ->
  valid_attribute_local_name k = true ->
  setAttribute n k v d
  = (Ok tt, update_attrs n (set_attr (ascii_lowercase k) v) d).
Proof. intros He Hv. unfold setAttribute. rewrite He, Hv. reflexivity. Qed.

(** The loop [for (const [key, value] of entries) tag.setAttribute(key,
    value)], for a way [get] of reading the element that the loop leaves
    valid. *)
Lemma setAttribute_loop (get : M nodeval) (I : world -> Prop) (n : node)
    (entries : object) (w : world) :
  (forall w, I w -> get w = (Ok (NRef n), w)) ->
  (forall w d, I w -> I (set_dom d w)) ->
  I w ->
  is_element (nodes (the_dom w)) n = true ->
  Forall (fun kv => valid_attribute_local_name (fst kv) = true) entries ->
  for_each entries
    (fun kv => t <- get ;; element_setAttribute t (fst kv) (snd kv)) w
  = (Ok tt, set_dom (update_attrs n (write_attrs entries) (the_dom w)) w).
Proof.
  intros Hget Hstable. revert w.
  induction entries as [|kv entries IH]; intros w Hw He Hv.
  - cbn. unfold write_attrs. cbn.
    rewrite update_attrs_id, set_dom_the_dom. reflexivity.
  - apply Forall_cons in Hv as [Hv1 Hv]. cbn [for_each].
    unfold bind at 1. unfold bind at 1. rewrite (Hget w Hw).
    unfold element_setAttribute. run.
    rewrite (setAttribute_element _ _ _ _ He Hv1). cbn.
    rewrite IH; [|apply Hstable; exact Hw| |exact Hv].
    + cbn [the_dom set_dom]. rewrite update_attrs_update_attrs. reflexivity.
    + cbn [the_dom set_dom]. rewrite is_element_update_attrs. exact He.
Qed.

Lemma set_objects_objects (w : world) : set_objects (objects w) w = w.
Proof. destruct w; reflexivity. Qed.

(** A loop that only assigns properties of the object [l]. *)
Lemma update_object_loop {A} (l : loc) (step : A -> object -> object)
    (body : A -> M unit) (I : world -> Prop) (items : list A) (w : world) :
  (forall a w, I w ->
               body a w = (Ok tt, set_objects (alter (step a) l (objects w)) w)) ->
  (forall w x, I w -> I (set_objects x w)) ->
  I w ->
  for_each items body w
  = (Ok tt,
     set_objects
       (alter (fun o => fold_left (fun acc a => step a acc) items o) l
          (objects w)) w).
Proof.
  intros Hbody Hstable. revert w.
  induction items as [|a items IH]; intros w Hw.
  - cbn. rewrite list_alter_id by reflexivity.
    rewrite set_objects_objects. reflexivity.
  - cbn [for_each]. unfold bind at 1. rewrite (Hbody a w Hw).
    rewrite IH by (apply Hstable; exact Hw). cbn.
    rewrite list_alter_alter_eq. reflexivity.
Qed.


(** The legacy [attributes] getter returns a new object, the snapshot of the
    element's attributes, and caches it. *)
Lemma legacy_get_attributes_spec (w : world) (h : loc) (o : TagLegacy_object)
    (n : node) :
  legacy w !! h = Some o -> _tag o = NRef n ->
  is_element (nodes (the_dom w)) n = true ->
  TagLegacy.get_attributes h w
  = (Ok (ORef (length (objects w))),
     set_legacy
       (alter (with_attributes (ORef (length (objects w)))) h (legacy w))
       (set_objects (objects w ++ [snapshot (nodes (the_dom w)) n]) w)).
Proof.
  intros Hh Ht He. unfold TagLegacy.get_attributes, TagLegacy.get_tag.
  repeat (progress (run; rewrite ?Hh, ?Ht, ?He)).
  rewrite (update_object_loop (length (objects w))
             (fun a => set_property (fst a)
                         (attribute_value
                            (getAttribute (nodes (the_dom w)) n (fst a))))
             _ (fun w' => legacy w' !! h = Some o /\ the_dom w' = the_dom w)).
  - repeat (progress (run; rewrite ?Hh, ?Ht, ?He)). reflexivity.
  - intros a w0 [H1 H2].
    repeat (progress (run; rewrite ?H1, ?H2, ?Ht)). reflexivity.
  - intros w0 x [H1 H2]. split; assumption.
  - split; [exact Hh|reflexivity].
Qed.

Lemma strict_eq_objval_ne (a : loc) (v : objval) :
  v <> ORef a -> strict_eq (VObject a) (of_objval v) = false.
Proof.
  intros H. destruct v as [p|l]; cbn; [reflexivity|].
  unfold strict_eq. destruct (Nat.eqb_spec a l); [congruence|reflexivity].
Qed.

Lemma NoDup_lowercased_keys (props : object) :
  NoDup (map fst props) ->
  Forall (fun kv => lowercased (fst kv) = true) props ->
  NoDup (map (fun kv => ascii_lowercase (fst kv)) props).
Proof.
  intros Hnd Hl. replace (map (fun kv => ascii_lowercase (fst kv)) props)
    with (map fst props); [exact Hnd|].
  apply map_ext_in. intros kv Hin. rewrite List.Forall_forall in Hl.
  symmetry. apply ascii_lowercase_fixed. apply Hl. exact Hin.
Qed.

(** The legacy [attributes] setter, given a mapping other than the cached
    one, writes every entry on the element. *)
Lemma legacy_set_attributes_spec (w : world) (h : loc) (o : TagLegacy_object)
    (n : node) (a : loc) (props : object) :
  legacy w !! h = Some o -> _tag o = NRef n ->
  is_element (nodes (the_dom w)) n = true ->
  objects w !! a = Some props ->
  _attributes o <> ORef a ->
  Forall (fun kv => valid_attribute_local_name (fst kv) = true) props ->
  TagLegacy.set_attributes h (ORef a) w
  = (Ok tt,
     set_dom (update_attrs n (write_attrs props) (the_dom w))
       (set_legacy (alter (with_attributes (ORef a)) h (legacy w)) w)).
Proof.
  intros Hh Ht He Ha Hne Hv. unfold TagLegacy.set_attributes.
  step. step. step. cbn [_attributes with_attributes of_objval].
  rewrite (strict_eq_objval_ne _ _ Hne). cbn [negb when Object_entries].
  step.
  rewrite (setAttribute_loop _
             (fun w' => exists o', legacy w' !! h = Some o' /\ _tag o' = NRef n)
             n props
             (set_legacy (alter (with_attributes (ORef a)) h (legacy w)) w)).
  - reflexivity.
  - intros w0 [o' [H1 H2]]. unfold legacy_get. rewrite H1, H2. reflexivity.
  - intros w0 d H. exact H.
  - cbn. rewrite list_lookup_alter_eq, Hh. eexists. split; [reflexivity|].
    exact Ht.
  - exact He.
  - exact Hv.
Qed.

(** C4, as amended: on a legacy handle that holds an element, assigning to
    [attributes] a mapping that is not the very object the handle caches, with
    valid lower-case attribute names other than [__proto__] as keys and
    strings as values, and then reading [attributes], returns a mapping with
    every key of the assigned one and its value; the assignment changes or
    adds the attributes of the mapping, in its order, and removes none: an
    attribute whose name is no key of the mapping keeps its value.  The
    mapping read has no key [__proto__], whatever the element carries. *)
Theorem legacy_attributes_are_added
    (w : world) (h : loc) (o : TagLegacy_object) (n : node) (a : loc)
    (props : object) :
  legacy w !! h = Some o -> _tag o = NRef n ->
  is_element (nodes (the_dom w)) n = true ->
  objects w !! a = Some props ->
  _attributes o <> ORef a ->
  NoDup (map fst props) ->
  Forall (fun kv => valid_attribute_local_name (fst kv) = true /\
                    lowercased (fst kv) = true /\
                    fst kv <> "__proto__" /\
                    exists s, snd kv = PStr s) props ->
  exists (w1 w2 : world) (r : loc) (result : object),
    TagLegacy.set_attributes h (ORef a) w = (Ok tt, w1) /\
    TagLegacy.get_attributes h w1 = (Ok (ORef r), w2) /\
    objects w2 !! r = Some result /\
    (forall k v, In (k, v) props -> own_property k result = Some v) /\
    own_property "__proto__" result = None /\
    attrs_of (nodes (the_dom w1)) n
    = fold_left (fun acc kv =>
                   match snd kv with
                   | PStr s => set_attr (fst kv) s acc
                   | _ => acc
                   end) props (attrs_of (nodes (the_dom w)) n) /\
    (forall k, In k (map fst (attrs_of (nodes (the_dom w)) n)) ->
               In k (map fst (attrs_of (nodes (the_dom w1)) n))) /\
    (forall k, ~ In k (map fst props) ->
               get_attr k (attrs_of (nodes (the_dom w1)) n)
               = get_attr k (attrs_of (nodes (the_dom w)) n)).
Proof.
  intros Hh Ht He Ha Hne Hnd Hprops.
  assert (Hv : Forall (fun kv => valid_attribute_local_name (fst kv) = true) props)
    by (eapply List.Forall_impl; [|exact Hprops]; cbn; tauto).
  assert (Hl : Forall (fun kv => lowercased (fst kv) = true) props)
    by (eapply List.Forall_impl; [|exact Hprops]; cbn; tauto).
  pose proof (NoDup_lowercased_keys _ Hnd Hl) as Hnd'.
  pose proof (is_element_lt _ _ He) as Hlt.
  rewrite (legacy_set_attributes_spec w h o n a props) by assumption.
  pose (w1 := set_dom (update_attrs n (write_attrs props) (the_dom w))
                (set_legacy (alter (with_attributes (ORef a)) h (legacy w)) w)).
  assert (Hattrs : attrs_of (nodes (the_dom w1)) n
                   = write_attrs props (attrs_of (nodes (the_dom w)) n)).
  { subst w1. cbn [the_dom set_dom]. apply attrs_of_update_attrs. exact Hlt. }
  assert (He1 : is_element (nodes (the_dom w1)) n = true).
  { subst w1. cbn [the_dom set_dom]. rewrite is_element_update_attrs. exact He. }
  assert (Hh1 : legacy w1 !! h = Some (with_attributes (ORef a) o)).
  { subst w1. cbn. rewrite list_lookup_alter_eq, Hh. reflexivity. }
  exists w1. eexists. eexists. eexists.
  split; [reflexivity|].
  rewrite (legacy_get_attributes_spec w1 h _ n Hh1 Ht He1).
  split; [reflexivity|]. split.
  { cbn. apply lookup_last. }
  split; [|split; [|split; [|split]]].
  - intros k v Hin. unfold snapshot.
    rewrite (own_property_built fst
               (fun k => attribute_value (getAttribute (nodes (the_dom w1)) n k)))
      by reflexivity.
    rewrite List.Forall_forall in Hprops.
    destruct (Hprops _ Hin) as (_ & Hlow & Hproto & s & Hs).
    cbn in Hlow, Hs, Hproto.
    assert (Hk : ascii_lowercase k = k) by (apply ascii_lowercase_fixed; exact Hlow).
    assert (Hget : get_attr k (attrs_of (nodes (the_dom w1)) n) = Some (ToString v)).
    { rewrite Hattrs, get_attr_write_attrs. rewrite <- Hk at 1.
      rewrite (written_present _ _ _ Hnd' Hin). reflexivity. }
    rewrite existsb_key_In by (apply get_attr_In; eauto).
    destruct (String.eqb_spec k "__proto__") as [E|_]; [contradiction|].
    cbn [negb andb].
    unfold getAttribute. rewrite Hk, Hget, Hs. reflexivity.
  - unfold snapshot.
    rewrite (own_property_built fst
               (fun k => attribute_value (getAttribute (nodes (the_dom w1)) n k)))
      by reflexivity.
    rewrite andb_false_r. reflexivity.
  - rewrite Hattrs. unfold write_attrs. clear - Hprops.
    generalize (attrs_of (nodes (the_dom w)) n).
    induction props as [|kv props IH]; intros l; [reflexivity|].
    apply Forall_cons in Hprops as [(_ & Hlow & _ & s & Hs) Hprops].
    cbn [fold_left]. rewrite Hs. cbn [ToString].
    apply ascii_lowercase_fixed in Hlow. rewrite Hlow. apply IH. exact Hprops.
  - intros k Hin. rewrite Hattrs. apply In_names_write_attrs. exact Hin.
  - intros k Hnot. rewrite Hattrs, get_attr_write_attrs.
    rewrite written_absent; [reflexivity|].
    intros Hin. apply Hnot. apply in_map_iff in Hin as [kv [Hkv Hin]].
    apply in_map_iff. exists kv. split; [|exact Hin].
    rewrite List.Forall_forall in Hl. rewrite <- Hkv. symmetry.
    apply ascii_lowercase_fixed. apply Hl. exact Hin.
Qed.

(** C4 as stated fails: a mapping that is the object the handle already
    caches is not written.  The handle is built on [{}]; the caller adds
    [title] to that object and assigns it; [attributes] then has no [title]. *)
Lemma legacy_attributes_same_object_ignored :
  eval alias_run start = Ok None.
Proof. reflexivity. Qed.

(** ** The [attributes] setter of [Tag] *)

Lemma own_property_In (k : string) (o : list (string * prim)) :
  In k (map fst o) <-> exists v, own_property k o = Some v.
Proof.
  induction o as [|[k0 v0] o IH]; cbn.
  - split; [tauto|intros [v Hv]; discriminate].
  - destruct (String.eqb_spec k0 k) as [->|Hne].
    + split; eauto.
    + rewrite <- IH. split; [intros [H|H]; [contradiction|exact H]|auto].
Qed.

Lemma tag_snapshot_step (k : string) (a : string * string) (init : object) :
  own_property "__proto__" init = None ->
  own_property "__proto__" (set_property (fst a) (PStr (snd a)) init) = None /\
  ((exists v, own_property k (set_property (fst a) (PStr (snd a)) init) = Some v)
   <-> (fst a = k /\ k <> "__proto__") \/ exists v, own_property k init = Some v).
Proof.
  intros Hinit. destruct (String.eqb_spec (fst a) "__proto__") as [E|E].
  - rewrite E, set_property_proto by exact Hinit. split; [exact Hinit|].
    split; [auto|]. intros [[H1 H2]|H]; [congruence|exact H].
  - split; [rewrite own_property_set_ne by exact E; exact Hinit|].
    destruct (String.eqb_spec (fst a) k) as [<-|Hne].
    + rewrite own_property_set_eq by exact E. split; eauto.
    + rewrite own_property_set_ne by exact Hne.
      split; [auto|]. intros [[H1 H2]|H]; [contradiction|exact H].
Qed.

(** The snapshot has the names of the attributes as keys, except
    [__proto__]. *)
Lemma In_tag_snapshot (k : string) (l : list (string * string)) :
  In k (map fst (tag_snapshot l)) <-> In k (map fst l) /\ k <> "__proto__".
Proof.
  rewrite own_property_In. unfold tag_snapshot.
  assert (G : forall init,
             own_property "__proto__" init = None ->
             (exists v,
                 own_property k
                   (fold_left (fun acc a => set_property (fst a) (PStr (snd a)) acc)
                      l init) = Some v)
             <-> (In k (map fst l) /\ k <> "__proto__")
                 \/ exists v, own_property k init = Some v).
  { induction l as [|a l IH]; intros init Hinit; cbn [fold_left map In].
    - split; [auto|]. intros [[[] _]|H]; exact H.
    - destruct (tag_snapshot_step k a init Hinit) as [Hnext Hstep].
      rewrite (IH _ Hnext), Hstep. tauto. }
  rewrite (G [] eq_refl). split; [|auto].
  intros [H|[v Hv]]; [exact H|discriminate].
Qed.

Lemma remove_attr_absent (k : string) (l : list (string * string)) :
  ~ In k (map fst l) -> remove_attr k l = l.
Proof.
  induction l as [|[k0 v0] l IH]; cbn; [reflexivity|]. intros H.
  destruct (String.eqb_spec k0 k) as [E|E]; [exfalso; auto|].
  rewrite IH by tauto. reflexivity.
Qed.

Lemma In_names_remove_attr (k k' : string) (l : list (string * string)) :
  In k' (map fst (remove_attr k l)) -> In k' (map fst l).
Proof.
  induction l as [|[k0 v0] l IH]; cbn; [tauto|].
  destruct (String.eqb_spec k0 k); cbn; tauto.
Qed.

Lemma NoDup_remove_attr (k : string) (l : list (string * string)) :
  NoDup (map fst l) -> NoDup (map fst (remove_attr k l)).
Proof.
  induction l as [|[k0 v0] l IH]; cbn; [auto|]. intros H.
  apply NoDup_cons in H as [H1 H2].
  destruct (String.eqb_spec k0 k); [exact H2|]. cbn.
  apply NoDup_cons. split; [|apply IH; exact H2].
  rewrite list_elem_of_In in *. intros Hin. apply H1.
  eapply In_names_remove_attr. exact Hin.
Qed.

Lemma get_attr_absent (k : string) (l : list (string * string)) :
  ~ In k (map fst l) -> get_attr k l = None.
Proof.
  intros H. destruct (get_attr k l) eqn:E; [|reflexivity].
  exfalso. apply H. apply get_attr_In. eauto.
Qed.

Lemma get_attr_remove_attr (k name : string) (l : list (string * string)) :
  NoDup (map fst l) ->
  get_attr name (remove_attr k l)
  = if String.eqb k name then None else get_attr name l.
Proof.
  induction l as [|[k0 v0] l IH]; cbn.
  - destruct (String.eqb k name); reflexivity.
  - intros H. apply NoDup_cons in H as [H1 H2].
    rewrite list_elem_of_In in H1.
    destruct (String.eqb_spec k0 k) as [->|E0].
    + destruct (String.eqb_spec k name) as [->|E1]; [|reflexivity].
      apply get_attr_absent. exact H1.
    + cbn. rewrite (IH H2).
      destruct (String.eqb_spec k0 name) as [->|E1]; [|reflexivity].
      destruct (String.eqb_spec k name); [congruence|reflexivity].
Qed.

(** What [getAttribute] finds after the removals. *)
Lemma get_attr_removals (given entries : list (string * prim)) (name : string)
    (l : list (string * string)) :
  NoDup (map fst l) ->
  Forall (fun kv => lowercased (fst kv) = true) entries ->
  get_attr name (removals given entries l)
  = if existsb (fun kv => String.eqb (fst kv) name
                          && negb (truthy_property (fst kv) given)) entries
    then None else get_attr name l.
Proof.
  revert l. induction entries as [|kv entries IH]; intros l Hnd Hl;
    [reflexivity|].
  apply Forall_cons in Hl as [Hl1 Hl]. cbn.
  apply ascii_lowercase_fixed in Hl1.
  change (fold_left _ entries ?x) with (removals given entries x).
  destruct (truthy_property (fst kv) given) eqn:T.
  - rewrite andb_false_r. cbn. apply IH; assumption.
  - rewrite andb_true_r, Hl1. rewrite IH by (try apply NoDup_remove_attr; assumption).
    rewrite get_attr_remove_attr by exact Hnd.
    destruct (String.eqb (fst kv) name); cbn;
      destruct (existsb _ entries); reflexivity.
Qed.

Lemma removeAttribute_loop (this : loc) (o : Tag_object) (n : node) (m : loc)
    (given entries : list (string * prim)) (w : world) :
  tags w !! this = Some o -> element o = NRef n ->
  objects w !! m = Some given ->
  is_element (nodes (the_dom w)) n = true ->
  for_each entries
    (fun kv =>
       given <- read_object m ;;
       if negb (truthy_property (fst kv) given) then
         e <- tag_get this element ;;
         element_removeAttribute e (fst kv)
       else ret tt) w
  = (Ok tt, set_dom (update_attrs n (removals given entries) (the_dom w)) w).
Proof.
  revert w. induction entries as [|kv entries IH]; intros w Hh He Hm Hel.
  - cbn. unfold removals. cbn.
    rewrite update_attrs_id, set_dom_the_dom. reflexivity.
  - cbn [for_each]. unfold bind at 1. unfold bind at 1.
    rewrite (read_object_ok _ _ _ Hm).
    destruct (truthy_property (fst kv) given) eqn:T; cbn [negb].
    + unfold ret at 1. rewrite IH by assumption.
      unfold removals. cbn. rewrite T. reflexivity.
    + unfold bind at 1. rewrite (tag_get_ok _ _ _ _ Hh), He.
      unfold element_removeAttribute. run. rewrite Hel. run.
      rewrite IH; cbn [the_dom set_dom tags objects].
      * unfold removeAttribute.
        change (set_nodes (alter ?f n (nodes (the_dom w))) (the_dom w))
          with (update_attrs n (remove_attr (ascii_lowercase (fst kv))) (the_dom w)).
        rewrite update_attrs_update_attrs. unfold removals. cbn. rewrite T.
        reflexivity.
      * exact Hh.
      * exact He.
      * exact Hm.
      * unfold removeAttribute, is_element. cbn.
        rewrite node_kind_alter by reflexivity. exact Hel.
Qed.

(** The [attributes] getter of [Tag] returns when [item] is declared in the
    global scope or the element has no attribute. *)
Lemma Tag_get_attributes_spec (w : world) (h : loc) (o : Tag_object) (n : node) :
  tags w !! h = Some o -> element o = NRef n ->
  is_element (nodes (the_dom w)) n = true ->
  global_item w = true \/ attrs_of (nodes (the_dom w)) n = [] ->
  Tag.get_attributes h w
  = (Ok (length (objects w)),
     set_objects
       (objects w ++ [tag_snapshot (attrs_of (nodes (the_dom w)) n)]) w).
Proof.
  intros Hh He Hel Hitem. unfold Tag.get_attributes.
  step. step. rewrite He. unfold element_attributes. run. rewrite Hel. run.
  destruct Hitem as [Hitem|Hnone].
  - rewrite (update_object_loop (length (objects w))
               (fun a => set_property (fst a) (PStr (snd a)))
               _ (fun w' => global_item w' = true)).
    + run. reflexivity.
    + intros a w0 H. rewrite H. reflexivity.
    + intros w0 x H. exact H.
    + exact Hitem.
  - rewrite Hnone. reflexivity.
Qed.


Lemma existsb_key_test {V} (f : string -> bool) (name : string)
    (l : list (string * V)) :
  existsb (fun kv => String.eqb (fst kv) name && f (fst kv)) l
  = existsb (fun kv => String.eqb (fst kv) name) l && f name.
Proof.
  induction l as [|kv l IH]; cbn; [reflexivity|]. rewrite IH.
  destruct (String.eqb_spec (fst kv) name) as [->|E]; cbn; [|reflexivity].
  destruct (f name); cbn; [reflexivity|]. rewrite andb_false_r. reflexivity.
Qed.

Lemma existsb_key_false {V} (name : string) (l : list (string * V)) :
  ~ In name (map fst l) ->
  existsb (fun kv => String.eqb (fst kv) name) l = false.
Proof.
  intros H. induction l as [|kv l IH]; cbn in *; [reflexivity|].
  destruct (String.eqb_spec (fst kv) name); [exfalso; auto|]. apply IH. tauto.
Qed.

Lemma written_key (name : string) (v : prim) (props : list (string * prim)) :
  own_property name props = Some v -> ascii_lowercase name = name ->
  written name props <> None.
Proof.
  intros Hown Hlow. induction props as [|[k0 v0] props IH]; cbn in *;
    [discriminate|].
  destruct (written name props); [discriminate|].
  destruct (String.eqb_spec k0 name) as [->|E].
  - rewrite Hlow, String.eqb_refl. discriminate.
  - exfalso. apply IH; [exact Hown|reflexivity].
Qed.

Lemma Tag_fix_keeps (w : world) (h : loc) (o : Tag_object) (n : node) :
  tags w !! h = Some o -> element o = NRef n -> Tag.fix_ h w = (Ok h, w).
Proof.
  intros Hh He. unfold Tag.fix_. step. rewrite He. reflexivity.
Qed.


(** What [getAttribute] finds after the two loops of the setter. *)
Lemma get_attr_replaced (props : object) (l : list (string * string))
    (name : string) :
  attrs_ok l ->
  get_attr name (write_attrs props (removals props (tag_snapshot l) l))
  = match written name props with
    | Some v => Some v
    | None =>
        if existsb (String.eqb name) object_prototype_keys
        then get_attr name l
        else None
    end.
Proof.
  intros [Hnd Hlow]. rewrite get_attr_write_attrs.
  destruct (written name props) eqn:W; [reflexivity|].
  assert (Hkeys : Forall (fun kv => lowercased (fst kv) = true) (tag_snapshot l)).
  { apply List.Forall_forall. intros kv Hin.
    assert (Hk : In (fst kv) (map fst l))
      by (apply In_tag_snapshot; apply in_map; exact Hin).
    apply in_map_iff in Hk as [a [Ha Hin']].
    rewrite List.Forall_forall in Hlow. rewrite <- Ha. apply Hlow. exact Hin'. }
  rewrite (get_attr_removals _ _ _ _ Hnd Hkeys).
  rewrite (existsb_key_test (fun k => negb (truthy_property k props))).
  destruct (get_attr name l) as [v|] eqn:G.
  - assert (Hin : In name (map fst l)) by (apply get_attr_In; eauto).
    assert (Hname : ascii_lowercase name = name).
    { apply in_map_iff in Hin as [a [Ha Hin']].
      rewrite List.Forall_forall in Hlow. rewrite <- Ha.
      apply ascii_lowercase_fixed. apply Hlow. exact Hin'. }
    assert (Hown : own_property name props = None).
    { destruct (own_property name props) as [x|] eqn:O; [|reflexivity].
      exfalso. exact (written_key _ _ _ O Hname W). }
    unfold truthy_property. rewrite Hown.
    destruct (String.eqb_spec name "__proto__") as [E|E].
    + rewrite existsb_key_false
        by (intros H; apply In_tag_snapshot in H as [_ H]; contradiction).
      rewrite E. reflexivity.
    + rewrite (existsb_key_In name (tag_snapshot l))
        by (apply In_tag_snapshot; split; assumption).
      cbn [andb]. destruct (existsb (String.eqb name) object_prototype_keys);
        reflexivity.
  - destruct (existsb _ (tag_snapshot l) && _);
      destruct (existsb (String.eqb name) object_prototype_keys); reflexivity.
Qed.

(** Unless the global scope declares [item], the getter raises on the first
    attribute it visits. *)
Lemma Tag_get_attributes_undeclared (w : world) (h : loc) (o : Tag_object)
    (n : node) :
  tags w !! h = Some o -> element o = NRef n ->
  is_element (nodes (the_dom w)) n = true ->
  attrs_of (nodes (the_dom w)) n <> [] ->
  global_item w = false ->
  Tag.get_attributes h w
  = (Throw ReferenceError, set_objects (objects w ++ [[]]) w).
Proof.
  intros Hh He Hel Hne Hitem. unfold Tag.get_attributes.
  step. step. rewrite He. unfold element_attributes. run. rewrite Hel. run.
  destruct (attrs_of (nodes (the_dom w)) n) as [|a l]; [congruence|].
  run. rewrite Hitem. reflexivity.
Qed.



(** With [item] declared nowhere, the setter raises [ReferenceError] on an
    element that has an attribute, and removes nothing; with [item] declared
    it replaces the attributes. *)
Lemma Tag_attributes_on_an_element_with_attributes :
  attrs_of (nodes (the_dom (classed_world false))) 4 = [("class", "x")] /\
  eval (Tag.set_attributes 0 (ORef 0)) (classed_world false)
  = Throw ReferenceError /\
  attrs_of
    (nodes (the_dom (exec (Tag.set_attributes 0 (ORef 0)) (classed_world false)))) 4
  = [("class", "x")] /\
  eval (Tag.set_attributes 0 (ORef 0)) (classed_world true) = Ok tt /\
  attrs_of
    (nodes (the_dom (exec (Tag.set_attributes 0 (ORef 0)) (classed_world true)))) 4
  = [("id", "a")].
Proof. repeat split. Qed.

(** ** Moving a node *)

Lemma length_detach (n : node) (ns : list Node) :
  length (detach n ns) = length ns.
Proof.
  unfold detach. destruct (parent_of ns n); [|reflexivity].
  rewrite !length_alter. reflexivity.
Qed.

Lemma length_attach (p n : node) (ns : list Node) :
  length (attach p n ns) = length ns.
Proof. unfold attach. rewrite !length_alter. reflexivity. Qed.

Lemma length_move (p n : node) (ns : list Node) :
  length (move p n ns) = length ns.
Proof. unfold move. rewrite length_attach, length_detach. reflexivity. Qed.

Lemma parent_of_alter_children (f : Node -> Node) (i m : node)
    (ns : list Node) :
  (forall r, parentNode (f r) = parentNode r) ->
  parent_of (alter f i ns) m = parent_of ns m.
Proof.
  intros Hf. unfold parent_of. rewrite list_lookup_alter.
  destruct (decide (i = m)) as [->|]; [|reflexivity].
  destruct (ns !! m); cbn; [apply Hf|reflexivity].
Qed.

Lemma parent_of_alter_parent (q : option node) (i m : node) (ns : list Node) :
  i <> m -> parent_of (alter (set_parentNode q) i ns) m = parent_of ns m.
Proof.
  intros H. unfold parent_of. rewrite list_lookup_alter_ne by exact H.
  reflexivity.
Qed.

Lemma parent_of_move_other (p n m : node) (ns : list Node) :
  m <> n -> parent_of (move p n ns) m = parent_of ns m.
Proof.
  intros H. unfold move, attach, detach.
  rewrite parent_of_alter_parent by congruence.
  rewrite parent_of_alter_children by reflexivity.
  destruct (parent_of ns n); [|reflexivity].
  rewrite parent_of_alter_parent by congruence.
  apply parent_of_alter_children. reflexivity.
Qed.

Lemma parent_of_move (p n : node) (ns : list Node) :
  n < length ns -> parent_of (move p n ns) n = Some p.
Proof.
  intros H. unfold move. apply parent_of_attach_child.
  rewrite length_detach. exact H.
Qed.

Lemma children_of_alter_parent (q : option node) (i m : node) (ns : list Node) :
  children_of (alter (set_parentNode q) i ns) m = children_of ns m.
Proof.
  unfold children_of. rewrite list_lookup_alter.
  destruct (decide (i = m)) as [->|]; [|reflexivity].
  destruct (ns !! m); reflexivity.
Qed.

Lemma children_of_attach (p n m : node) (ns : list Node) :
  p < length ns ->
  children_of (attach p n ns) m
  = if decide (m = p) then children_of ns m ++ [n] else children_of ns m.
Proof.
  intros Hp. unfold attach. rewrite children_of_alter_parent.
  unfold children_of. rewrite list_lookup_alter.
  destruct (decide (m = p)) as [->|Hne].
  - rewrite decide_True by reflexivity.
    destruct (lookup_lt_is_Some_2 ns p Hp) as [r Hr]. rewrite Hr. reflexivity.
  - rewrite decide_False by congruence. reflexivity.
Qed.

Lemma children_of_move (p n m : node) (ns : list Node) :
  p < length ns ->
  children_of (move p n ns) m
  = (if decide (parent_of ns n = Some m)
     then List.filter (fun c => negb (c =? n)) (children_of ns m)
     else children_of ns m)
    ++ (if decide (m = p) then [n] else []).
Proof.
  intros Hp. unfold move.
  rewrite children_of_attach by (rewrite length_detach; exact Hp).
  rewrite children_of_detach.
  destruct (decide (m = p)); [reflexivity|]. rewrite app_nil_r. reflexivity.
Qed.

Lemma filter_out_absent (n : node) (l : list node) :
  ~ In n l -> List.filter (fun c => negb (c =? n)) l = l.
Proof.
  intros H. induction l as [|x l IH]; cbn; [reflexivity|].
  destruct (Nat.eqb_spec x n) as [->|_]; cbn.
  - exfalso. apply H. left. reflexivity.
  - rewrite IH; [reflexivity|]. intros Hin. apply H. right. exact Hin.
Qed.

Lemma last_filter_out (n t : node) (l : list node) :
  t <> n -> last l = Some t ->
  last (List.filter (fun c => negb (c =? n)) l) = Some t.
Proof.
  intros Hne. induction l as [|x l IH]; cbn; [discriminate|].
  destruct l as [|y l].
  - cbn. intros H. injection H as ->.
    destruct (Nat.eqb_spec t n); [contradiction|reflexivity].
  - intros H. specialize (IH H).
    destruct (Nat.eqb_spec x n); cbn [negb]; [exact IH|].
    cbn [List.filter] in *. 
    destruct (negb (y =? n)) eqn:E; cbn [last] in *.
    + destruct (List.filter _ l); exact IH.
    + destruct (List.filter (fun c => negb (c =? n)) l) eqn:F;
        [discriminate|].
      exact IH.
Qed.

Lemma attrs_of_alter_other (f : Node -> Node) (i m : node) (ns : list Node) :
  (forall r, attrs (f r) = attrs r) ->
  attrs_of (alter f i ns) m = attrs_of ns m.
Proof.
  intros Hf. unfold attrs_of. rewrite list_lookup_alter.
  destruct (decide (i = m)) as [->|]; [|reflexivity].
  destruct (ns !! m); cbn; [apply Hf|reflexivity].
Qed.

Lemma attrs_of_move (p n m : node) (ns : list Node) :
  attrs_of (move p n ns) m = attrs_of ns m.
Proof.
  unfold move, attach, detach.
  rewrite !attrs_of_alter_other by reflexivity.
  destruct (parent_of ns n); [|reflexivity].
  rewrite !attrs_of_alter_other by reflexivity. reflexivity.
Qed.

Lemma node_kind_lt (ns : list Node) (n : node) (k : nodeKind) :
  node_kind ns n = Some k -> n < length ns.
Proof.
  unfold node_kind. destruct (ns !! n) eqn:E; [|discriminate].
  intros _. apply lookup_lt_Some in E. exact E.
Qed.

(** A text node or an element may be appended to an element it does not
    contain, and is then moved. *)
Lemma appendChild_node_moves (d : dom) (p n : node) :
  is_element (nodes d) p = true ->
  is_element (nodes d) n || is_text (nodes d) n = true ->
  inclusive_ancestor (nodes d) n p = false ->
  appendChild_node p n d = (Ok n, set_nodes (move p n (nodes d)) d).
Proof.
  intros Hp Hn Ha. apply is_element_kind in Hp as [lp Hp].
  unfold appendChild_node, pre_insertion_error, insert_last.
  unfold is_element, is_text in Hn. rewrite Hp, Ha.
  destruct (node_kind (nodes d) n) as [[]|]; try discriminate; reflexivity.
Qed.

(** ** The loop over the children *)

Lemma rooted_in_ext (fuel : nat) (ns ns' : list Node) (n : node) :
  (forall m, In m (ancestors_in fuel ns n) -> parent_of ns' m = parent_of ns m) ->
  rooted_in fuel ns' n = rooted_in fuel ns n /\
  root_in fuel ns' n = root_in fuel ns n.
Proof.
  revert n. induction fuel as [|f IH]; intros n H; cbn in *.
  - rewrite (H n) by (left; reflexivity). split; reflexivity.
  - rewrite (H n) by (left; reflexivity).
    destruct (parent_of ns n) as [p|]; [|split; reflexivity].
    apply IH. intros m Hm. apply H. right. exact Hm.
Qed.

Lemma rooted_in_fuel (f k : nat) (ns : list Node) (n : node) :
  rooted_in f ns n = true ->
  rooted_in (f + k) ns n = true /\ root_in (f + k) ns n = root_in f ns n.
Proof.
  revert n. induction f as [|f IH]; intros n H; cbn in *.
  - destruct (parent_of ns n) eqn:E; [discriminate|].
    destruct k; cbn; rewrite ?E; split; reflexivity.
  - destruct (parent_of ns n) as [p|]; [|split; reflexivity].
    apply IH. exact H.
Qed.

Lemma In_ancestors_self (fuel : nat) (ns : list Node) (n : node) :
  In n (ancestors_in fuel ns n).
Proof. destruct fuel; left; reflexivity. Qed.

(** A new child of a node of a tree is a node of the tree, with the chain of
    its parent above it. *)
Lemma in_tree_child (ns0 ns : list Node) (t p : node) :
  in_tree ns0 p = true ->
  length ns = S (length ns0) ->
  t = length ns0 ->
  parent_of ns t = Some p ->
  (forall m, m < length ns0 -> parent_of ns m = parent_of ns0 m) ->
  in_tree ns t = true /\
  ancestors_in (length ns) ns t = t :: ancestors_in (length ns0) ns0 p.
Proof.
  intros Ht Hlen -> Hpar Hsame.
  pose proof (in_tree_ancestors _ _ Ht) as [Hr Hlt].
  rewrite List.Forall_forall in Hlt.
  assert (Hext : forall m, In m (ancestors_in (length ns0) ns0 p) ->
                           parent_of ns m = parent_of ns0 m)
    by (intros m Hm; apply Hsame, Hlt, Hm).
  apply rooted_in_ext in Hext as Hroot. destruct Hroot as [Hroot1 Hroot2].
  unfold in_tree, root in *. rewrite Hlen.
  cbn [rooted_in root_in ancestors_in]. rewrite Hpar.
  apply andb_prop in Ht as [_ Hl]. apply Nat.ltb_lt in Hl.
  rewrite Hroot1, Hroot2, Hr. split.
  - cbn [andb]. apply Nat.ltb_lt. lia.
  - f_equal. apply ancestors_in_ext. exact Hext.
Qed.

Lemma children_of_app (ns : list Node) (r : Node) (m : node) :
  m < length ns -> children_of (ns ++ [r]) m = children_of ns m.
Proof. intros H. unfold children_of. rewrite lookup_app_l by exact H. reflexivity. Qed.

Lemma attrs_of_app (ns : list Node) (r : Node) (m : node) :
  m < length ns -> attrs_of (ns ++ [r]) m = attrs_of ns m.
Proof. intros H. unfold attrs_of. rewrite lookup_app_l by exact H. reflexivity. Qed.

Lemma parent_of_fresh (ns : list Node) (r : Node) :
  parent_of (ns ++ [r]) (length ns) = parentNode r.
Proof. unfold parent_of. rewrite lookup_last. reflexivity. Qed.

Lemma node_kind_fresh (ns : list Node) (r : Node) :
  node_kind (ns ++ [r]) (length ns) = Some (kind r).
Proof. unfold node_kind. rewrite lookup_last. reflexivity. Qed.

Lemma child_matches_stable (ns ns' : list Node) (item : jsval) (c : node) :
  (forall x k, node_kind ns x = Some k -> node_kind ns' x = Some k) ->
  child_matches ns item c -> child_matches ns' item c.
Proof.
  intros H. destruct item as [[]| | | | |]; cbn; try tauto. apply H.
Qed.

Lemma node_refs_app (a b : list jsval) :
  node_refs (a ++ b) = node_refs a ++ node_refs b.
Proof. unfold node_refs. apply flat_map_app. Qed.

Lemma In_node_refs (x : node) (items : list jsval) :
  In x (node_refs items) <-> In (VNode x) items.
Proof.
  unfold node_refs. rewrite in_flat_map. split.
  - intros (v & Hv & Hx). destruct v; try contradiction.
    destruct Hx as [->|[]]. exact Hv.
  - intros H. exists (VNode x). split; [exact H|left; reflexivity].
Qed.

Lemma strings_in_app (a b : list jsval) :
  strings_in (a ++ b) = strings_in a + strings_in b.
Proof. unfold strings_in. rewrite List.filter_app, length_app. reflexivity. Qed.

Lemma child_nodes_app (a b : list jsval) :
  forall k : node,
    child_nodes k (a ++ b)
    = child_nodes k a ++ child_nodes (k + strings_in a) b.
Proof.
  induction a as [|v a IH]; intros k.
  - cbn. rewrite Nat.add_0_r. reflexivity.
  - destruct v as [[| | | |s]|x| | | |]; cbn [app child_nodes];
      rewrite IH; unfold strings_in; cbn [List.filter length];
      rewrite ?Nat.add_succ_r; reflexivity.
Qed.

Lemma filter_out_snoc (x : node) (refs l : list node) :
  List.filter (fun c => negb (existsb (Nat.eqb c) (refs ++ [x]))) l
  = List.filter (fun c => negb (c =? x))
      (List.filter (fun c => negb (existsb (Nat.eqb c) refs)) l).
Proof.
  induction l as [|c l IH]; [reflexivity|]. cbn [List.filter].
  rewrite existsb_app. cbn [existsb]. rewrite orb_false_r.
  destruct (existsb (Nat.eqb c) refs); cbn [orb negb List.filter];
    [exact IH|].
  destruct (c =? x); cbn [negb]; rewrite IH; reflexivity.
Qed.

Section ChildrenLoop.

(** The store when the loop starts, the handle, its element and the parent
    of the element. *)
Variables (nsA : list Node) (h : loc) (t p : node).
Hypothesis t_element : is_element nsA t = true.
Hypothesis t_in_tree : in_tree nsA t = true.
Hypothesis p_not_t : p <> t.
Hypothesis p_lt : p < length nsA.
Hypothesis p_children :
  Forall (fun c => parent_of nsA c = Some p) (children_of nsA p).

Lemma chain_lt (m : node) :
  In m (ancestors_in (length nsA) nsA t) -> m < length nsA.
Proof.
  pose proof (in_tree_ancestors _ _ t_in_tree) as [_ H].
  rewrite List.Forall_forall in H. apply H.
Qed.

Lemma t_lt : t < length nsA.
Proof. apply is_element_lt. exact t_element. Qed.

Lemma loop_inv_element (ns : list Node) (done : list jsval) (cs : list node) :
  loop_inv nsA t p ns done cs -> is_element ns t = true.
Proof.
  intros I. destruct (is_element_kind _ _ t_element) as [l Hl].
  unfold is_element. rewrite (inv_kind _ _ _ _ _ _ I _ _ Hl). reflexivity.
Qed.

Lemma loop_not_ancestor (ns : list Node) (done : list jsval) (cs : list node)
    (x : node) :
  loop_inv nsA t p ns done cs ->
  ~ In x (ancestors_in (length nsA) nsA t) ->
  inclusive_ancestor ns x t = false.
Proof.
  intros I Hx.
  rewrite (inclusive_ancestor_stable nsA ns x t t_in_tree
             (inv_chain _ _ _ _ _ _ I) (inv_len _ _ _ _ _ _ I)).
  apply existsb_eqb_false. exact Hx.
Qed.

(** A string is appended as a new text node. *)
Lemma loop_inv_text (ns : list Node) (done : list jsval) (cs : list node)
    (s : string) :
  loop_inv nsA t p ns done cs ->
  loop_inv nsA t p (move t (length ns) (ns ++ [mkNode (Text s) [] None []]))
    (done ++ [VPrim (PStr s)]) (cs ++ [length ns]).
Proof.
  intros I. pose proof (inv_len _ _ _ _ _ _ I) as Hlen. pose proof t_lt as Ht.
  set (r := mkNode (Text s) [] None []).
  assert (Hkind : forall x k, node_kind ns x = Some k ->
                              node_kind (move t (length ns) (ns ++ [r])) x = Some k).
  { intros x k Hk. rewrite node_kind_move. apply node_kind_app. exact Hk. }
  constructor.
  - rewrite length_move, length_app. cbn. lia.
  - intros x k Hk. apply Hkind. apply (inv_kind _ _ _ _ _ _ I). exact Hk.
  - intros m Hm. pose proof (chain_lt m Hm) as Hmlt.
    rewrite parent_of_move_other by lia. rewrite parent_of_app by lia.
    apply (inv_chain _ _ _ _ _ _ I). exact Hm.
  - rewrite children_of_move by (rewrite length_app; cbn; lia).
    rewrite parent_of_fresh. cbn [parentNode r].
    rewrite decide_False by discriminate. rewrite decide_True by reflexivity.
    rewrite children_of_app by lia. rewrite (inv_children _ _ _ _ _ _ I).
    reflexivity.
  - apply Forall2_app.
    + eapply Forall2_impl; [exact (inv_match _ _ _ _ _ _ I)|].
      intros item c. apply child_matches_stable. exact Hkind.
    + constructor; [|constructor]. cbn. rewrite node_kind_move.
      apply node_kind_fresh.
  - rewrite length_move, length_app. cbn. apply Forall_app. split.
    + eapply List.Forall_impl; [|exact (inv_bound _ _ _ _ _ _ I)]. cbn. lia.
    + constructor; [lia|constructor].
  - intros c Hc Hclt. apply in_app_iff in Hc as [Hc|[<-|[]]]; [|lia].
    apply in_app_iff. left. apply (inv_old _ _ _ _ _ _ I); assumption.
  - rewrite children_of_move by (rewrite length_app; cbn; lia).
    rewrite parent_of_fresh. cbn [parentNode r].
    rewrite decide_False by discriminate. rewrite decide_False by exact p_not_t.
    rewrite app_nil_r, children_of_app by lia. exact (inv_last _ _ _ _ _ _ I).
  - rewrite attrs_of_move, attrs_of_app by lia. exact (inv_attrs _ _ _ _ _ _ I).
  - apply Forall_app. split.
    + pose proof (inv_bound _ _ _ _ _ _ I) as Hb.
      pose proof (inv_parents _ _ _ _ _ _ I) as Hp.
      rewrite List.Forall_forall in *. intros c Hc.
      pose proof (Hb c Hc) as Hclt.
      rewrite parent_of_move_other by lia. rewrite parent_of_app by lia.
      apply Hp. exact Hc.
    + constructor; [|constructor]. apply parent_of_move.
      rewrite length_app. cbn. lia.
  - intros m Hm Hnew. rewrite parent_of_move_other by lia.
    rewrite parent_of_app by lia. apply (inv_unmoved _ _ _ _ _ _ I m Hm).
    intros Hin. apply Hnew. apply in_app_iff. left. exact Hin.
  - rewrite children_of_move by (rewrite length_app; cbn; lia).
    rewrite parent_of_fresh. cbn [parentNode r].
    rewrite decide_False by discriminate. rewrite decide_False by exact p_not_t.
    rewrite app_nil_r, children_of_app by lia.
    rewrite node_refs_app. cbn [node_refs flat_map app]. rewrite app_nil_r.
    exact (inv_siblings _ _ _ _ _ _ I).
  - rewrite child_nodes_app. cbn [child_nodes].
    rewrite <- (inv_size _ _ _ _ _ _ I), <- (inv_ids _ _ _ _ _ _ I).
    reflexivity.
  - rewrite length_move, length_app, strings_in_app. cbn.
    rewrite (inv_size _ _ _ _ _ _ I). unfold strings_in. cbn. lia.
Qed.

(** A node reference is moved under the element. *)
Lemma loop_inv_node (ns : list Node) (done : list jsval) (cs : list node)
    (x : node) :
  loop_inv nsA t p ns done cs ->
  x < length nsA ->
  ~ In x (ancestors_in (length nsA) nsA t) ->
  ~ In (VNode x) done ->
  loop_inv nsA t p (move t x ns) (done ++ [VNode x]) (cs ++ [x]).
Proof.
  intros I Hx Hchain Hnew.
  pose proof (inv_len _ _ _ _ _ _ I) as Hlen. pose proof t_lt as Ht.
  assert (Hxt : x <> t) by (intros ->; apply Hchain, In_ancestors_self).
  assert (Hcs : ~ In x cs)
    by (intros Hin; apply Hnew; apply (inv_old _ _ _ _ _ _ I); assumption).
  assert (Hkind : forall y k, node_kind ns y = Some k ->
                              node_kind (move t x ns) y = Some k).
  { intros y k Hk. rewrite node_kind_move. exact Hk. }
  constructor.
  - rewrite length_move. exact Hlen.
  - intros y k Hk. apply Hkind. apply (inv_kind _ _ _ _ _ _ I). exact Hk.
  - intros m Hm. rewrite parent_of_move_other by congruence.
    apply (inv_chain _ _ _ _ _ _ I). exact Hm.
  - rewrite children_of_move by lia.
    rewrite (decide_True (P := t = t)) by reflexivity.
    rewrite (inv_children _ _ _ _ _ _ I).
    destruct (decide _); [rewrite filter_out_absent by exact Hcs|]; reflexivity.
  - apply Forall2_app.
    + eapply Forall2_impl; [exact (inv_match _ _ _ _ _ _ I)|].
      intros item c. apply child_matches_stable. exact Hkind.
    + constructor; [reflexivity|constructor].
  - rewrite length_move. apply Forall_app. split.
    + exact (inv_bound _ _ _ _ _ _ I).
    + constructor; [lia|constructor].
  - intros c Hc Hclt. apply in_app_iff.
    apply in_app_iff in Hc as [Hc|[<-|[]]].
    + left. apply (inv_old _ _ _ _ _ _ I); assumption.
    + right. left. reflexivity.
  - rewrite children_of_move by lia. rewrite (decide_False (P := p = t)) by exact p_not_t.
    rewrite app_nil_r. destruct (decide _); [|exact (inv_last _ _ _ _ _ _ I)].
    apply last_filter_out; [congruence|exact (inv_last _ _ _ _ _ _ I)].
  - rewrite attrs_of_move. exact (inv_attrs _ _ _ _ _ _ I).
  - apply Forall_app. split.
    + pose proof (inv_parents _ _ _ _ _ _ I) as Hp.
      rewrite List.Forall_forall in *. intros c Hc.
      rewrite parent_of_move_other by (intros ->; contradiction).
      apply Hp. exact Hc.
    + constructor; [|constructor]. apply parent_of_move. lia.
  - intros m Hm Hnot.
    rewrite parent_of_move_other.
    + apply (inv_unmoved _ _ _ _ _ _ I m Hm).
      intros Hin. apply Hnot. apply in_app_iff. left. exact Hin.
    + intros ->. apply Hnot. apply in_app_iff. right. left. reflexivity.
  - rewrite children_of_move by lia.
    rewrite (decide_False (P := p = t)) by exact p_not_t.
    rewrite app_nil_r, node_refs_app. cbn [node_refs flat_map app].
    rewrite filter_out_snoc, <- (inv_siblings _ _ _ _ _ _ I).
    destruct (decide _) as [E|E]; [reflexivity|].
    symmetry. apply filter_out_absent. intros Hin. apply E.
    rewrite (inv_unmoved _ _ _ _ _ _ I x Hx Hnew).
    rewrite (inv_siblings _ _ _ _ _ _ I) in Hin.
    apply filter_In in Hin as [Hin _].
    rewrite List.Forall_forall in p_children. apply p_children. exact Hin.
  - rewrite child_nodes_app. cbn [child_nodes].
    rewrite <- (inv_ids _ _ _ _ _ _ I). reflexivity.
  - rewrite length_move, strings_in_app. unfold strings_in at 2. cbn.
    rewrite Nat.add_0_r. exact (inv_size _ _ _ _ _ _ I).
Qed.

End ChildrenLoop.

Section ChildrenLoopRun.

Variables (nsA : list Node) (h : loc) (t p : node).
Hypothesis t_element : is_element nsA t = true.
Hypothesis t_in_tree : in_tree nsA t = true.
Hypothesis p_not_t : p <> t.
Hypothesis p_lt : p < length nsA.
Hypothesis p_children :
  Forall (fun c => parent_of nsA c = Some p) (children_of nsA p).

Lemma append_child_text (w : world) (o : TagLegacy_object) (s : string)
    (done : list jsval) (cs : list node) :
  legacy w !! h = Some o -> _tag o = NRef t ->
  loop_inv nsA t p (nodes (the_dom w)) done cs ->
  TagLegacy.append_child h (VPrim (PStr s)) w
  = (Ok tt,
     set_dom
       (set_nodes
          (move t (length (nodes (the_dom w)))
             (nodes (the_dom w) ++ [mkNode (Text s) [] None []]))
          (the_dom w)) w).
Proof.
  intros Hh Ht I. unfold TagLegacy.append_child. step. rewrite Ht.
  cbn [of_nodeval as_node]. unfold bind at 1. cbn [ret].
  unfold document_createTextNode, run_dom, createTextNode, fresh, alloc_node.
  unfold bind at 1. cbn [the_dom set_dom nodes set_nodes].
  unfold bind at 1. cbn [the_dom set_dom nodes set_nodes].
  rewrite appendChild_node_moves.
  - reflexivity.
  - cbn [nodes set_nodes]. apply is_element_app.
    eapply loop_inv_element; eassumption.
  - cbn [nodes set_nodes]. unfold is_text. rewrite node_kind_fresh.
    apply orb_true_r.
  - cbn [nodes set_nodes].
    rewrite (inclusive_ancestor_stable nsA _ _ t t_in_tree).
    + apply existsb_eqb_false. intros Hin.
      pose proof (chain_lt nsA t t_in_tree _ Hin) as Hc.
      pose proof (inv_len _ _ _ _ _ _ I). lia.
    + intros m Hm. pose proof (chain_lt nsA t t_in_tree _ Hm).
      pose proof (inv_len _ _ _ _ _ _ I).
      rewrite parent_of_app by lia. apply (inv_chain _ _ _ _ _ _ I). exact Hm.
    + rewrite length_app. pose proof (inv_len _ _ _ _ _ _ I). lia.
Qed.

Lemma append_child_node (w : world) (o : TagLegacy_object) (x : node)
    (done : list jsval) (cs : list node) :
  legacy w !! h = Some o -> _tag o = NRef t ->
  loop_inv nsA t p (nodes (the_dom w)) done cs ->
  item_ok nsA t (VNode x) ->
  TagLegacy.append_child h (VNode x) w
  = (Ok tt,
     set_dom (set_nodes (move t x (nodes (the_dom w))) (the_dom w)) w).
Proof.
  intros Hh Ht I [Hk Hchain]. unfold TagLegacy.append_child. step. rewrite Ht.
  cbn [of_nodeval]. unfold appendChild, as_node. unfold bind at 1.
  unfold bind at 1. cbn [ret]. unfold bind at 1. cbn [ret].
  unfold run_dom. rewrite appendChild_node_moves.
  - reflexivity.
  - eapply loop_inv_element; eassumption.
  - unfold is_element, is_text in *.
    destruct (node_kind nsA x) as [k|] eqn:E; [|discriminate].
    rewrite (inv_kind _ _ _ _ _ _ I _ _ E). exact Hk.
  - eapply loop_not_ancestor; eassumption.
Qed.

Lemma item_ok_lt (x : node) : item_ok nsA t (VNode x) -> x < length nsA.
Proof.
  intros [Hk _]. unfold is_element, is_text in Hk.
  destruct (node_kind nsA x) eqn:E; [|discriminate].
  eapply node_kind_lt. exact E.
Qed.

(** The loop returns, and its invariant holds of the store it leaves. *)
Lemma children_loop (items : list jsval) :
  forall (w : world) (o : TagLegacy_object) (done : list jsval) (cs : list node),
    legacy w !! h = Some o -> _tag o = NRef t ->
    loop_inv nsA t p (nodes (the_dom w)) done cs ->
    Forall (item_ok nsA t) items ->
    NoDup (node_refs items) ->
    (forall x, In x (node_refs items) -> ~ In (VNode x) done) ->
    exists (d' : dom) (cs' : list node),
      for_each items (TagLegacy.append_child h) w = (Ok tt, set_dom d' w) /\
      loop_inv nsA t p (nodes d') (done ++ items) cs'.
Proof.
  induction items as [|item items IH]; intros w o done cs Hh Ht I Hok Hnd Hnew.
  - exists (the_dom w), cs. cbn. rewrite set_dom_the_dom, app_nil_r.
    split; [reflexivity|exact I].
  - apply Forall_cons in Hok as [Hitem Hok]. cbn [for_each].
    destruct item as [[| | | |s]|x| | | |]; try contradiction.
    + rewrite (bind_ok _ _ _ _ _ (append_child_text w o s done cs Hh Ht I)).
      assert (I' : loop_inv nsA t p
                     (move t (length (nodes (the_dom w)))
                        (nodes (the_dom w) ++ [mkNode (Text s) [] None []]))
                     (done ++ [VPrim (PStr s)])
                     (cs ++ [length (nodes (the_dom w))]))
        by (apply loop_inv_text; assumption).
      match goal with
      | |- context [for_each items _ ?w1] =>
          destruct (IH w1 o _ _ Hh Ht I' Hok Hnd) as (d' & cs' & Hrun & I'')
      end.
      { intros x Hx Hin. apply in_app_iff in Hin as [Hin|[Hin|[]]];
          [|discriminate]. exact (Hnew x Hx Hin). }
      exists d', cs'. rewrite Hrun. rewrite <- app_assoc in I''.
      split; [reflexivity|exact I''].
    + cbn in Hnd. apply NoDup_cons in Hnd as [Hx Hnd].
      rewrite list_elem_of_In in Hx.
      rewrite (bind_ok _ _ _ _ _
                 (append_child_node w o x done cs Hh Ht I Hitem)).
      assert (I' : loop_inv nsA t p (move t x (nodes (the_dom w)))
                     (done ++ [VNode x]) (cs ++ [x])).
      { apply loop_inv_node; try assumption.
        - exact (item_ok_lt _ Hitem).
        - exact (proj2 Hitem).
        - exact (Hnew x (or_introl eq_refl)). }
      match goal with
      | |- context [for_each items _ ?w1] =>
          destruct (IH w1 o _ _ Hh Ht I' Hok Hnd) as (d' & cs' & Hrun & I'')
      end.
      { intros y Hy Hin. apply in_app_iff in Hin as [Hin|[Hin|[]]].
        - apply (Hnew y); [right; exact Hy|exact Hin].
        - injection Hin as ->. contradiction. }
      exists d', cs'. rewrite Hrun. rewrite <- app_assoc in I''.
      split; [reflexivity|exact I''].
Qed.

End ChildrenLoopRun.

(** ** The blocks of the legacy constructor *)

Lemma alter_fixed {A} (f : A -> A) (l : list A) (i : nat) (x : A) :
  l !! i = Some x -> f x = x -> alter f i l = l.
Proof.
  intros Hl Hf. apply list_eq. intros j. rewrite list_lookup_alter.
  destruct (decide (i = j)) as [<-|]; [|reflexivity].
  rewrite Hl. cbn. rewrite Hf. reflexivity.
Qed.

Lemma set_legacy_legacy (w : world) : set_legacy (legacy w) w = w.
Proof. destruct w; reflexivity. Qed.

Lemma write_attributes_spec (w : world) (this : loc) (o : TagLegacy_object)
    (t : node) (props : list (string * prim)) :
  legacy w !! this = Some o -> _tag o = NRef t ->
  is_element (nodes (the_dom w)) t = true ->
  entries_of w (_attributes o) props ->
  Forall (fun kv => valid_attribute_local_name (fst kv) = true) props ->
  TagLegacy.write_attributes this w
  = (Ok tt, set_dom (update_attrs t (write_attrs props) (the_dom w)) w).
Proof.
  intros Hh Ht He Hentries Hv. unfold TagLegacy.write_attributes. step.
  destruct (_attributes o) as [v|a]; cbn in Hentries.
  - destruct Hentries as [Hf ->]. unfold truthy_objval. cbn [of_objval truthy].
    rewrite Hf. cbn [when ret]. unfold write_attrs. cbn [fold_left].
    rewrite update_attrs_id, set_dom_the_dom. reflexivity.
  - cbn [truthy_objval of_objval truthy when Object_entries]. step.
    apply (setAttribute_loop _
             (fun w' => exists o', legacy w' !! this = Some o' /\ _tag o' = NRef t)).
    + intros w0 [o' [H1 H2]]. unfold legacy_get. rewrite H1, H2. reflexivity.
    + intros w0 d H. exact H.
    + eauto.
    + exact He.
    + exact Hv.
Qed.

Lemma attach_to_parent_spec (w : world) (this : loc) (o : TagLegacy_object)
    (t p : node) :
  legacy w !! this = Some o -> _tag o = NRef t ->
  parent_given (the_dom w) (_parent o) p ->
  is_element (nodes (the_dom w)) p = true ->
  is_element (nodes (the_dom w)) t = true ->
  parent_of (nodes (the_dom w)) t = None ->
  inclusive_ancestor (nodes (the_dom w)) t p = false ->
  TagLegacy.attach_to_parent this w
  = (Ok tt,
     set_dom (set_nodes (attach p t (nodes (the_dom w))) (the_dom w))
       (set_legacy (alter (with_parent (VNode p)) this (legacy w)) w)).
Proof.
  intros Hh Ht Hp Hep Het Hpar Hanc. unfold TagLegacy.attach_to_parent. step.
  assert (Happend :
    forall w0 : world,
      the_dom w0 = the_dom w ->
      (exists o', legacy w0 !! this = Some o' /\ _tag o' = NRef t
                  /\ _parent o' = VNode p) ->
      (p' <- legacy_get this _parent ;;
       t0 <- legacy_get this _tag ;;
       appendChild p' (of_nodeval t0) ;; ret tt) w0
      = (Ok tt,
         set_dom (set_nodes (attach p t (nodes (the_dom w))) (the_dom w)) w0)).
  { intros w0 Hd (o' & H1 & H2 & H3). step. step. rewrite H2, H3.
    cbn [of_nodeval]. unfold appendChild, as_node, run_dom.
    unfold bind at 1. unfold bind at 1. cbn [ret]. unfold bind at 1. cbn [ret].
    rewrite Hd, (appendChild_node_element _ _ _ Hep Het Hanc).
    unfold move. rewrite (detach_orphan _ _ Hpar). reflexivity. }
  destruct (_parent o) as [v|x| | | |] eqn:E; cbn in Hp; try contradiction.
  - destruct Hp as [Hf ->]. cbn [truthy]. rewrite Hf. cbn [negb when].
    unfold bind at 1. unfold bind at 1. unfold document_body, read_dom.
    unfold legacy_set. rewrite Happend.
    + reflexivity.
    + reflexivity.
    + cbn. rewrite list_lookup_alter_eq, Hh. cbn. eexists.
      split; [reflexivity|]. split; [exact Ht|reflexivity].
  - subst x. cbn [truthy negb when]. unfold bind at 1. cbn [ret].
    rewrite Happend.
    + rewrite (alter_fixed _ _ _ _ Hh), set_legacy_legacy; [reflexivity|].
      destruct o; cbn in *. subst. reflexivity.
    + reflexivity.
    + eauto.
Qed.

Lemma append_children_spec (nsA : list Node) (w : world) (this : loc)
    (o : TagLegacy_object) (t p : node) (children_ : option loc)
    (items : list jsval) :
  is_element nsA t = true -> in_tree nsA t = true -> p <> t -> p < length nsA ->
  Forall (fun c => parent_of nsA c = Some p) (children_of nsA p) ->
  legacy w !! this = Some o -> _tag o = NRef t ->
  loop_inv nsA t p (nodes (the_dom w)) [] [] ->
  items_of w children_ items ->
  Forall (item_ok nsA t) items ->
  NoDup (node_refs items) ->
  exists (d' : dom) (cs' : list node),
    TagLegacy.append_children this children_ w = (Ok tt, set_dom d' w) /\
    loop_inv nsA t p (nodes d') items cs'.
Proof.
  intros Het Htree Hpt Hplt Hpc Hh Ht I Hitems Hok Hnd.
  unfold TagLegacy.append_children. destruct children_ as [c|]; cbn in Hitems.
  - destruct Hitems as (elems & Hc & ->).
    rewrite (bind_ok _ _ _ _ _ (read_array_ok _ _ _ Hc)).
    apply (children_loop nsA this t p Het Htree Hpt Hplt Hpc _ w o [] []);
      try assumption.
    intros x _ [].
  - subst items. exists (the_dom w), []. rewrite set_dom_the_dom.
    split; [reflexivity|exact I].
Qed.

(** ** The legacy constructor *)

Lemma last_snoc_Some {A} (l : list A) (x : A) : last (l ++ [x]) = Some x.
Proof. apply last_snoc. Qed.

Lemma not_In_existsb_eqb (a : node) (l : list node) :
  existsb (Nat.eqb a) l = false -> ~ In a l.
Proof.
  intros H Hin. assert (existsb (Nat.eqb a) l = true); [|congruence].
  apply existsb_exists. exists a. split; [exact Hin|apply Nat.eqb_refl].
Qed.

(** C2: the legacy constructor, given a valid element name, a mapping with
    valid attribute names (or no mapping; the numbers among its values are
    taken among the safe integers), a parent element of the tree whose
    children refer back to it (or no parent, for [document.body]) and a list
    of strings and of distinct element or text nodes that do not contain the
    parent (or no list), returns a handle on a new element: of that name in
    lower case; with the entries of the mapping written as attributes, in
    order, under their keys in lower case, a string entry as it is; appended
    after the children the parent keeps, which are those it had but for the
    nodes given as children; whose children are, in the order of the list, a
    new text node for each string and each given node itself, each with the
    new element as its parent.  No other node changes its parent. *)
Theorem legacy_constructor_builds_the_element
    (w : world) (type : string) (attributes : objval) (parent : jsval)
    (children_ : option loc) (props : list (string * prim)) (p : node)
    (items : list jsval) :
  valid_element_local_name type = true ->
  entries_of w attributes props ->
  Forall (fun kv => valid_attribute_local_name (fst kv) = true) props ->
  Forall (fun kv => safe_value (snd kv) = true) props ->
  parent_given (the_dom w) parent p ->
  is_element (nodes (the_dom w)) p = true ->
  in_tree (nodes (the_dom w)) p = true ->
  Forall (fun c => parent_of (nodes (the_dom w)) c = Some p)
    (children_of (nodes (the_dom w)) p) ->
  items_of w children_ items ->
  Forall (child_ok (nodes (the_dom w)) p) items ->
  NoDup (node_refs items) ->
  exists (w' : world) (o' : TagLegacy_object),
    let h := length (legacy w) in
    let t := fresh (the_dom w) in
    let ns := nodes (the_dom w) in
    let ns' := nodes (the_dom w') in
    TagLegacy.constructor type attributes parent children_ w = (Ok h, w') /\
    legacy w' !! h = Some o' /\
    _tag o' = NRef t /\
    ns !! t = None /\
    node_kind ns' t = Some (Element (ascii_lowercase type)) /\
    attrs_of ns' t = write_attrs props [] /\
    (forall name, get_attr name (attrs_of ns' t) = written name props) /\
    (NoDup (map (fun kv => ascii_lowercase (fst kv)) props) ->
     forall (k s : string),
       In (k, PStr s) props ->
       get_attr (ascii_lowercase k) (attrs_of ns' t) = Some s) /\
    parent_of ns' t = Some p /\
    last (children_of ns' p) = Some t /\
    children_of ns' p
    = List.filter (fun c => negb (existsb (Nat.eqb c) (node_refs items)))
        (children_of ns p) ++ [t] /\
    children_of ns' t = child_nodes (S t) items /\
    Forall2 (child_matches ns') items (children_of ns' t) /\
    Forall (fun c => parent_of ns' c = Some t) (children_of ns' t) /\
    (forall m, m < length ns -> ~ In m (node_refs items) ->
               parent_of ns' m = parent_of ns m).
Proof.
  intros Hv Hentries Hvalid _ Hparent Hp Htree Hpc Hitems Hok Hnd.
  set (ns0 := nodes (the_dom w)) in *.
  set (h := length (legacy w)). set (t := fresh (the_dom w)).
  pose proof (is_element_lt _ _ Hp) as Hplt.
  assert (Hpt : p <> t) by (unfold t, fresh; fold ns0; lia).
  set (o0 := mkTagLegacy type attributes parent children_ (NPrim PUndefined) None).
  set (o4 := with_tag (NRef t) o0).
  set (r0 := mkNode (Element (ascii_lowercase type)) [] None []).
  (* the element is created and stored *)
  unfold TagLegacy.constructor.
  erewrite bind_ok by reflexivity.
  erewrite bind_ok by reflexivity. cbn [legacy set_console].
  fold o0. fold h.
  erewrite bind_ok by (apply legacy_get_ok; cbn; apply lookup_last).
  cbn [_type o0].
  unfold bind at 1. unfold document_createElement, run_dom.
  cbn [the_dom set_legacy set_console]. rewrite (createElement_valid _ _ Hv).
  fold t. fold r0.
  erewrite bind_ok by reflexivity.
  cbn [set_legacy set_dom set_console legacy the_dom objects arrays tags console
       global_id global_item].
  change (alter (with_tag (NRef t)) h (legacy w ++ [o0]))
    with (alter (with_tag (NRef t)) (length (legacy w)) (legacy w ++ [o0])).
  rewrite alter_last. fold o4.
  match goal with |- context [bind (TagLegacy.write_attributes h) _ ?x] =>
    set (w4 := x) end.
  assert (Hh4 : legacy w4 !! h = Some o4) by (apply lookup_last).
  assert (Het4 : is_element (nodes (the_dom w4)) t = true)
    by (apply is_element_fresh).
  (* the attributes *)
  rewrite (bind_ok _ _ _ _ _
             (write_attributes_spec w4 h o4 t props Hh4 eq_refl Het4 Hentries Hvalid)).
  match goal with |- context [bind (TagLegacy.attach_to_parent h) _ ?x] =>
    set (w5 := x) end.
  set (r5 := set_attrs (write_attrs props []) r0).
  assert (Hns5 : nodes (the_dom w5) = ns0 ++ [r5]).
  { unfold w5, w4, update_attrs, alloc_node. cbn. apply alter_last. }
  assert (Hh5 : legacy w5 !! h = Some o4) by exact Hh4.
  assert (Het5 : is_element (nodes (the_dom w5)) t = true)
    by (rewrite Hns5; apply is_element_fresh).
  assert (Hep5 : is_element (nodes (the_dom w5)) p = true)
    by (rewrite Hns5; apply is_element_app; exact Hp).
  assert (Hpar5 : parent_of (nodes (the_dom w5)) t = None)
    by (rewrite Hns5; apply parent_of_fresh).
  assert (Hanc5 : inclusive_ancestor (nodes (the_dom w5)) t p = false)
    by (rewrite Hns5; apply fresh_not_ancestor; exact Htree).
  (* the parent *)
  rewrite (bind_ok _ _ _ _ _
             (attach_to_parent_spec w5 h o4 t p Hh5 eq_refl Hparent
                Hep5 Het5 Hpar5 Hanc5)).
  match goal with |- context [bind (TagLegacy.append_children h _) _ ?x] =>
    set (w6 := x) end.
  set (nsA := attach p t (ns0 ++ [r5])).
  assert (HnsA : nodes (the_dom w6) = nsA)
    by (unfold w6; cbn [the_dom set_dom nodes set_nodes]; rewrite Hns5;
        reflexivity).
  assert (HlenA : length nsA = S (length ns0))
    by (unfold nsA; rewrite length_attach, length_app; cbn; lia).
  assert (HkindA : forall x, node_kind nsA x = node_kind (ns0 ++ [r5]) x)
    by (intros x; apply node_kind_attach).
  assert (HetA : is_element nsA t = true).
  { unfold is_element. rewrite HkindA. apply is_element_fresh. }
  assert (HparA : parent_of nsA t = Some p).
  { apply parent_of_attach_child. rewrite length_app. cbn. unfold t, fresh.
    fold ns0. lia. }
  assert (HsameA : forall m, m < length ns0 -> parent_of nsA m = parent_of ns0 m).
  { intros m Hm. unfold nsA, attach.
    rewrite parent_of_alter_parent by (unfold t, fresh; fold ns0; lia).
    rewrite parent_of_alter_children by reflexivity.
    apply parent_of_app. exact Hm. }
  destruct (in_tree_child ns0 nsA t p Htree HlenA eq_refl HparA HsameA)
    as [HtreeA HchainA].
  assert (HpltA : p < length nsA) by lia.
  assert (Hh6 : legacy w6 !! h = Some (with_parent (VNode p) o4)).
  { unfold w6. cbn. apply lookup_alter_Some. exact Hh4. }
  assert (HchA : children_of nsA p = children_of ns0 p ++ [t]).
  { unfold nsA. rewrite children_of_attach by (rewrite length_app; cbn; lia).
    rewrite decide_True by reflexivity.
    rewrite children_of_app by exact Hplt. reflexivity. }
  assert (HpcA : Forall (fun c => parent_of nsA c = Some p) (children_of nsA p)).
  { rewrite HchA. apply Forall_app. split.
    - rewrite List.Forall_forall in *. intros c Hc. pose proof (Hpc c Hc) as Hcp.
      rewrite HsameA by (apply (parent_of_Some_lt _ _ _ Hcp)). exact Hcp.
    - constructor; [exact HparA|constructor]. }
  assert (I0 : loop_inv nsA t p (nodes (the_dom w6)) [] []).
  { rewrite HnsA. constructor; try tauto.
    - lia.
    - unfold nsA. rewrite children_of_attach by (rewrite length_app; cbn; lia).
      rewrite decide_False by congruence.
      unfold children_of, t, fresh. fold ns0. rewrite lookup_last. reflexivity.
    - constructor.
    - constructor.
    - unfold nsA. rewrite children_of_attach by (rewrite length_app; cbn; lia).
      rewrite decide_True by reflexivity. apply last_snoc_Some.
    - constructor.
    - cbn [node_refs flat_map existsb negb]. symmetry.
      apply forallb_filter_id. apply forallb_forall. reflexivity.
    - unfold strings_in. cbn. lia. }
  assert (HokA : Forall (item_ok nsA t) items).
  { eapply List.Forall_impl; [|exact Hok]. intros item Hitem.
    destruct item as [[]|x| | | |]; cbn in *; try tauto.
    destruct Hitem as [Hk Ha]. split.
    - unfold is_element, is_text in *. rewrite HkindA.
      destruct (node_kind ns0 x) as [k|] eqn:E; [|discriminate].
      rewrite (node_kind_app _ _ _ _ E). exact Hk.
    - rewrite HchainA. intros [Hx|Hx].
      + unfold is_element, is_text in Hk.
        destruct (node_kind ns0 x) as [k|] eqn:E; [|discriminate].
        apply node_kind_lt in E. unfold t, fresh in Hx. fold ns0 in Hx. lia.
      + revert Hx. apply not_In_existsb_eqb.
        rewrite <- inclusive_ancestor_in_existsb. exact Ha. }
  (* the children *)
  destruct (append_children_spec nsA w6 h _ t p children_ items
              HetA HtreeA Hpt HpltA HpcA Hh6 eq_refl I0 Hitems HokA Hnd)
    as (d' & cs' & Hrun & I).
  rewrite (bind_ok _ _ _ _ _ Hrun).
  eexists. eexists. cbn zeta. split; [reflexivity|].
  cbn [the_dom set_dom legacy set_legacy].
  split; [exact Hh6|]. split; [reflexivity|].
  split; [apply lookup_ge_None; unfold t, fresh, ns0; lia|].
  assert (HattrsA : attrs_of nsA t = write_attrs props []).
  { unfold nsA, attach. rewrite !attrs_of_alter_other by reflexivity.
    unfold attrs_of, t, fresh. fold ns0. rewrite lookup_last. reflexivity. }
  assert (Hget : forall name,
             get_attr name (attrs_of (nodes d') t) = written name props).
  { intros name. rewrite (inv_attrs _ _ _ _ _ _ I), HattrsA.
    rewrite get_attr_write_attrs. destruct (written name props); reflexivity. }
  assert (Hrefs : forall x, In x (node_refs items) -> x < length ns0).
  { intros x Hx. apply In_node_refs in Hx.
    rewrite List.Forall_forall in Hok. specialize (Hok _ Hx). cbn in Hok.
    destruct Hok as [Hk _]. unfold is_element, is_text in Hk.
    destruct (node_kind ns0 x) eqn:E; [|discriminate].
    eapply node_kind_lt. exact E. }
  split; [|split; [|split; [|split; [|split; [|split; [|split; [|split;
    [|split; [|split]]]]]]]]].
  - apply (inv_kind _ _ _ _ _ _ I). rewrite HkindA. apply node_kind_fresh.
  - rewrite (inv_attrs _ _ _ _ _ _ I). exact HattrsA.
  - exact Hget.
  - intros Hndk k s Hin. rewrite Hget. apply (written_present _ _ _ Hndk Hin).
  - rewrite (inv_chain _ _ _ _ _ _ I); [exact HparA|].
    apply In_ancestors_self.
  - exact (inv_last _ _ _ _ _ _ I).
  - rewrite (inv_siblings _ _ _ _ _ _ I), HchA. cbn [app].
    rewrite List.filter_app. f_equal. cbn [List.filter].
    destruct (existsb (Nat.eqb t) (node_refs items)) eqn:E; [|reflexivity].
    exfalso. apply existsb_exists in E as (x & Hx & Ex).
    apply Nat.eqb_eq in Ex. subst x. apply Hrefs in Hx.
    unfold t, fresh in Hx. fold ns0 in Hx. lia.
  - rewrite (inv_children _ _ _ _ _ _ I), (inv_ids _ _ _ _ _ _ I), HlenA.
    reflexivity.
  - rewrite (inv_children _ _ _ _ _ _ I). exact (inv_match _ _ _ _ _ _ I).
  - rewrite (inv_children _ _ _ _ _ _ I). exact (inv_parents _ _ _ _ _ _ I).
  - intros m Hm Hnot.
    rewrite (inv_unmoved _ _ _ _ _ _ I m) by
      (try lia; rewrite <- In_node_refs; exact Hnot).
    apply HsameA. exact Hm.
Qed.

(** ** Reordering among siblings *)

(** C1 fails on the code: [relatives] leaves a hole at the index of the
    handle's own node, [toPosition] passes the hole to [appendChild] as
    [undefined], and the call raises [TypeError] unless the node is the last
    element child.  With [p] elements 4, 5, 6 under the body:
    [toPosition("last")] on the handle of 4 raises at once and leaves the
    order [4; 5; 6]; [toPosition("first")] on the handle of 5 raises after
    moving 5 and 4 into the fragment, which leaves only 6 under the body;
    [toPosition(1)] on the handle of 4 raises and leaves the order as it was.
    On the handle of the last element, 6, the three calls do as documented. *)
Theorem toPosition_raises_unless_last :
  children_of (nodes (the_dom siblings_world)) 3 = [4; 5; 6] /\
  eval (TagLegacy.toPosition 0 TagLegacy.last) siblings_world = Throw TypeError /\
  children_of
    (nodes (the_dom (exec (TagLegacy.toPosition 0 TagLegacy.last) siblings_world))) 3
  = [4; 5; 6] /\
  eval (TagLegacy.toPosition 1 TagLegacy.first) siblings_world = Throw TypeError /\
  children_of
    (nodes (the_dom (exec (TagLegacy.toPosition 1 TagLegacy.first) siblings_world))) 3
  = [6] /\
  eval (TagLegacy.toPosition 0 (TagLegacy.index 1)) siblings_world
  = Throw TypeError /\
  children_of
    (nodes (the_dom (exec (TagLegacy.toPosition 0 (TagLegacy.index 1)) siblings_world))) 3
  = [4; 5; 6] /\
  children_of
    (nodes (the_dom (exec (TagLegacy.toPosition 2 TagLegacy.first) siblings_world))) 3
  = [6; 4; 5] /\
  children_of
    (nodes (the_dom (exec (TagLegacy.toPosition 2 (TagLegacy.index 1)) siblings_world))) 3
  = [4; 6; 5] /\
  children_of
    (nodes (the_dom (exec (TagLegacy.toPosition 2 TagLegacy.last) siblings_world))) 3
  = [4; 5; 6].
Proof. repeat split. Qed.

(** ** Assigning a type *)

(** C3 fails on the code: the setter calls [new Tag(...)], and [Tag] is the
    class of the other variant, whose constructor takes an element ID and
    whose objects have no property [tag].  On the handle of
    [<ul id="list1">a b</ul>], assigning the type ["ol"] returns; no node is
    created; the old element is out of the page; the handle holds
    [undefined], and reading [type] raises [TypeError]. *)
Theorem set_type_drops_the_node :
  (exists o, legacy list_world !! 0 = Some o /\ _tag o = NRef 4) /\
  parent_of (nodes (the_dom list_world)) 4 = Some 3 /\
  eval (TagLegacy.set_type 0 "ol") list_world = Ok tt /\
  (let w := exec (TagLegacy.set_type 0 "ol") list_world in
   length (nodes (the_dom w)) = length (nodes (the_dom list_world)) /\
   children_of (nodes (the_dom w)) 3 = [] /\
   (exists o, legacy w !! 0 = Some o /\ _tag o = NPrim PUndefined) /\
   eval (TagLegacy.get_type 0) w = Throw TypeError).
Proof.
  split; [eexists; split; reflexivity|].
  repeat split. eexists; split; reflexivity.
Qed.

(** ** The theorems at concrete inputs *)

Lemma legacy_constructor_builds_the_element_witness :
  exists (w' : world) (o' : TagLegacy_object),
    TagLegacy.constructor "ul" (ORef 0) (VPrim PUndefined) (Some 0)
      list_args_world = (Ok 0, w') /\
    legacy w' !! 0 = Some o' /\
    _tag o' = NRef 4 /\
    nodes (the_dom list_args_world) !! 4 = None /\
    node_kind (nodes (the_dom w')) 4 = Some (Element "ul") /\
    attrs_of (nodes (the_dom w')) 4 = [("id", "list1")] /\
    (forall name,
        get_attr name (attrs_of (nodes (the_dom w')) 4)
        = written name [("id", PStr "list1")]) /\
    get_attr "id" (attrs_of (nodes (the_dom w')) 4) = Some "list1" /\
    parent_of (nodes (the_dom w')) 4 = Some 3 /\
    last (children_of (nodes (the_dom w')) 3) = Some 4 /\
    children_of (nodes (the_dom w')) 3 = [4] /\
    children_of (nodes (the_dom w')) 4 = [5; 6] /\
    Forall2 (child_matches (nodes (the_dom w')))
      [VPrim (PStr "a"); VPrim (PStr "b")]
      (children_of (nodes (the_dom w')) 4) /\
    Forall (fun c => parent_of (nodes (the_dom w')) c = Some 4)
      (children_of (nodes (the_dom w')) 4) /\
    (forall m, m < 4 -> ~ In m [] ->
               parent_of (nodes (the_dom w')) m
               = parent_of (nodes (the_dom list_args_world)) m).
Proof.
  destruct (legacy_constructor_builds_the_element list_args_world "ul" (ORef 0)
              (VPrim PUndefined) (Some 0) [("id", PStr "list1")] 3
              [VPrim (PStr "a"); VPrim (PStr "b")])
    as (w' & o' & H1 & H2 & H3 & H4 & H5 & H6 & H7 & H8 & H9 & H10 & H11
        & H12 & H13 & H14 & H15).
  - reflexivity.
  - reflexivity.
  - repeat constructor.
  - repeat constructor.
  - split; reflexivity.
  - reflexivity.
  - reflexivity.
  - constructor.
  - eexists. split; reflexivity.
  - repeat constructor.
  - constructor.
  - exists w', o'.
    split; [exact H1|]. split; [exact H2|]. split; [exact H3|].
    split; [exact H4|]. split; [exact H5|]. split; [exact H6|].
    split; [exact H7|]. split.
    { apply (H8 ltac:(apply NoDup_cons; split;
                      [apply not_elem_of_nil|apply NoDup_nil_2]) "id" "list1").
      left. reflexivity. }
    split; [exact H9|]. split; [exact H10|]. split; [exact H11|].
    split; [exact H12|]. split; [exact H13|]. split; [exact H14|exact H15].
Defined.

(** The example of the claim: [<ul id="list1">] under the body, with the text
    nodes ["a"] and ["b"] in that order. *)
Example legacy_constructor_list :
  eval new_list start = Ok 0 /\
  (exists o, legacy list_world !! 0 = Some o /\ _tag o = NRef 4) /\
  nodes (the_dom list_world) !! 4
  = Some (mkNode (Element "ul") [("id", "list1")] (Some 3) [5; 6]) /\
  children_of (nodes (the_dom list_world)) 3 = [4] /\
  nodes (the_dom list_world) !! 5 = Some (mkNode (Text "a") [] (Some 4) []) /\
  nodes (the_dom list_world) !! 6 = Some (mkNode (Text "b") [] (Some 4) []).
Proof. split; [reflexivity|]. split; [eexists; split; reflexivity|]. repeat split. Qed.

Lemma legacy_attributes_are_added_witness :
  exists (w1 w2 : world) (r : loc) (result : list (string * prim)),
    TagLegacy.set_attributes 0 (ORef 1) classed_mapping_world = (Ok tt, w1) /\
    TagLegacy.get_attributes 0 w1 = (Ok (ORef r), w2) /\
    objects w2 !! r = Some result /\
    own_property "title" result = Some (PStr "y") /\
    own_property "__proto__" result = None /\
    attrs_of (nodes (the_dom classed_mapping_world)) 4 = [("class", "x")] /\
    attrs_of (nodes (the_dom w1)) 4 = [("class", "x"); ("title", "y")] /\
    (forall k, In k (map fst [("class", "x")]) ->
               In k (map fst (attrs_of (nodes (the_dom w1)) 4))) /\
    (forall k, ~ In k (map fst [("title", PStr "y")]) ->
               get_attr k (attrs_of (nodes (the_dom w1)) 4)
               = get_attr k [("class", "x")]).
Proof.
  destruct (legacy_attributes_are_added classed_mapping_world 0
              (mkTagLegacy "p" (ORef 0) (VNode 3) None (NRef 4) None)
              4 1 [("title", PStr "y")])
    as (w1 & w2 & r & result & H1 & H2 & H3 & H4 & H5 & H6 & H7 & H8).
  - reflexivity.
  - reflexivity.
  - reflexivity.
  - reflexivity.
  - discriminate.
  - repeat constructor. cbn. intros H. inversion H.
  - repeat constructor; [discriminate|]. exists "y". reflexivity.
  - exists w1, w2, r, result.
    split; [exact H1|]. split; [exact H2|]. split; [exact H3|].
    split; [apply H4; left; reflexivity|]. split; [exact H5|].
    split; [reflexivity|]. split; [exact H6|]. split; [exact H7|exact H8].
Defined.

Lemma self_parenting_leaves_tree_unchanged_witness :
  (the_dom (exec (TagLegacy.set_parent 0 (VNode 4)) child_world)
   = the_dom child_world /\
   legacy (exec (TagLegacy.set_parent 0 (VNode 4)) child_world) !! 0
   = Some (mkTagLegacy "p" (OPrim PUndefined) (VNode 4) None (NRef 4) None) /\
   eval (TagLegacy.set_parent 0 (VNode 4)) child_world
   = Throw HierarchyRequestError) /\
  (the_dom (exec (TagLegacy.set_parent 0 (VTagLegacy 0)) child_world)
   = the_dom child_world /\
   legacy (exec (TagLegacy.set_parent 0 (VTagLegacy 0)) child_world) !! 0
   = Some (mkTagLegacy "p" (OPrim PUndefined) (VTagLegacy 0) None (NRef 4)
             None) /\
   eval (TagLegacy.set_parent 0 (VTagLegacy 0)) child_world = Throw TypeError) /\
  (eval (Tag.set_parent 0 (VNode 4)) tag_world = Ok tt /\
   the_dom (exec (Tag.set_parent 0 (VNode 4)) tag_world) = the_dom tag_world /\
   exec (Tag.set_parent 0 (VNode 4)) tag_world = tag_world) /\
  (eval (Tag.set_parent 0 (VTag 0)) tag_world = Ok tt /\
   the_dom (exec (Tag.set_parent 0 (VTag 0)) tag_world) = the_dom tag_world /\
   exec (Tag.set_parent 0 (VTag 0)) tag_world = tag_world).
Proof.
  destruct self_parenting_leaves_tree_unchanged as (L1 & L2 & T1 & T2).
  split; [|split; [|split]].
  - destruct (L1 child_world 0
                (mkTagLegacy "p" (OPrim PUndefined) (VNode 3) None (NRef 4) None)
                4 eq_refl eq_refl) as (H1 & H2 & _).
    split; [exact H1|]. split; [exact H2|reflexivity].
  - destruct (L2 child_world 0
                (mkTagLegacy "p" (OPrim PUndefined) (VNode 3) None (NRef 4) None)
                eq_refl) as (H1 & H2 & _).
    split; [exact H1|]. split; [exact H2|reflexivity].
  - destruct (T1 tag_world 0
                (mkTag (VPrim (PBool false)) (NRef 4) None (VPrim PUndefined)
                   (OPrim PUndefined)) 4 eq_refl eq_refl)
      as (H1 & H2 & _ & H3 & _).
    split; [exact H1|]. split; [exact H2|exact (H3 eq_refl)].
  - destruct (T2 tag_world 0
                (mkTag (VPrim (PBool false)) (NRef 4) None (VPrim PUndefined)
                   (OPrim PUndefined)) 4 eq_refl eq_refl)
      as (H1 & H2 & _ & H3 & _).
    split; [exact H1|]. split; [exact H2|exact (H3 eq_refl)].
Defined.

Lemma removal_then_no_recreation_on_legacy_witness :
  (exists w',
     TagLegacy.remove 0 child_world = (Ok tt, w') /\
     legacy w' !! 0
     = Some (mkTagLegacy "p" (OPrim PUndefined) (VNode 3) None (NPrim PNull) None) /\
     parent_of (nodes (the_dom w')) 4 = None /\
     forall m : node, ~ In 4 (children_of (nodes (the_dom w')) m)) /\
  eval (TagLegacy.get_type 0) removed_world = Throw TypeError /\
  (exists w',
     Tag.fix_ 0 cleared_tag_world = (Ok 0, w') /\
     (exists o', tags w' !! 0 = Some o' /\ element o' = NRef 5) /\
     nodes (the_dom w')
     = nodes (the_dom cleared_tag_world) ++ [mkNode (Element "div") [] None []]).
Proof.
  destruct removal_then_no_recreation_on_legacy as (R & N & F).
  split; [|split].
  - exact (R child_world 0
             (mkTagLegacy "p" (OPrim PUndefined) (VNode 3) None (NRef 4) None)
             4 eq_refl eq_refl eq_refl eq_refl).
  - exact (proj1 (N removed_world 0
                    (mkTagLegacy "p" (OPrim PUndefined) (VNode 3) None
                       (NPrim PNull) None) eq_refl eq_refl)).
  - exact (F cleared_tag_world 0
             (mkTag (VPrim (PBool false)) (NPrim PNull) None (VPrim PUndefined)
                (OPrim PUndefined)) "div" eq_refl eq_refl eq_refl eq_refl).
Defined.



(** * Further properties of the handles *)

(** ** Arrays filled by index *)

Lemma set_arrays_arrays (w : world) : set_arrays (arrays w) w = w.
Proof. destruct w; reflexivity. Qed.

(** A loop that only assigns slots of the array [l]. *)
Lemma update_array_loop {A} (l : loc)
    (step : A -> list (option jsval) -> list (option jsval))
    (body : A -> M unit) (I : world -> Prop) (items : list A) (w : world) :
  (forall a w, I w ->
               body a w = (Ok tt, set_arrays (alter (step a) l (arrays w)) w)) ->
  (forall w x, I w -> I (set_arrays x w)) ->
  I w ->
  for_each items body w
  = (Ok tt,
     set_arrays
       (alter (fun o => fold_left (fun acc a => step a acc) items o) l
          (arrays w)) w).
Proof.
  intros Hbody Hstable. revert w.
  induction items as [|a items IH]; intros w Hw.
  - cbn. rewrite list_alter_id by reflexivity.
    rewrite set_arrays_arrays. reflexivity.
  - cbn [for_each]. unfold bind at 1. rewrite (Hbody a w Hw).
    rewrite IH by (apply Hstable; exact Hw). cbn.
    rewrite list_alter_alter_eq. reflexivity.
Qed.

Lemma array_set_end (v : jsval) (a : list (option jsval)) :
  array_set (length a) v a = a ++ [Some v].
Proof.
  unfold array_set. rewrite Nat.ltb_irrefl, Nat.sub_diag. reflexivity.
Qed.

Lemma array_set_after_end (v : jsval) (a : list (option jsval)) :
  array_set (S (length a)) v a = a ++ [None; Some v].
Proof.
  unfold array_set.
  destruct (Nat.ltb_spec (S (length a)) (length a)) as [H|_]; [lia|].
  replace (S (length a) - length a) with 1 by lia. reflexivity.
Qed.

(** Assigning the members of [l] at the indices [k], [k + 1], ... of an array
    of length [k] appends them. *)
Lemma array_fill (l : list node) :
  forall (k : nat) (a : list (option jsval)),
    length a = k ->
    fold_left (fun acc x => array_set (fst x) (VNode (snd x)) acc)
      (combine (seq k (length l)) l) a
    = a ++ map (fun c => Some (VNode c)) l.
Proof.
  induction l as [|c l IH]; intros k a Hk; cbn.
  - rewrite app_nil_r. reflexivity.
  - subst k. rewrite array_set_end.
    rewrite IH by (rewrite length_app; cbn; lia).
    rewrite <- app_assoc. reflexivity.
Qed.


Lemma skip_self_fill (n : node) (l : list node) :
  forall (k : nat) (a : list (option jsval)),
    length a = k -> ~ In n l ->
    fold_left (fun acc x => skip_self n x acc) (combine (seq k (length l)) l) a
    = a ++ map (fun c => Some (VNode c)) l.
Proof.
  induction l as [|c l IH]; intros k a Hk Hn; cbn.
  - rewrite app_nil_r. reflexivity.
  - unfold skip_self at 2. cbn [fst snd].
    destruct (Nat.eqb_spec c n) as [->|Hne]; [exfalso; apply Hn; left; reflexivity|].
    subst k. rewrite array_set_end.
    rewrite IH; [|rewrite length_app; cbn; lia|intros H; apply Hn; right; exact H].
    rewrite <- app_assoc. reflexivity.
Qed.


Lemma skip_self_hole (n : node) (after : list node) :
  forall (before : list node) (k : nat) (a : list (option jsval)),
    length a = k -> ~ In n before -> ~ In n after ->
    fold_left (fun acc x => skip_self n x acc)
      (combine (seq k (length (before ++ n :: after))) (before ++ n :: after)) a
    = a ++ relative_slots before after.
Proof.
  induction before as [|c before IH]; intros k a Hk Hb Ha.
  - cbn [app length seq combine fold_left]. unfold skip_self at 2. cbn [fst snd].
    rewrite Nat.eqb_refl. unfold relative_slots. cbn [map app].
    destruct after as [|x rest].
    + cbn. rewrite app_nil_r. reflexivity.
    + cbn [length seq combine fold_left]. unfold skip_self at 2. cbn [fst snd].
      destruct (Nat.eqb_spec x n) as [->|Hne];
        [exfalso; apply Ha; left; reflexivity|].
      subst k. rewrite array_set_after_end.
      rewrite skip_self_fill;
        [|rewrite length_app; cbn; lia|intros H; apply Ha; right; exact H].
      rewrite <- app_assoc. reflexivity.
  - cbn [app length seq combine fold_left]. unfold skip_self at 2. cbn [fst snd].
    destruct (Nat.eqb_spec c n) as [->|Hne];
      [exfalso; apply Hb; left; reflexivity|].
    subst k. rewrite array_set_end.
    rewrite IH; [|rewrite length_app; cbn; lia
                 |intros H; apply Hb; right; exact H|exact Ha].
    unfold relative_slots. cbn [map app]. rewrite <- !app_assoc. reflexivity.
Qed.

(** ** The [children] getter of a legacy handle *)

Lemma legacy_get_children_spec (w : world) (h : loc) (o : TagLegacy_object)
    (n : node) :
  legacy w !! h = Some o -> _tag o = NRef n ->
  TagLegacy.get_children h w
  = (Ok (Some (length (arrays w))),
     set_legacy
       (alter (with_children (Some (length (arrays w)))) h (legacy w))
       (set_arrays
          (arrays w
             ++ [map (fun c => Some (VNode c))
                   (children_of (nodes (the_dom w)) n)]) w)).
Proof.
  intros Hh Ht. unfold TagLegacy.get_children, TagLegacy.get_tag.
  repeat (progress (run; rewrite ?Hh, ?Ht)).
  rewrite (update_array_loop (length (arrays w))
             (fun x => array_set (fst x) (VNode (snd x)))
             _ (fun w' => True)).
  - repeat (progress (run; rewrite ?Hh, ?Ht)).
    rewrite array_fill by reflexivity. reflexivity.
  - intros a w0 _. reflexivity.
  - intros; exact I.
  - exact I.
Qed.


(** The [children] getter of a legacy handle returns a new array with the
    child nodes of the handle's node, all of them and in document order,
    without holes; it caches the array and leaves the tree as it was. *)
Theorem legacy_children_lists_child_nodes
    (w : world) (h : loc) (o : TagLegacy_object) (n : node) :
  legacy w !! h = Some o -> _tag o = NRef n ->
  exists (c : loc) (w' : world),
    TagLegacy.get_children h w = (Ok (Some c), w') /\
    arrays w !! c = None /\
    arrays w' !! c
    = Some (map (fun x => Some (VNode x)) (children_of (nodes (the_dom w)) n)) /\
    legacy w' !! h = Some (with_children (Some c) o) /\
    the_dom w' = the_dom w.
Proof.
  intros Hh Ht. exists (length (arrays w)). eexists.
  split; [exact (legacy_get_children_spec w h o n Hh Ht)|]. cbn.
  split; [apply lookup_ge_None; lia|].
  split; [apply lookup_last|].
  split; [apply lookup_alter_Some; exact Hh|reflexivity].
Qed.

Lemma legacy_children_lists_child_nodes_witness :
  exists (c : loc) (w' : world),
    TagLegacy.get_children 0 list_world = (Ok (Some c), w') /\
    arrays list_world !! c = None /\
    arrays w' !! c = Some [Some (VNode 5); Some (VNode 6)] /\
    legacy w' !! 0
    = Some (with_children (Some c)
              (mkTagLegacy "ul" (ORef 0) (VNode 3) (Some 0) (NRef 4) None)) /\
    the_dom w' = the_dom list_world.
Proof.
  exact (legacy_children_lists_child_nodes list_world 0
           (mkTagLegacy "ul" (ORef 0) (VNode 3) (Some 0) (NRef 4) None) 4
           eq_refl eq_refl).
Defined.

(** ** The [parent] getter, on a node that has a parent *)

Lemma legacy_get_parent_attached
    (w : world) (h : loc) (o : TagLegacy_object) (n p : node) :
  legacy w !! h = Some o -> _tag o = NRef n ->
  parent_of (nodes (the_dom w)) n = Some p ->
  TagLegacy.get_parent h w
  = (Ok (VNode p), set_legacy (alter (with_parent (VNode p)) h (legacy w)) w).
Proof.
  intros Hh Ht Hpar. unfold TagLegacy.get_parent, TagLegacy.get_tag.
  repeat (progress (run; rewrite ?Hh, ?Ht, ?Hpar; unfold strict_eq)).
  reflexivity.
Qed.

(** ** The [relatives] getter *)

Lemma legacy_get_relatives_spec
    (w : world) (h : loc) (o : TagLegacy_object) (n p : node)
    (before after : list node) :
  legacy w !! h = Some o -> _tag o = NRef n ->
  parent_of (nodes (the_dom w)) n = Some p ->
  is_parent_node (nodes (the_dom w)) p = true ->
  element_children (nodes (the_dom w)) p = before ++ n :: after ->
  ~ In n before -> ~ In n after ->
  TagLegacy.get_relatives h w
  = (Ok (length (arrays w)),
     set_legacy
       (alter (fun x => with_relatives (Some (length (arrays w)))
                          (with_parent (VNode p) x)) h (legacy w))
       (set_arrays (arrays w ++ [relative_slots before after]) w)).
Proof.
  intros Hh Ht Hpar Hmix Hec Hb Ha. unfold TagLegacy.get_relatives.
  unfold bind at 1. unfold new_array at 1.
  erewrite bind_ok;
    [|eapply (legacy_get_parent_attached _ h o n p); [exact Hh|exact Ht|exact Hpar]].
  unfold children at 1.
  repeat (progress (run; rewrite ?Hmix, ?Hec)).
  rewrite (update_array_loop (length (arrays w)) (skip_self n) _
             (fun w' => exists o', legacy w' !! h = Some o' /\ _tag o' = NRef n)).
  - repeat (progress (run; rewrite ?Hh, ?Ht)).
    rewrite (skip_self_hole n after before 0 []) by (reflexivity || assumption).
    cbn. rewrite list_alter_alter_eq. reflexivity.
  - intros a w0 (o' & H1 & H2). unfold TagLegacy.get_tag.
    repeat (progress (run; rewrite ?H1, ?H2)).
    unfold skip_self, strict_eq. cbn.
    destruct (snd a =? n) eqn:E; cbn.
    + rewrite list_alter_id by reflexivity. rewrite set_arrays_arrays.
      reflexivity.
    + reflexivity.
  - intros w0 x H. exact H.
  - cbn. exists (with_parent (VNode p) o). split; [|exact Ht].
    apply lookup_alter_Some. exact Hh.
Qed.


(** The [relatives] getter returns a new array with the element children of
    the parent at their own indices, the slot of the handle's node left
    empty.  When the node is the last element child the array ends before
    that slot, and is the list of the relatives; when element siblings follow
    the node, the array has a hole at the node's index and is as long as the
    list of all element children. *)
Theorem legacy_relatives_leave_a_hole
    (w : world) (h : loc) (o : TagLegacy_object) (n p : node)
    (before after : list node) :
  legacy w !! h = Some o -> _tag o = NRef n ->
  parent_of (nodes (the_dom w)) n = Some p ->
  is_parent_node (nodes (the_dom w)) p = true ->
  element_children (nodes (the_dom w)) p = before ++ n :: after ->
  ~ In n before -> ~ In n after ->
  exists (r : loc) (w' : world) (slots : list (option jsval)),
    TagLegacy.get_relatives h w = (Ok r, w') /\
    arrays w !! r = None /\
    arrays w' !! r = Some slots /\
    the_dom w' = the_dom w /\
    (after = [] -> slots = map (fun c => Some (VNode c)) before) /\
    (after <> [] ->
     slots
     = map (fun c => Some (VNode c)) before
       ++ None :: map (fun c => Some (VNode c)) after /\
     slots !! length before = Some None /\
     length slots = length (element_children (nodes (the_dom w)) p)).
Proof.
  intros Hh Ht Hpar Hmix Hec Hb Ha.
  exists (length (arrays w)). eexists. exists (relative_slots before after).
  split; [exact (legacy_get_relatives_spec w h o n p before after
                   Hh Ht Hpar Hmix Hec Hb Ha)|].
  cbn. split; [apply lookup_ge_None; lia|].
  split; [apply lookup_last|]. split; [reflexivity|].
  unfold relative_slots. split.
  - intros ->. apply app_nil_r.
  - intros Hne. destruct after as [|x rest]; [contradiction|].
    split; [reflexivity|]. split.
    + rewrite lookup_app_r by (rewrite length_map; lia).
      rewrite length_map, Nat.sub_diag. reflexivity.
    + rewrite Hec, !length_app. cbn. rewrite !length_map. reflexivity.
Qed.

Lemma legacy_relatives_leave_a_hole_witness :
  exists (r : loc) (w' : world) (slots : list (option jsval)),
    TagLegacy.get_relatives 0 siblings_world = (Ok r, w') /\
    arrays siblings_world !! r = None /\
    arrays w' !! r = Some slots /\
    the_dom w' = the_dom siblings_world /\
    ([5; 6] = [] -> slots = map (fun c => Some (VNode c)) []) /\
    ([5; 6] <> [] ->
     slots
     = map (fun c => Some (VNode c)) []
       ++ None :: map (fun c => Some (VNode c)) [5; 6] /\
     slots !! length (@nil node) = Some None /\
     length slots
     = length (element_children (nodes (the_dom siblings_world)) 3)).
Proof.
  apply (legacy_relatives_leave_a_hole siblings_world 0
           (mkTagLegacy "p" (OPrim PUndefined) (VNode 3) None (NRef 4) None)
           4 3 [] [5; 6]).
  - reflexivity.
  - reflexivity.
  - reflexivity.
  - reflexivity.
  - reflexivity.
  - cbn. tauto.
  - cbn. lia.
Defined.


(** ** [toPosition] on a node that is not the last element child *)

Lemma is_element_move (ns : list Node) (p n m : node) :
  is_element (move p n ns) m = is_element ns m.
Proof. unfold is_element. rewrite node_kind_move. reflexivity. Qed.

Lemma is_element_app_fragment (ns : list Node) (m : node) :
  is_element (ns ++ [mkNode DocumentFragment [] None []]) m = is_element ns m.
Proof.
  unfold is_element, node_kind.
  destruct (Nat.lt_trichotomy m (length ns)) as [H|[->|H]].
  - rewrite lookup_app_l by exact H. reflexivity.
  - rewrite lookup_last. rewrite (lookup_ge_None_2 ns) by lia. reflexivity.
  - rewrite !lookup_ge_None_2; [reflexivity|lia|rewrite length_app; cbn; lia].
Qed.

Lemma is_parent_node_app (ns : list Node) (r : Node) (p : node) :
  is_parent_node ns p = true -> is_parent_node (ns ++ [r]) p = true.
Proof.
  unfold is_parent_node. destruct (node_kind ns p) as [k|] eqn:E; [|discriminate].
  rewrite (node_kind_app _ _ _ _ E). trivial.
Qed.

Lemma is_parent_node_lt (ns : list Node) (p : node) :
  is_parent_node ns p = true -> p < length ns.
Proof.
  unfold is_parent_node. destruct (node_kind ns p) as [k|] eqn:E; [|discriminate].
  intros _. exact (node_kind_lt _ _ _ E).
Qed.

Lemma element_children_app_fragment (ns : list Node) (p : node) :
  p < length ns ->
  element_children (ns ++ [mkNode DocumentFragment [] None []]) p
  = element_children ns p.
Proof.
  intros Hp. unfold element_children. rewrite children_of_app by exact Hp.
  apply filter_ext. intros c. apply is_element_app_fragment.
Qed.

(** A node without parent has no inclusive ancestor but itself. *)
Lemma orphan_inclusive_ancestor (ns : list Node) (a n : node) :
  parent_of ns n = None -> a <> n -> inclusive_ancestor ns a n = false.
Proof.
  intros Hn Hne. unfold inclusive_ancestor.
  destruct (length ns) as [|f]; cbn; rewrite ?Hn;
    destruct (Nat.eqb_spec a n); try contradiction; reflexivity.
Qed.

(** The loop of [toPosition] over an array with a hole: the elements before
    the hole go into the fragment, and [appendChild(undefined)] raises. *)
Lemma fragment_loop_hole (f : node) (items : list jsval) :
  forall w : world,
    node_kind (nodes (the_dom w)) f = Some DocumentFragment ->
    parent_of (nodes (the_dom w)) f = None ->
    Forall (fun v => v = VPrim PUndefined \/
                     exists c, v = VNode c /\
                               is_element (nodes (the_dom w)) c = true) items ->
    In (VPrim PUndefined) items ->
    exists w',
      for_each items (fun item => appendChild (VNode f) item ;; ret tt) w
      = (Throw TypeError, w').
Proof.
  induction items as [|v items IH]; intros w Hf Hpar Hall Hin; [destruct Hin|].
  apply Forall_cons_1 in Hall as [Hv Hall].
  destruct Hv as [->|(c & -> & Hc)].
  - cbn. eexists. reflexivity.
  - destruct Hin as [Hin|Hin]; [discriminate|].
    assert (Hne : c <> f).
    { intros ->. unfold is_element in Hc. rewrite Hf in Hc. discriminate. }
    destruct (is_element_kind _ _ Hc) as [l Hk].
    assert (Hpre : pre_insertion_error (nodes (the_dom w)) f c = None).
    { unfold pre_insertion_error. rewrite Hf, Hk.
      rewrite (orphan_inclusive_ancestor _ _ _ Hpar Hne). reflexivity. }
    destruct (IH (set_dom (set_nodes (move f c (nodes (the_dom w))) (the_dom w)) w))
      as [w' Hw'].
    + cbn. rewrite node_kind_move. exact Hf.
    + cbn. rewrite parent_of_move_other by congruence. exact Hpar.
    + cbn. eapply List.Forall_impl; [|exact Hall].
      intros v [->|(c' & -> & Hc')]; [left; reflexivity|right].
      exists c'. split; [reflexivity|]. rewrite is_element_move. exact Hc'.
    + exact Hin.
    + exists w'. cbn [for_each]. rewrite <- Hw'.
      unfold bind at 1. unfold bind at 1. unfold appendChild, as_node.
      cbn -[for_each]. unfold run_dom, appendChild_node. rewrite Hpre.
      rewrite (insert_last_element _ _ _ Hc). reflexivity.
Qed.

Lemma In_take_drop {A} (x y : A) (s : nat) (l : list A) :
  In x l -> In x (take s l ++ [y] ++ drop s l).
Proof.
  intros H. rewrite <- (take_drop s l) in H.
  apply in_app_or in H as [H|H]; apply in_or_app; [left; exact H|].
  right. apply in_or_app. right. exact H.
Qed.

Lemma Forall_take_drop {A} (P : A -> Prop) (y : A) (s : nat) (l : list A) :
  Forall P l -> P y -> Forall P (take s l ++ [y] ++ drop s l).
Proof.
  intros Hl Hy. apply Forall_app. split; [apply Forall_take; exact Hl|].
  apply Forall_app. split; [constructor; [exact Hy|constructor]|].
  apply Forall_drop. exact Hl.
Qed.

Lemma In_filter_element (ns : list Node) (c : node) (l : list node) :
  In c (List.filter (is_element ns) l) -> is_element ns c = true.
Proof. intros H. apply filter_In in H. apply H. Qed.


(** The values [toPosition] passes to [appendChild], for an array of
    relatives that has a hole: elements, and [undefined] for the hole. *)
Lemma position_items (ns : list Node) (n : node) (before after : list node)
    (pos : TagLegacy.position) :
  (forall c, In c (before ++ n :: after) -> is_element ns c = true) ->
  after <> [] ->
  let items :=
    array_values
      (match pos with
       | TagLegacy.first => array_splice_insert 0 (VNode n)
       | TagLegacy.last => array_push (VNode n)
       | TagLegacy.index k => array_splice_insert k (VNode n)
       end (relative_slots before after)) in
  Forall (fun v => v = VPrim PUndefined \/
                   exists c, v = VNode c /\ is_element ns c = true) items /\
  In (VPrim PUndefined) items.
Proof.
  intros Hel Hne.
  set (Q := fun x : option jsval =>
              x = None \/ exists c, x = Some (VNode c) /\ is_element ns c = true).
  assert (HQ : Forall Q (relative_slots before after)).
  { unfold relative_slots. apply Forall_app. split.
    - apply List.Forall_forall. intros x Hx. apply in_map_iff in Hx as (c & <- & Hc).
      right. exists c. split; [reflexivity|]. apply Hel. apply in_or_app. left. exact Hc.
    - destruct after as [|a rest]; [constructor|]. constructor; [left; reflexivity|].
      apply List.Forall_forall. intros x Hx. apply in_map_iff in Hx as (c & <- & Hc).
      right. exists c. split; [reflexivity|]. apply Hel. apply in_or_app. right.
      right. exact Hc. }
  assert (HN : In None (relative_slots before after)).
  { unfold relative_slots. apply in_or_app. right.
    destruct after; [contradiction|left; reflexivity]. }
  assert (Hn : Q (Some (VNode n))).
  { right. exists n. split; [reflexivity|]. apply Hel. apply in_or_app.
    right. left. reflexivity. }
  assert (G : forall sl, Forall Q sl -> In None sl ->
                         Forall (fun v => v = VPrim PUndefined \/
                                          exists c, v = VNode c /\
                                                    is_element ns c = true)
                           (array_values sl) /\
                         In (VPrim PUndefined) (array_values sl)).
  { intros sl H1 H2. split.
    - unfold array_values. apply List.Forall_forall. intros v Hv.
      apply in_map_iff in Hv as (x & <- & Hx).
      rewrite List.Forall_forall in H1. destruct (H1 x Hx) as [->|(c & -> & Hc)].
      + left. reflexivity.
      + right. exists c. split; [reflexivity|exact Hc].
    - unfold array_values. apply in_map_iff. exists None. split; [reflexivity|exact H2]. }
  cbv zeta. apply G; destruct pos; unfold array_splice_insert, array_push.
  - apply Forall_take_drop; assumption.
  - apply Forall_app. split; [exact HQ|constructor; [exact Hn|constructor]].
  - apply Forall_take_drop; assumption.
  - apply In_take_drop. exact HN.
  - apply in_or_app. left. exact HN.
  - apply In_take_drop. exact HN.
Qed.

Lemma legacy_toPosition_hole
    (w : world) (h : loc) (o : TagLegacy_object) (n p : node)
    (before after : list node) (pos : TagLegacy.position) :
  legacy w !! h = Some o -> _tag o = NRef n ->
  parent_of (nodes (the_dom w)) n = Some p ->
  is_parent_node (nodes (the_dom w)) p = true ->
  element_children (nodes (the_dom w)) p = before ++ n :: after ->
  ~ In n before -> ~ In n after -> after <> [] ->
  exists w', TagLegacy.toPosition h pos w = (Throw TypeError, w').
Proof.
  intros Hh Ht Hpar Hmix Hec Hb Ha Hne.
  pose proof (parent_of_Some_lt _ _ _ Hpar) as Hn.
  pose proof (is_parent_node_lt _ _ Hmix) as Hp.
  unfold TagLegacy.toPosition.
  erewrite bind_ok; [|reflexivity].
  erewrite bind_ok;
    [|eapply (legacy_get_relatives_spec _ h o n p before after); cbn;
      [exact Hh|exact Ht
      |rewrite parent_of_app by exact Hn; exact Hpar
      |apply is_parent_node_app; exact Hmix
      |rewrite element_children_app_fragment by exact Hp; exact Hec
      |exact Hb|exact Ha]].
  unfold TagLegacy.get_tag.
  erewrite bind_ok;
    [|eapply legacy_get_ok; cbn; apply lookup_alter_Some; exact Hh].
  erewrite bind_ok; [|reflexivity].
  erewrite bind_ok; [|reflexivity].
  cbn [with_relatives with_parent _tag of_nodeval]. rewrite Ht.
  cbn [arrays set_arrays set_legacy set_dom the_dom legacy of_nodeval].
  rewrite alter_last, lookup_last. cbn [default].
  destruct (position_items (nodes (the_dom w) ++ [mkNode DocumentFragment [] None []])
              n before after pos) as [Hall Hin].
  { intros c Hc. rewrite is_element_app_fragment.
    apply (In_filter_element _ _ (children_of (nodes (the_dom w)) p)).
    unfold element_children in Hec. rewrite Hec. exact Hc. }
  { exact Hne. }
  match goal with
  | |- exists w', bind (for_each ?items ?body) ?k ?w0 = _ =>
      destruct (fragment_loop_hole (fresh (the_dom w)) items w0) as [w' Hw']
  end.
  - cbn. apply node_kind_fresh.
  - cbn. apply parent_of_fresh.
  - cbn. exact Hall.
  - exact Hin.
  - exists w'. apply bind_throw. exact Hw'.
Qed.

(** [toPosition] cannot move a node that is followed by an element sibling:
    whatever the position asked for, the hole that [relatives] leaves at the
    node's own index reaches [appendChild] as [undefined], and the call
    raises [TypeError]. *)
Theorem legacy_toPosition_raises_before_a_sibling
    (w : world) (h : loc) (o : TagLegacy_object) (n p : node)
    (before after : list node) (pos : TagLegacy.position) :
  legacy w !! h = Some o -> _tag o = NRef n ->
  parent_of (nodes (the_dom w)) n = Some p ->
  is_parent_node (nodes (the_dom w)) p = true ->
  element_children (nodes (the_dom w)) p = before ++ n :: after ->
  ~ In n before -> ~ In n after -> after <> [] ->
  eval (TagLegacy.toPosition h pos) w = Throw TypeError.
Proof.
  intros Hh Ht Hpar Hmix Hec Hb Ha Hne.
  destruct (legacy_toPosition_hole w h o n p before after pos
              Hh Ht Hpar Hmix Hec Hb Ha Hne) as [w' Hw'].
  unfold eval. rewrite Hw'. reflexivity.
Qed.

Lemma legacy_toPosition_raises_before_a_sibling_witness :
  eval (TagLegacy.toPosition 1 (TagLegacy.index 0)) siblings_world
  = Throw TypeError.
Proof.
  apply (legacy_toPosition_raises_before_a_sibling siblings_world 1
           (mkTagLegacy "p" (OPrim PUndefined) (VNode 3) None (NRef 5) None)
           5 3 [4] [6]).
  - reflexivity.
  - reflexivity.
  - reflexivity.
  - reflexivity.
  - reflexivity.
  - cbn. lia.
  - cbn. lia.
  - discriminate.
Defined.


(** ** Adopting another node *)

Lemma prim_eqb_eq (p q : prim) : prim_eqb p q = true <-> p = q.
Proof.
  destruct p, q; cbn; try (split; [discriminate|congruence]);
    try (split; reflexivity).
  - rewrite Bool.eqb_true_iff. split; congruence.
  - rewrite Z.eqb_eq. split; congruence.
  - rewrite String.eqb_eq. split; congruence.
Qed.

(** Strict equality of two values of the model is their identity. *)
Lemma strict_eq_eq (v u : jsval) : strict_eq v u = true <-> v = u.
Proof.
  unfold strict_eq.
  destruct v, u; try (split; [discriminate|congruence]);
    try (rewrite Nat.eqb_eq; split; congruence).
  rewrite prim_eqb_eq. split; congruence.
Qed.

Lemma strict_eq_ne (v u : jsval) : v <> u -> strict_eq v u = false.
Proof.
  intros H. destruct (strict_eq v u) eqn:E; [|reflexivity].
  apply strict_eq_eq in E. contradiction.
Qed.

Lemma strict_eq_refl (v : jsval) : strict_eq v v = true.
Proof. apply strict_eq_eq. reflexivity. Qed.

Lemma parent_of_detach_other (ns : list Node) (n m : node) :
  m <> n -> parent_of (detach n ns) m = parent_of ns m.
Proof.
  intros Hne. unfold detach. destruct (parent_of ns n) as [p|]; [|reflexivity].
  rewrite parent_of_alter_parent by congruence.
  apply parent_of_alter_children. intros r. reflexivity.
Qed.

Lemma toLowerCase_tagName_lowercased (l : string) :
  lowercased l = true -> toLowerCase (ascii_uppercase l) = l.
Proof.
  intros H. apply ascii_lowercase_fixed in H.
  rewrite <- H at 1. rewrite toLowerCase_tagName. exact H.
Qed.

Lemma legacy_remove_spec
    (w : world) (h : loc) (o : TagLegacy_object) (n : node) :
  legacy w !! h = Some o -> _tag o = NRef n ->
  is_element (nodes (the_dom w)) n = true ->
  TagLegacy.remove h w
  = (Ok tt,
     set_legacy (alter (with_tag (NPrim PNull)) h (legacy w))
       (set_dom (set_nodes (detach n (nodes (the_dom w))) (the_dom w)) w)).
Proof.
  intros Hh Ht Hel. apply is_element_kind in Hel as [l Hl].
  unfold TagLegacy.remove.
  repeat (progress (run; rewrite ?Hh, ?Ht, ?Hl)). reflexivity.
Qed.

(** [reference(tag)] takes the handle's element out of the tree and makes
    the handle hold the given element, which is left where it is unless it
    is that very element; the accessors then read the adopted element:
    [type] is its name (an ASCII name without upper-case letters, as
    [createElement] leaves it). *)
Theorem legacy_reference_adopts
    (w : world) (h : loc) (o : TagLegacy_object) (n m : node) (l : string) :
  legacy w !! h = Some o -> _tag o = NRef n ->
  is_element (nodes (the_dom w)) n = true ->
  node_kind (nodes (the_dom w)) m = Some (Element l) ->
  lowercased l = true ->
  only_ascii l = true ->
  exists w1 w2 : world,
    TagLegacy.reference h (NRef m) w = (Ok tt, w1) /\
    nodes (the_dom w1) = detach n (nodes (the_dom w)) /\
    parent_of (nodes (the_dom w1)) n = None /\
    parent_of (nodes (the_dom w1)) m
    = (if decide (m = n) then None else parent_of (nodes (the_dom w)) m) /\
    (forall x, x <> n ->
               parent_of (nodes (the_dom w1)) x
               = parent_of (nodes (the_dom w)) x) /\
    (forall q,
        children_of (nodes (the_dom w1)) q
        = if decide (parent_of (nodes (the_dom w)) n = Some q)
          then List.filter (fun c => negb (c =? n)) (children_of (nodes (the_dom w)) q)
          else children_of (nodes (the_dom w)) q) /\
    legacy w1 !! h = Some (with_tag (NRef m) o) /\
    TagLegacy.get_type h w1 = (Ok l, w2).
Proof.
  intros Hh Ht Hel Hm Hl _. unfold TagLegacy.reference.
  rewrite (bind_ok _ _ _ _ _ (legacy_remove_spec w h o n Hh Ht Hel)).
  unfold TagLegacy.set_tag, legacy_set. cbn [legacy set_legacy].
  rewrite list_alter_alter_eq.
  eexists. eexists. split; [reflexivity|]. cbn.
  split; [reflexivity|]. split; [apply parent_of_detach|].
  split.
  { destruct (decide (m = n)) as [->|Hne];
      [apply parent_of_detach|apply parent_of_detach_other; exact Hne]. }
  split; [intros x Hne; apply parent_of_detach_other; exact Hne|].
  split; [intros q; apply children_of_detach|].
  split; [apply lookup_alter_Some; exact Hh|].
  unfold TagLegacy.get_type, TagLegacy.get_tag.
  repeat (progress (run; rewrite ?Hh)).
  unfold tagName. rewrite node_kind_detach, Hm.
  repeat (progress (run; rewrite ?Hh)).
  rewrite (toLowerCase_tagName_lowercased l Hl).
  f_equal.
Qed.


Lemma legacy_reference_adopts_witness :
  exists w1 w2 : world,
    TagLegacy.reference 0 (NRef 5) siblings_world = (Ok tt, w1) /\
    nodes (the_dom w1) = detach 4 (nodes (the_dom siblings_world)) /\
    parent_of (nodes (the_dom w1)) 4 = None /\
    parent_of (nodes (the_dom w1)) 5 = Some 3 /\
    (forall x, x <> 4 ->
               parent_of (nodes (the_dom w1)) x
               = parent_of (nodes (the_dom siblings_world)) x) /\
    (forall q,
        children_of (nodes (the_dom w1)) q
        = if decide (parent_of (nodes (the_dom siblings_world)) 4 = Some q)
          then List.filter (fun c => negb (c =? 4))
                 (children_of (nodes (the_dom siblings_world)) q)
          else children_of (nodes (the_dom siblings_world)) q) /\
    legacy w1 !! 0
    = Some (with_tag (NRef 5)
              (mkTagLegacy "p" (OPrim PUndefined) (VNode 3) None (NRef 4) None)) /\
    TagLegacy.get_type 0 w1 = (Ok "p", w2).
Proof.
  apply (legacy_reference_adopts siblings_world 0
           (mkTagLegacy "p" (OPrim PUndefined) (VNode 3) None (NRef 4) None)
           4 5 "p").
  - reflexivity.
  - reflexivity.
  - reflexivity.
  - reflexivity.
  - reflexivity.
  - reflexivity.
Defined.

(** ** The [parent] setter of a legacy handle *)

Lemma legacy_set_parent_cached
    (w : world) (h : loc) (o : TagLegacy_object) (parent : jsval) :
  legacy w !! h = Some o -> _parent o = parent ->
  TagLegacy.set_parent h parent w
  = (Ok tt, set_legacy (alter (with_parent parent) h (legacy w)) w).
Proof.
  intros Hh Hp. unfold TagLegacy.set_parent.
  repeat (progress (run; rewrite ?Hh)).
  rewrite Hp, strict_eq_refl. reflexivity.
Qed.

Lemma legacy_set_parent_moves
    (w : world) (h : loc) (o : TagLegacy_object) (n p : node) :
  legacy w !! h = Some o -> _tag o = NRef n ->
  _parent o <> VNode p ->
  is_element (nodes (the_dom w)) p = true ->
  is_element (nodes (the_dom w)) n || is_text (nodes (the_dom w)) n = true ->
  inclusive_ancestor (nodes (the_dom w)) n p = false ->
  TagLegacy.set_parent h (VNode p) w
  = (Ok tt,
     set_dom (set_nodes (move p n (nodes (the_dom w))) (the_dom w))
       (set_legacy (alter (with_parent (VNode p)) h (legacy w)) w)).
Proof.
  intros Hh Ht Hne Hp Hn Hanc. unfold TagLegacy.set_parent, TagLegacy.get_tag.
  repeat (progress (run; rewrite ?Hh, ?Ht)).
  rewrite strict_eq_ne by congruence. cbn.
  repeat (progress (run; rewrite ?Hh, ?Ht)).
  rewrite (is_element_parent_node _ _ Hp). cbn.
  rewrite (appendChild_node_moves _ _ _ Hp Hn Hanc). reflexivity.
Qed.

Lemma legacy_set_parent_not_a_node
    (w : world) (h : loc) (o : TagLegacy_object) (parent : jsval) :
  legacy w !! h = Some o -> _parent o <> parent ->
  (forall p, parent <> VNode p) ->
  TagLegacy.set_parent h parent w
  = (Throw TypeError, set_legacy (alter (with_parent parent) h (legacy w)) w).
Proof.
  intros Hh Hne Hnode. unfold TagLegacy.set_parent, TagLegacy.get_tag.
  repeat (progress (run; rewrite ?Hh)).
  rewrite strict_eq_ne by congruence. cbn.
  repeat (progress (run; rewrite ?Hh)).
  destruct parent as [v|p| | | |]; try reflexivity.
  exfalso. exact (Hnode p eq_refl).
Qed.

(** Assigning [parent] on a legacy handle: the value the handle caches as
    its parent is accepted and nothing moves, wherever the node is; another
    element that the node does not contain gets the node as its last child;
    a value that is no node, [null] and [undefined] among them, raises
    [TypeError] and leaves the tree as it was. *)
Theorem legacy_set_parent_behaviour
    (w : world) (h : loc) (o : TagLegacy_object) (n : node) :
  legacy w !! h = Some o -> _tag o = NRef n ->
  (forall parent : jsval,
      _parent o = parent ->
      eval (TagLegacy.set_parent h parent) w = Ok tt /\
      the_dom (exec (TagLegacy.set_parent h parent) w) = the_dom w)
  /\
  (forall p : node,
      _parent o <> VNode p ->
      is_element (nodes (the_dom w)) p = true ->
      is_element (nodes (the_dom w)) n || is_text (nodes (the_dom w)) n = true ->
      inclusive_ancestor (nodes (the_dom w)) n p = false ->
      let w' := exec (TagLegacy.set_parent h (VNode p)) w in
      eval (TagLegacy.set_parent h (VNode p)) w = Ok tt /\
      nodes (the_dom w') = move p n (nodes (the_dom w)) /\
      parent_of (nodes (the_dom w')) n = Some p /\
      last (children_of (nodes (the_dom w')) p) = Some n /\
      legacy w' !! h = Some (with_parent (VNode p) o))
  /\
  (forall parent : jsval,
      _parent o <> parent ->
      (forall p, parent <> VNode p) ->
      eval (TagLegacy.set_parent h parent) w = Throw TypeError /\
      the_dom (exec (TagLegacy.set_parent h parent) w) = the_dom w).
Proof.
  intros Hh Ht. split; [|split].
  - intros parent Hp. unfold eval, exec.
    rewrite (legacy_set_parent_cached w h o parent Hh Hp). split; reflexivity.
  - intros p Hne Hp Hn Hanc. cbv zeta. unfold eval, exec.
    rewrite (legacy_set_parent_moves w h o n p Hh Ht Hne Hp Hn Hanc). cbn.
    assert (Hnl : n < length (nodes (the_dom w))).
    { apply orb_prop in Hn as [Hn|Hn].
      - apply is_element_lt. exact Hn.
      - unfold is_text in Hn.
        destruct (node_kind (nodes (the_dom w)) n) as [k|] eqn:E; [|discriminate].
        exact (node_kind_lt _ _ _ E). }
    split; [reflexivity|]. split; [reflexivity|].
    split; [apply parent_of_move; exact Hnl|].
    split; [|apply lookup_alter_Some; exact Hh].
    rewrite children_of_move by (apply is_element_lt; exact Hp).
    rewrite (decide_True (P := p = p)) by reflexivity.
    apply last_snoc_Some.
  - intros parent Hne Hnode. unfold eval, exec.
    rewrite (legacy_set_parent_not_a_node w h o parent Hh Hne Hnode).
    split; reflexivity.
Qed.

Lemma legacy_set_parent_behaviour_witness :
  (eval (TagLegacy.set_parent 0 (VNode 3)) siblings_world = Ok tt /\
   the_dom (exec (TagLegacy.set_parent 0 (VNode 3)) siblings_world)
   = the_dom siblings_world)
  /\
  (let w' := exec (TagLegacy.set_parent 0 (VNode 5)) siblings_world in
   eval (TagLegacy.set_parent 0 (VNode 5)) siblings_world = Ok tt /\
   nodes (the_dom w') = move 5 4 (nodes (the_dom siblings_world)) /\
   parent_of (nodes (the_dom w')) 4 = Some 5 /\
   last (children_of (nodes (the_dom w')) 5) = Some 4 /\
   legacy w' !! 0
   = Some (with_parent (VNode 5)
             (mkTagLegacy "p" (OPrim PUndefined) (VNode 3) None (NRef 4) None)))
  /\
  (eval (TagLegacy.set_parent 0 (VPrim PNull)) siblings_world = Throw TypeError /\
   the_dom (exec (TagLegacy.set_parent 0 (VPrim PNull)) siblings_world)
   = the_dom siblings_world).
Proof.
  destruct (legacy_set_parent_behaviour siblings_world 0
              (mkTagLegacy "p" (OPrim PUndefined) (VNode 3) None (NRef 4) None)
              4 eq_refl eq_refl) as (C & P & N).
  split; [|split].
  - exact (C (VNode 3) eq_refl).
  - apply (P 5); [discriminate|reflexivity|reflexivity|reflexivity].
  - apply (N (VPrim PNull)); [discriminate|intros p; discriminate].
Defined.


(** ** Reading and assigning [attributes] on a legacy handle *)

Lemma own_property_snapshot (ns : list Node) (n : node) (k : string) :
  attrs_ok (attrs_of ns n) ->
  own_property k (snapshot ns n)
  = if String.eqb k "__proto__" then None
    else match get_attr k (attrs_of ns n) with
         | Some v => Some (PStr v)
         | None => None
         end.
Proof.
  intros [Hnd Hl]. unfold snapshot.
  rewrite (own_property_built fst
             (fun name => attribute_value (getAttribute ns n name)))
    by reflexivity.
  destruct (String.eqb k "__proto__");
    [cbn [negb]; rewrite andb_false_r; reflexivity|].
  cbn [negb]. rewrite andb_true_r.
  destruct (existsb (fun a => String.eqb (fst a) k) (attrs_of ns n)) eqn:E.
  - apply existsb_exists in E as (a & Ha & Hk). apply String.eqb_eq in Hk.
    unfold getAttribute.
    rewrite List.Forall_forall in Hl. pose proof (Hl a Ha) as Hlow.
    rewrite Hk in Hlow. apply ascii_lowercase_fixed in Hlow. rewrite Hlow.
    destruct (get_attr k (attrs_of ns n)) as [v|] eqn:G; [reflexivity|].
    exfalso. assert (Hin : In k (map fst (attrs_of ns n))).
    { rewrite <- Hk. apply in_map. exact Ha. }
    apply get_attr_In in Hin as [v Hv]. congruence.
  - cbn. destruct (get_attr k (attrs_of ns n)) as [v|] eqn:G; [|reflexivity].
    exfalso. assert (Hin : In k (map fst (attrs_of ns n))).
    { apply get_attr_In. eauto. }
    apply existsb_key_In in Hin. congruence.
Qed.

(** Reading [attributes] returns a new object with exactly the attributes of
    the element as string properties, but for an attribute named
    [__proto__], which the assignment of the getter does not store; the tree
    is left as it was.  The handle caches that object: assigning it back,
    whatever was changed in it meanwhile, is taken for no change and writes
    nothing to the element. *)
Theorem legacy_attributes_read_modify_write
    (w : world) (h : loc) (o : TagLegacy_object) (n : node) :
  legacy w !! h = Some o -> _tag o = NRef n ->
  is_element (nodes (the_dom w)) n = true ->
  attrs_ok (attrs_of (nodes (the_dom w)) n) ->
  exists (r : loc) (w1 : world) (result : list (string * prim)),
    TagLegacy.get_attributes h w = (Ok (ORef r), w1) /\
    objects w !! r = None /\
    the_dom w1 = the_dom w /\
    objects w1 !! r = Some result /\
    (forall k : string,
        own_property k result
        = if String.eqb k "__proto__" then None
          else match get_attr k (attrs_of (nodes (the_dom w)) n) with
               | Some v => Some (PStr v)
               | None => None
               end) /\
    (forall f : list (string * prim) -> list (string * prim),
        let w2 := exec (update_object r f) w1 in
        eval (TagLegacy.set_attributes h (ORef r)) w2 = Ok tt /\
        the_dom (exec (TagLegacy.set_attributes h (ORef r)) w2) = the_dom w).
Proof.
  intros Hh Ht Hel Hok.
  exists (length (objects w)). eexists. exists (snapshot (nodes (the_dom w)) n).
  split; [exact (legacy_get_attributes_spec w h o n Hh Ht Hel)|].
  split; [apply lookup_ge_None; lia|]. split; [reflexivity|].
  split; [cbn; apply lookup_last|].
  split; [intros k; apply own_property_snapshot; exact Hok|].
  intros f. cbv zeta. unfold TagLegacy.set_attributes, eval, exec.
  repeat (progress (run; rewrite ?Hh)).
  rewrite strict_eq_refl. cbn. split; reflexivity.
Qed.

Lemma legacy_attributes_read_modify_write_witness :
  exists (r : loc) (w1 : world) (result : list (string * prim)),
    TagLegacy.get_attributes 0 list_world = (Ok (ORef r), w1) /\
    objects list_world !! r = None /\
    the_dom w1 = the_dom list_world /\
    objects w1 !! r = Some result /\
    (forall k : string,
        own_property k result
        = if String.eqb k "__proto__" then None
          else match get_attr k [("id", "list1")] with
               | Some v => Some (PStr v)
               | None => None
               end) /\
    (forall f : list (string * prim) -> list (string * prim),
        let w2 := exec (update_object r f) w1 in
        eval (TagLegacy.set_attributes 0 (ORef r)) w2 = Ok tt /\
        the_dom (exec (TagLegacy.set_attributes 0 (ORef r)) w2)
        = the_dom list_world).
Proof.
  apply (legacy_attributes_read_modify_write list_world 0
           (mkTagLegacy "ul" (ORef 0) (VNode 3) (Some 0) (NRef 4) None) 4).
  - reflexivity.
  - reflexivity.
  - reflexivity.
  - split; repeat constructor. cbn. intros H. inversion H.
Defined.


(** ** The [type] and [children] setters of a legacy handle *)

Ltac handle_lookup H := cbn; repeat (apply lookup_alter_Some); exact H.

(** [new Tag(id, debug)] of the variant that takes an element ID, on a
    string and with an object for [debug]: no node is created. *)
Lemma TagById_constructor_string (w : world) (s : string) (r : loc) :
  TagById.constructor (NPrim (PStr s)) (VObject r) w
  = (Ok (length (tags w)),
     set_console (console w ++ [Log "Created object"])
       (set_tags
          (tags w
             ++ [mkTag (VObject r)
                   (match getElementById s (the_dom w) with
                    | Some n => NRef n
                    | None => NPrim PNull
                    end) None (VPrim PUndefined) (OPrim PUndefined)]) w)).
Proof. unfold TagById.constructor. run. reflexivity. Qed.

Lemma legacy_get_type_spec
    (w : world) (h : loc) (o : TagLegacy_object) (n : node) (l : string) :
  legacy w !! h = Some o -> _tag o = NRef n ->
  node_kind (nodes (the_dom w)) n = Some (Element l) ->
  TagLegacy.get_type h w
  = (Ok (toLowerCase (ascii_uppercase l)),
     set_legacy
       (alter (with_type (toLowerCase (ascii_uppercase l))) h (legacy w)) w).
Proof.
  intros Hh Ht Hk. unfold TagLegacy.get_type, TagLegacy.get_tag.
  repeat (progress (run; rewrite ?Hh, ?Ht)).
  unfold tagName. rewrite Hk.
  repeat (progress (run; rewrite ?Hh, ?Ht)). reflexivity.
Qed.

Lemma legacy_get_type_undefined
    (w : world) (h : loc) (o : TagLegacy_object) :
  legacy w !! h = Some o -> _tag o = NPrim PUndefined ->
  TagLegacy.get_type h w = (Throw TypeError, w).
Proof.
  intros Hh Ht. unfold TagLegacy.get_type, TagLegacy.get_tag.
  repeat (progress (run; rewrite ?Hh, ?Ht)). reflexivity.
Qed.

Lemma legacy_set_type_spec
    (w : world) (h : loc) (o : TagLegacy_object) (n p : node) (type : string) :
  legacy w !! h = Some o -> _tag o = NRef n ->
  is_element (nodes (the_dom w)) n = true ->
  parent_of (nodes (the_dom w)) n = Some p ->
  type <> _type o ->
  exists w' o',
    TagLegacy.set_type h type w = (Ok tt, w') /\
    legacy w' !! h = Some o' /\
    _tag o' = NPrim PUndefined /\
    _type o' = type /\
    nodes (the_dom w') = detach n (nodes (the_dom w)) /\
    length (tags w') = S (length (tags w)).
Proof.
  intros Hh Ht Hel Hpar Hne.
  unfold TagLegacy.set_type, TagLegacy.set_type_with.
  erewrite bind_ok; [|eapply legacy_get_ok; exact Hh].
  erewrite bind_ok; [|reflexivity].
  erewrite bind_ok;
    [|eapply legacy_get_ok; cbn; apply lookup_alter_Some; exact Hh].
  cbn [with_type _type].
  assert (E : String.eqb type (_type o) = false).
  { destruct (String.eqb_spec type (_type o)); [contradiction|reflexivity]. }
  rewrite E. cbn [negb when].
  erewrite bind_ok;
    [|eapply (legacy_get_attributes_spec _ h (with_type type o) n); cbn;
      [apply lookup_alter_Some; exact Hh|exact Ht|exact Hel]].
  erewrite bind_ok;
    [|eapply (legacy_get_parent_attached _ h _ n p); cbn;
      [handle_lookup Hh
      |exact Ht|exact Hpar]].
  erewrite bind_ok;
    [|eapply (legacy_get_children_spec _ h _ n); cbn;
      [handle_lookup Hh
      |exact Ht]].
  cbn [of_objval].
  erewrite bind_ok; [|apply TagById_constructor_string].
  erewrite bind_ok;
    [|eapply (legacy_remove_spec _ h _ n); cbn;
      [handle_lookup Hh
      |exact Ht|exact Hel]].
  unfold TagLegacy.set_tag, legacy_set.
  eexists. eexists. split; [reflexivity|].
  split; [handle_lookup Hh|]. cbn.
  split; [reflexivity|]. split; [reflexivity|].
  split; [reflexivity|]. rewrite length_app. cbn. lia.
Qed.

(** Assigning a [type] other than the cached one does not rebuild the
    element: [new Tag(...)] makes an object of the other class and creates
    no node, the handle's element is taken out of the tree, and the handle
    is left holding [undefined], so that reading [type] raises
    [TypeError]. *)
Theorem legacy_set_type_loses_the_node
    (w : world) (h : loc) (o : TagLegacy_object) (n p : node) (type : string) :
  legacy w !! h = Some o -> _tag o = NRef n ->
  is_element (nodes (the_dom w)) n = true ->
  parent_of (nodes (the_dom w)) n = Some p ->
  type <> _type o ->
  exists w' o',
    TagLegacy.set_type h type w = (Ok tt, w') /\
    legacy w' !! h = Some o' /\
    _tag o' = NPrim PUndefined /\
    _type o' = type /\
    nodes (the_dom w') = detach n (nodes (the_dom w)) /\
    parent_of (nodes (the_dom w')) n = None /\
    eval (TagLegacy.get_type h) w' = Throw TypeError.
Proof.
  intros Hh Ht Hel Hpar Hne.
  destruct (legacy_set_type_spec w h o n p type Hh Ht Hel Hpar Hne)
    as (w' & o' & H & Ho' & Htag & Hty & Hns & _).
  exists w', o'. repeat (split; [assumption|]).
  split; [rewrite Hns; apply parent_of_detach|].
  unfold eval. rewrite (legacy_get_type_undefined w' h o' Ho' Htag). reflexivity.
Qed.

Lemma legacy_set_type_loses_the_node_witness :
  exists w' o',
    TagLegacy.set_type 0 "span" child_world = (Ok tt, w') /\
    legacy w' !! 0 = Some o' /\
    _tag o' = NPrim PUndefined /\
    _type o' = "span" /\
    nodes (the_dom w') = detach 4 (nodes (the_dom child_world)) /\
    parent_of (nodes (the_dom w')) 4 = None /\
    eval (TagLegacy.get_type 0) w' = Throw TypeError.
Proof.
  apply (legacy_set_type_loses_the_node child_world 0
           (mkTagLegacy "p" (OPrim PUndefined) (VNode 3) None (NRef 4) None)
           4 3 "span").
  - reflexivity.
  - reflexivity.
  - reflexivity.
  - reflexivity.
  - discriminate.
Defined.


Lemma children_value_ne (a b : option loc) :
  a <> b ->
  strict_eq (TagLegacy.children_value a) (TagLegacy.children_value b) = false.
Proof.
  intros H. apply strict_eq_ne. destruct a, b; cbn; congruence.
Qed.

Lemma legacy_set_children_spec
    (w : world) (h : loc) (o : TagLegacy_object) (n p : node)
    (children_ : option loc) :
  legacy w !! h = Some o -> _tag o = NRef n ->
  is_element (nodes (the_dom w)) n = true ->
  parent_of (nodes (the_dom w)) n = Some p ->
  children_ <> _children o ->
  exists w' o',
    TagLegacy.set_children h children_ w = (Ok tt, w') /\
    legacy w' !! h = Some o' /\
    _tag o' = NPrim PUndefined /\
    _children o' = children_ /\
    nodes (the_dom w') = detach n (nodes (the_dom w)).
Proof.
  intros Hh Ht Hel Hpar Hne.
  destruct (is_element_kind _ _ Hel) as [l Hl].
  unfold TagLegacy.set_children, TagLegacy.set_children_with.
  erewrite bind_ok; [|eapply legacy_get_ok; exact Hh].
  erewrite bind_ok; [|reflexivity].
  erewrite bind_ok; [|eapply legacy_get_ok; handle_lookup Hh].
  cbn [with_children _children].
  rewrite (children_value_ne _ _ Hne). cbn [negb when].
  erewrite bind_ok;
    [|eapply (legacy_get_type_spec _ h _ n l);
      [handle_lookup Hh|exact Ht|exact Hl]].
  erewrite bind_ok;
    [|eapply (legacy_get_attributes_spec _ h _ n);
      [handle_lookup Hh|exact Ht|exact Hel]].
  erewrite bind_ok;
    [|eapply (legacy_get_parent_attached _ h _ n p);
      [handle_lookup Hh|exact Ht|exact Hpar]].
  erewrite bind_ok; [|eapply legacy_get_ok; handle_lookup Hh].
  cbn [of_objval].
  erewrite bind_ok; [|apply TagById_constructor_string].
  erewrite bind_ok;
    [|eapply (legacy_remove_spec _ h _ n);
      [handle_lookup Hh|exact Ht|exact Hel]].
  unfold TagLegacy.set_tag, legacy_set.
  eexists. eexists. split; [reflexivity|].
  split; [handle_lookup Hh|]. cbn.
  split; [reflexivity|]. split; reflexivity.
Qed.

(** Assigning [children] an array other than the cached one appends none of
    its members: as in the [type] setter, the object [new Tag(...)] makes has
    no [tag], so the handle's element is taken out of the tree, no node is
    created, and the handle is left holding [undefined]. *)
Theorem legacy_set_children_loses_the_node
    (w : world) (h : loc) (o : TagLegacy_object) (n p : node)
    (children_ : option loc) :
  legacy w !! h = Some o -> _tag o = NRef n ->
  is_element (nodes (the_dom w)) n = true ->
  parent_of (nodes (the_dom w)) n = Some p ->
  children_ <> _children o ->
  exists w' o',
    TagLegacy.set_children h children_ w = (Ok tt, w') /\
    legacy w' !! h = Some o' /\
    _tag o' = NPrim PUndefined /\
    _children o' = children_ /\
    nodes (the_dom w') = detach n (nodes (the_dom w)) /\
    parent_of (nodes (the_dom w')) n = None /\
    eval (TagLegacy.get_children h) w' = Throw TypeError.
Proof.
  intros Hh Ht Hel Hpar Hne.
  destruct (legacy_set_children_spec w h o n p children_ Hh Ht Hel Hpar Hne)
    as (w' & o' & H & Ho' & Htag & Hc & Hns).
  exists w', o'. repeat (split; [assumption|]).
  split; [rewrite Hns; apply parent_of_detach|].
  unfold eval, TagLegacy.get_children, TagLegacy.get_tag.
  repeat (progress (run; rewrite ?Ho', ?Htag)). reflexivity.
Qed.

Lemma legacy_set_children_loses_the_node_witness :
  exists w' o',
    TagLegacy.set_children 0 (Some 0) list_args_child_world = (Ok tt, w') /\
    legacy w' !! 0 = Some o' /\
    _tag o' = NPrim PUndefined /\
    _children o' = Some 0 /\
    nodes (the_dom w') = detach 4 (nodes (the_dom list_args_child_world)) /\
    parent_of (nodes (the_dom w')) 4 = None /\
    eval (TagLegacy.get_children 0) w' = Throw TypeError.
Proof.
  apply (legacy_set_children_loses_the_node list_args_child_world 0
           (mkTagLegacy "p" (OPrim PUndefined) (VNode 3) None (NRef 4) None)
           4 3 (Some 0)).
  - reflexivity.
  - reflexivity.
  - reflexivity.
  - reflexivity.
  - discriminate.
Defined.


(** ** When the legacy constructor fails *)

Lemma for_each_app {A} (l1 l2 : list A) (body : A -> M unit) (w : world) :
  for_each (l1 ++ l2) body w
  = bind (for_each l1 body) (fun _ => for_each l2 body) w.
Proof.
  revert w. induction l1 as [|x l1 IH]; intros w; [reflexivity|].
  cbn [app for_each]. unfold bind.
  destruct (body x w) as [[u|e] w1]; [|reflexivity].
  rewrite IH. reflexivity.
Qed.

Lemma write_attributes_invalid
    (w : world) (this : loc) (o : TagLegacy_object) (t : node) (a : loc)
    (good rest : list (string * prim)) (bad : string * prim) :
  legacy w !! this = Some o -> _tag o = NRef t ->
  is_element (nodes (the_dom w)) t = true ->
  _attributes o = ORef a ->
  objects w !! a = Some (good ++ bad :: rest) ->
  Forall (fun kv => valid_attribute_local_name (fst kv) = true) good ->
  valid_attribute_local_name (fst bad) = false ->
  TagLegacy.write_attributes this w
  = (Throw InvalidCharacterError,
     set_dom (update_attrs t (write_attrs good) (the_dom w)) w).
Proof.
  intros Hh Ht He Ha Hobj Hgood Hbad. unfold TagLegacy.write_attributes. step.
  rewrite Ha. cbn [truthy_objval of_objval truthy when Object_entries]. step.
  rewrite for_each_app.
  erewrite bind_ok;
    [|apply (setAttribute_loop _
               (fun w' => exists o', legacy w' !! this = Some o' /\ _tag o' = NRef t));
      [intros w0 [o' [H1 H2]]; unfold legacy_get; rewrite H1, H2; reflexivity
      |intros w0 d H; exact H
      |eauto|exact He|exact Hgood]].
  cbn [for_each]. unfold bind at 1. unfold bind at 1.
  unfold legacy_get at 1. cbn [legacy set_dom]. rewrite Hh, Ht.
  unfold element_setAttribute. run. unfold setAttribute.
  cbn [nodes]. rewrite is_element_update_attrs, He, Hbad. reflexivity.
Qed.

Lemma update_attrs_fresh (d : dom) (r : Node)
    (f : list (string * string) -> list (string * string)) :
  nodes (update_attrs (fresh d) f (alloc_node r d))
  = nodes d ++ [set_attrs (f (attrs r)) r].
Proof.
  unfold update_attrs, alloc_node, fresh. cbn.
  rewrite (alter_last (fun x => set_attrs (f (attrs x)) x)). reflexivity.
Qed.

Ltac constructor_start Hty :=
  unfold TagLegacy.constructor;
  erewrite bind_ok; [|reflexivity];
  erewrite bind_ok; [|reflexivity];
  erewrite bind_ok; [|eapply legacy_get_ok; cbn; apply lookup_last];
  cbn [_type];
  erewrite bind_ok;
    [|unfold document_createElement, run_dom; cbn [the_dom set_console set_legacy];
      rewrite (createElement_valid _ _ Hty); reflexivity];
  erewrite bind_ok; [|reflexivity].

(** The legacy constructor fails without touching the page: on a type the
    platform refuses as an element name no node is created; on a mapping
    with a key the platform refuses as an attribute name, and on a [parent]
    that is no node, the new element is left outside the tree, with the
    attributes written so far (the numbers among their values are taken
    among the safe integers).  Every node the page had is as it was. *)
Theorem legacy_constructor_failures_spare_the_page (w : world) :
  (forall (type : string) (attributes : objval) (parent : jsval)
          (children_ : option loc),
      valid_element_local_name type = false ->
      exists w',
        TagLegacy.constructor type attributes parent children_ w
        = (Throw InvalidCharacterError, w') /\
        the_dom w' = the_dom w)
  /\
  (forall (type : string) (a : loc) (parent : jsval) (children_ : option loc)
          (good rest : list (string * prim)) (bad : string * prim),
      valid_element_local_name type = true ->
      objects w !! a = Some (good ++ bad :: rest) ->
      Forall (fun kv => valid_attribute_local_name (fst kv) = true) good ->
      Forall (fun kv => safe_value (snd kv) = true) good ->
      valid_attribute_local_name (fst bad) = false ->
      exists w',
        TagLegacy.constructor type (ORef a) parent children_ w
        = (Throw InvalidCharacterError, w') /\
        nodes (the_dom w')
        = nodes (the_dom w)
          ++ [mkNode (Element (ascii_lowercase type)) (write_attrs good [])
                None []])
  /\
  (forall (type : string) (attributes : objval) (parent : jsval)
          (children_ : option loc) (props : list (string * prim)),
      valid_element_local_name type = true ->
      entries_of w attributes props ->
      Forall (fun kv => valid_attribute_local_name (fst kv) = true) props ->
      Forall (fun kv => safe_value (snd kv) = true) props ->
      truthy parent = true ->
      (forall p, parent <> VNode p) ->
      exists w',
        TagLegacy.constructor type attributes parent children_ w
        = (Throw TypeError, w') /\
        nodes (the_dom w')
        = nodes (the_dom w)
          ++ [mkNode (Element (ascii_lowercase type)) (write_attrs props [])
                None []]).
Proof.
  split; [|split].
  - intros type attributes parent children_ Hty.
    unfold TagLegacy.constructor.
    erewrite bind_ok; [|reflexivity].
    erewrite bind_ok; [|reflexivity].
    erewrite bind_ok; [|eapply legacy_get_ok; cbn; apply lookup_last].
    cbn [_type]. eexists. split.
    + apply bind_throw. unfold document_createElement, run_dom, createElement.
      cbn [the_dom set_console set_legacy]. rewrite Hty. reflexivity.
    + destruct w as [d ? ? ? ? ? ? ?]. destruct d. reflexivity.
  - intros type a parent children_ good rest bad Hty Hobj Hgood _ Hbad.
    constructor_start Hty.
    eexists. split.
    + apply bind_throw.
      eapply (write_attributes_invalid _ _ _ (fresh (the_dom w)) a good rest bad).
      * cbn. rewrite alter_last. apply lookup_last.
      * reflexivity.
      * cbn. apply is_element_fresh.
      * reflexivity.
      * exact Hobj.
      * exact Hgood.
      * exact Hbad.
    + cbn [the_dom set_dom set_legacy set_console].
      rewrite update_attrs_fresh. reflexivity.
  - intros type attributes parent children_ props Hty Hentries Hv _ Htruthy
      Hnode.
    constructor_start Hty.
    erewrite bind_ok;
      [|eapply (write_attributes_spec _ _ _ (fresh (the_dom w)) props);
        [cbn; rewrite alter_last; apply lookup_last
        |reflexivity
        |cbn; apply is_element_fresh
        |destruct attributes; exact Hentries
        |exact Hv]].
    eexists. split.
    + apply bind_throw. unfold TagLegacy.attach_to_parent.
      erewrite bind_ok;
        [|eapply legacy_get_ok; cbn; rewrite alter_last; apply lookup_last].
      cbn [_parent with_tag]. rewrite Htruthy. cbn [negb when].
      erewrite bind_ok; [|reflexivity].
      erewrite bind_ok;
        [|eapply legacy_get_ok; cbn; rewrite alter_last; apply lookup_last].
      cbn [_parent with_tag].
      erewrite bind_ok;
        [|eapply legacy_get_ok; cbn; rewrite alter_last; apply lookup_last].
      apply bind_throw. unfold appendChild, as_node.
      destruct parent as [v|p| | | |]; try reflexivity.
      exfalso. exact (Hnode p eq_refl).
    + cbn [the_dom set_dom set_legacy set_console].
      rewrite update_attrs_fresh. reflexivity.
Qed.


Lemma legacy_constructor_failures_spare_the_page_witness :
  (exists w',
     TagLegacy.constructor "1" (OPrim PUndefined) (VPrim PUndefined) None
       bad_key_world
     = (Throw InvalidCharacterError, w') /\
     the_dom w' = the_dom bad_key_world)
  /\
  (exists w',
     TagLegacy.constructor "p" (ORef 0) (VPrim PUndefined) None bad_key_world
     = (Throw InvalidCharacterError, w') /\
     nodes (the_dom w')
     = nodes (the_dom bad_key_world)
       ++ [mkNode (Element "p") [("id", "x")] None []])
  /\
  (exists w',
     TagLegacy.constructor "p" (OPrim PUndefined) (VPrim (PStr "body")) None
       bad_key_world
     = (Throw TypeError, w') /\
     nodes (the_dom w')
     = nodes (the_dom bad_key_world) ++ [mkNode (Element "p") [] None []]).
Proof.
  destruct (legacy_constructor_failures_spare_the_page bad_key_world)
    as (T & A & P).
  split; [|split].
  - apply T. reflexivity.
  - apply (A "p" 0 (VPrim PUndefined) None [("id", PStr "x")] []
             ("a b", PStr "y")).
    + reflexivity.
    + reflexivity.
    + repeat constructor.
    + repeat constructor.
    + reflexivity.
  - apply (P "p" (OPrim PUndefined) (VPrim (PStr "body")) None []).
    + reflexivity.
    + split; reflexivity.
    + constructor.
    + constructor.
    + reflexivity.
    + intros p. discriminate.
Defined.


(** ** The [parent] of a [Tag] *)

Lemma parent_of_app_orphan (ns : list Node) (r : Node) (m : node) :
  parentNode r = None -> parent_of (ns ++ [r]) m = parent_of ns m.
Proof.
  intros Hr. destruct (Nat.lt_trichotomy m (length ns)) as [H|[->|H]].
  - apply parent_of_app. exact H.
  - rewrite parent_of_fresh, Hr. unfold parent_of.
    rewrite lookup_ge_None_2 by lia. reflexivity.
  - unfold parent_of.
    rewrite !lookup_ge_None_2; [reflexivity|lia|rewrite length_app; cbn; lia].
Qed.

Lemma children_of_app_childless (ns : list Node) (r : Node) (m : node) :
  childNodes r = [] -> children_of (ns ++ [r]) m = children_of ns m.
Proof.
  intros Hr. destruct (Nat.lt_trichotomy m (length ns)) as [H|[->|H]].
  - apply children_of_app. exact H.
  - unfold children_of. rewrite lookup_last, Hr.
    rewrite lookup_ge_None_2 by lia. reflexivity.
  - unfold children_of.
    rewrite !lookup_ge_None_2; [reflexivity|lia|rewrite length_app; cbn; lia].
Qed.

(** The tree of [ns'] is that of [ns]: every node has the same parent and
    the same children. *)
Lemma same_tree_div (ns : list Node) (m : node) :
  parent_of (ns ++ [mkNode (Element "div") [] None []]) m = parent_of ns m /\
  children_of (ns ++ [mkNode (Element "div") [] None []]) m = children_of ns m.
Proof.
  split; [apply parent_of_app_orphan|apply children_of_app_childless];
    reflexivity.
Qed.

Ltac ctor_done :=
  eexists; split; [reflexivity|]; cbn;
  split; [first [left; reflexivity|right; reflexivity]|];
  split; [intros i x Hi; apply lookup_app_l_Some; exact Hi|];
  repeat split.

(** [new Tag(element, debug)] returns a new handle, and creates at most a
    [div] outside the tree. *)
Lemma Tag_constructor_frame (w : world) (e : nodeval) (dbg : jsval) :
  exists w',
    Tag.constructor e dbg w = (Ok (length (tags w)), w') /\
    (nodes (the_dom w') = nodes (the_dom w) \/
     nodes (the_dom w')
     = nodes (the_dom w) ++ [mkNode (Element "div") [] None []]) /\
    (forall i x, tags w !! i = Some x -> tags w' !! i = Some x) /\
    legacy w' = legacy w /\ objects w' = objects w /\ arrays w' = arrays w /\
    global_id w' = global_id w /\ global_item w' = global_item w.
Proof.
  unfold Tag.constructor, Tag.ToString_nodeval.
  destruct w as [d ob ar lg tg co gid git].
  destruct e as [v|n]; run.
  - destruct gid as [g|]; cbn;
      [destruct (String.eqb (typeof g) "string"); cbn;
       [destruct (getElementById (ToString v) d); cbn|]|];
      run; destruct (truthy (or_false dbg)); cbn; ctor_done.
  - destruct (is_element (nodes d) n) eqn:E; run.
    + destruct (truthy (or_false dbg)); cbn; ctor_done.
    + destruct gid as [g|]; cbn;
        [destruct (String.eqb (typeof g) "string"); cbn|]; run.
      * destruct (node_kind (nodes d) n) as [[]|]; run;
          match goal with
          | |- context [getElementById ?s ?d] => destruct (getElementById s d)
          end; run; destruct (truthy (or_false dbg)); cbn; ctor_done.
      * destruct (truthy (or_false dbg)); cbn; ctor_done.
      * destruct (truthy (or_false dbg)); cbn; ctor_done.
Qed.


Lemma Tag_constructor_element (w : world) (p : node) (dbg : jsval) :
  is_element (nodes (the_dom w)) p = true ->
  exists w',
    Tag.constructor (NRef p) dbg w = (Ok (length (tags w)), w') /\
    the_dom w' = the_dom w /\
    tags w'
    = tags w ++ [mkTag (or_false dbg) (NRef p) None (VPrim PUndefined)
                   (OPrim PUndefined)].
Proof.
  intros Hp. unfold Tag.constructor.
  repeat (progress (run; rewrite ?Hp)).
  destruct (truthy (or_false dbg)); cbn; eexists;
    (split; [reflexivity|]); split; reflexivity.
Qed.

Lemma Tag_constructor_div (w : world) (e : nodeval) (dbg : jsval) :
  match e with
  | NRef x => is_element (nodes (the_dom w)) x = false
  | NPrim _ => True
  end ->
  global_id w = None ->
  exists w',
    Tag.constructor e dbg w = (Ok (length (tags w)), w') /\
    nodes (the_dom w')
    = nodes (the_dom w) ++ [mkNode (Element "div") [] None []] /\
    tags w'
    = tags w ++ [mkTag (or_false dbg) (NRef (fresh (the_dom w))) None
                   (VPrim PUndefined) (OPrim PUndefined)].
Proof.
  intros He Hid. unfold Tag.constructor.
  destruct e as [v|x]; repeat (progress (run; rewrite ?He, ?Hid));
    destruct (truthy (or_false dbg)); cbn; eexists;
    (split; [reflexivity|]); split; reflexivity.
Qed.

Lemma Tag_get_parent_eq (w : world) (h : loc) (o : Tag_object) (n : node) :
  tags w !! h = Some o -> element o = NRef n ->
  Tag.get_parent h w
  = Tag.constructor
      (match parentElement (nodes (the_dom w)) n with
       | Some x => NRef x
       | None => NPrim PNull
       end) (VPrim PUndefined) w.
Proof.
  intros Hh He. unfold Tag.get_parent. step. rewrite He.
  cbn [node_property]. erewrite bind_ok; [|reflexivity]. reflexivity.
Qed.

(** Reading [parent] on a [Tag] returns a new handle each time.  It holds
    the parent when the parent is an element.  For an element without a
    parent element, a detached one among them, it holds a new [div] that is
    not in the tree, and the read leaves the tree as it was. *)
Theorem Tag_get_parent_wraps_the_parent_or_a_new_div
    (w : world) (h : loc) (o : Tag_object) (n : node) :
  tags w !! h = Some o -> element o = NRef n ->
  (forall p : node,
      parentElement (nodes (the_dom w)) n = Some p ->
      exists w' o',
        Tag.get_parent h w = (Ok (length (tags w)), w') /\
        tags w !! length (tags w) = None /\
        tags w' !! length (tags w) = Some o' /\
        element o' = NRef p /\
        the_dom w' = the_dom w)
  /\
  (parentElement (nodes (the_dom w)) n = None ->
   global_id w = None ->
   exists w' o',
     Tag.get_parent h w = (Ok (length (tags w)), w') /\
     tags w' !! length (tags w) = Some o' /\
     element o' = NRef (fresh (the_dom w)) /\
     nodes (the_dom w')
     = nodes (the_dom w) ++ [mkNode (Element "div") [] None []] /\
     forall m : node,
       parent_of (nodes (the_dom w')) m = parent_of (nodes (the_dom w)) m /\
       children_of (nodes (the_dom w')) m = children_of (nodes (the_dom w)) m).
Proof.
  intros Hh He. split.
  - intros p Hp.
    assert (Hel : is_element (nodes (the_dom w)) p = true).
    { unfold parentElement in Hp.
      destruct (parent_of (nodes (the_dom w)) n) as [q|]; [|discriminate].
      destruct (is_element (nodes (the_dom w)) q) eqn:E; [|discriminate].
      congruence. }
    destruct (Tag_constructor_element w p (VPrim PUndefined) Hel)
      as (w' & Hc & Hd & Ht).
    exists w'. eexists. rewrite (Tag_get_parent_eq w h o n Hh He), Hp.
    split; [exact Hc|]. split; [apply lookup_ge_None; lia|].
    rewrite Ht. split; [apply lookup_last|]. split; [reflexivity|exact Hd].
  - intros Hp Hid.
    destruct (Tag_constructor_div w (NPrim PNull) (VPrim PUndefined) I Hid)
      as (w' & Hc & Hn & Ht).
    exists w'. eexists. rewrite (Tag_get_parent_eq w h o n Hh He), Hp.
    split; [exact Hc|]. rewrite Ht. split; [apply lookup_last|].
    split; [reflexivity|]. split; [exact Hn|].
    intros m. rewrite Hn. apply same_tree_div.
Qed.

Lemma Tag_get_parent_wraps_the_parent_or_a_new_div_witness :
  (exists w' o',
     Tag.get_parent 0 attached_tag_world = (Ok 1, w') /\
     tags attached_tag_world !! 1 = None /\
     tags w' !! 1 = Some o' /\
     element o' = NRef 3 /\
     the_dom w' = the_dom attached_tag_world)
  /\
  (exists w' o',
     Tag.get_parent 0 tag_world = (Ok 1, w') /\
     tags w' !! 1 = Some o' /\
     element o' = NRef 5 /\
     nodes (the_dom w')
     = nodes (the_dom tag_world) ++ [mkNode (Element "div") [] None []] /\
     forall m : node,
       parent_of (nodes (the_dom w')) m = parent_of (nodes (the_dom tag_world)) m /\
       children_of (nodes (the_dom w')) m
       = children_of (nodes (the_dom tag_world)) m).
Proof.
  split.
  - exact (proj1 (Tag_get_parent_wraps_the_parent_or_a_new_div
                    attached_tag_world 0
                    (mkTag (VPrim (PBool false)) (NRef 4) None (VPrim PUndefined)
                       (OPrim PUndefined)) 4 eq_refl eq_refl) 3 eq_refl).
  - exact (proj2 (Tag_get_parent_wraps_the_parent_or_a_new_div tag_world 0
                    (mkTag (VPrim (PBool false)) (NRef 4) None (VPrim PUndefined)
                       (OPrim PUndefined)) 4 eq_refl eq_refl) eq_refl eq_refl).
Defined.


(** ** Assigning the [parent] of a [Tag] *)

Lemma Tag_set_parent_falsy
    (w : world) (h : loc) (o : Tag_object) (n : node) (v : prim) :
  tags w !! h = Some o -> element o = NRef n ->
  truthy_prim v = false ->
  exists w',
    Tag.set_parent h (VPrim v) w = (Throw TypeError, w') /\
    tags w' !! h = Some o /\
    (nodes (the_dom w') = nodes (the_dom w) \/
     nodes (the_dom w')
     = nodes (the_dom w) ++ [mkNode (Element "div") [] None []]).
Proof.
  intros Hh He Hv. unfold Tag.set_parent.
  rewrite (bind_ok _ _ _ _ _ (Tag_fix_keeps w h o n Hh He)).
  unfold Tag.other_Tag. erewrite bind_ok; [|reflexivity].
  unfold Tag.other_HTMLElement, instanceof_HTMLElement.
  erewrite bind_ok; [|reflexivity].
  cbn [truthy]. rewrite Hv. cbn [negb].
  destruct (Tag_constructor_frame w
              (match parentElement (nodes (the_dom w)) n with
               | Some x => NRef x
               | None => NPrim PNull
               end) (VPrim PUndefined))
    as (w' & Hc & Hn & Ht & _).
  exists w'. split; [|split; [apply Ht; exact Hh|exact Hn]].
  erewrite bind_ok; [|rewrite (Tag_get_parent_eq w h o n Hh He); exact Hc].
  reflexivity.
Qed.

(** Assigning a value that is not true ([undefined], [null], ...) as the
    [parent] of a [Tag] does not take the element out of its parent: the
    setter calls [removeChild] on what the [parent] getter returns, a [Tag]
    object, which has no such method.  The assignment raises [TypeError] and
    every node keeps its parent and its children. *)
Theorem Tag_set_parent_cannot_detach
    (w : world) (h : loc) (o : Tag_object) (n : node) (v : prim) :
  tags w !! h = Some o -> element o = NRef n ->
  truthy_prim v = false ->
  let w' := exec (Tag.set_parent h (VPrim v)) w in
  eval (Tag.set_parent h (VPrim v)) w = Throw TypeError /\
  tags w' !! h = Some o /\
  forall m : node,
    parent_of (nodes (the_dom w')) m = parent_of (nodes (the_dom w)) m /\
    children_of (nodes (the_dom w')) m = children_of (nodes (the_dom w)) m.
Proof.
  intros Hh He Hv. cbv zeta. unfold eval, exec.
  destruct (Tag_set_parent_falsy w h o n v Hh He Hv) as (w' & -> & Ht & Hn).
  cbn. split; [reflexivity|]. split; [exact Ht|].
  intros m. destruct Hn as [->| ->]; [split; reflexivity|apply same_tree_div].
Qed.

Lemma Tag_set_parent_cannot_detach_witness :
  let w' := exec (Tag.set_parent 0 (VPrim PUndefined)) attached_tag_world in
  eval (Tag.set_parent 0 (VPrim PUndefined)) attached_tag_world
  = Throw TypeError /\
  tags w' !! 0
  = Some (mkTag (VPrim (PBool false)) (NRef 4) None (VPrim PUndefined)
            (OPrim PUndefined)) /\
  forall m : node,
    parent_of (nodes (the_dom w')) m
    = parent_of (nodes (the_dom attached_tag_world)) m /\
    children_of (nodes (the_dom w')) m
    = children_of (nodes (the_dom attached_tag_world)) m.
Proof.
  exact (Tag_set_parent_cannot_detach attached_tag_world 0
           (mkTag (VPrim (PBool false)) (NRef 4) None (VPrim PUndefined)
              (OPrim PUndefined)) 4 PUndefined eq_refl eq_refl eq_refl).
Defined.

Lemma Tag_set_parent_element_spec
    (w : world) (h : loc) (o : Tag_object) (n p : node) :
  tags w !! h = Some o -> element o = NRef n ->
  is_element (nodes (the_dom w)) n = true ->
  is_element (nodes (the_dom w)) p = true ->
  p <> n ->
  inclusive_ancestor (nodes (the_dom w)) n p = false ->
  exists w',
    Tag.set_parent h (VNode p) w = (Ok tt, w') /\
    nodes (the_dom w') = move p n (nodes (the_dom w)) /\
    tags w' !! h = Some (with_stored_parent (VTag (length (tags w))) o) /\
    tags w' !! length (tags w)
    = Some (mkTag (VPrim (PBool false)) (NRef p) None (VPrim PUndefined)
              (OPrim PUndefined)).
Proof.
  intros Hh He Hn Hp Hne Hanc. unfold Tag.set_parent.
  rewrite (bind_ok _ _ _ _ _ (Tag_fix_keeps w h o n Hh He)).
  unfold Tag.other_Tag. erewrite bind_ok; [|reflexivity].
  unfold Tag.other_HTMLElement, instanceof_HTMLElement.
  erewrite bind_ok;
    [|unfold bind, read_dom; rewrite Hp; unfold tag_get; rewrite Hh, He;
      unfold ret, of_nodeval; rewrite strict_eq_ne by congruence; reflexivity].
  cbn [negb]. erewrite bind_ok; [|eapply tag_get_ok; exact Hh].
  rewrite He. cbn [of_nodeval].
  erewrite bind_ok;
    [|unfold appendChild, as_node, bind, ret, run_dom;
      rewrite (appendChild_node_element _ _ _ Hp Hn Hanc); reflexivity].
  match goal with
  | |- context [bind (Tag.constructor ?e ?d) _ ?w0] =>
      destruct (Tag_constructor_element w0 p d) as (w' & Hc & Hd & Ht);
      [cbn; rewrite is_element_move; exact Hp|]
  end.
  rewrite (bind_ok _ _ _ _ _ Hc). unfold tag_set. cbn [tags set_dom] in *.
  eexists. split; [reflexivity|]. cbn. rewrite Hd, Ht. cbn.
  split; [reflexivity|].
  assert (Hlt : h < length (tags w)).
  { apply lookup_lt_is_Some. eauto. }
  split.
  - rewrite list_lookup_alter_eq, lookup_app_l by exact Hlt. rewrite Hh.
    reflexivity.
  - rewrite list_lookup_alter_ne by lia. apply lookup_last.
Qed.

Lemma Tag_set_parent_Tag_spec
    (w : world) (h l : loc) (o o2 : Tag_object) (n p : node) :
  tags w !! h = Some o -> element o = NRef n ->
  tags w !! l = Some o2 -> element o2 = NRef p ->
  is_element (nodes (the_dom w)) n = true ->
  is_element (nodes (the_dom w)) p = true ->
  p <> n ->
  inclusive_ancestor (nodes (the_dom w)) n p = false ->
  Tag.set_parent h (VTag l) w
  = (Ok tt,
     set_tags (alter (with_stored_parent (VTag l)) h (tags w))
       (set_dom (set_nodes (move p n (nodes (the_dom w))) (the_dom w)) w)).
Proof.
  intros Hh He Hl He2 Hn Hp Hne Hanc. unfold Tag.set_parent.
  rewrite (bind_ok _ _ _ _ _ (Tag_fix_keeps w h o n Hh He)).
  unfold Tag.other_Tag.
  erewrite bind_ok;
    [|unfold bind, tag_get; rewrite Hl, Hh, He, He2;
      unfold ret, of_nodeval; rewrite strict_eq_ne by congruence; reflexivity].
  cbn [negb]. step. rewrite He2. step. rewrite He. cbn [of_nodeval].
  erewrite bind_ok;
    [|unfold appendChild, as_node, bind, ret, run_dom;
      rewrite (appendChild_node_element _ _ _ Hp Hn Hanc); reflexivity].
  reflexivity.
Qed.

(** Assigning another element, or a [Tag] on another element, as the
    [parent] of a [Tag] makes the handle's element the last child of that
    element, provided it does not contain it, and stores a handle on the
    parent: the [Tag] given, or a new one wrapping the element given. *)
Theorem Tag_set_parent_appends
    (w : world) (h : loc) (o : Tag_object) (n p : node) :
  tags w !! h = Some o -> element o = NRef n ->
  is_element (nodes (the_dom w)) n = true ->
  is_element (nodes (the_dom w)) p = true ->
  p <> n ->
  inclusive_ancestor (nodes (the_dom w)) n p = false ->
  (exists w' t o',
      Tag.set_parent h (VNode p) w = (Ok tt, w') /\
      nodes (the_dom w') = move p n (nodes (the_dom w)) /\
      parent_of (nodes (the_dom w')) n = Some p /\
      last (children_of (nodes (the_dom w')) p) = Some n /\
      tags w' !! h = Some (with_stored_parent (VTag t) o) /\
      tags w !! t = None /\
      tags w' !! t = Some o' /\ element o' = NRef p)
  /\
  (forall (l : loc) (o2 : Tag_object),
      tags w !! l = Some o2 -> element o2 = NRef p ->
      exists w',
        Tag.set_parent h (VTag l) w = (Ok tt, w') /\
        nodes (the_dom w') = move p n (nodes (the_dom w)) /\
        parent_of (nodes (the_dom w')) n = Some p /\
        last (children_of (nodes (the_dom w')) p) = Some n /\
        tags w' !! h = Some (with_stored_parent (VTag l) o)).
Proof.
  intros Hh He Hn Hp Hne Hanc.
  assert (Hlast : last (children_of (move p n (nodes (the_dom w))) p) = Some n).
  { rewrite children_of_move by (apply is_element_lt; exact Hp).
    rewrite (decide_True (P := p = p)) by reflexivity. apply last_snoc_Some. }
  assert (Hpar : parent_of (move p n (nodes (the_dom w))) n = Some p).
  { apply parent_of_move. apply is_element_lt. exact Hn. }
  split.
  - destruct (Tag_set_parent_element_spec w h o n p Hh He Hn Hp Hne Hanc)
      as (w' & H & Hns & Hth & Htn).
    exists w', (length (tags w)). eexists.
    split; [exact H|]. rewrite Hns.
    split; [reflexivity|]. split; [exact Hpar|]. split; [exact Hlast|].
    split; [exact Hth|]. split; [apply lookup_ge_None; lia|].
    split; [exact Htn|reflexivity].
  - intros l o2 Hl He2. eexists.
    split; [exact (Tag_set_parent_Tag_spec w h l o o2 n p
                     Hh He Hl He2 Hn Hp Hne Hanc)|].
    cbn. split; [reflexivity|]. split; [exact Hpar|]. split; [exact Hlast|].
    apply lookup_alter_Some. exact Hh.
Qed.


Lemma Tag_set_parent_appends_witness :
  (exists w' t o',
      Tag.set_parent 0 (VNode 3) two_tags_world = (Ok tt, w') /\
      nodes (the_dom w') = move 3 4 (nodes (the_dom two_tags_world)) /\
      parent_of (nodes (the_dom w')) 4 = Some 3 /\
      last (children_of (nodes (the_dom w')) 3) = Some 4 /\
      tags w' !! 0
      = Some (with_stored_parent (VTag t)
                (mkTag (VPrim (PBool false)) (NRef 4) None (VPrim PUndefined)
                   (OPrim PUndefined))) /\
      tags two_tags_world !! t = None /\
      tags w' !! t = Some o' /\ element o' = NRef 3)
  /\
  (exists w',
      Tag.set_parent 0 (VTag 1) two_tags_world = (Ok tt, w') /\
      nodes (the_dom w') = move 3 4 (nodes (the_dom two_tags_world)) /\
      parent_of (nodes (the_dom w')) 4 = Some 3 /\
      last (children_of (nodes (the_dom w')) 3) = Some 4 /\
      tags w' !! 0
      = Some (with_stored_parent (VTag 1)
                (mkTag (VPrim (PBool false)) (NRef 4) None (VPrim PUndefined)
                   (OPrim PUndefined)))).
Proof.
  destruct (Tag_set_parent_appends two_tags_world 0
              (mkTag (VPrim (PBool false)) (NRef 4) None (VPrim PUndefined)
                 (OPrim PUndefined)) 4 3
              eq_refl eq_refl eq_refl eq_refl) as [E T].
  - lia.
  - reflexivity.
  - split; [exact E|].
    exact (T 1 (mkTag (VPrim (PBool false)) (NRef 3) None (VPrim PUndefined)
                  (OPrim PUndefined)) eq_refl eq_refl).
Defined.


(** ** The [content] of a [Tag] *)

Lemma Tag_constructor_element_frame (w : world) (p : node) (dbg : jsval) :
  is_element (nodes (the_dom w)) p = true ->
  exists w',
    Tag.constructor (NRef p) dbg w = (Ok (length (tags w)), w') /\
    the_dom w' = the_dom w /\
    tags w'
    = tags w ++ [mkTag (or_false dbg) (NRef p) None (VPrim PUndefined)
                   (OPrim PUndefined)] /\
    arrays w' = arrays w /\ global_id w' = global_id w.
Proof.
  intros Hp. unfold Tag.constructor.
  repeat (progress (run; rewrite ?Hp)).
  destruct (truthy (or_false dbg)); cbn; eexists;
    (split; [reflexivity|]); repeat split.
Qed.

Lemma Tag_constructor_div_frame (w : world) (x : node) (dbg : jsval) :
  is_element (nodes (the_dom w)) x = false ->
  global_id w = None ->
  exists w',
    Tag.constructor (NRef x) dbg w = (Ok (length (tags w)), w') /\
    nodes (the_dom w')
    = nodes (the_dom w) ++ [mkNode (Element "div") [] None []] /\
    tags w'
    = tags w ++ [mkTag (or_false dbg) (NRef (fresh (the_dom w))) None
                   (VPrim PUndefined) (OPrim PUndefined)] /\
    arrays w' = arrays w /\ global_id w' = global_id w.
Proof.
  intros He Hid. destruct w as [d ob ar lg tg co gid git].
  cbn in He, Hid. subst gid. unfold Tag.constructor.
  repeat (progress (run; rewrite ?He)).
  destruct (truthy (or_false dbg)); cbn; eexists;
    (split; [reflexivity|]); repeat split.
Qed.

Lemma same_tree_divs (extra : list Node) :
  Forall (fun r => r = mkNode (Element "div") [] None []) extra ->
  forall (ns : list Node) (m : node),
    parent_of (ns ++ extra) m = parent_of ns m /\
    children_of (ns ++ extra) m = children_of ns m.
Proof.
  induction 1 as [|r extra -> _ IH]; intros ns m.
  - rewrite app_nil_r. split; reflexivity.
  - replace (ns ++ mkNode (Element "div") [] None [] :: extra)
      with ((ns ++ [mkNode (Element "div") [] None []]) ++ extra)
      by (rewrite <- app_assoc; reflexivity).
    destruct (IH (ns ++ [mkNode (Element "div") [] None []]) m) as [-> ->].
    apply same_tree_div.
Qed.

Lemma is_element_app_lt (ns extra : list Node) (c : node) :
  c < length ns -> is_element (ns ++ extra) c = is_element ns c.
Proof.
  intros H. unfold is_element, node_kind. rewrite lookup_app_l by exact H.
  reflexivity.
Qed.

(** The loop of the [content] getter. *)
Lemma content_loop (c : loc) (items : list node) :
  forall (w0 : world) (acc : list (option jsval)),
    arrays w0 !! c = Some acc ->
    global_id w0 = None ->
    Forall (fun x => x < length (nodes (the_dom w0))) items ->
    exists (w1 : world) (extra : list Node),
      for_each items
        (fun item =>
           t <- Tag.constructor (NRef item) (VPrim PUndefined) ;;
           update_array c (array_push (VTag t))) w0
      = (Ok tt, w1) /\
      arrays w1 !! c
      = Some (acc ++ map (fun t => Some (VTag t))
                       (seq (length (tags w0)) (length items))) /\
      nodes (the_dom w1) = nodes (the_dom w0) ++ extra /\
      Forall (fun r => r = mkNode (Element "div") [] None []) extra /\
      (forall i x, tags w0 !! i = Some x -> tags w1 !! i = Some x) /\
      (forall i child,
          items !! i = Some child ->
          exists ot,
            tags w1 !! (length (tags w0) + i) = Some ot /\
            (is_element (nodes (the_dom w0)) child = true ->
             element ot = NRef child) /\
            (is_element (nodes (the_dom w0)) child = false ->
             exists d, element ot = NRef d /\
                       length (nodes (the_dom w0)) <= d /\
                       nodes (the_dom w1) !! d
                       = Some (mkNode (Element "div") [] None []))).
Proof.
  induction items as [|x items IH]; intros w0 acc Hacc Hid Hlt.
  - exists w0, []. cbn. rewrite !app_nil_r.
    split; [reflexivity|]. split; [exact Hacc|]. split; [reflexivity|].
    split; [constructor|]. split; [auto|]. intros i child H. discriminate.
  - apply Forall_cons_1 in Hlt as [Hx Hlt]. cbn [for_each].
    destruct (is_element (nodes (the_dom w0)) x) eqn:Ex.
    + destruct (Tag_constructor_element_frame w0 x (VPrim PUndefined) Ex)
        as (wa & Hc & Hd & Ht & Ha & Hg).
      set (wb := set_arrays
                   (alter (array_push (VTag (length (tags w0)))) c (arrays wa)) wa).
      destruct (IH wb (acc ++ [Some (VTag (length (tags w0)))]))
        as (w1 & extra & Hrun & Harr & Hns & Hdiv & Hold & Hnew).
      { cbn. rewrite Ha. rewrite (lookup_alter_Some _ _ _ _ Hacc). reflexivity. }
      { cbn. congruence. }
      { cbn. rewrite Hd. exact Hlt. }
      exists w1, extra. cbn [tags the_dom set_arrays wb] in *.
      rewrite Hd in *. rewrite Ht in *.
      split.
      { unfold bind at 1. unfold bind at 1. rewrite Hc.
        unfold update_array at 1. exact Hrun. }
      split.
      { rewrite Harr, length_app, <- app_assoc. cbn.
        rewrite Nat.add_1_r. reflexivity. }
      split; [exact Hns|]. split; [exact Hdiv|]. split.
      { intros i y Hi. apply Hold. apply lookup_app_l_Some. exact Hi. }
      intros i child Hi. destruct i as [|i]; cbn in Hi.
      * injection Hi as <-. eexists. split.
        { rewrite Nat.add_0_r. apply Hold. apply lookup_last. }
        split; [intros _; reflexivity|congruence].
      * destruct (Hnew i child Hi) as (ot & Hot & H1 & H2).
        exists ot. rewrite length_app in Hot. cbn in Hot.
        replace (length (tags w0) + S i) with (length (tags w0) + 1 + i) by lia.
        split; [exact Hot|]. split; assumption.
    + destruct (Tag_constructor_div_frame w0 x (VPrim PUndefined) Ex Hid)
        as (wa & Hc & Hd & Ht & Ha & Hg).
      set (wb := set_arrays
                   (alter (array_push (VTag (length (tags w0)))) c (arrays wa)) wa).
      destruct (IH wb (acc ++ [Some (VTag (length (tags w0)))]))
        as (w1 & extra & Hrun & Harr & Hns & Hdiv & Hold & Hnew).
      { cbn. rewrite Ha. rewrite (lookup_alter_Some _ _ _ _ Hacc). reflexivity. }
      { cbn. congruence. }
      { cbn. rewrite Hd. eapply List.Forall_impl; [|exact Hlt].
        cbn. intros a Hlta. rewrite length_app. lia. }
      exists w1, (mkNode (Element "div") [] None [] :: extra).
      cbn [tags the_dom set_arrays wb] in *.
      rewrite Hd in *. rewrite Ht in *.
      split.
      { unfold bind at 1. unfold bind at 1. rewrite Hc.
        unfold update_array at 1. exact Hrun. }
      split.
      { rewrite Harr, length_app, <- app_assoc. cbn.
        rewrite Nat.add_1_r. reflexivity. }
      split; [rewrite Hns, <- app_assoc; reflexivity|].
      split; [constructor; [reflexivity|exact Hdiv]|]. split.
      { intros i y Hi. apply Hold. apply lookup_app_l_Some. exact Hi. }
      intros i child Hi. destruct i as [|i]; cbn in Hi.
      * injection Hi as <-. eexists. split.
        { rewrite Nat.add_0_r. apply Hold. apply lookup_last. }
        split; [congruence|]. intros _. exists (fresh (the_dom w0)).
        split; [reflexivity|]. split; [unfold fresh; lia|].
        rewrite Hns. apply lookup_app_l_Some. apply lookup_last.
      * destruct (Hnew i child Hi) as (ot & Hot & H1 & H2).
        assert (Hchild : child < length (nodes (the_dom w0))).
        { rewrite List.Forall_forall in Hlt. apply Hlt.
          apply list_elem_of_In. eapply list_elem_of_lookup_2. exact Hi. }
        rewrite is_element_app_lt in H1, H2 by exact Hchild.
        exists ot. rewrite length_app in Hot. cbn in Hot.
        replace (length (tags w0) + S i) with (length (tags w0) + 1 + i) by lia.
        split; [exact Hot|]. split; [exact H1|].
        intros Hf. destruct (H2 Hf) as (d & Hd1 & Hd2 & Hd3).
        exists d. split; [exact Hd1|]. split; [|exact Hd3].
        rewrite length_app in Hd2. cbn in Hd2. lia.
Qed.


(** Reading [content] returns a new array with one new [Tag] for every child
    node, in document order.  The handle of an element child holds that
    child; the handle of any other child, a text node for one, holds a new
    [div] outside the tree instead.  The read leaves the tree as it was. *)
Theorem Tag_content_wraps_elements_only
    (w : world) (h : loc) (o : Tag_object) (n : node) :
  tags w !! h = Some o -> element o = NRef n ->
  global_id w = None ->
  Forall (fun x => x < length (nodes (the_dom w)))
    (children_of (nodes (the_dom w)) n) ->
  exists (c : loc) (w' : world),
    Tag.get_content h w = (Ok c, w') /\
    arrays w !! c = None /\
    arrays w' !! c
    = Some (map (fun t => Some (VTag t))
              (seq (length (tags w))
                 (length (children_of (nodes (the_dom w)) n)))) /\
    (forall (i : nat) (child : node),
        children_of (nodes (the_dom w)) n !! i = Some child ->
        exists ot,
          tags w' !! (length (tags w) + i) = Some ot /\
          (is_element (nodes (the_dom w)) child = true ->
           element ot = NRef child) /\
          (is_element (nodes (the_dom w)) child = false ->
           exists d, element ot = NRef d /\
                     nodes (the_dom w) !! d = None /\
                     nodes (the_dom w') !! d
                     = Some (mkNode (Element "div") [] None []))) /\
    (forall m : node,
        parent_of (nodes (the_dom w')) m = parent_of (nodes (the_dom w)) m /\
        children_of (nodes (the_dom w')) m
        = children_of (nodes (the_dom w)) m).
Proof.
  intros Hh He Hid Hlt.
  destruct (content_loop (length (arrays w))
              (children_of (nodes (the_dom w)) n)
              (set_arrays (arrays w ++ [[]]) w) [])
    as (w1 & extra & Hrun & Harr & Hns & Hdiv & Hold & Hnew).
  { cbn. apply lookup_last. }
  { exact Hid. }
  { exact Hlt. }
  cbn [tags the_dom set_arrays app] in *.
  exists (length (arrays w)), w1. split.
  { unfold Tag.get_content.
    erewrite bind_ok; [|reflexivity].
    erewrite bind_ok; [|eapply tag_get_ok; exact Hh].
    rewrite He. cbn [node_property].
    erewrite bind_ok; [|reflexivity].
    erewrite bind_ok; [|exact Hrun]. reflexivity. }
  split; [apply lookup_ge_None; lia|]. split; [exact Harr|]. split.
  - intros i child Hi. destruct (Hnew i child Hi) as (ot & Hot & H1 & H2).
    exists ot. split; [exact Hot|]. split; [exact H1|].
    intros Hf. destruct (H2 Hf) as (d & Hd1 & Hd2 & Hd3).
    exists d. split; [exact Hd1|]. split; [apply lookup_ge_None; lia|exact Hd3].
  - intros m. rewrite Hns. apply same_tree_divs. exact Hdiv.
Qed.

Lemma Tag_content_wraps_elements_only_witness :
  exists (c : loc) (w' : world),
    Tag.get_content 0 list_tag_world = (Ok c, w') /\
    arrays list_tag_world !! c = None /\
    arrays w' !! c
    = Some (map (fun t => Some (VTag t))
              (seq (length (tags list_tag_world))
                 (length (children_of (nodes (the_dom list_tag_world)) 4)))) /\
    (forall (i : nat) (child : node),
        children_of (nodes (the_dom list_tag_world)) 4 !! i = Some child ->
        exists ot,
          tags w' !! (length (tags list_tag_world) + i) = Some ot /\
          (is_element (nodes (the_dom list_tag_world)) child = true ->
           element ot = NRef child) /\
          (is_element (nodes (the_dom list_tag_world)) child = false ->
           exists d, element ot = NRef d /\
                     nodes (the_dom list_tag_world) !! d = None /\
                     nodes (the_dom w') !! d
                     = Some (mkNode (Element "div") [] None []))) /\
    (forall m : node,
        parent_of (nodes (the_dom w')) m
        = parent_of (nodes (the_dom list_tag_world)) m /\
        children_of (nodes (the_dom w')) m
        = children_of (nodes (the_dom list_tag_world)) m).
Proof.
  apply (Tag_content_wraps_elements_only list_tag_world 0
           (mkTag (VPrim (PBool false)) (NRef 4) None (VPrim PUndefined)
              (OPrim PUndefined)) 4).
  - reflexivity.
  - reflexivity.
  - reflexivity.
  - vm_compute. repeat constructor.
Defined.


(** ** The [Tag] whose constructor takes an element ID *)

Lemma TagById_constructor_id (w : world) (s : string) (dbg : jsval) :
  exists w',
    TagById.constructor (NPrim (PStr s)) dbg w = (Ok (length (tags w)), w') /\
    the_dom w' = the_dom w /\
    tags w'
    = tags w ++ [mkTag (or_false dbg)
                   (match getElementById s (the_dom w) with
                    | Some n => NRef n
                    | None => NPrim PNull
                    end) None (VPrim PUndefined) (OPrim PUndefined)].
Proof.
  unfold TagById.constructor. run.
  destruct (truthy (or_false dbg)); cbn; eexists;
    (split; [reflexivity|]); split; reflexivity.
Qed.

Lemma TagById_set_parent_recreates
    (w : world) (h : loc) (o : Tag_object) (p : node) :
  tags w !! h = Some o ->
  truthy_nodeval (element o) = false ->
  stored_name o = None ->
  is_element (nodes (the_dom w)) p = true ->
  in_tree (nodes (the_dom w)) p = true ->
  exists w',
    TagById.set_parent h (VNode p) w = (Ok tt, w') /\
    nodes (the_dom w')
    = attach p (fresh (the_dom w))
        (nodes (the_dom w) ++ [mkNode (Element "div") [] None []]) /\
    tags w' !! h = Some (with_element (NRef (fresh (the_dom w))) o).
Proof.
  intros Hh He Hname Hp Htree.
  pose proof (is_element_lt _ _ Hp) as Hlt.
  assert (Hne : p <> fresh (the_dom w)) by (unfold fresh; lia).
  set (ns1 := nodes (the_dom w) ++ [mkNode (Element "div") [] None []]).
  assert (Hmove :
    appendChild_node p (fresh (the_dom w))
      (alloc_node (mkNode (Element "div") [] None []) (the_dom w))
    = (Ok (fresh (the_dom w)),
       set_nodes (attach p (fresh (the_dom w)) ns1)
         (alloc_node (mkNode (Element "div") [] None []) (the_dom w)))).
  { rewrite appendChild_node_element.
    - unfold move. cbn [nodes alloc_node set_nodes].
      rewrite detach_orphan by apply parent_of_fresh. reflexivity.
    - cbn. apply is_element_app. exact Hp.
    - cbn. apply is_element_fresh.
    - cbn. apply fresh_not_ancestor. exact Htree. }
  unfold TagById.set_parent, TagById.fix_.
  unfold TagById.other_Tag, TagById.other_HTMLElement, instanceof_HTMLElement.
  repeat (progress (run; rewrite ?Hh, ?He, ?Hname)).
  destruct (truthy (debug o)) eqn:Ed;
    repeat (progress (run; rewrite ?Hh, ?He, ?Hname, ?Ed));
    rewrite (is_element_app _ _ _ Hp);
    repeat (progress (run; rewrite ?Hh, ?He, ?Hname, ?Ed));
    rewrite (strict_eq_ne (VNode p) (VNode (fresh (the_dom w)))) by congruence;
    repeat (progress (run; rewrite ?Hh, ?He, ?Hname, ?Ed));
    rewrite Hmove; cbn;
    eexists; (split; [reflexivity|]); cbn;
    (split; [reflexivity|]); apply lookup_alter_Some; exact Hh.
Qed.

(** A [Tag] of this variant made from a string holds the element with that
    ID, or [null] when the document has none, and no node is created.  The
    first assignment of a parent to a handle that holds [null] creates a
    [div] for it and appends that [div] to the parent. *)
Theorem TagById_holds_null_until_first_use
    (w : world) (s : string) (dbg : jsval) (p : node) :
  is_element (nodes (the_dom w)) p = true ->
  in_tree (nodes (the_dom w)) p = true ->
  exists (w1 : world) (o1 : Tag_object),
    let t := length (tags w) in
    TagById.constructor (NPrim (PStr s)) dbg w = (Ok t, w1) /\
    the_dom w1 = the_dom w /\
    tags w1 !! t = Some o1 /\
    element o1 = match getElementById s (the_dom w) with
                 | Some n => NRef n
                 | None => NPrim PNull
                 end /\
    (getElementById s (the_dom w) = None ->
     exists (w2 : world) (o2 : Tag_object),
       TagById.set_parent t (VNode p) w1 = (Ok tt, w2) /\
       nodes (the_dom w2)
       = attach p (fresh (the_dom w))
           (nodes (the_dom w) ++ [mkNode (Element "div") [] None []]) /\
       tags w2 !! t = Some o2 /\
       element o2 = NRef (fresh (the_dom w)) /\
       parent_of (nodes (the_dom w2)) (fresh (the_dom w)) = Some p /\
       last (children_of (nodes (the_dom w2)) p) = Some (fresh (the_dom w))).
Proof.
  intros Hp Htree.
  destruct (TagById_constructor_id w s dbg) as (w1 & Hc & Hd & Ht).
  exists w1. eexists. cbv zeta.
  split; [exact Hc|]. split; [exact Hd|].
  split; [rewrite Ht; apply lookup_last|]. split; [reflexivity|].
  intros Hnone.
  destruct (TagById_set_parent_recreates w1 (length (tags w))
              (mkTag (or_false dbg) (NPrim PNull) None (VPrim PUndefined)
                 (OPrim PUndefined)) p)
    as (w2 & Hs & Hns & Hto).
  { rewrite Ht, Hnone. apply lookup_last. }
  { reflexivity. }
  { reflexivity. }
  { rewrite Hd. exact Hp. }
  { rewrite Hd. exact Htree. }
  rewrite Hd in Hns, Hto. exists w2. eexists.
  split; [exact Hs|]. split; [exact Hns|]. split; [exact Hto|].
  split; [reflexivity|]. rewrite Hns.
  pose proof (is_element_lt _ _ Hp) as Hlt.
  split.
  - apply parent_of_attach_child. rewrite length_app. cbn. unfold fresh. lia.
  - rewrite children_of_attach by (rewrite length_app; lia).
    rewrite (decide_True (P := p = p)) by reflexivity. apply last_snoc_Some.
Qed.

Lemma TagById_holds_null_until_first_use_witness :
  exists (w1 : world) (o1 : Tag_object),
    let t := length (tags start) in
    TagById.constructor (NPrim (PStr "menu")) (VPrim PUndefined) start
    = (Ok t, w1) /\
    the_dom w1 = the_dom start /\
    tags w1 !! t = Some o1 /\
    element o1 = match getElementById "menu" (the_dom start) with
                 | Some n => NRef n
                 | None => NPrim PNull
                 end /\
    (getElementById "menu" (the_dom start) = None ->
     exists (w2 : world) (o2 : Tag_object),
       TagById.set_parent t (VNode 3) w1 = (Ok tt, w2) /\
       nodes (the_dom w2)
       = attach 3 (fresh (the_dom start))
           (nodes (the_dom start) ++ [mkNode (Element "div") [] None []]) /\
       tags w2 !! t = Some o2 /\
       element o2 = NRef (fresh (the_dom start)) /\
       parent_of (nodes (the_dom w2)) (fresh (the_dom start)) = Some 3 /\
       last (children_of (nodes (the_dom w2)) 3) = Some (fresh (the_dom start))).
Proof.
  apply (TagById_holds_null_until_first_use start "menu" (VPrim PUndefined) 3).
  - reflexivity.
  - reflexivity.
Defined.


(** ** [toPosition] on the last element child *)

Lemma node_kind_move_all (q : node) (items : list node) :
  forall (ns : list Node) (m : node),
    node_kind (move_all q items ns) m = node_kind ns m.
Proof.
  induction items as [|c items IH]; intros ns m; cbn; [reflexivity|].
  unfold move_all in IH. rewrite IH. apply node_kind_move.
Qed.

Lemma length_move_all (q : node) (items : list node) :
  forall ns : list Node, length (move_all q items ns) = length ns.
Proof.
  induction items as [|c items IH]; intros ns; cbn; [reflexivity|].
  unfold move_all in IH. rewrite IH. apply length_move.
Qed.

Lemma filter_filter_out (c : node) (rest l : list node) :
  List.filter (fun x => negb (existsb (Nat.eqb x) rest))
    (List.filter (fun x => negb (x =? c)) l)
  = List.filter (fun x => negb (existsb (Nat.eqb x) (c :: rest))) l.
Proof.
  induction l as [|x l IH]; cbn; [reflexivity|].
  destruct (x =? c); cbn; [exact IH|].
  destruct (existsb (Nat.eqb x) rest); cbn; [exact IH|]. f_equal. exact IH.
Qed.

(** Moving nodes that are children of [src] to the end of [q]. *)
Lemma move_all_spec (src q : node) (items : list node) :
  forall ns : list Node,
    src <> q -> q < length ns ->
    NoDup items ->
    Forall (fun c => c < length ns /\ parent_of ns c = Some src) items ->
    let ns' := move_all q items ns in
    children_of ns' q = children_of ns q ++ items /\
    children_of ns' src
    = List.filter (fun x => negb (existsb (Nat.eqb x) items)) (children_of ns src) /\
    (forall c, In c items -> parent_of ns' c = Some q) /\
    (forall m, ~ In m items -> parent_of ns' m = parent_of ns m) /\
    (forall m, m <> src -> m <> q -> children_of ns' m = children_of ns m).
Proof.
  induction items as [|c items IH]; intros ns Hne Hq Hnd Hall; cbv zeta.
  - cbn. rewrite app_nil_r. repeat split; try reflexivity.
    + symmetry. apply forallb_filter_id. apply forallb_forall. reflexivity.
    + intros c [].
  - apply NoDup_cons in Hnd as [Hc Hnd].
    apply Forall_cons_1 in Hall as [[Hlt Hpar] Hall].
    cbn [move_all fold_left]. fold (move_all q items (move q c ns)).
    rewrite list_elem_of_In in Hc.
    destruct (IH (move q c ns)) as (Hq' & Hsrc' & Hin' & Hout' & Hoth'); cbv zeta.
    { exact Hne. }
    { rewrite length_move. exact Hq. }
    { exact Hnd. }
    { rewrite List.Forall_forall in *. intros x Hx. rewrite length_move.
      split; [apply Hall; exact Hx|].
      rewrite parent_of_move_other by (intros ->; contradiction).
      apply Hall. exact Hx. }
    split; [|split; [|split; [|split]]].
    + rewrite Hq'. rewrite children_of_move by exact Hq.
      rewrite Hpar. rewrite decide_False by congruence.
      rewrite (decide_True (P := q = q)) by reflexivity.
      rewrite <- app_assoc. reflexivity.
    + rewrite Hsrc'. rewrite children_of_move by exact Hq.
      rewrite Hpar. rewrite (decide_True (P := Some src = Some src)) by reflexivity.
      rewrite decide_False by congruence. rewrite app_nil_r.
      apply filter_filter_out.
    + intros x [<-|Hx].
      * rewrite Hout' by exact Hc. apply parent_of_move. exact Hlt.
      * apply Hin'. exact Hx.
    + intros m Hm. rewrite Hout' by (intros H; apply Hm; right; exact H).
      apply parent_of_move_other. intros ->. apply Hm. left. reflexivity.
    + intros m H1 H2. rewrite Hoth' by assumption.
      rewrite children_of_move by exact Hq.
      rewrite Hpar. rewrite decide_False by congruence.
      rewrite decide_False by congruence. apply app_nil_r.
Qed.


Lemma set_dom_set_dom (d1 d2 : dom) (w : world) :
  set_dom d2 (set_dom d1 w) = set_dom d2 w.
Proof. reflexivity. Qed.

(** The loop of [toPosition] over an array without hole: every element goes
    to the end of the fragment. *)
Lemma fragment_loop_all (f : node) (items : list node) :
  forall w : world,
    node_kind (nodes (the_dom w)) f = Some DocumentFragment ->
    parent_of (nodes (the_dom w)) f = None ->
    Forall (fun c => is_element (nodes (the_dom w)) c = true) items ->
    for_each (map VNode items) (fun item => appendChild (VNode f) item ;; ret tt) w
    = (Ok tt,
       set_dom (set_nodes (move_all f items (nodes (the_dom w))) (the_dom w)) w).
Proof.
  induction items as [|c items IH]; intros w Hf Hpar Hall.
  - cbn. rewrite set_nodes_nodes, set_dom_the_dom. reflexivity.
  - apply Forall_cons_1 in Hall as [Hc Hall].
    assert (Hne : c <> f).
    { intros ->. unfold is_element in Hc. rewrite Hf in Hc. discriminate. }
    destruct (is_element_kind _ _ Hc) as [l Hk].
    assert (Hpre : pre_insertion_error (nodes (the_dom w)) f c = None).
    { unfold pre_insertion_error. rewrite Hf, Hk.
      rewrite (orphan_inclusive_ancestor _ _ _ Hpar Hne). reflexivity. }
    cbn [map for_each]. unfold bind at 1. unfold bind at 1.
    unfold appendChild, as_node. cbn -[for_each].
    unfold run_dom, appendChild_node. rewrite Hpre.
    rewrite (insert_last_element _ _ _ Hc). cbn -[for_each].
    rewrite IH.
    + cbn. reflexivity.
    + cbn. rewrite node_kind_move. exact Hf.
    + cbn. rewrite parent_of_move_other by congruence. exact Hpar.
    + cbn. eapply List.Forall_impl; [|exact Hall].
      intros x Hx. cbn. rewrite is_element_move. exact Hx.
Qed.

Lemma array_values_nodes (l : list node) :
  array_values (map (fun c => Some (VNode c)) l) = map VNode l.
Proof. unfold array_values. rewrite map_map. reflexivity. Qed.

(** The values [toPosition] visits when the array of relatives has no
    hole. *)
Lemma array_values_position (pos : TagLegacy.position) (n : node)
    (before : list node) :
  array_values
    (match pos with
     | TagLegacy.first => array_splice_insert 0 (VNode n)
     | TagLegacy.last => array_push (VNode n)
     | TagLegacy.index k => array_splice_insert k (VNode n)
     end (map (fun c => Some (VNode c)) before))
  = map VNode (position_order pos n before).
Proof.
  destruct pos as [| |k]; unfold position_order, array_splice_insert, array_push.
  - cbn. rewrite length_map. destruct (length before); cbn;
      rewrite ?take_0, ?drop_0; cbn; f_equal; apply array_values_nodes.
  - rewrite <- (array_values_nodes (before ++ [n])), map_app. reflexivity.
  - rewrite length_map. cbv zeta.
    rewrite <- (array_values_nodes (take _ before ++ n :: drop _ before)).
    rewrite map_app, <- firstn_map. cbn [map]. rewrite <- skipn_map. reflexivity.
Qed.

Lemma position_order_perm (pos : TagLegacy.position) (n : node)
    (before : list node) :
  Permutation (position_order pos n before) (n :: before).
Proof.
  destruct pos as [| |k]; unfold position_order.
  - reflexivity.
  - symmetry. apply Permutation_cons_append.
  - cbv zeta. symmetry. etransitivity; [|apply Permutation_middle].
    rewrite take_drop. reflexivity.
Qed.

Lemma filter_neg_filter {A} (f : A -> bool) (l : list A) :
  List.filter f (List.filter (fun x => negb (f x)) l) = [].
Proof.
  induction l as [|x l IH]; cbn; [reflexivity|].
  destruct (f x) eqn:E; cbn; [exact IH|]. rewrite E. exact IH.
Qed.


Lemma legacy_toPosition_last_spec
    (w : world) (h : loc) (o : TagLegacy_object) (n p : node)
    (before : list node) (pos : TagLegacy.position) :
  legacy w !! h = Some o -> _tag o = NRef n ->
  parent_of (nodes (the_dom w)) n = Some p ->
  is_element (nodes (the_dom w)) p = true ->
  in_tree (nodes (the_dom w)) p = true ->
  element_children (nodes (the_dom w)) p = before ++ [n] ->
  NoDup (before ++ [n]) ->
  (forall c, In c (before ++ [n]) ->
             parent_of (nodes (the_dom w)) c = Some p /\
             inclusive_ancestor (nodes (the_dom w)) c p = false) ->
  exists w',
    TagLegacy.toPosition h pos w = (Ok tt, w') /\
    nodes (the_dom w')
    = move_all p (position_order pos n before)
        (move_all (fresh (the_dom w)) (position_order pos n before)
           (nodes (the_dom w) ++ [mkNode DocumentFragment [] None []])).
Proof.
  intros Hh Ht Hpar Hp Htree Hec Hnd Hwf.
  pose proof (parent_of_Some_lt _ _ _ Hpar) as Hn.
  pose proof (is_element_lt _ _ Hp) as Hplt.
  pose proof (is_element_parent_node _ _ Hp) as Hmix.
  set (ns := nodes (the_dom w)) in *.
  set (f := fresh (the_dom w)).
  set (order := position_order pos n before).
  set (ns1 := ns ++ [mkNode DocumentFragment [] None []]).
  assert (Hperm : Permutation order (before ++ [n])).
  { unfold order. rewrite position_order_perm. apply Permutation_cons_append. }
  assert (Hin : forall c, In c order <-> In c (before ++ [n])).
  { intros c. split; apply Permutation_in;
      [exact Hperm|symmetry; exact Hperm]. }
  assert (Hndo : NoDup order).
  { rewrite Hperm. exact Hnd. }
  assert (Hel : forall c, In c order -> is_element ns c = true).
  { intros c Hc. apply Hin in Hc. rewrite <- Hec in Hc.
    exact (In_filter_element _ _ _ Hc). }
  assert (Hnb : ~ In n before).
  { intros H. apply NoDup_app in Hnd as (_ & Hd & _).
    apply (Hd n); [apply list_elem_of_In; exact H|left]. }
  assert (Hfp : f <> p) by (unfold f, fresh; fold ns; lia).
  (* the first phase: into the fragment *)
  assert (HA : Forall (fun c => c < length ns1 /\ parent_of ns1 c = Some p) order).
  { apply List.Forall_forall. intros c Hc.
    pose proof (is_element_lt _ _ (Hel c Hc)) as Hclt.
    unfold ns1. rewrite length_app, parent_of_app by exact Hclt.
    split; [lia|]. apply Hwf. apply Hin. exact Hc. }
  destruct (move_all_spec p f order ns1) as (Af & Ap & Ain & Aout & Aoth).
  { congruence. }
  { unfold ns1, f, fresh. fold ns. rewrite length_app. cbn. lia. }
  { exact Hndo. }
  { exact HA. }
  set (ns3 := move_all f order ns1) in *.
  assert (Hf3 : children_of ns3 f = order).
  { rewrite Af. unfold ns1, f, fresh, children_of. fold ns.
    rewrite lookup_last. reflexivity. }
  (* the fragment does not contain the parent *)
  assert (Hanc : inclusive_ancestor ns3 f p = false).
  { rewrite (inclusive_ancestor_stable ns ns3 f p Htree).
    - apply existsb_eqb_false. intros Hc.
      destruct (in_tree_ancestors _ _ Htree) as [_ Hall].
      rewrite List.Forall_forall in Hall. apply Hall in Hc.
      unfold f, fresh in Hc. fold ns in Hc. lia.
    - intros m Hm.
      destruct (in_tree_ancestors _ _ Htree) as [_ Hall].
      rewrite List.Forall_forall in Hall. pose proof (Hall m Hm) as Hmlt.
      rewrite Aout.
      + unfold ns1. apply parent_of_app. exact Hmlt.
      + intros Hmo. apply Hin in Hmo. destruct (Hwf m Hmo) as [_ Hno].
        unfold inclusive_ancestor in Hno.
        rewrite inclusive_ancestor_in_existsb in Hno.
        assert (existsb (Nat.eqb m) (ancestors_in (length ns) ns p) = true);
          [|congruence].
        apply existsb_exists. exists m. split; [exact Hm|apply Nat.eqb_refl].
    - unfold ns3. rewrite length_move_all. unfold ns1. rewrite length_app. lia. }
  assert (Hkf : node_kind ns3 f = Some DocumentFragment).
  { unfold ns3. rewrite node_kind_move_all. apply node_kind_fresh. }
  assert (Hpre : pre_insertion_error ns3 p f = None).
  { destruct (is_element_kind _ _ Hp) as [l Hl].
    assert (Hkp : node_kind ns3 p = Some (Element l)).
    { unfold ns3. rewrite node_kind_move_all. apply node_kind_app. exact Hl. }
    unfold pre_insertion_error. rewrite Hkp, Hkf, Hanc. reflexivity. }
  assert (Hins : insert_last p f ns3 = move_all p order ns3).
  { unfold insert_last. rewrite Hkf, Hf3. reflexivity. }
  (* the run *)
  unfold TagLegacy.toPosition.
  erewrite bind_ok; [|reflexivity].
  erewrite bind_ok;
    [|eapply (legacy_get_relatives_spec _ h o n p before []); cbn;
      [exact Hh|exact Ht
      |rewrite parent_of_app by exact Hn; exact Hpar
      |apply is_parent_node_app; exact Hmix
      |rewrite element_children_app_fragment by exact Hplt; exact Hec
      |exact Hnb|intros []]].
  unfold TagLegacy.get_tag.
  erewrite bind_ok;
    [|eapply legacy_get_ok; cbn; apply lookup_alter_Some; exact Hh].
  erewrite bind_ok; [|reflexivity].
  erewrite bind_ok; [|reflexivity].
  cbn [with_relatives with_parent _tag of_nodeval]. rewrite Ht.
  cbn [arrays set_arrays set_legacy set_dom the_dom legacy of_nodeval].
  rewrite alter_last, lookup_last. cbn [default].
  unfold relative_slots, id. rewrite !app_nil_r.
  rewrite array_values_position. fold order.
  erewrite bind_ok;
    [|apply fragment_loop_all; cbn;
      [apply node_kind_fresh|apply parent_of_fresh
      |apply List.Forall_forall; intros c Hc;
       rewrite is_element_app_fragment; apply Hel; exact Hc]].
  erewrite bind_ok;
    [|eapply legacy_get_ok; cbn; apply lookup_alter_Some; exact Hh].
  cbn [with_relatives with_parent _parent].
  unfold appendChild, as_node, bind, ret, run_dom, appendChild_node.
  cbn [the_dom set_dom set_legacy set_arrays nodes set_nodes alloc_node].
  fold ns. fold ns1. fold f. fold ns3. rewrite Hpre, Hins.
  eexists. split; [reflexivity|]. reflexivity.
Qed.


(** The tree after the two passes of [toPosition]: the element children of
    [p] were moved to a new fragment [f] in the order asked for, and from
    there back to the end of [p]. *)
Lemma reordered_tree (ns : list Node) (p : node) (elems order : list node) :
  p < length ns ->
  element_children ns p = elems ->
  Permutation order elems ->
  NoDup elems ->
  (forall c, In c elems -> parent_of ns c = Some p) ->
  let f := length ns in
  let ns' := move_all p order
               (move_all f order (ns ++ [mkNode DocumentFragment [] None []])) in
  children_of ns' p
  = List.filter (fun x => negb (is_element ns x)) (children_of ns p) ++ order /\
  element_children ns' p = order /\
  (forall c, In c order -> parent_of ns' c = Some p) /\
  (forall m, ~ In m order -> m < length ns -> parent_of ns' m = parent_of ns m) /\
  (forall m, m <> p -> m < length ns -> children_of ns' m = children_of ns m).
Proof.
  intros Hplt Hec Hperm Hnd Hwf. cbv zeta.
  set (f := length ns).
  set (ns1 := ns ++ [mkNode DocumentFragment [] None []]).
  assert (Hin : forall c, In c order <-> In c elems).
  { intros c. split; apply Permutation_in; [exact Hperm|symmetry; exact Hperm]. }
  assert (Hndo : NoDup order) by (rewrite Hperm; exact Hnd).
  assert (Hel : forall c, In c order -> is_element ns c = true).
  { intros c Hc. apply Hin in Hc. rewrite <- Hec in Hc.
    exact (In_filter_element _ _ _ Hc). }
  assert (Hfp : f <> p) by (unfold f; lia).
  assert (Hl1 : length ns1 = S (length ns)).
  { unfold ns1. rewrite length_app. cbn. lia. }
  destruct (move_all_spec p f order ns1) as (Af & Ap & Ain & Aout & Aoth).
  { congruence. }
  { rewrite Hl1. unfold f. lia. }
  { exact Hndo. }
  { apply List.Forall_forall. intros c Hc.
    pose proof (is_element_lt _ _ (Hel c Hc)) as Hclt.
    rewrite Hl1. unfold ns1. rewrite parent_of_app by exact Hclt.
    split; [lia|]. apply Hwf. apply Hin. exact Hc. }
  set (ns3 := move_all f order ns1) in *.
  assert (Hf3 : children_of ns3 f = order).
  { rewrite Af. unfold ns1, f, children_of. rewrite lookup_last. reflexivity. }
  destruct (move_all_spec f p order ns3) as (Bp & Bf & Bin & Bout & Both).
  { exact Hfp. }
  { unfold ns3. rewrite length_move_all, Hl1. lia. }
  { exact Hndo. }
  { apply List.Forall_forall. intros c Hc.
    pose proof (is_element_lt _ _ (Hel c Hc)) as Hclt.
    unfold ns3 at 1. rewrite length_move_all, Hl1.
    split; [lia|]. apply Ain. exact Hc. }
  set (ns4 := move_all p order ns3) in *.
  assert (Hkind : forall x, is_element ns4 x = is_element ns x).
  { intros x. unfold is_element, ns4, ns3. rewrite !node_kind_move_all.
    apply is_element_app_fragment. }
  assert (Hchildren :
    children_of ns4 p
    = List.filter (fun x => negb (is_element ns x)) (children_of ns p) ++ order).
  { rewrite Bp, Ap. f_equal. unfold ns1. rewrite children_of_app by exact Hplt.
    apply filter_ext_in. intros x Hx. f_equal.
    destruct (is_element ns x) eqn:E.
    - apply existsb_exists. exists x. split; [|apply Nat.eqb_refl].
      apply Hin. rewrite <- Hec. apply filter_In. split; assumption.
    - destruct (existsb (Nat.eqb x) order) eqn:E2; [|reflexivity].
      apply existsb_exists in E2 as (y & Hy & Hxy). apply Nat.eqb_eq in Hxy.
      subst y. rewrite (Hel x Hy) in E. discriminate. }
  split; [exact Hchildren|]. split; [|split; [|split]].
  - unfold element_children. rewrite Hchildren, List.filter_app.
    rewrite (filter_ext _ _ Hkind), filter_neg_filter. cbn [app].
    apply forallb_filter_id. apply forallb_forall.
    intros x Hx. rewrite Hkind. apply Hel. exact Hx.
  - exact Bin.
  - intros m Hm Hmlt. rewrite Bout, Aout by exact Hm.
    unfold ns1. apply parent_of_app. exact Hmlt.
  - intros m Hmp Hmlt. rewrite Both, Aoth; try assumption; try (unfold f; lia).
    unfold ns1. apply children_of_app. exact Hmlt.
Qed.

(** On a node that is the last element child of its parent, [toPosition]
    does reorder: the element children of the parent end in the order asked
    for ([first], [last], or the node at the index the number is clamped
    to), after the children that are not elements, which keep their order.
    No other node changes its parent or its children. *)
Theorem legacy_toPosition_reorders_the_last_element
    (w : world) (h : loc) (o : TagLegacy_object) (n p : node)
    (before : list node) (pos : TagLegacy.position) :
  legacy w !! h = Some o -> _tag o = NRef n ->
  parent_of (nodes (the_dom w)) n = Some p ->
  is_element (nodes (the_dom w)) p = true ->
  in_tree (nodes (the_dom w)) p = true ->
  element_children (nodes (the_dom w)) p = before ++ [n] ->
  NoDup (before ++ [n]) ->
  (forall c, In c (before ++ [n]) ->
             parent_of (nodes (the_dom w)) c = Some p /\
             inclusive_ancestor (nodes (the_dom w)) c p = false) ->
  exists w',
    let ns := nodes (the_dom w) in
    let ns' := nodes (the_dom w') in
    let order := position_order pos n before in
    TagLegacy.toPosition h pos w = (Ok tt, w') /\
    children_of ns' p
    = List.filter (fun x => negb (is_element ns x)) (children_of ns p) ++ order /\
    element_children ns' p = order /\
    (forall c, In c order -> parent_of ns' c = Some p) /\
    (forall m, ~ In m order -> m < length ns -> parent_of ns' m = parent_of ns m) /\
    (forall m, m <> p -> m < length ns -> children_of ns' m = children_of ns m).
Proof.
  intros Hh Ht Hpar Hp Htree Hec Hnd Hwf.
  destruct (legacy_toPosition_last_spec w h o n p before pos
              Hh Ht Hpar Hp Htree Hec Hnd Hwf) as (w' & Hrun & Hns).
  exists w'. cbv zeta. split; [exact Hrun|]. rewrite Hns.
  apply (reordered_tree (nodes (the_dom w)) p (before ++ [n])).
  - apply is_element_lt. exact Hp.
  - exact Hec.
  - rewrite position_order_perm. apply Permutation_cons_append.
  - exact Hnd.
  - intros c Hc. apply Hwf. exact Hc.
Qed.

Lemma legacy_toPosition_reorders_the_last_element_witness :
  exists w',
    let ns := nodes (the_dom siblings_world) in
    let ns' := nodes (the_dom w') in
    let order := position_order (TagLegacy.index 1) 6 [4; 5] in
    TagLegacy.toPosition 2 (TagLegacy.index 1) siblings_world = (Ok tt, w') /\
    children_of ns' 3
    = List.filter (fun x => negb (is_element ns x)) (children_of ns 3) ++ order /\
    element_children ns' 3 = order /\
    (forall c, In c order -> parent_of ns' c = Some 3) /\
    (forall m, ~ In m order -> m < length ns -> parent_of ns' m = parent_of ns m) /\
    (forall m, m <> 3 -> m < length ns -> children_of ns' m = children_of ns m).
Proof.
  apply (legacy_toPosition_reorders_the_last_element siblings_world 2
           (mkTagLegacy "p" (OPrim PUndefined) (VNode 3) None (NRef 6) None)
           6 3 [4; 5] (TagLegacy.index 1)).
  - reflexivity.
  - reflexivity.
  - reflexivity.
  - reflexivity.
  - reflexivity.
  - reflexivity.
  - repeat constructor; cbn; rewrite ?list_elem_of_In; cbn; lia.
  - intros c Hc. cbn in Hc. destruct Hc as [<-|[<-|[<-|[]]]]; split; reflexivity.
Defined.


(** ** Renaming the element of a [Tag] *)

Lemma is_text_move (ns : list Node) (p n m : node) :
  is_text (move p n ns) m = is_text ns m.
Proof. unfold is_text. rewrite node_kind_move. reflexivity. Qed.

(** The loop that moves the children of the element to the new element ends
    within as many rounds as the element has children. *)
Lemma move_children_spec (this : loc) (o : Tag_object) (n t : node)
    (cs : list node) :
  forall (fuel : nat) (w : world),
    tags w !! this = Some o -> element o = NRef n ->
    children_of (nodes (the_dom w)) n = cs ->
    length cs <= fuel ->
    NoDup cs ->
    is_element (nodes (the_dom w)) t = true ->
    parent_of (nodes (the_dom w)) t = None ->
    t <> n ->
    Forall (fun c =>
              (is_element (nodes (the_dom w)) c || is_text (nodes (the_dom w)) c
               = true) /\
              parent_of (nodes (the_dom w)) c = Some n /\
              c <> t) cs ->
    Tag.move_children fuel this t w
    = (Ok true,
       set_dom (set_nodes (move_all t cs (nodes (the_dom w))) (the_dom w)) w).
Proof.
  induction cs as [|c cs IH]; intros fuel w Hh He Hcs Hfuel Hnd Ht Hpar Hne Hall.
  - destruct fuel; cbn [Tag.move_children];
      (erewrite bind_ok; [|eapply tag_get_ok; exact Hh]); rewrite He;
      cbn [node_property];
      (erewrite bind_ok;
       [|unfold read_dom, firstChild; rewrite Hcs; reflexivity]);
      cbn [head move_all fold_left];
      rewrite set_nodes_nodes, set_dom_the_dom; reflexivity.
  - destruct fuel as [|fuel]; [cbn in Hfuel; lia|].
    apply NoDup_cons in Hnd as [Hc Hnd]. rewrite list_elem_of_In in Hc.
    apply Forall_cons_1 in Hall as [(Hk & Hp & Hct) Hall].
    cbn [Tag.move_children].
    erewrite bind_ok; [|eapply tag_get_ok; exact Hh]. rewrite He.
    cbn [node_property].
    erewrite bind_ok;
      [|unfold read_dom, firstChild; rewrite Hcs; reflexivity].
    cbn [head].
    erewrite bind_ok; [|eapply tag_get_ok; exact Hh]. rewrite He.
    cbn [node_property].
    erewrite bind_ok;
      [|unfold read_dom, firstChild; rewrite Hcs; reflexivity].
    cbn [head].
    erewrite bind_ok;
      [|unfold appendChild, as_node, bind, ret, run_dom;
        rewrite (appendChild_node_moves _ _ _ Ht Hk
                   (orphan_inclusive_ancestor _ _ _ Hpar Hct));
        reflexivity].
    assert (Hlt : t < length (nodes (the_dom w))) by (apply is_element_lt; exact Ht).
    rewrite IH.
    + reflexivity.
    + exact Hh.
    + exact He.
    + cbn. rewrite children_of_move by exact Hlt.
      rewrite Hp, Hcs. rewrite (decide_True (P := Some n = Some n)) by reflexivity.
      rewrite decide_False by congruence. rewrite app_nil_r. cbn [List.filter].
      rewrite Nat.eqb_refl. cbn [negb]. apply filter_out_absent. exact Hc.
    + cbn in Hfuel. lia.
    + exact Hnd.
    + cbn. rewrite is_element_move. exact Ht.
    + cbn. rewrite parent_of_move_other by congruence. exact Hpar.
    + exact Hne.
    + cbn. rewrite List.Forall_forall in *. intros x Hx.
      destruct (Hall x Hx) as (Hk' & Hp' & Hct').
      rewrite is_element_move, is_text_move.
      split; [exact Hk'|]. split; [|exact Hct'].
      rewrite parent_of_move_other by (intros ->; contradiction). exact Hp'.
Qed.


Lemma set_attr_absent (k v : string) (l : list (string * string)) :
  ~ In k (map fst l) -> set_attr k v l = l ++ [(k, v)].
Proof.
  induction l as [|[k' v'] l IH]; intros H; cbn; [reflexivity|].
  destruct (String.eqb_spec k' k) as [->|Hne].
  - exfalso. apply H. left. reflexivity.
  - f_equal. apply IH. intros Hin. apply H. right. exact Hin.
Qed.

(** Setting attributes of distinct names, none of them present, appends
    them. *)
Lemma set_attrs_append (l : list (string * string)) :
  forall init : list (string * string),
    NoDup (map fst (init ++ l)) ->
    fold_left (fun acc a => set_attr (fst a) (snd a) acc) l init = init ++ l.
Proof.
  induction l as [|[k v] l IH]; intros init Hnd; cbn.
  - rewrite app_nil_r. reflexivity.
  - rewrite set_attr_absent.
    + rewrite IH; rewrite <- app_assoc; [reflexivity|exact Hnd].
    + rewrite map_app in Hnd. cbn in Hnd.
      apply NoDup_app in Hnd as (_ & Hd & _). intros Hin.
      apply (Hd k); [apply list_elem_of_In; exact Hin|left].
Qed.

Lemma fold_left_ext_in {A B} (f g : A -> B -> A) (l : list B) :
  (forall a b, In b l -> f a b = g a b) ->
  forall init, fold_left f l init = fold_left g l init.
Proof.
  induction l as [|b l IH]; intros H init; cbn; [reflexivity|].
  rewrite (H init b) by (left; reflexivity).
  apply IH. intros a b' Hb. apply H. right. exact Hb.
Qed.

(** Visiting the indices of a list from the last to 0 visits its members in
    reverse. *)
Lemma fold_left_rev_indices {A B} (f : A -> B -> A) (l : list B) :
  forall init : A,
    fold_left (fun acc i => match l !! i with Some b => f acc b | None => acc end)
      (rev (seq 0 (length l))) init
    = fold_left f (rev l) init.
Proof.
  induction l as [|x l IH] using rev_ind; intros init; [reflexivity|].
  rewrite length_app. cbn [length]. rewrite Nat.add_1_r, seq_S, !rev_app_distr.
  cbn [rev app fold_left Nat.add]. rewrite lookup_last. rewrite <- IH.
  apply fold_left_ext_in. intros a i Hi.
  apply in_rev, in_seq in Hi. rewrite lookup_app_l by lia. reflexivity.
Qed.

Lemma attrs_of_update_attrs_ne (n t : node)
    (f : list (string * string) -> list (string * string)) (d : dom) :
  t <> n -> attrs_of (nodes (update_attrs t f d)) n = attrs_of (nodes d) n.
Proof.
  intros Hne. unfold update_attrs, attrs_of. cbn.
  rewrite list_lookup_alter_ne by congruence. reflexivity.
Qed.

Lemma setNamedItem_element (t : node) (a : string * string) (d : dom) :
  is_element (nodes d) t = true ->
  setNamedItem t a d = (Ok tt, update_attrs t (set_attr (fst a) (snd a)) d).
Proof. intros H. unfold setNamedItem. rewrite H. reflexivity. Qed.

(** The loop that copies the attributes, over any indices of the attribute
    list. *)
Lemma copy_attributes_loop (this : loc) (o : Tag_object) (n t : node)
    (al : list (string * string)) (idx : list nat) :
  forall w : world,
    tags w !! this = Some o -> element o = NRef n ->
    is_element (nodes (the_dom w)) n = true ->
    attrs_of (nodes (the_dom w)) n = al ->
    is_element (nodes (the_dom w)) t = true ->
    t <> n ->
    Forall (fun i => i < length al) idx ->
    for_each idx
      (fun index =>
         e' <- tag_get this element ;;
         attributes' <- element_attributes e' ;;
         match attributes' !! index with
         | Some a => run_dom (setNamedItem t a)
         | None => throw TypeError
         end) w
    = (Ok tt,
       set_dom
         (update_attrs t
            (fun acc =>
               fold_left
                 (fun acc i =>
                    match al !! i with
                    | Some a => set_attr (fst a) (snd a) acc
                    | None => acc
                    end) idx acc) (the_dom w)) w).
Proof.
  induction idx as [|i idx IH]; intros w Hh He Hn Hal Ht Hne Hall.
  - cbn. rewrite update_attrs_id, set_dom_the_dom. reflexivity.
  - apply Forall_cons_1 in Hall as [Hi Hall].
    destruct (lookup_lt_is_Some_2 al i Hi) as [a Ha].
    cbn [for_each]. unfold bind at 1.
    assert (Hbody :
      (e' <- tag_get this element ;;
       attributes' <- element_attributes e' ;;
       match attributes' !! i with
       | Some a => run_dom (setNamedItem t a)
       | None => throw TypeError
       end) w
      = (Ok tt,
         set_dom (update_attrs t (set_attr (fst a) (snd a)) (the_dom w)) w)).
    { erewrite bind_ok; [|eapply tag_get_ok; exact Hh]. rewrite He.
      erewrite bind_ok;
        [|unfold element_attributes, as_node, of_nodeval, bind, ret, read_dom;
          rewrite Hn, Hal; reflexivity].
      rewrite Ha. unfold run_dom. rewrite (setNamedItem_element _ _ _ Ht).
      reflexivity. }
    rewrite Hbody. rewrite IH.
    + cbn [the_dom set_dom fold_left]. rewrite update_attrs_update_attrs.
      rewrite Ha. reflexivity.
    + exact Hh.
    + exact He.
    + cbn [the_dom set_dom]. rewrite is_element_update_attrs. exact Hn.
    + cbn [the_dom set_dom]. rewrite attrs_of_update_attrs_ne by exact Hne.
      exact Hal.
    + cbn [the_dom set_dom]. rewrite is_element_update_attrs. exact Ht.
    + exact Hne.
    + exact Hall.
Qed.

Lemma copy_attributes_spec (w : world) (this : loc) (o : Tag_object)
    (n t : node) :
  tags w !! this = Some o -> element o = NRef n ->
  is_element (nodes (the_dom w)) n = true ->
  is_element (nodes (the_dom w)) t = true ->
  t <> n ->
  Tag.copy_attributes this t w
  = (Ok tt,
     set_dom
       (update_attrs t
          (fun acc =>
             fold_left (fun acc a => set_attr (fst a) (snd a) acc)
               (rev (attrs_of (nodes (the_dom w)) n)) acc) (the_dom w)) w).
Proof.
  intros Hh He Hn Ht Hne. unfold Tag.copy_attributes.
  erewrite bind_ok; [|eapply tag_get_ok; exact Hh]. rewrite He.
  erewrite bind_ok;
    [|unfold element_attributes, as_node, of_nodeval, bind, ret, read_dom;
      rewrite Hn; reflexivity].
  rewrite (copy_attributes_loop this o n t (attrs_of (nodes (the_dom w)) n));
    try assumption; try reflexivity.
  - f_equal. f_equal. unfold update_attrs. f_equal.
    apply list_alter_ext; [|reflexivity]. intros r _. f_equal.
    apply (fold_left_rev_indices
             (fun acc a => set_attr (fst a) (snd a) acc)).
  - apply List.Forall_forall. intros i Hi. apply in_rev, in_seq in Hi. lia.
Qed.


Lemma attrs_of_move_all (q : node) (items : list node) :
  forall (ns : list Node) (m : node),
    attrs_of (move_all q items ns) m = attrs_of ns m.
Proof.
  induction items as [|c items IH]; intros ns m; cbn; [reflexivity|].
  unfold move_all in IH. rewrite IH. apply attrs_of_move.
Qed.

Lemma is_element_move_all (q : node) (items : list node) (ns : list Node)
    (m : node) :
  is_element (move_all q items ns) m = is_element ns m.
Proof. unfold is_element. rewrite node_kind_move_all. reflexivity. Qed.

Lemma parent_of_update_attrs (t m : node)
    (f : list (string * string) -> list (string * string)) (d : dom) :
  parent_of (nodes (update_attrs t f d)) m = parent_of (nodes d) m.
Proof.
  unfold update_attrs. cbn. apply parent_of_alter_children.
  intros r. reflexivity.
Qed.

Lemma children_of_alter_attrs (f : Node -> Node) (i m : node) (ns : list Node) :
  (forall r, childNodes (f r) = childNodes r) ->
  children_of (alter f i ns) m = children_of ns m.
Proof.
  intros Hf. unfold children_of. rewrite list_lookup_alter.
  destruct (decide (i = m)) as [->|Hne].
  - destruct (ns !! m); cbn; [apply Hf|reflexivity].
  - reflexivity.
Qed.

(** What the rename needs of the store when the loops are over. *)
Lemma renamable_facts (ns : list Node) (n p : node) (l : string) :
  renamable ns n p ->
  let t := length ns in
  let cs := children_of ns n in
  let ns1 := ns ++ [mkNode (Element l) [] None []] in
  let ns2 := move_all t cs ns1 in
  n < length ns /\ p < length ns /\ t <> n /\ t <> p /\ ~ In n cs /\
  (forall c, In c cs -> c < length ns /\ c <> p) /\
  children_of ns2 t = cs /\
  children_of ns2 n = [] /\
  children_of ns2 p = children_of ns p /\
  parent_of ns2 n = Some p /\
  parent_of ns2 t = None /\
  (forall c, In c cs -> parent_of ns2 c = Some t) /\
  (forall m, ~ In m cs -> m < length ns -> parent_of ns2 m = parent_of ns m) /\
  (forall m, m <> n -> m < length ns -> children_of ns2 m = children_of ns m) /\
  inclusive_ancestor ns2 t p = false.
Proof.
  intros (Hn & Hpar & Hp & Htree & Hpn & Hnd & Hall). cbv zeta.
  set (t := length ns). set (cs := children_of ns n) in *.
  set (ns1 := ns ++ [mkNode (Element l) [] None []]).
  pose proof (is_element_lt _ _ Hn) as Hnlt.
  pose proof (is_element_lt _ _ Hp) as Hplt.
  rewrite List.Forall_forall in Hall.
  assert (Hclt : forall c, In c cs -> c < length ns /\ c <> p).
  { intros c Hc. destruct (Hall c Hc) as (Hk & Hpc & Hanc). split.
    - apply (parent_of_Some_lt _ _ _ Hpc).
    - intros ->. rewrite inclusive_ancestor_refl in Hanc. discriminate. }
  assert (Hncs : ~ In n cs).
  { intros Hc. destruct (Hall n Hc) as (_ & Hpc & _). congruence. }
  assert (Hl1 : length ns1 = S (length ns)).
  { unfold ns1. rewrite length_app. cbn. lia. }
  destruct (move_all_spec n t cs ns1) as (At & An & Ain & Aout & Aoth).
  { unfold t. lia. }
  { rewrite Hl1. unfold t. lia. }
  { exact Hnd. }
  { apply List.Forall_forall. intros c Hc. destruct (Hclt c Hc) as [Hlt _].
    rewrite Hl1. unfold ns1. rewrite parent_of_app by exact Hlt.
    split; [lia|]. apply Hall. exact Hc. }
  set (ns2 := move_all t cs ns1) in *.
  assert (Hout : forall m, ~ In m cs -> m < length ns ->
                           parent_of ns2 m = parent_of ns m).
  { intros m Hm Hmlt. rewrite Aout by exact Hm. unfold ns1.
    apply parent_of_app. exact Hmlt. }
  split; [exact Hnlt|]. split; [exact Hplt|].
  split; [unfold t; lia|]. split; [unfold t; lia|]. split; [exact Hncs|].
  split; [exact Hclt|]. split.
  { rewrite At. unfold ns1, t, children_of. rewrite lookup_last.
    reflexivity. }
  split.
  { rewrite An. unfold ns1. rewrite children_of_app by exact Hnlt.
    fold cs. induction cs as [|c cs' IH]; [reflexivity|]. cbn.
    rewrite Nat.eqb_refl. cbn.
    rewrite <- (filter_ext_in (fun x => false)); [|].
    - clear. induction cs' as [|y l' IHl]; cbn; [reflexivity|exact IHl].
    - intros x Hx. symmetry. apply negb_false_iff.
      apply orb_true_iff. right. apply existsb_exists. exists x.
      split; [exact Hx|apply Nat.eqb_refl]. }
  split.
  { rewrite Aoth by (unfold t; congruence || lia). unfold ns1.
    apply children_of_app. exact Hplt. }
  split; [rewrite Hout by assumption; exact Hpar|]. split.
  { rewrite Aout.
    - unfold ns1, t. apply parent_of_fresh.
    - intros Hc. apply Hclt in Hc. unfold t in Hc. lia. }
  split; [exact Ain|]. split; [exact Hout|]. split.
  { intros m Hmn Hmlt. rewrite Aoth by (unfold t; congruence || lia).
    unfold ns1. apply children_of_app. exact Hmlt. }
  rewrite (inclusive_ancestor_stable ns ns2 t p Htree).
  - apply existsb_eqb_false. intros Hc.
    destruct (in_tree_ancestors _ _ Htree) as [_ Hb].
    rewrite List.Forall_forall in Hb. apply Hb in Hc. unfold t in Hc. lia.
  - intros m Hm.
    destruct (in_tree_ancestors _ _ Htree) as [_ Hb].
    rewrite List.Forall_forall in Hb. apply Hout; [|apply Hb; exact Hm].
    intros Hmc. destruct (Hall m Hmc) as (_ & _ & Hno).
    unfold inclusive_ancestor in Hno.
    rewrite inclusive_ancestor_in_existsb in Hno.
    assert (existsb (Nat.eqb m) (ancestors_in (length ns) ns p) = true);
      [|congruence].
    apply existsb_exists. exists m. split; [exact Hm|apply Nat.eqb_refl].
  - unfold ns2. rewrite length_move_all, Hl1. lia.
Qed.


Lemma is_text_app (ns : list Node) (r : Node) (n : node) :
  is_text ns n = true -> is_text (ns ++ [r]) n = true.
Proof.
  unfold is_text. destruct (node_kind ns n) as [k|] eqn:E; [|discriminate].
  rewrite (node_kind_app _ _ _ _ E). trivial.
Qed.

Lemma inclusive_ancestor_in_ext (ns ns' : list Node) (a : node) :
  (forall m, parent_of ns' m = parent_of ns m) ->
  forall (fuel : nat) (n : node),
    inclusive_ancestor_in fuel ns' a n = inclusive_ancestor_in fuel ns a n.
Proof.
  intros H fuel. induction fuel as [|f IH]; intros n; cbn; [reflexivity|].
  rewrite H. destruct (parent_of ns n); [rewrite IH|]; reflexivity.
Qed.

Lemma Tag_set_name_run (w : world) (h : loc) (o : Tag_object) (n p : node)
    (s : string) (fuel : nat) :
  tags w !! h = Some o -> element o = NRef n ->
  valid_element_local_name s = true ->
  renamable (nodes (the_dom w)) n p ->
  length (children_of (nodes (the_dom w)) n) <= fuel ->
  exists w',
    Tag.set_name fuel h (VPrim (PStr s)) w = (Ok true, w') /\
    nodes (the_dom w') = renamed_store (nodes (the_dom w)) n p (ascii_lowercase s) /\
    tags w' !! h
    = Some (with_stored_name (Some s)
              (with_element (NRef (fresh (the_dom w))) o)).
Proof.
  intros Hh He Hs Hren Hfuel.
  pose proof (renamable_facts _ n p (ascii_lowercase s) Hren) as F.
  cbv zeta in F.
  destruct F as (Hnlt & Hplt & Htn & Htp & Hncs & Hclt & Ft & Fn & Fp & Fpn
                 & Fpt & Fin & Fout & Foth & Fanc).
  destruct Hren as (Hn & Hpar & Hp & Htree & Hpn & Hnd & Hall).
  set (ns := nodes (the_dom w)) in *.
  set (t := length ns) in *.
  set (cs := children_of ns n) in *.
  set (ns1 := ns ++ [mkNode (Element (ascii_lowercase s)) [] None []]) in *.
  set (ns2 := move_all t cs ns1) in *.
  unfold Tag.set_name.
  rewrite (bind_ok _ _ _ _ _ (Tag_fix_keeps w h o n Hh He)).
  erewrite bind_ok;
    [|unfold document_createElement, run_dom;
      rewrite (createElement_valid _ _ Hs); reflexivity].
  erewrite bind_ok;
    [|apply (move_children_spec h o n (fresh (the_dom w)) cs);
      cbn [the_dom set_dom nodes alloc_node set_nodes tags]; fold ns; fold ns1;
      [exact Hh|exact He
      |unfold ns1; rewrite children_of_app by exact Hnlt; reflexivity
      |exact Hfuel|exact Hnd
      |apply is_element_fresh
      |apply parent_of_fresh
      |exact Htn
      |rewrite List.Forall_forall in *; intros c Hc;
       destruct (Hall c Hc) as (Hk & Hpc & _);
       destruct (Hclt c Hc) as [Hlt _];
       split; [apply orb_true_iff; apply orb_true_iff in Hk as [Hk|Hk];
               [left; apply is_element_app; exact Hk
               |right; apply is_text_app; exact Hk]|];
       split; [unfold ns1; rewrite parent_of_app by exact Hlt; exact Hpc|];
       unfold fresh; fold ns; lia]].
  cbn [the_dom set_dom nodes alloc_node set_nodes tags]. fold ns. fold ns1.
  unfold fresh. fold ns. fold t. fold ns2.
  erewrite bind_ok;
    [|apply (copy_attributes_spec _ h o n t);
      cbn [the_dom set_dom nodes alloc_node set_nodes tags];
      [exact Hh|exact He
      |unfold ns2; rewrite is_element_move_all; apply is_element_app; exact Hn
      |unfold ns2; rewrite is_element_move_all; apply is_element_fresh
      |exact Htn]].
  cbn [the_dom set_dom nodes set_nodes tags].
  erewrite bind_ok; [|eapply tag_get_ok; exact Hh]. rewrite He.
  cbn [node_property of_nodeval].
  set (d3 := update_attrs t _ _).
  assert (Hpar3 : forall m, parent_of (nodes d3) m = parent_of ns2 m).
  { intros m. unfold d3. apply parent_of_update_attrs. }
  assert (Hkind3 : forall m, node_kind (nodes d3) m = node_kind ns m \/ m = t).
  { intros m. unfold d3. rewrite node_kind_update_attrs. cbn [nodes set_nodes].
    unfold ns2. rewrite node_kind_move_all. unfold ns1.
    destruct (Nat.lt_trichotomy m (length ns)) as [H|[H|H]].
    - left. unfold node_kind. rewrite lookup_app_l by exact H. reflexivity.
    - right. exact H.
    - left. unfold node_kind.
      rewrite !lookup_ge_None_2; [reflexivity|lia|rewrite length_app; cbn; lia]. }
  assert (Hp3 : is_element (nodes d3) p = true).
  { unfold is_element. destruct (Hkind3 p) as [-> | ->]; [exact Hp|].
    unfold t in Htp. congruence. }
  erewrite bind_ok;
    [|unfold read_dom, parentElement; cbn [the_dom set_dom];
      rewrite Hpar3, Fpn, Hp3; reflexivity].
  assert (Hkt : node_kind (nodes d3) t = Some (Element (ascii_lowercase s))).
  { unfold d3. rewrite node_kind_update_attrs. cbn [nodes set_nodes].
    unfold ns2. rewrite node_kind_move_all. apply node_kind_fresh. }
  assert (Hanc3 : inclusive_ancestor (nodes d3) t p = false).
  { unfold inclusive_ancestor.
    rewrite (inclusive_ancestor_in_ext ns2 (nodes d3) t Hpar3).
    replace (length (nodes d3)) with (length ns2); [exact Fanc|].
    unfold d3, update_attrs. cbn. rewrite length_alter. reflexivity. }
  assert (Hch3 : children_of (nodes d3) p = children_of ns p).
  { unfold d3, update_attrs. cbn [nodes set_nodes].
    rewrite children_of_alter_attrs by (intros r; reflexivity). exact Fp. }
  assert (Hrep :
    replaceChild_node p t n d3
    = (Ok n, set_nodes (renamed_store ns n p (ascii_lowercase s)) d3)).
  { unfold replaceChild_node. rewrite Hkt, Hanc3. cbn [fold_left].
    rewrite detach_orphan by (rewrite Hpar3; exact Fpt).
    rewrite Hch3. unfold renamed_store. fold t. fold ns1. fold cs. fold ns2.
    unfold d3, update_attrs. cbn [nodes set_nodes].
    assert (Hattr : attrs_of ns2 n = attrs_of ns n).
    { unfold ns2. rewrite attrs_of_move_all. unfold ns1.
      apply attrs_of_app. exact Hnlt. }
    rewrite Hattr. reflexivity. }
  unfold as_node, bind, ret, run_dom. cbn [the_dom set_dom].
  rewrite Hrep. unfold tag_set. cbn.
  eexists. split; [reflexivity|]. cbn. split; [reflexivity|].
  rewrite list_alter_alter_eq. rewrite (lookup_alter_Some _ _ _ _ Hh).
  reflexivity.
Qed.


Lemma replace_in_fresh (n t : node) (l : list node) :
  ~ In t l ->
  replace_in n [t] l = map (fun c => if c =? n then t else c) l.
Proof.
  intros Ht. unfold replace_in.
  induction l as [|c l IH]; cbn [flat_map map]; [reflexivity|].
  rewrite IH by (intros H; apply Ht; right; exact H).
  destruct (c =? n); [reflexivity|]. cbn [existsb].
  destruct (Nat.eqb_spec c t) as [->|Hne]; cbn; [|reflexivity].
  exfalso. apply Ht. left. reflexivity.
Qed.

Lemma children_of_set_children (l : list node) (p m : node) (ns : list Node) :
  p < length ns ->
  children_of (alter (set_childNodes l) p ns) m
  = if decide (m = p) then l else children_of ns m.
Proof.
  intros Hp. unfold children_of. rewrite list_lookup_alter.
  destruct (decide (p = m)) as [->|Hne].
  - rewrite (decide_True (P := m = m)) by reflexivity.
    destruct (lookup_lt_is_Some_2 ns m Hp) as [r Hr]. rewrite Hr. reflexivity.
  - rewrite decide_False by congruence. reflexivity.
Qed.

Lemma parent_of_set_parent (q : option node) (i : node) (ns : list Node) :
  i < length ns -> parent_of (alter (set_parentNode q) i ns) i = q.
Proof.
  intros Hi. unfold parent_of. rewrite list_lookup_alter_eq.
  destruct (lookup_lt_is_Some_2 ns i Hi) as [r Hr]. rewrite Hr. reflexivity.
Qed.

Lemma rev_names (l : list (string * string)) :
  map fst (rev l) = rev (map fst l).
Proof. apply map_rev. Qed.

(** The tree after a rename. *)
Lemma renamed_store_facts (ns : list Node) (n p : node) (l : string) :
  renamable ns n p ->
  NoDup (map fst (attrs_of ns n)) ->
  ~ In (length ns) (children_of ns p) ->
  let t := length ns in
  let ns' := renamed_store ns n p l in
  node_kind ns' t = Some (Element l) /\
  attrs_of ns' t = rev (attrs_of ns n) /\
  children_of ns' t = children_of ns n /\
  (forall c, In c (children_of ns n) -> parent_of ns' c = Some t) /\
  children_of ns' p = map (fun c => if c =? n then t else c) (children_of ns p) /\
  parent_of ns' t = Some p /\
  parent_of ns' n = None /\
  children_of ns' n = [] /\
  (forall m, m < length ns -> m <> n -> ~ In m (children_of ns n) ->
             parent_of ns' m = parent_of ns m) /\
  (forall m, m < length ns -> m <> n -> m <> p ->
             children_of ns' m = children_of ns m).
Proof.
  intros Hren Hattrs Hfresh. cbv zeta.
  pose proof (renamable_facts _ n p l Hren) as F. cbv zeta in F.
  destruct F as (Hnlt & Hplt & Htn & Htp & Hncs & Hclt & Ft & Fn & Fp & Fpn
                 & Fpt & Fin & Fout & Foth & Fanc).
  unfold renamed_store.
  set (t := length ns) in *. set (cs := children_of ns n) in *.
  set (ns1 := ns ++ [mkNode (Element l) [] None []]) in *.
  set (ns2 := move_all t cs ns1) in *.
  set (fa := fun r : Node => set_attrs _ r).
  set (ns3 := alter fa t ns2).
  assert (Hl2 : length ns2 = S t).
  { unfold ns2. rewrite length_move_all. unfold ns1. rewrite length_app.
    cbn. unfold t. lia. }
  assert (Hl3 : length ns3 = S t) by (unfold ns3; rewrite length_alter; exact Hl2).
  assert (Hp3 : forall m, parent_of ns3 m = parent_of ns2 m).
  { intros m. unfold ns3. apply parent_of_alter_children. intros r. reflexivity. }
  assert (Hc3 : forall m, children_of ns3 m = children_of ns2 m).
  { intros m. unfold ns3. apply children_of_alter_attrs. intros r. reflexivity. }
  set (lp := replace_in n [t] (children_of ns p)).
  set (ns4 := alter (set_childNodes lp) p ns3).
  assert (Hl4 : length ns4 = S t) by (unfold ns4; rewrite length_alter; exact Hl3).
  assert (Hp4 : forall m, parent_of ns4 m = parent_of ns2 m).
  { intros m. unfold ns4. rewrite parent_of_alter_children by (intros r; reflexivity).
    apply Hp3. }
  assert (Hc4 : forall m, children_of ns4 m
                          = if decide (m = p) then lp else children_of ns2 m).
  { intros m. unfold ns4. rewrite children_of_set_children by lia.
    rewrite Hc3. reflexivity. }
  split; [|split; [|split; [|split; [|split; [|split; [|split; [|split; [|split]]]]]]]].
  - unfold ns4, ns3. rewrite !node_kind_alter by (intros r; reflexivity).
    unfold ns2. rewrite node_kind_move_all. unfold ns1, t. apply node_kind_fresh.
  - unfold ns4. rewrite 3!attrs_of_alter_other by (intros r; reflexivity).
    unfold ns3, attrs_of. rewrite list_lookup_alter_eq.
    assert (Ht2 : ns2 !! t = ns1 !! t \/ True) by (right; exact I).
    assert (Ha2 : attrs_of ns2 t = []).
    { unfold ns2. rewrite attrs_of_move_all. unfold ns1, t, attrs_of.
      rewrite lookup_last. reflexivity. }
    unfold attrs_of in Ha2.
    destruct (lookup_lt_is_Some_2 ns2 t) as [r Hr]; [lia|].
    rewrite Hr in *. cbn. unfold fa. cbn. rewrite Ha2.
    apply (set_attrs_append _ []). cbn.
    rewrite rev_names, <- Permutation_rev. exact Hattrs.
  - rewrite !children_of_alter_parent. rewrite Hc4.
    rewrite decide_False by congruence. exact Ft.
  - intros c Hc. destruct (Hclt c Hc) as [Hclt' Hcp].
    rewrite parent_of_alter_parent by (unfold t; lia).
    rewrite parent_of_alter_parent by (intros ->; contradiction).
    rewrite Hp4. apply Fin. exact Hc.
  - rewrite !children_of_alter_parent. rewrite Hc4.
    rewrite (decide_True (P := p = p)) by reflexivity.
    apply replace_in_fresh. exact Hfresh.
  - apply parent_of_set_parent. rewrite length_alter. lia.
  - rewrite parent_of_alter_parent by exact Htn.
    apply parent_of_set_parent. lia.
  - rewrite !children_of_alter_parent. rewrite Hc4.
    rewrite decide_False; [exact Fn|]. destruct Hren as (_ & _ & _ & _ & H & _).
    congruence.
  - intros m Hm Hmn Hmc.
    rewrite parent_of_alter_parent by (unfold t; lia).
    rewrite parent_of_alter_parent by congruence.
    rewrite Hp4. apply Fout; assumption.
  - intros m Hm Hmn Hmp. rewrite !children_of_alter_parent. rewrite Hc4.
    rewrite decide_False by exact Hmp. apply Foth; assumption.
Qed.


(** Assigning a [name] to a [Tag] whose element is a child of an element
    replaces the element by a new one of that name (in lower case): the new
    element gets the children, in order, and the attributes, in reverse
    order; it takes the place of the old one among the children of the
    parent; the old element is left without parent and without children,
    and the handle holds the new one.  The loop over the children ends
    within as many rounds as there are children. *)
Theorem Tag_set_name_replaces_the_element
    (w : world) (h : loc) (o : Tag_object) (n p : node) (s : string)
    (fuel : nat) :
  tags w !! h = Some o -> element o = NRef n ->
  valid_element_local_name s = true ->
  renamable (nodes (the_dom w)) n p ->
  NoDup (map fst (attrs_of (nodes (the_dom w)) n)) ->
  Forall (fun c => c < length (nodes (the_dom w)))
    (children_of (nodes (the_dom w)) p) ->
  length (children_of (nodes (the_dom w)) n) <= fuel ->
  exists w',
    let ns := nodes (the_dom w) in
    let ns' := nodes (the_dom w') in
    let t := fresh (the_dom w) in
    Tag.set_name fuel h (VPrim (PStr s)) w = (Ok true, w') /\
    tags w' !! h = Some (with_stored_name (Some s) (with_element (NRef t) o)) /\
    ns !! t = None /\
    node_kind ns' t = Some (Element (ascii_lowercase s)) /\
    attrs_of ns' t = rev (attrs_of ns n) /\
    children_of ns' t = children_of ns n /\
    (forall c, In c (children_of ns n) -> parent_of ns' c = Some t) /\
    children_of ns' p = map (fun c => if c =? n then t else c) (children_of ns p) /\
    parent_of ns' t = Some p /\
    parent_of ns' n = None /\
    children_of ns' n = [] /\
    (forall m, m < length ns -> m <> n -> ~ In m (children_of ns n) ->
               parent_of ns' m = parent_of ns m) /\
    (forall m, m < length ns -> m <> n -> m <> p ->
               children_of ns' m = children_of ns m).
Proof.
  intros Hh He Hs Hren Hattrs Hbound Hfuel.
  destruct (Tag_set_name_run w h o n p s fuel Hh He Hs Hren Hfuel)
    as (w' & Hrun & Hns & Htag).
  exists w'. cbv zeta. split; [exact Hrun|]. split; [exact Htag|].
  split; [apply lookup_ge_None; unfold fresh; lia|].
  rewrite Hns.
  apply (renamed_store_facts (nodes (the_dom w)) n p (ascii_lowercase s) Hren Hattrs).
  intros Hin. rewrite List.Forall_forall in Hbound. apply Hbound in Hin. lia.
Qed.

Lemma Tag_set_name_replaces_the_element_witness :
  exists w',
    let ns := nodes (the_dom list_tag_world) in
    let ns' := nodes (the_dom w') in
    let t := fresh (the_dom list_tag_world) in
    Tag.set_name 2 0 (VPrim (PStr "OL")) list_tag_world = (Ok true, w') /\
    tags w' !! 0
    = Some (with_stored_name (Some "OL")
              (with_element (NRef t)
                 (mkTag (VPrim (PBool false)) (NRef 4) None (VPrim PUndefined)
                    (OPrim PUndefined)))) /\
    ns !! t = None /\
    node_kind ns' t = Some (Element (ascii_lowercase "OL")) /\
    attrs_of ns' t = rev (attrs_of ns 4) /\
    children_of ns' t = children_of ns 4 /\
    (forall c, In c (children_of ns 4) -> parent_of ns' c = Some t) /\
    children_of ns' 3 = map (fun c => if c =? 4 then t else c) (children_of ns 3) /\
    parent_of ns' t = Some 3 /\
    parent_of ns' 4 = None /\
    children_of ns' 4 = [] /\
    (forall m, m < length ns -> m <> 4 -> ~ In m (children_of ns 4) ->
               parent_of ns' m = parent_of ns m) /\
    (forall m, m < length ns -> m <> 4 -> m <> 3 ->
               children_of ns' m = children_of ns m).
Proof.
  apply (Tag_set_name_replaces_the_element list_tag_world 0
           (mkTag (VPrim (PBool false)) (NRef 4) None (VPrim PUndefined)
              (OPrim PUndefined)) 4 3 "OL" 2).
  - reflexivity.
  - reflexivity.
  - reflexivity.
  - unfold renamable.
    split; [reflexivity|]. split; [reflexivity|]. split; [reflexivity|].
    split; [reflexivity|]. split; [lia|]. split.
    + vm_compute.
      apply NoDup_cons. split; [rewrite list_elem_of_In; cbn; lia|].
      apply NoDup_cons. split; [rewrite list_elem_of_In; cbn; tauto|].
      apply NoDup_nil_2.
    + vm_compute. repeat constructor.
  - vm_compute.
    apply NoDup_cons. split; [rewrite list_elem_of_In; cbn; tauto|].
    apply NoDup_nil_2.
  - vm_compute. repeat constructor.
  - vm_compute. lia.
Defined.


(** Assigning a [name] that the platform refuses as an element name raises
    [InvalidCharacterError] before anything is moved, and assigning a value
    that is not a string is ignored (and reported on the console only when
    [debug] is on): in both cases the tree and the handle are as they
    were. *)
Theorem Tag_set_name_rejects
    (w : world) (h : loc) (o : Tag_object) (n : node) (fuel : nat) :
  tags w !! h = Some o -> element o = NRef n ->
  (forall s : string,
      valid_element_local_name s = false ->
      Tag.set_name fuel h (VPrim (PStr s)) w = (Throw InvalidCharacterError, w))
  /\
  (forall name : jsval,
      (forall s, name <> VPrim (PStr s)) ->
      exists w',
        Tag.set_name fuel h name w = (Ok true, w') /\
        the_dom w' = the_dom w /\ tags w' = tags w /\
        (truthy (debug o) = false -> w' = w) /\
        (truthy (debug o) = true ->
         console w'
         = console w ++ [Warn "Unexpected input: undefined"; Trace])).
Proof.
  intros Hh He. split.
  - intros s Hs. unfold Tag.set_name.
    rewrite (bind_ok _ _ _ _ _ (Tag_fix_keeps w h o n Hh He)).
    apply bind_throw. unfold document_createElement, run_dom, createElement.
    rewrite Hs. rewrite set_dom_the_dom. reflexivity.
  - intros name Hname. unfold Tag.set_name.
    rewrite (bind_ok _ _ _ _ _ (Tag_fix_keeps w h o n Hh He)).
    assert (Huxp :
      exists w',
        (Tag.uxp h ;; ret true) w = (Ok true, w') /\
        the_dom w' = the_dom w /\ tags w' = tags w /\
        (truthy (debug o) = false -> w' = w) /\
        (truthy (debug o) = true ->
         console w'
         = console w ++ [Warn "Unexpected input: undefined"; Trace])).
    { unfold Tag.uxp. repeat (progress (run; rewrite ?Hh)).
      destruct (truthy (debug o)); cbn; eexists;
        (split; [reflexivity|]); cbn.
      - split; [reflexivity|]. split; [reflexivity|].
        split; [discriminate|]. intros _. rewrite <- app_assoc. reflexivity.
      - split; [reflexivity|]. split; [reflexivity|].
        split; [reflexivity|discriminate]. }
    destruct name as [[| | | |s]| | | | |]; try exact Huxp.
    exfalso. exact (Hname s eq_refl).
Qed.

Lemma Tag_set_name_rejects_witness :
  Tag.set_name 0 0 (VPrim (PStr "a b")) list_tag_world
  = (Throw InvalidCharacterError, list_tag_world)
  /\
  exists w',
    Tag.set_name 0 0 (VPrim (PNum 1)) list_tag_world = (Ok true, w') /\
    the_dom w' = the_dom list_tag_world /\ tags w' = tags list_tag_world /\
    (truthy (VPrim (PBool false)) = false -> w' = list_tag_world) /\
    (truthy (VPrim (PBool false)) = true ->
     console w'
     = console list_tag_world ++ [Warn "Unexpected input: undefined"; Trace]).
Proof.
  destruct (Tag_set_name_rejects list_tag_world 0
              (mkTag (VPrim (PBool false)) (NRef 4) None (VPrim PUndefined)
                 (OPrim PUndefined)) 4 0 eq_refl eq_refl) as [I U].
  split.
  - apply I. reflexivity.
  - apply U. intros s. discriminate.
Defined.


Lemma filter_out_all (l : list node) :
  List.filter (fun x => negb (existsb (Nat.eqb x) l)) l = [].
Proof.
  rewrite <- (filter_ext_in (fun x => false)).
  - induction l as [|y l' IH]; cbn; [reflexivity|exact IH].
  - intros x Hx. symmetry. apply negb_false_iff. apply existsb_exists.
    exists x. split; [exact Hx|apply Nat.eqb_refl].
Qed.

Lemma attrs_of_detach (ns : list Node) (n m : node) :
  attrs_of (detach n ns) m = attrs_of ns m.
Proof.
  unfold detach. destruct (parent_of ns n); [|reflexivity].
  rewrite 2!attrs_of_alter_other by (intros r; reflexivity). reflexivity.
Qed.

Lemma renamable_apart_facts (ns : list Node) (n : node) (l : string) :
  renamable_apart ns n ->
  let t := length ns in
  let cs := children_of ns n in
  let ns1 := ns ++ [mkNode (Element l) [] None []] in
  let ns2 := move_all t cs ns1 in
  n < length ns /\ t <> n /\ ~ In n cs /\
  (forall q, parent_of ns n = Some q -> q <> n) /\
  (forall c, In c cs -> c < length ns) /\
  children_of ns2 t = cs /\
  children_of ns2 n = [] /\
  parent_of ns2 t = None /\
  (forall c, In c cs -> parent_of ns2 c = Some t) /\
  (forall m, ~ In m cs -> m < length ns -> parent_of ns2 m = parent_of ns m) /\
  (forall m, m <> n -> m < length ns -> children_of ns2 m = children_of ns m).
Proof.
  intros (Hn & Hpe & Hq & Hnd & Hall). cbv zeta.
  set (t := length ns). set (cs := children_of ns n) in *.
  set (ns1 := ns ++ [mkNode (Element l) [] None []]).
  pose proof (is_element_lt _ _ Hn) as Hnlt.
  rewrite List.Forall_forall in Hall.
  assert (Hqn : forall q, parent_of ns n = Some q -> q <> n).
  { intros q Hp ->. unfold parentElement in Hpe. rewrite Hp, Hn in Hpe.
    discriminate. }
  assert (Hclt : forall c, In c cs -> c < length ns).
  { intros c Hc. destruct (Hall c Hc) as (_ & Hpc).
    apply (parent_of_Some_lt _ _ _ Hpc). }
  assert (Hncs : ~ In n cs).
  { intros Hc. destruct (Hall n Hc) as (_ & Hpc). exact (Hqn n Hpc eq_refl). }
  assert (Hl1 : length ns1 = S (length ns)).
  { unfold ns1. rewrite length_app. cbn. lia. }
  destruct (move_all_spec n t cs ns1) as (At & An & Ain & Aout & Aoth).
  { unfold t. lia. }
  { rewrite Hl1. unfold t. lia. }
  { exact Hnd. }
  { apply List.Forall_forall. intros c Hc. pose proof (Hclt c Hc) as Hlt.
    rewrite Hl1. unfold ns1. rewrite parent_of_app by exact Hlt.
    split; [lia|]. apply Hall. exact Hc. }
  set (ns2 := move_all t cs ns1) in *.
  split; [exact Hnlt|]. split; [unfold t; lia|]. split; [exact Hncs|].
  split; [exact Hqn|]. split; [exact Hclt|]. split.
  { rewrite At. unfold ns1, t, children_of. rewrite lookup_last.
    reflexivity. }
  split.
  { rewrite An. unfold ns1. rewrite children_of_app by exact Hnlt.
    fold cs. apply filter_out_all. }
  split.
  { rewrite Aout.
    - unfold ns1, t. apply parent_of_fresh.
    - intros Hc. apply Hclt in Hc. unfold t in Hc. lia. }
  split; [exact Ain|]. split.
  { intros m Hm Hmlt. rewrite Aout by exact Hm. unfold ns1.
    apply parent_of_app. exact Hmlt. }
  intros m Hmn Hmlt. rewrite Aoth by (unfold t; congruence || lia).
  unfold ns1. apply children_of_app. exact Hmlt.
Qed.

Lemma Tag_set_name_apart_run (w : world) (h : loc) (o : Tag_object) (n : node)
    (s : string) (fuel : nat) :
  tags w !! h = Some o -> element o = NRef n ->
  valid_element_local_name s = true ->
  renamable_apart (nodes (the_dom w)) n ->
  length (children_of (nodes (the_dom w)) n) <= fuel ->
  exists w',
    Tag.set_name fuel h (VPrim (PStr s)) w = (Ok true, w') /\
    nodes (the_dom w') = removed_store (nodes (the_dom w)) n (ascii_lowercase s) /\
    tags w' !! h
    = Some (with_stored_name (Some s)
              (with_element (NRef (fresh (the_dom w))) o)).
Proof.
  intros Hh He Hs Hren Hfuel.
  pose proof (renamable_apart_facts _ n (ascii_lowercase s) Hren) as F.
  cbv zeta in F.
  destruct F as (Hnlt & Htn & Hncs & Hqn & Hclt & Ft & Fn & Fpt & Fin & Fout
                 & Foth).
  destruct Hren as (Hn & Hpe & Hq & Hnd & Hall).
  set (ns := nodes (the_dom w)) in *.
  set (t := length ns) in *.
  set (cs := children_of ns n) in *.
  set (ns1 := ns ++ [mkNode (Element (ascii_lowercase s)) [] None []]) in *.
  set (ns2 := move_all t cs ns1) in *.
  unfold Tag.set_name.
  rewrite (bind_ok _ _ _ _ _ (Tag_fix_keeps w h o n Hh He)).
  erewrite bind_ok;
    [|unfold document_createElement, run_dom;
      rewrite (createElement_valid _ _ Hs); reflexivity].
  erewrite bind_ok;
    [|apply (move_children_spec h o n (fresh (the_dom w)) cs);
      cbn [the_dom set_dom nodes alloc_node set_nodes tags]; fold ns; fold ns1;
      [exact Hh|exact He
      |unfold ns1; rewrite children_of_app by exact Hnlt; reflexivity
      |exact Hfuel|exact Hnd
      |apply is_element_fresh
      |apply parent_of_fresh
      |exact Htn
      |rewrite List.Forall_forall in *; intros c Hc;
       destruct (Hall c Hc) as (Hk & Hpc);
       pose proof (Hclt c Hc) as Hlt;
       split; [apply orb_true_iff; apply orb_true_iff in Hk as [Hk|Hk];
               [left; apply is_element_app; exact Hk
               |right; apply is_text_app; exact Hk]|];
       split; [unfold ns1; rewrite parent_of_app by exact Hlt; exact Hpc|];
       unfold fresh; fold ns; lia]].
  cbn [the_dom set_dom nodes alloc_node set_nodes tags]. fold ns. fold ns1.
  unfold fresh. fold ns. fold t. fold ns2.
  erewrite bind_ok;
    [|apply (copy_attributes_spec _ h o n t);
      cbn [the_dom set_dom nodes alloc_node set_nodes tags];
      [exact Hh|exact He
      |unfold ns2; rewrite is_element_move_all; apply is_element_app; exact Hn
      |unfold ns2; rewrite is_element_move_all; apply is_element_fresh
      |exact Htn]].
  cbn [the_dom set_dom nodes set_nodes tags].
  erewrite bind_ok; [|eapply tag_get_ok; exact Hh]. rewrite He.
  cbn [node_property of_nodeval].
  set (d3 := update_attrs t _ _).
  assert (Hpar3 : forall m, parent_of (nodes d3) m = parent_of ns2 m).
  { intros m. unfold d3. apply parent_of_update_attrs. }
  assert (Hkind3 : forall m, m < length ns ->
                             node_kind (nodes d3) m = node_kind ns m).
  { intros m Hm. unfold d3. rewrite node_kind_update_attrs.
    cbn [nodes set_nodes]. unfold ns2. rewrite node_kind_move_all.
    unfold ns1, node_kind. rewrite lookup_app_l by exact Hm. reflexivity. }
  assert (Hpe3 : parentElement (nodes d3) n = None).
  { unfold parentElement in *. rewrite Hpar3, Fout by assumption.
    destruct (parent_of ns n) as [q|] eqn:Eq; [|reflexivity].
    unfold is_element in *. rewrite (Hkind3 q (Hq q eq_refl)). exact Hpe. }
  erewrite bind_ok;
    [|unfold read_dom; cbn [the_dom set_dom]; rewrite Hpe3; reflexivity].
  assert (Hkn : exists l0, node_kind (nodes d3) n = Some (Element l0)).
  { rewrite (Hkind3 n Hnlt). unfold is_element in Hn.
    destruct (node_kind ns n) as [[| | |]|]; try discriminate.
    eexists. reflexivity. }
  destruct Hkn as [l0 Hkn].
  unfold read_dom, run_dom, bind, ret, tag_set. cbn [the_dom set_dom].
  rewrite Hkn. cbn.
  eexists. split; [reflexivity|]. cbn. split.
  - unfold removed_store, d3, update_attrs. cbn [nodes set_nodes].
    fold ns. fold t. fold cs. fold ns1. fold ns2.
    assert (Hattr : attrs_of ns2 n = attrs_of ns n).
    { unfold ns2. rewrite attrs_of_move_all. unfold ns1.
      apply attrs_of_app. exact Hnlt. }
    rewrite Hattr. reflexivity.
  - rewrite list_alter_alter_eq. rewrite (lookup_alter_Some _ _ _ _ Hh).
    reflexivity.
Qed.

Lemma removed_store_facts (ns : list Node) (n : node) (l : string) :
  renamable_apart ns n ->
  NoDup (map fst (attrs_of ns n)) ->
  let t := length ns in
  let ns' := removed_store ns n l in
  node_kind ns' t = Some (Element l) /\
  attrs_of ns' t = rev (attrs_of ns n) /\
  children_of ns' t = children_of ns n /\
  (forall c, In c (children_of ns n) -> parent_of ns' c = Some t) /\
  parent_of ns' t = None /\
  parent_of ns' n = None /\
  children_of ns' n = [] /\
  (forall q, parent_of ns n = Some q ->
             children_of ns' q
             = List.filter (fun c => negb (c =? n)) (children_of ns q)) /\
  (forall m, m < length ns -> m <> n -> ~ In m (children_of ns n) ->
             parent_of ns' m = parent_of ns m) /\
  (forall m, m < length ns -> m <> n -> parent_of ns n <> Some m ->
             children_of ns' m = children_of ns m).
Proof.
  intros Hren Hattrs. cbv zeta.
  pose proof (renamable_apart_facts _ n l Hren) as F. cbv zeta in F.
  destruct F as (Hnlt & Htn & Hncs & Hqn & Hclt & Ft & Fn & Fpt & Fin & Fout
                 & Foth).
  destruct Hren as (Hn & Hpe & Hq & Hnd & Hall).
  unfold removed_store.
  set (t := length ns) in *. set (cs := children_of ns n) in *.
  set (ns1 := ns ++ [mkNode (Element l) [] None []]) in *.
  set (ns2 := move_all t cs ns1) in *.
  set (fa := fun r : Node => set_attrs _ r).
  set (ns3 := alter fa t ns2).
  assert (Hl2 : length ns2 = S t).
  { unfold ns2. rewrite length_move_all. unfold ns1. rewrite length_app.
    cbn. unfold t. lia. }
  assert (Hp3 : forall m, parent_of ns3 m = parent_of ns2 m).
  { intros m. unfold ns3. apply parent_of_alter_children. intros r. reflexivity. }
  assert (Hc3 : forall m, children_of ns3 m = children_of ns2 m).
  { intros m. unfold ns3. apply children_of_alter_attrs. intros r. reflexivity. }
  assert (Hpn3 : parent_of ns3 n = parent_of ns n).
  { rewrite Hp3. apply Fout; assumption. }
  split; [|split; [|split; [|split; [|split; [|split; [|split; [|split; [|split]]]]]]]].
  - rewrite node_kind_detach. unfold ns3.
    rewrite node_kind_alter by (intros r; reflexivity).
    unfold ns2. rewrite node_kind_move_all. unfold ns1, t. apply node_kind_fresh.
  - rewrite attrs_of_detach.
    unfold ns3, attrs_of. rewrite list_lookup_alter_eq.
    assert (Ha2 : attrs_of ns2 t = []).
    { unfold ns2. rewrite attrs_of_move_all. unfold ns1, t, attrs_of.
      rewrite lookup_last. reflexivity. }
    unfold attrs_of in Ha2.
    destruct (lookup_lt_is_Some_2 ns2 t) as [r Hr]; [lia|].
    rewrite Hr in *. cbn. unfold fa. cbn. rewrite Ha2.
    apply (set_attrs_append _ []). cbn.
    rewrite rev_names, <- Permutation_rev. exact Hattrs.
  - rewrite children_of_detach. rewrite Hpn3.
    destruct (decide (parent_of ns n = Some t)) as [E|E].
    + apply Hq in E. unfold t in E. lia.
    + rewrite Hc3. exact Ft.
  - intros c Hc.
    rewrite parent_of_detach_other by (intros ->; contradiction).
    rewrite Hp3. apply Fin. exact Hc.
  - rewrite parent_of_detach_other by exact Htn. rewrite Hp3. exact Fpt.
  - apply parent_of_detach.
  - rewrite children_of_detach. rewrite Hc3, Fn.
    destruct (decide (parent_of ns3 n = Some n)); reflexivity.
  - intros q Hpq. rewrite children_of_detach. rewrite Hpn3.
    rewrite decide_True by exact Hpq. rewrite Hc3.
    rewrite Foth; [reflexivity|apply Hqn; exact Hpq|apply Hq; exact Hpq].
  - intros m Hm Hmn Hmc. rewrite parent_of_detach_other by exact Hmn.
    rewrite Hp3. apply Fout; assumption.
  - intros m Hm Hmn Hmp. rewrite children_of_detach. rewrite Hpn3.
    rewrite decide_False by exact Hmp. rewrite Hc3. apply Foth; assumption.
Qed.

(** Assigning a [name] to a [Tag] whose element has no parent element (a new
    element, or a child of a node that is no element) hands the children, in
    order, and the attributes, in reverse order, to a new element of that
    name in lower case, which the handle then holds; the old element is
    removed from its parent and nothing takes its place: the new element has
    no parent. *)
Theorem Tag_set_name_without_parent_element
    (w : world) (h : loc) (o : Tag_object) (n : node) (s : string)
    (fuel : nat) :
  tags w !! h = Some o -> element o = NRef n ->
  valid_element_local_name s = true ->
  renamable_apart (nodes (the_dom w)) n ->
  NoDup (map fst (attrs_of (nodes (the_dom w)) n)) ->
  length (children_of (nodes (the_dom w)) n) <= fuel ->
  exists w',
    let ns := nodes (the_dom w) in
    let ns' := nodes (the_dom w') in
    let t := fresh (the_dom w) in
    Tag.set_name fuel h (VPrim (PStr s)) w = (Ok true, w') /\
    tags w' !! h = Some (with_stored_name (Some s) (with_element (NRef t) o)) /\
    ns !! t = None /\
    node_kind ns' t = Some (Element (ascii_lowercase s)) /\
    attrs_of ns' t = rev (attrs_of ns n) /\
    children_of ns' t = children_of ns n /\
    (forall c, In c (children_of ns n) -> parent_of ns' c = Some t) /\
    parent_of ns' t = None /\
    parent_of ns' n = None /\
    children_of ns' n = [] /\
    (forall q, parent_of ns n = Some q ->
               children_of ns' q
               = List.filter (fun c => negb (c =? n)) (children_of ns q)) /\
    (forall m, m < length ns -> m <> n -> ~ In m (children_of ns n) ->
               parent_of ns' m = parent_of ns m) /\
    (forall m, m < length ns -> m <> n -> parent_of ns n <> Some m ->
               children_of ns' m = children_of ns m).
Proof.
  intros Hh He Hs Hren Hattrs Hfuel.
  destruct (Tag_set_name_apart_run w h o n s fuel Hh He Hs Hren Hfuel)
    as (w' & Hrun & Hns & Htag).
  exists w'. cbv zeta. split; [exact Hrun|]. split; [exact Htag|].
  split; [apply lookup_ge_None; unfold fresh; lia|].
  rewrite Hns.
  apply (removed_store_facts (nodes (the_dom w)) n (ascii_lowercase s) Hren Hattrs).
Qed.

Lemma Tag_set_name_without_parent_element_witness :
  exists w',
    let ns := nodes (the_dom root_tag_world) in
    let ns' := nodes (the_dom w') in
    let t := fresh (the_dom root_tag_world) in
    Tag.set_name 2 0 (VPrim (PStr "MAIN")) root_tag_world = (Ok true, w') /\
    tags w' !! 0
    = Some (with_stored_name (Some "MAIN")
              (with_element (NRef t)
                 (mkTag (VPrim (PBool false)) (NRef 1) None (VPrim PUndefined)
                    (OPrim PUndefined)))) /\
    ns !! t = None /\
    node_kind ns' t = Some (Element (ascii_lowercase "MAIN")) /\
    attrs_of ns' t = rev (attrs_of ns 1) /\
    children_of ns' t = children_of ns 1 /\
    (forall c, In c (children_of ns 1) -> parent_of ns' c = Some t) /\
    parent_of ns' t = None /\
    parent_of ns' 1 = None /\
    children_of ns' 1 = [] /\
    (forall q, parent_of ns 1 = Some q ->
               children_of ns' q
               = List.filter (fun c => negb (c =? 1)) (children_of ns q)) /\
    (forall m, m < length ns -> m <> 1 -> ~ In m (children_of ns 1) ->
               parent_of ns' m = parent_of ns m) /\
    (forall m, m < length ns -> m <> 1 -> parent_of ns 1 <> Some m ->
               children_of ns' m = children_of ns m).
Proof.
  apply (Tag_set_name_without_parent_element root_tag_world 0
           (mkTag (VPrim (PBool false)) (NRef 1) None (VPrim PUndefined)
              (OPrim PUndefined)) 1 "MAIN" 2).
  - reflexivity.
  - reflexivity.
  - reflexivity.
  - unfold renamable_apart.
    split; [reflexivity|]. split; [reflexivity|]. split.
    + vm_compute. intros q Hq. injection Hq as <-. lia.
    + split.
      * vm_compute.
        apply NoDup_cons. split; [rewrite list_elem_of_In; cbn; lia|].
        apply NoDup_cons. split; [rewrite list_elem_of_In; cbn; tauto|].
        apply NoDup_nil_2.
      * vm_compute. repeat constructor.
  - vm_compute. apply NoDup_nil_2.
  - vm_compute. lia.
Defined.


(** ** Reading back the attributes of a [Tag] *)

Lemma In_names_set_attr_inv (k v x : string) (l : list (string * string)) :
  In x (map fst (set_attr k v l)) -> x = k \/ In x (map fst l).
Proof.
  induction l as [|[k0 v0] l IH]; cbn.
  - intros [H|[]]. left. symmetry. exact H.
  - destruct (String.eqb_spec k0 k) as [->|Hne]; cbn; [tauto|].
    intros [H|H]; [tauto|]. apply IH in H. tauto.
Qed.

Lemma NoDup_set_attr (k v : string) (l : list (string * string)) :
  NoDup (map fst l) -> NoDup (map fst (set_attr k v l)).
Proof.
  induction l as [|[k0 v0] l IH]; cbn; intros H.
  - apply NoDup_cons. split; [apply not_elem_of_nil|apply NoDup_nil_2].
  - apply NoDup_cons in H as [Hk Hl].
    destruct (String.eqb_spec k0 k) as [->|Hne]; cbn.
    + apply NoDup_cons. split; assumption.
    + apply NoDup_cons. split; [|apply IH; exact Hl].
      rewrite list_elem_of_In in *. intros Hin.
      apply In_names_set_attr_inv in Hin as [->|Hin]; [congruence|tauto].
Qed.

Lemma NoDup_write_attrs (entries : object) :
  forall l : list (string * string),
    NoDup (map fst l) -> NoDup (map fst (write_attrs entries l)).
Proof.
  induction entries as [|kv entries IH]; intros l H; [exact H|].
  rewrite write_attrs_cons. apply IH. apply NoDup_set_attr. exact H.
Qed.

Lemma NoDup_removals (given entries : object) :
  forall l : list (string * string),
    NoDup (map fst l) -> NoDup (map fst (removals given entries l)).
Proof.
  unfold removals. induction entries as [|kv entries IH]; intros l H;
    [exact H|].
  cbn. apply IH. destruct (truthy_property (fst kv) given); [exact H|].
  apply NoDup_remove_attr. exact H.
Qed.

Lemma own_property_fold_snapshot (k : string) (l : list (string * string)) :
  forall init : object,
    own_property "__proto__" init = None ->
    NoDup (map fst l) ->
    own_property k
      (fold_left (fun acc a => set_property (fst a) (PStr (snd a)) acc) l init)
    = if String.eqb k "__proto__" then None
      else match get_attr k l with
           | Some v => Some (PStr v)
           | None => own_property k init
           end.
Proof.
  induction l as [|[k0 v0] l IH]; intros init Hinit H.
  - cbn. destruct (String.eqb_spec k "__proto__") as [->|_];
      [exact Hinit|reflexivity].
  - cbn in H. apply NoDup_cons in H as [Hk Hl]. cbn [fold_left fst snd].
    destruct (tag_snapshot_step k (k0, v0) init Hinit) as [Hnext _].
    cbn [fst snd] in Hnext. rewrite (IH _ Hnext Hl). cbn [get_attr fst snd] in *.
    destruct (String.eqb_spec k "__proto__") as [Ek|Ek]; [reflexivity|].
    destruct (String.eqb_spec k0 k) as [->|Hne].
    + rewrite get_attr_absent by (rewrite <- list_elem_of_In; exact Hk).
      apply own_property_set_eq. exact Ek.
    + destruct (get_attr k l); [reflexivity|].
      apply own_property_set_ne. exact Hne.
Qed.

Lemma own_property_tag_snapshot (k : string) (l : list (string * string)) :
  NoDup (map fst l) ->
  own_property k (tag_snapshot l)
  = if String.eqb k "__proto__" then None
    else match get_attr k l with Some v => Some (PStr v) | None => None end.
Proof.
  intros H. unfold tag_snapshot.
  rewrite own_property_fold_snapshot by (reflexivity || exact H).
  reflexivity.
Qed.

(** The world the [attributes] setter of [Tag] leaves: the snapshot it read
    is the only new object, and the handle keeps its element. *)
Lemma Tag_set_attributes_world (w : world) (h : loc) (o : Tag_object)
    (n : node) (m : loc) (props : list (string * prim)) :
  tags w !! h = Some o -> element o = NRef n ->
  is_element (nodes (the_dom w)) n = true ->
  objects w !! m = Some props ->
  Forall (fun kv => valid_attribute_local_name (fst kv) = true) props ->
  global_item w = true \/ attrs_of (nodes (the_dom w)) n = [] ->
  exists w',
    Tag.set_attributes h (ORef m) w = (Ok tt, w') /\
    attrs_of (nodes (the_dom w')) n
    = write_attrs props
        (removals props (tag_snapshot (attrs_of (nodes (the_dom w)) n))
           (attrs_of (nodes (the_dom w)) n)) /\
    is_element (nodes (the_dom w')) n = true /\
    tags w' !! h = Some (with_stored_attributes (ORef m) o) /\
    objects w'
    = objects w ++ [tag_snapshot (attrs_of (nodes (the_dom w)) n)] /\
    global_item w' = global_item w.
Proof.
  intros Hh He Hel Hm Hv Hitem. unfold Tag.set_attributes.
  rewrite (bind_ok _ _ _ _ _ (Tag_fix_keeps _ _ _ _ Hh He)).
  rewrite (bind_ok _ _ _ _ _ (Tag_get_attributes_spec _ _ _ _ Hh He Hel Hitem)).
  cbn [Object_entries].
  set (snap := tag_snapshot (attrs_of (nodes (the_dom w)) n)).
  set (w1 := set_objects (objects w ++ [snap]) w).
  assert (Hm1 : objects w1 !! m = Some props)
    by (subst w1; cbn; apply lookup_app_l_Some; exact Hm).
  rewrite (bind_ok _ _ w1 w1 snap)
    by (apply read_object_ok; subst w1; cbn; apply lookup_last).
  rewrite (bind_ok _ _ _ _ _
             (removeAttribute_loop h o n m props snap w1 Hh He Hm1 Hel)).
  set (w2 := set_dom _ w1).
  rewrite (bind_ok _ _ w2 w2 props) by (apply read_object_ok; exact Hm1).
  assert (Hel2 : is_element (nodes (the_dom w2)) n = true).
  { subst w2. cbn [the_dom set_dom]. rewrite is_element_update_attrs. exact Hel. }
  rewrite (bind_ok _ _ w2 _ tt
             (setAttribute_loop (tag_get h element)
                (fun w' => tags w' !! h = Some o) n props w2
                ltac:(intros w0 H0; rewrite (tag_get_ok _ _ _ _ H0), He; reflexivity)
                ltac:(intros w0 d H0; exact H0) Hh Hel2 Hv)).
  eexists. split; [reflexivity|]. cbn [the_dom set_dom tag_set tags set_tags].
  split; [|split; [|split; [|split]]].
  - subst w2. cbn [the_dom set_dom]. rewrite update_attrs_update_attrs.
    rewrite attrs_of_update_attrs by (apply is_element_lt; exact Hel).
    reflexivity.
  - rewrite is_element_update_attrs. exact Hel2.
  - cbn. rewrite (lookup_alter_Some _ _ _ _ Hh). reflexivity.
  - reflexivity.
  - reflexivity.
Qed.

(** Reading the [attributes] of a [Tag] after assigning them, with [item]
    declared in the global scope, gives a new object, not the mapping
    assigned: it has, under each key of the mapping in lower case, the value
    of the last such entry as a string (a string entry as it is; numbers are
    taken among the safe integers); beside these it has only attributes the
    element had before under a name every object inherits; and it never has
    the key [__proto__], which the assignment of the getter does not store.
    The mapping itself is left as it was. *)
Theorem Tag_attributes_read_back
    (w : world) (h : loc) (o : Tag_object) (n : node) (m : loc)
    (props : list (string * prim)) :
  tags w !! h = Some o -> element o = NRef n ->
  is_element (nodes (the_dom w)) n = true ->
  objects w !! m = Some props ->
  Forall (fun kv => valid_attribute_local_name (fst kv) = true) props ->
  Forall (fun kv => safe_value (snd kv) = true) props ->
  attrs_ok (attrs_of (nodes (the_dom w)) n) ->
  global_item w = true ->
  exists (w1 w2 : world) (r : loc) (back : object),
    Tag.set_attributes h (ORef m) w = (Ok tt, w1) /\
    Tag.get_attributes h w1 = (Ok r, w2) /\
    objects w !! r = None /\
    objects w2 !! r = Some back /\
    objects w2 !! m = Some props /\
    the_dom w2 = the_dom w1 /\
    back
    = tag_snapshot
        (write_attrs props
           (removals props (tag_snapshot (attrs_of (nodes (the_dom w)) n))
              (attrs_of (nodes (the_dom w)) n))) /\
    (forall name : string,
        own_property name back
        = if String.eqb name "__proto__" then None
          else
            match written name props with
            | Some v => Some (PStr v)
            | None =>
                if existsb (String.eqb name) object_prototype_keys
                then match get_attr name (attrs_of (nodes (the_dom w)) n) with
                     | Some v => Some (PStr v)
                     | None => None
                     end
                else None
            end) /\
    (NoDup (map (fun kv => ascii_lowercase (fst kv)) props) ->
     forall (k s : string),
       In (k, PStr s) props -> ascii_lowercase k <> "__proto__" ->
       own_property (ascii_lowercase k) back = Some (PStr s)).
Proof.
  intros Hh He Hel Hm Hv _ Hok Hitem.
  destruct (Tag_set_attributes_world w h o n m props Hh He Hel Hm Hv
              (or_introl Hitem))
    as (w1 & Hrun & Hattrs & Hel1 & Htag1 & Hobj1 & Hitem1).
  set (l := attrs_of (nodes (the_dom w)) n) in *.
  pose proof (Tag_get_attributes_spec w1 h (with_stored_attributes (ORef m) o) n
                Htag1 He Hel1 (or_introl (eq_trans Hitem1 Hitem))) as Hget.
  exists w1,
    (set_objects
       (objects w1 ++ [tag_snapshot (attrs_of (nodes (the_dom w1)) n)]) w1),
    (length (objects w1)), (tag_snapshot (attrs_of (nodes (the_dom w1)) n)).
  split; [exact Hrun|]. split; [exact Hget|].
  split; [apply lookup_ge_None; rewrite Hobj1, length_app; cbn; lia|].
  split; [cbn; apply lookup_last|].
  split.
  { cbn. rewrite Hobj1. apply lookup_app_l_Some. apply lookup_app_l_Some.
    exact Hm. }
  split; [reflexivity|].
  split; [rewrite Hattrs; reflexivity|].
  assert (Hback : forall name : string,
             own_property name (tag_snapshot (attrs_of (nodes (the_dom w1)) n))
             = if String.eqb name "__proto__" then None
               else
                 match written name props with
                 | Some v => Some (PStr v)
                 | None =>
                     if existsb (String.eqb name) object_prototype_keys
                     then match get_attr name l with
                          | Some v => Some (PStr v)
                          | None => None
                          end
                     else None
                 end).
  { intros name. rewrite own_property_tag_snapshot.
    2:{ rewrite Hattrs. apply NoDup_write_attrs. apply NoDup_removals.
        exact (proj1 Hok). }
    rewrite Hattrs, (get_attr_replaced props l name Hok).
    destruct (String.eqb name "__proto__"); [reflexivity|].
    destruct (written name props); [reflexivity|].
    destruct (existsb (String.eqb name) object_prototype_keys); reflexivity. }
  split; [exact Hback|].
  intros Hnd k s Hin Hproto. rewrite Hback, (written_present _ _ _ Hnd Hin).
  destruct (String.eqb_spec (ascii_lowercase k) "__proto__");
    [contradiction|reflexivity].
Qed.

Lemma Tag_attributes_read_back_witness :
  exists (w1 w2 : world) (r : loc) (back : object),
    Tag.set_attributes 0 (ORef 0) (classed_world true) = (Ok tt, w1) /\
    Tag.get_attributes 0 w1 = (Ok r, w2) /\
    objects (classed_world true) !! r = None /\
    objects w2 !! r = Some back /\
    objects w2 !! 0 = Some [("id", PStr "a")] /\
    the_dom w2 = the_dom w1 /\
    back = [("id", PStr "a")] /\
    (forall name : string,
        own_property name back
        = if String.eqb name "__proto__" then None
          else
            match written name [("id", PStr "a")] with
            | Some v => Some (PStr v)
            | None =>
                if existsb (String.eqb name) object_prototype_keys
                then match get_attr name [("class", "x")] with
                     | Some v => Some (PStr v)
                     | None => None
                     end
                else None
            end) /\
    own_property "id" back = Some (PStr "a").
Proof.
  destruct (Tag_attributes_read_back (classed_world true) 0
              (mkTag (VPrim (PBool false)) (NRef 4) None (VPrim PUndefined)
                 (OPrim PUndefined)) 4 0 [("id", PStr "a")])
    as (w1 & w2 & r & back & H1 & H2 & H3 & H4 & H5 & H6 & H7 & H8 & H9).
  - reflexivity.
  - reflexivity.
  - reflexivity.
  - reflexivity.
  - repeat constructor.
  - repeat constructor.
  - vm_compute. split.
    + apply NoDup_cons. split; [apply not_elem_of_nil|apply NoDup_nil_2].
    + repeat constructor.
  - reflexivity.
  - exists w1, w2, r, back.
    split; [exact H1|]. split; [exact H2|]. split; [exact H3|].
    split; [exact H4|]. split; [exact H5|]. split; [exact H6|].
    split; [exact H7|]. split; [exact H8|].
    apply (H9 ltac:(apply NoDup_cons; split;
                    [apply not_elem_of_nil|apply NoDup_nil_2]) "id" "a").
    + left. reflexivity.
    + discriminate.
Defined.

(** ** The identifier [item] *)


(** Unless the global scope declares [item], a [Tag] whose element has an
    attribute can neither read its [attributes] nor be assigned a mapping:
    both raise [ReferenceError], and the element and the handle are as they
    were. *)
Theorem Tag_attributes_need_a_global_item
    (w : world) (h : loc) (o : Tag_object) (n : node) :
  tags w !! h = Some o -> element o = NRef n ->
  is_element (nodes (the_dom w)) n = true ->
  attrs_of (nodes (the_dom w)) n <> [] ->
  global_item w = false ->
  (exists w',
      Tag.get_attributes h w = (Throw ReferenceError, w') /\
      the_dom w' = the_dom w /\ tags w' = tags w /\ console w' = console w) /\
  (forall m : loc,
      exists w',
        Tag.set_attributes h (ORef m) w = (Throw ReferenceError, w') /\
        the_dom w' = the_dom w /\ tags w' = tags w /\ console w' = console w).
Proof.
  intros Hh He Hel Hne Hitem.
  pose proof (Tag_get_attributes_undeclared w h o n Hh He Hel Hne Hitem) as Hget.
  split.
  - eexists. split; [exact Hget|]. repeat split.
  - intros m. unfold Tag.set_attributes.
    rewrite (bind_ok _ _ _ _ _ (Tag_fix_keeps _ _ _ _ Hh He)).
    rewrite (bind_throw _ _ _ _ _ Hget).
    eexists. split; [reflexivity|]. repeat split.
Qed.

Lemma Tag_attributes_need_a_global_item_witness :
  (exists w',
      Tag.get_attributes 0 (classed_world false) = (Throw ReferenceError, w') /\
      the_dom w' = the_dom (classed_world false) /\
      tags w' = tags (classed_world false) /\
      console w' = console (classed_world false)) /\
  (forall m : loc,
      exists w',
        Tag.set_attributes 0 (ORef m) (classed_world false)
        = (Throw ReferenceError, w') /\
        the_dom w' = the_dom (classed_world false) /\
        tags w' = tags (classed_world false) /\
        console w' = console (classed_world false)).
Proof.
  apply (Tag_attributes_need_a_global_item (classed_world false) 0
           (mkTag (VPrim (PBool false)) (NRef 4) None (VPrim PUndefined)
              (OPrim PUndefined)) 4).
  - reflexivity.
  - reflexivity.
  - reflexivity.
  - vm_compute. discriminate.
  - reflexivity.
Defined.
